(** * Error-correcting codes over GF(2^m): the field engine, polynomial
      algebra and the Hamming / BCH / Reed-Solomon codecs

    Shallow embedding of
      - include/ecc/galois_field.hpp   (GaloisField, GFPolynomial, galois_utils)
      - src/galois_field.cpp           (is_primitive_polynomial,
                                        minimal_polynomial)
      - include/ecc/hamming_code.hpp   (HammingCode)
      - include/ecc/bch_code.hpp       (BCHCode, as a model: the class does
                                        not compile as written)
      - include/ecc/reed_solomon.hpp   (ReedSolomonCode)

    Conventions.  [Element] and [Symbol] are [uint32_t]: values are integers
    in [0, 2^32) and arithmetic on them wraps modulo 2^32.  [size_t] is the
    64-bit unsigned type of the LP64 / LLP64 targets: arithmetic in which a
    [size_t] operand takes part wraps modulo 2^64.  A [std::array] member that
    the constructor does not initialise holds indeterminate values: a table is
    a list of optional cells, [None] being a cell that was never written.
    Reading such a cell, indexing outside an array or a vector, the
    [std::invalid_argument] thrown by the field and the [std::length_error]
    of a vector resized beyond [max_size()] are the four ways a computation
    can stop; they are the exceptions of the monad [result].  The first two
    are undefined behaviour in C++, which no [catch] intercepts. *)

From Stdlib Require Import ZArith Lia Bool List Sorted.
From stdpp Require Import base tactics option list list_numbers gmap.

Local Open Scope Z_scope.

(** ** Machine integers *)

Definition uint32 (z : Z) : Z := z mod 2 ^ 32.
Definition size_t (z : Z) : Z := z mod 2 ^ 64.

(** ** Exceptions *)

Inductive exn : Type :=
| invalid_argument      (* std::invalid_argument: division by / inverse of zero *)
| out_of_bounds         (* an array or vector indexed outside its extent *)
| indeterminate         (* a cell read before anything was stored in it *)
| length_error.         (* std::length_error: a vector resized beyond max_size() *)

Inductive result (A : Type) : Type :=
| Ok (a : A)
| Throw (e : exn).
Arguments Ok {A} a.
Arguments Throw {A} e.

Definition bind {A B : Type} (k : A → result B) (c : result A) : result B :=
  match c with
  | Ok a => k a
  | Throw e => Throw e
  end.

#[global] Instance result_bind : MBind result := @bind.
#[global] Instance result_ret : MRet result := @Ok.

(** [for (size_t i = lo; i < hi; ++i) body] threading the loop state. *)
Fixpoint for_loop {S : Type} (n : nat) (i : Z) (body : Z → S → result S) (s : S)
  : result S :=
  match n with
  | O => Ok s
  | Datatypes.S n' => s' ← body i s; for_loop n' (i + 1) body s'
  end.

Definition for_range {S : Type} (lo hi : Z) (body : Z → S → result S) (s : S)
  : result S :=
  for_loop (Z.to_nat (hi - lo)) lo body s.

(** ** Arrays with cells that may never have been written *)

Abbreviation cells := (list (option Z)).

Definition array_new (size : Z) : cells := replicate (Z.to_nat size) None.

Definition array_get (a : cells) (i : Z) : result Z :=
  if i <? 0 then Throw out_of_bounds
  else match a !! Z.to_nat i with
       | None => Throw out_of_bounds
       | Some None => Throw indeterminate
       | Some (Some v) => Ok v
       end.

Definition array_set (a : cells) (i : Z) (v : Z) : result cells :=
  if (0 <=? i) && (i <? Z.of_nat (length a))
  then Ok (<[Z.to_nat i := Some v]> a)
  else Throw out_of_bounds.

(** ** GaloisField<m> (galois_field.hpp) *)

Module GF.

(** [static constexpr size_t field_size = 1u << m;] *)
Definition field_size (m : Z) : Z := size_t (uint32 (Z.shiftl 1 m)).

(** [static constexpr size_t primitive_element = 2;] *)
Definition primitive_element : Z := 2.

Record GaloisField : Type := mkGaloisField {
  gf_m : Z;
  exp_table : cells;
  log_table : cells;
  primitive_poly : Z
}.

(** One turn of the first loop of [build_tables]:
    [value <<= 1; if (value & field_size) value ^= primitive_poly;] *)
Definition shift_reduce (m poly value : Z) : Z :=
  let value := uint32 (Z.shiftl value 1) in
  if Z.land value (field_size m) =? 0 then value else Z.lxor value poly.

Definition build_exp_table (m poly : Z) : result (cells * Z) :=
  e ← array_set (array_new (field_size m)) 0 1;
  for_range 1 (field_size m)
    (fun i '(e, value) =>
       let value := shift_reduce m poly value in
       e ← array_set e (i mod (field_size m - 1)) value;
       Ok (e, value))
    (e, 1).

Definition build_log_table (m : Z) (e : cells) : result cells :=
  l ← array_set (array_new (field_size m)) 0 0;
  for_range 0 (field_size m - 1)
    (fun i l => v ← array_get e i; array_set l v i)
    l.

Definition build_tables (m poly : Z) : result (cells * cells) :=
  '(e, _) ← build_exp_table m poly;
  l ← build_log_table m e;
  Ok (e, l).

(** [explicit GaloisField(Element prim_poly)]: stores the polynomial and builds
    the tables; the constructor has no other statement. *)
Definition make (m poly : Z) : result GaloisField :=
  '(e, l) ← build_tables m poly;
  Ok (mkGaloisField m e l poly).

Section Operations.
Variable F : GaloisField.

Let fs : Z := field_size (gf_m F).

Definition add (a b : Z) : Z := Z.lxor a b.

  (** The table indices the operations compute: the locals [log_sum],
      [log_diff], [log_result] and [inv_log].  The two table entries are
      [uint32_t]; [field_size] and [exponent] are [size_t]. *)
Definition log_sum (la lb : Z) : Z :=
    size_t (uint32 (la + lb)) mod (fs - 1).
Definition log_diff (la lb : Z) : Z :=
    size_t (size_t (uint32 (la - lb) + fs) - 1) mod (fs - 1).
Definition log_result (lb exponent : Z) : Z :=
    size_t (lb * exponent) mod (fs - 1).
Definition inv_log (la : Z) : Z :=
    size_t (fs - 1 - la) mod (fs - 1).

Definition multiply (a b : Z) : result Z :=
    if (a =? 0) || (b =? 0) then Ok 0
    else
      la ← array_get (log_table F) a;
      lb ← array_get (log_table F) b;
      array_get (exp_table F) (log_sum la lb).

Definition divide (a b : Z) : result Z :=
    if b =? 0 then Throw invalid_argument
    else if a =? 0 then Ok 0
    else
      la ← array_get (log_table F) a;
      lb ← array_get (log_table F) b;
      array_get (exp_table F) (log_diff la lb).

Definition power (base exponent : Z) : result Z :=
    if base =? 0 then Ok (if exponent =? 0 then 1 else 0)
    else
      lb ← array_get (log_table F) base;
      array_get (exp_table F) (log_result lb exponent).

Definition inverse (a : Z) : result Z :=
    if a =? 0 then Throw invalid_argument
    else
      la ← array_get (log_table F) a;
      array_get (exp_table F) (inv_log la).

Definition get_primitive : Z := primitive_element.

  (** [is_primitive]: the loop returns from inside its body, so the loop state
      carries the early result. *)
Definition is_primitive (alpha : Z) : result bool :=
    if alpha <=? 1 then Ok false
    else
      '(current, early) ←
        for_range 1 (fs - 1)
          (fun _ '(current, early) =>
             match early with
             | Some _ => Ok (current, early)
             | None =>
                 if current =? 1 then Ok (current, Some false)
                 else c ← multiply current alpha; Ok (c, None)
             end)
          (alpha, None);
      match early with
      | Some b => Ok b
      | None => Ok (current =? 1)
      end.
End Operations.

End GF.

(** ** namespace galois_utils (galois_field.hpp, galois_field.cpp) *)

Module galois_utils.

(** [get_default_primitive<m>()] *)
Definition get_default_primitive (m : Z) : Z :=
  if m =? 3 then 0x0B
  else if m =? 4 then 0x13
  else if m =? 5 then 0x25
  else if m =? 6 then 0x43
  else if m =? 7 then 0x89
  else if m =? 8 then 0x11D
  else if m =? 10 then 0x409
  else if m =? 12 then 0x1053
  else Z.lor (uint32 (Z.shiftl 1 m)) 3.

(** [is_primitive_polynomial<m>(poly)]: builds the field and asks whether its
    primitive element is primitive; [catch (...)] turns a thrown exception
    into [false]. *)
Definition is_primitive_polynomial (m poly : Z) : result bool :=
  match F ← GF.make m poly; GF.is_primitive F (GF.get_primitive) with
  | Throw invalid_argument | Throw length_error => Ok false
  | r => r
  end.

End galois_utils.

(** ** The powers of the primitive element

    [exp_seq m poly i] is the value of the loop variable [value] of
    [build_tables] after [i] turns: the i-th power of alpha = 2.  A polynomial
    is primitive of degree [m] when its bit [m] is its highest bit and alpha
    has multiplicative order exactly 2^m - 1. *)

Definition exp_seq (m poly : Z) (i : nat) : Z :=
  Nat.iter i (GF.shift_reduce m poly) 1.

Definition primitive_polynomial (m poly : Z) : bool :=
  (2 ^ m <=? poly) && (poly <? 2 ^ (m + 1))
  && (exp_seq m poly (Z.to_nat (2 ^ m - 1)) =? 1)
  && forallb (fun i => negb (exp_seq m poly i =? 1))
             (seq 1 (Z.to_nat (2 ^ m - 1) - 1)).

(** ** std::vector<Element>

    A vector is a list; [operator[]] outside the extent is an exception of the
    model. *)

Definition vector_get (v : list Z) (i : Z) : result Z :=
  if i <? 0 then Throw out_of_bounds
  else match v !! Z.to_nat i with
       | Some x => Ok x
       | None => Throw out_of_bounds
       end.

Definition vector_set (v : list Z) (i : Z) (x : Z) : result (list Z) :=
  if (0 <=? i) && (i <? Z.of_nat (length v))
  then Ok (<[Z.to_nat i := x]> v)
  else Throw out_of_bounds.

(** [max_size()] of a [std::vector<uint32_t>] on a 64-bit target.  The value
    is the standard library's: PTRDIFF_MAX / sizeof(uint32_t) = 2^61 - 1 in
    libstdc++, taken here; SIZE_MAX / sizeof(uint32_t) = 2^62 - 1 in libc++
    and in older versions of libstdc++. *)
Definition vector_max_size : Z := (2 ^ 63 - 1) / 4.

(** [v.resize(n, 0)], [n] a [size_t]: [std::length_error] above [max_size()];
    otherwise the vector is cut or filled with zeros to [n] elements.  Running
    out of memory below [max_size()] is outside the model. *)
Definition vector_resize (v : list Z) (n : Z) : result (list Z) :=
  if vector_max_size <? n then Throw length_error
  else Ok (take (Z.to_nat n) v ++ replicate (Z.to_nat n - length v) 0).

(** [std::vector<Element>(n, 0)] *)
Definition vector_zeros (n : Z) : list Z := replicate (Z.to_nat n) 0.

Definition size (v : list Z) : Z := Z.of_nat (length v).

(** Left-to-right monadic fold: a range-[for] over a vector. *)
Fixpoint foldM {A S : Type} (f : S → A → result S) (l : list A) (s : S) : result S :=
  match l with
  | [] => Ok s
  | x :: l' => s' ← f s x; foldM f l' s'
  end.

(** A [while] loop has no bound of its own: the model runs it on fuel and
    reports [None] when the fuel does not suffice. *)
Fixpoint while_fuel {S : Type} (fuel : nat) (cond : S → bool)
    (body : S → result S) (s : S) : option (result S) :=
  if cond s then
    match fuel with
    | O => None
    | Datatypes.S fuel' =>
        match body s with
        | Ok s' => while_fuel fuel' cond body s'
        | Throw e => Some (Throw e)
        end
    end
  else Some (Ok s).

(** ** GFPolynomial<m> (galois_field.hpp) *)

Module GFPolynomial.

Record t : Type := mk {
  coefficients : list Z;
  field : GF.GaloisField
}.

(** [while (!coefficients.empty() && coefficients.back() == 0) pop_back();] *)
Fixpoint pop_zeros (rev_coeffs : list Z) : list Z :=
  match rev_coeffs with
  | [] => []
  | back :: rest => if back =? 0 then pop_zeros rest else rev_coeffs
  end.

Definition normalize (coeffs : list Z) : list Z :=
  match pop_zeros (rev coeffs) with
  | [] => [0]
  | r => rev r
  end.

(** [GFPolynomial(const Field &gf, std::vector<Element> coeffs = {0})] *)
Definition make (gf : GF.GaloisField) (coeffs : list Z) : t :=
  mk (normalize coeffs) gf.

Definition degree (p : t) : Z :=
  match coefficients p with
  | [] => 0
  | _ => size (coefficients p) - 1
  end.

(** [operator[]]: zero outside the extent. *)
Definition coeff (p : t) (index : Z) : Z :=
  if (0 <=? index) && (index <? size (coefficients p))
  then nth (Z.to_nat index) (coefficients p) 0
  else 0.

(** [set_coefficient]; [index] is a [size_t], and so is [index + 1]: at
    [index] = 2^64 - 1 the vector is resized to 0 elements and the store that
    follows is outside its extent. *)
Definition set_coefficient (p : t) (index value : Z) : result t :=
  let c := coefficients p in
  c ← (if size c <=? index then vector_resize c (size_t (index + 1)) else Ok c);
  c ← vector_set c index value;
  Ok (make (field p) c).

(** [operator+] *)
Definition add (p other : t) : t :=
  let max_size := Z.max (size (coefficients p)) (size (coefficients other)) in
  let result :=
    map (fun i => GF.add (coeff p (Z.of_nat i)) (coeff other (Z.of_nat i)))
        (seq 0 (Z.to_nat max_size)) in
  make (field p) result.

(** [is_zero] *)
Definition is_zero (p : t) : bool := forallb (fun e => e =? 0) (coefficients p).

(** [operator*] *)
Definition mul (p other : t) : result t :=
  if is_zero p || is_zero other then Ok (make (field p) [0])
  else
    let result_size := size (coefficients p) + size (coefficients other) - 1 in
    result ←
      for_range 0 (size (coefficients p))
        (fun i result =>
           for_range 0 (size (coefficients other))
             (fun j result =>
                ci ← vector_get (coefficients p) i;
                oj ← vector_get (coefficients other) j;
                product ← GF.multiply (field p) ci oj;
                r ← vector_get result (i + j);
                vector_set result (i + j) (GF.add r product))
             result)
        (vector_zeros result_size);
    Ok (make (field p) result).

(** [evaluate]: Horner's rule from [coefficients.back()] down to index 0. *)
Definition evaluate (p : t) (x : Z) : result Z :=
  match rev (coefficients p) with
  | [] => Ok 0
  | back :: rest =>
      foldM (fun result ci =>
               r ← GF.multiply (field p) result x; Ok (GF.add r ci))
            rest back
  end.


End GFPolynomial.

(** ** HammingCode<n, k> (hamming_code.hpp)

    A [std::bitset<n>] is a list of [n] booleans, bit 0 first; the default
    constructor clears every bit.  All indices in this class are bounded by
    the loop limits [n], [k] and [parity_length]. *)

Module Hamming.

Definition bitset := list bool.

Definition bitset_new (n : nat) : bitset := replicate n false.

(** [b[i]] as an rvalue *)
Definition bit (b : bitset) (i : nat) : bool := nth i b false.

(** [b[i] = v] *)
Definition set_bit (b : bitset) (i : nat) (v : bool) : bitset := <[i := v]> b.

(** [b.flip(i)] *)
Definition flip (b : bitset) (i : nat) : bitset := <[i := negb (bit b i)]> b.

(** [b.to_ulong()] *)
Definition to_ulong (b : bitset) : nat :=
  fold_right (fun x acc => (Nat.b2n x + 2 * acc)%nat) 0%nat b.

(** [for (size_t i = 0; i < n; ++i) body] on a pure state *)
Definition loop {S : Type} (n : nat) (body : nat → S → S) (s : S) : S :=
  fold_left (fun s i => body i s) (seq 0 n) s.

(** [concept ValidHammingParams] *)
Definition ValidHammingParams (n k : nat) : bool :=
  (k <? n)%nat && (n =? Nat.shiftl 1 (n - k) - 1)%nat && (k =? n - (n - k))%nat.

Record t : Type := mk {
  n : nat;
  k : nat;
  generator_matrix : list bitset;      (* k rows of n bits *)
  parity_check_matrix : list bitset;   (* n - k rows of n bits *)
  syndrome_table : list nat            (* 2^(n-k) entries *)
}.

Definition row (M : list bitset) (i : nat) : bitset := nth i M [].

Section Build.
Variables n k : nat.
Let parity_length : nat := (n - k)%nat.

  (** first loop of [generate_matrices]: G = [I_k | P] *)
Definition generate_generator_matrix : list bitset :=
    loop k
      (fun i G =>
         let r := set_bit (row G i) i true in
         let r :=
           loop parity_length
             (fun j r =>
                let col := (k + j)%nat in
                let power := Nat.shiftl 1 j in
                set_bit r col (negb (Nat.land (i + 1) power =? 0)%nat))
             r in
         <[i := r]> G)
      (replicate k (bitset_new n)).

  (** second loop of [generate_matrices]: H = [P^T | I_(n-k)] *)
Definition generate_parity_check_matrix (G : list bitset) : list bitset :=
    loop parity_length
      (fun i H =>
         let r := loop k (fun j r => set_bit r j (bit (row G j) (k + i))) (row H i) in
         let r := set_bit r (k + i) true in
         <[i := r]> H)
      (replicate parity_length (bitset_new n)).

  (** [calculate_syndrome] *)
Definition calculate_syndrome_with (H : list bitset) (received : bitset) : bitset :=
    loop parity_length
      (fun i syndrome =>
         let b := loop n (fun j b => xorb b (bit received j && bit (row H i) j)) false in
         set_bit syndrome i b)
      (bitset_new parity_length).

  (** [build_syndrome_table] *)
Definition build_syndrome_table (H : list bitset) : list nat :=
    loop n
      (fun pos table =>
         let error_pattern := set_bit (bitset_new n) pos true in
         let syndrome := calculate_syndrome_with H error_pattern in
         <[to_ulong syndrome := pos]> table)
      (replicate (Nat.shiftl 1 parity_length) n).

  (** [HammingCode()] *)
Definition make : t :=
    let G := generate_generator_matrix in
    let H := generate_parity_check_matrix G in
    mk n k G H (build_syndrome_table H).
End Build.

Section Codec.
Variable c : t.
Let parity_length : nat := (n c - k c)%nat.

Definition calculate_syndrome (received : bitset) : bitset :=
    calculate_syndrome_with (n c) (k c) (parity_check_matrix c) received.

  (** [encode] *)
Definition encode (data : bitset) : bitset :=
    let codeword := bitset_new (n c) in
    let codeword := loop (k c) (fun i cw => set_bit cw i (bit data i)) codeword in
    loop parity_length
      (fun i cw =>
         let parity :=
           loop (k c)
             (fun j p => xorb p (bit data j && bit (row (generator_matrix c) j) (k c + i)))
             false in
         set_bit cw (k c + i) parity)
      codeword.

Record DecodeResult : Type := mkDecodeResult {
    data : bitset;
    error_detected : bool;
    error_position : nat      (* 0-based, n if no error *)
  }.

Definition extract_data (w : bitset) : bitset :=
    loop (k c) (fun i d => set_bit d i (bit w i)) (bitset_new (k c)).

  (** [decode_with_detection] *)
Definition decode_with_detection (received : bitset) : DecodeResult :=
    let syndrome := calculate_syndrome received in
    let error_pos := nth (to_ulong syndrome) (syndrome_table c) 0%nat in
    let detected := (error_pos <? n c)%nat in
    if detected
    then mkDecodeResult (extract_data (flip received error_pos)) detected error_pos
    else mkDecodeResult (extract_data received) detected error_pos.

  (** [correct_errors] and [decode] *)
Definition correct_errors (received syndrome : bitset) : bitset :=
    let error_pos := nth (to_ulong syndrome) (syndrome_table c) 0%nat in
    if (error_pos <? n c)%nat then flip received error_pos else received.

Definition decode (received : bitset) : bitset :=
    let syndrome := calculate_syndrome received in
    extract_data (correct_errors received syndrome).
End Codec.

End Hamming.

(** ** BCHCode<m, t> (bch_code.hpp): a model of a class that does not compile

    The class template cannot be instantiated as it is written, so the
    program has no BCH codec.  This module is a model of the class, repaired
    in the three places listed here; what is proved of it is a statement on
    the repaired class and not on the program.

    - The member [Polynomial generator_poly] has no initialiser in the
      constructor (bch_code.hpp, 42-46), and [GFPolynomial] has no default
      constructor: its one constructor is
      [GFPolynomial(const Field &gf, std::vector<Element> coeffs = {0})].
      Modelled: the member starts as the first statement of
      [generate_bch_polynomial] assigns it, the constant 1.
    - Every polynomial is built as [Polynomial(field.get(), ...)], with a
      [Field *] where the constructor takes a [const Field &]
      ([generate_bch_polynomial], [encode], [calculate_syndromes],
      [berlekamp_massey]).  Modelled: the field itself is passed.
    - [coefficient] and [divmod] are called on polynomials and are not
      members of [GFPolynomial].  Modelled from the specification, below.

    [CodeWord] and [DataWord] are bitsets. *)

Module BCH.

Import GFPolynomial.

(** [std::sort] on a vector of elements *)
Fixpoint insert_sorted (x : Z) (l : list Z) : list Z :=
  match l with
  | [] => [x]
  | y :: l' => if x <=? y then x :: l else y :: insert_sorted x l'
  end.

Definition sort (l : list Z) : list Z := fold_right insert_sorted [] l.

(** [v.erase(std::unique(v.begin(), v.end()), v.end())] *)
Fixpoint unique (l : list Z) : list Z :=
  match l with
  | [] => []
  | x :: l' =>
      match l' with
      | [] => [x]
      | y :: _ => if x =? y then unique l' else x :: unique l'
      end
  end.

(** Modelled from the spec: [GFPolynomial::coefficient(i)] is not defined in
    galois_field.hpp.  The spec (4.P) gives one indexed coefficient access,
    "out-of-range -> 0", which is what [operator[]] does. *)
Definition coefficient (p : GFPolynomial.t) (i : Z) : Z := coeff p i.

(** Modelled from the spec: [GFPolynomial::divmod] is not defined in
    galois_field.hpp.  The spec (4.P) asks for Euclidean division returning
    (quotient, remainder) with deg(remainder) < deg(b) and
    (a/b)*b + (a%b) = a: schoolbook long division, cancelling the leading
    term of the running remainder with [divide] at every turn. *)
Definition divmod_step (b : GFPolynomial.t) (s : GFPolynomial.t * GFPolynomial.t)
  : result (GFPolynomial.t * GFPolynomial.t) :=
  let '(q, r) := s in
  let F := GFPolynomial.field b in
  factor ← GF.divide F (coeff r (degree r)) (coeff b (degree b));
  let shift := degree r - degree b in
  r' ← for_range 0 (degree b + 1)
         (fun i r =>
            term ← GF.multiply F factor (coeff b i);
            set_coefficient r (i + shift) (GF.add (coeff r (i + shift)) term))
         r;
  q' ← set_coefficient q shift (GF.add (coeff q shift) factor);
  Ok (q', r').

Definition divmod (a b : GFPolynomial.t)
  : option (result (GFPolynomial.t * GFPolynomial.t)) :=
  while_fuel (length (coefficients a))
    (fun '(q, r) => (degree b <=? degree r) && negb (is_zero r))
    (divmod_step b)
    (GFPolynomial.make (GFPolynomial.field a) [0], a).

Record t : Type := mk {
  m : Z;
  t_ : Z;
  field : GF.GaloisField;
  generator_poly : GFPolynomial.t;
  roots : list Z
}.

Record DecodeResult : Type := mkDecodeResult {
  data : list bool;
  success : bool;
  errors_corrected : Z;
  error_positions : list Z
}.

Section Params.
Variables m t : Z.

Definition code_length : Z := size_t (uint32 (uint32 (Z.shiftl 1 m) - 1)).
Definition parity_length : Z := size_t (m * t).
Definition data_length : Z := size_t (code_length - parity_length).
Definition min_distance : Z := size_t (2 * t + 1).

  (** Modelled: [generate_bch_polynomial] with [Polynomial(field.get(), ...)]
      given the field in place of the pointer (see the head of the module). *)
Definition generate_bch_polynomial (F : GF.GaloisField)
    : result (GFPolynomial.t * list Z) :=
    let alpha := GF.get_primitive in
    roots ← for_range 1 (2 * t + 1)
              (fun i roots => r ← GF.power F alpha i; Ok (roots ++ [r]))
              [];
    let roots := unique (sort roots) in
    g ← foldM (fun g root => GFPolynomial.mul g (GFPolynomial.make F [root; 1]))
              roots (GFPolynomial.make F [1]);
    Ok (g, roots).

  (** Modelled: [explicit BCHCode(Element primitive_poly)], with the member
      [generator_poly], which the constructor leaves without an initialiser,
      set by [generate_bch_polynomial] (see the head of the module). *)
Definition make (primitive_poly : Z) : result BCH.t :=
    F ← GF.make m primitive_poly;
    '(g, roots) ← generate_bch_polynomial F;
    Ok (mk m t F g roots).
End Params.

Section Codec.
Variable c : BCH.t.

Let F : GF.GaloisField := field c.
Let n : Z := code_length (m c).
Let npar : Z := parity_length (m c) (t_ c).
Let ndata : Z := data_length (m c) (t_ c).

Definition bit (b : list bool) (i : Z) : bool := nth (Z.to_nat i) b false.

  (** Modelled: [encode], with [Polynomial(field.get(), ...)] given the
      field in place of the pointer, and the modelled [coefficient] and
      [divmod]. *)
Definition encode (data : list bool) : option (result (list bool)) :=
    let data_coeffs := map (fun i => if bit data (Z.of_nat i) then 1 else 0)
                           (seq 0 (Z.to_nat ndata)) in
    let data_poly := GFPolynomial.make F data_coeffs in
    let shifted_coeffs :=
      replicate (Z.to_nat npar) 0
      ++ map (fun i => coefficient data_poly (Z.of_nat i)) (seq 0 (Z.to_nat ndata)) in
    let shifted_data := GFPolynomial.make F shifted_coeffs in
    match divmod shifted_data (generator_poly c) with
    | None => None
    | Some (Throw e) => Some (Throw e)
    | Some (Ok (_, remainder)) =>
        Some (Ok (map (fun i =>
                         if Z.of_nat i <? npar
                         then negb (coefficient remainder (Z.of_nat i) =? 0)
                         else bit data (Z.of_nat i - npar))
                      (seq 0 (Z.to_nat n))))
    end.

  (** Modelled: [calculate_syndromes], with [Polynomial(field.get(), ...)]
      given the field in place of the pointer. *)
Definition calculate_syndromes (received : list bool) : result (list Z) :=
    let coeffs := map (fun i => if bit received (Z.of_nat i) then 1 else 0)
                      (seq 0 (Z.to_nat n)) in
    let received_poly := GFPolynomial.make F coeffs in
    for_range 0 (2 * t_ c)
      (fun i syndromes =>
         root ← GF.power F GF.get_primitive (i + 1);
         s ← evaluate received_poly root;
         vector_set syndromes i s)
      (vector_zeros (2 * t_ c)).

  (** Modelled: [berlekamp_massey], with [Polynomial(field.get(), ...)]
      given the field in place of the pointer, and the modelled [coefficient]; the state
      is [(C, B, L, pos, b)]. *)
Definition berlekamp_massey (syndromes : list Z) : result GFPolynomial.t :=
    '(C, _, _, _, _) ←
      for_range 0 (size syndromes)
        (fun n '(C, B, L, pos, b) =>
           sn ← vector_get syndromes n;
           d ← for_range 1 (L + 1)
                 (fun i d =>
                    s ← vector_get syndromes (n - i);
                    p ← GF.multiply F (coefficient C i) s;
                    Ok (GF.add d p))
                 sn;
           if d =? 0 then Ok (C, B, L, pos + 1, b)
           else
             let T := C in
             coeff ← GF.divide F d b;
             term_coeffs ←
               for_range 0 (degree B + 1)
                 (fun i term_coeffs =>
                    p ← GF.multiply F coeff (coefficient B i);
                    vector_set term_coeffs (i + pos) p)
                 (vector_zeros (pos + degree B + 1));
             let correction := GFPolynomial.make F term_coeffs in
             let C := GFPolynomial.add C correction in
             if 2 * L <=? n then Ok (C, T, n + 1 - L, 1, d)
             else Ok (C, B, L, pos + 1, b))
        (GFPolynomial.make F [1], GFPolynomial.make F [1], 0, 1, 1);
    Ok C.

  (** [chien_search] *)
Definition chien_search (error_locator : GFPolynomial.t) : result (list Z) :=
    for_range 0 n
      (fun i positions =>
         alpha_inv ← GF.power F GF.get_primitive (size_t (n - 1 - i));
         v ← evaluate error_locator alpha_inv;
         if v =? 0 then Ok (positions ++ [i]) else Ok positions)
      [].

Definition data_slice (w : list bool) : list bool :=
    map (fun i => bit w (Z.of_nat i + npar)) (seq 0 (Z.to_nat ndata)).

  (** Modelled: [decode], on the modelled members above. *)
Definition decode (received : list bool) : result DecodeResult :=
    syndromes ← calculate_syndromes received;
    let no_errors := forallb (fun s => s =? 0) syndromes in
    if no_errors then Ok (mkDecodeResult (data_slice received) true 0 [])
    else
      error_locator ← berlekamp_massey syndromes;
      error_positions ← chien_search error_locator;
      if t_ c <? size error_positions
      then Ok (mkDecodeResult (data_slice received) false 0 [])
      else
        let corrected :=
          fold_left (fun w pos => <[Z.to_nat pos := negb (bit w pos)]> w)
                    error_positions received in
        Ok (mkDecodeResult (data_slice corrected) true
              (size error_positions) error_positions).
End Codec.

End BCH.

(** ** ReedSolomonCode<n, k, m> (reed_solomon.hpp)

    [CodeWord] and [DataWord] are [std::array<Symbol, n>] and
    [std::array<Symbol, k>]; value-initialisation ([CodeWord codeword{}],
    [DecodeResult result{}]) fills them with zeros. *)

Module RS.

Import GFPolynomial.

Record t : Type := mk {
  n : Z;
  k : Z;
  m : Z;
  field : GF.GaloisField;
  generator_poly : GFPolynomial.t;
  primitive_element : Z
}.

(** template constraint [requires (n <= (1u << m) - 1) && (k <= n) && (n - k <= n)] *)
Definition requires (n k m : Z) : bool :=
  (n <=? size_t (uint32 (uint32 (Z.shiftl 1 m) - 1)))
  && (k <=? n) && (size_t (n - k) <=? n).

Record DecodeResult : Type := mkDecodeResult {
  data : list Z;
  success : bool;
  errors_corrected : Z;
  error_positions : list Z
}.

(** [get_default_primitive_poly] *)
Definition get_default_primitive_poly (m : Z) : Z :=
  if m =? 8 then 0x11D
  else if m =? 10 then 0x409
  else if m =? 12 then 0x1053
  else 0x3.

Section Params.
Variables n k m : Z.

Definition parity_length : Z := size_t (n - k).
Definition min_distance : Z := size_t (parity_length + 1).
Definition error_correction_capability : Z := parity_length / 2.

  (** [generate_polynomial]: g(x) = (x - alpha)(x - alpha^2)...(x - alpha^(n-k)) *)
Definition generate_polynomial (F : GF.GaloisField) (alpha : Z)
    : result GFPolynomial.t :=
    for_range 1 (parity_length + 1)
      (fun i gen_poly =>
         root ← GF.power F alpha i;
         let factor := GFPolynomial.make F [root; 1] in
         GFPolynomial.mul gen_poly factor)
      (GFPolynomial.make F [1]).

  (** [explicit ReedSolomonCode(Symbol primitive_polynomial)] *)
Definition make (primitive_polynomial : Z) : result t :=
    F ← GF.make m primitive_polynomial;
    let alpha := GF.get_primitive in
    g ← generate_polynomial F alpha;
    Ok (mk n k m F g alpha).

  (** [ReedSolomonCode()] *)
Definition make_default : result t := make (get_default_primitive_poly m).
End Params.

Section Codec.
Variable c : t.

Let F : GF.GaloisField := field c.
Let npar : Z := parity_length (n c) (k c).
Let tcap : Z := error_correction_capability (n c) (k c).

  (** One turn of the loop of [polynomial_mod]. *)
Definition polynomial_mod_step (divisor : GFPolynomial.t) (quotient : GFPolynomial.t)
    : result GFPolynomial.t :=
    let divisor_degree := degree divisor in
    let lead_coeff := coeff quotient (degree quotient) in
    let divisor_lead := coeff divisor divisor_degree in
    factor ← GF.divide F lead_coeff divisor_lead;
    let shift := size_t (degree quotient - divisor_degree) in
    for_range 0 (divisor_degree + 1)
      (fun i quotient =>
         term ← GF.multiply F factor (coeff divisor i);
         let current := coeff quotient (size_t (i + shift)) in
         set_coefficient quotient (size_t (i + shift)) (GF.add current term))
      quotient.

  (** [polynomial_mod] *)
Definition polynomial_mod (fuel : nat) (dividend divisor : GFPolynomial.t)
    : option (result GFPolynomial.t) :=
    while_fuel fuel
      (fun quotient => (degree divisor <=? degree quotient) && negb (is_zero quotient))
      (polynomial_mod_step divisor)
      dividend.

  (** [encode]; the remainder loop needs at most one turn per coefficient of
      the shifted data polynomial. *)
Definition encode (data : list Z) : option (result (list Z)) :=
    let codeword := data ++ replicate (Z.to_nat (n c - k c)) 0 in
    let shifted_coeffs := replicate (Z.to_nat npar) 0 ++ data in
    let shifted_poly := GFPolynomial.make F shifted_coeffs in
    match polynomial_mod (length shifted_coeffs) shifted_poly (generator_poly c) with
    | None => None
    | Some (Throw e) => Some (Throw e)
    | Some (Ok remainder) =>
        Some (for_range 0 npar
                (fun i codeword => vector_set codeword (k c + i) (coeff remainder i))
                codeword)
    end.

  (** [calculate_syndromes] *)
Definition calculate_syndromes (received : list Z) : result (list Z) :=
    for_range 0 npar
      (fun i syndromes =>
         alpha_power ← GF.power F (primitive_element c) (i + 1);
         '(syndrome, _) ←
           for_range 0 (n c)
             (fun j '(syndrome, current_power) =>
                rj ← vector_get received j;
                p ← GF.multiply F rj current_power;
                current_power' ← GF.multiply F current_power alpha_power;
                Ok (GF.add syndrome p, current_power'))
             (0, 1);
         vector_set syndromes i syndrome)
      (vector_zeros npar).

  (** [berlekamp_massey]; the state is [(L, pos, C, B)], [T] being a local
      copy of [C]. *)
Definition berlekamp_massey (syndromes : list Z) : result GFPolynomial.t :=
    let C0 := <[0%nat := 1]> (vector_zeros (npar + 1)) in
    let B0 := <[0%nat := 1]> (vector_zeros (npar + 1)) in
    '(L, _, C, _) ←
      for_range 0 npar
        (fun i '(L, pos, C, B) =>
           si ← vector_get syndromes i;
           d ← for_range 1 (L + 1)
                 (fun j d =>
                    cj ← vector_get C j;
                    sij ← vector_get syndromes (i - j);
                    p ← GF.multiply F cj sij;
                    Ok (GF.add d p))
                 si;
           if d =? 0 then Ok (L, pos + 1, C, B)
           else
             let T := C in
             d_inv ← GF.inverse F d;
             C ← for_range 0 (Z.min (size_t (npar + 1 - pos)) (npar + 1 - pos))
                   (fun idx C =>
                      cur ← vector_get C (idx + pos);
                      b ← vector_get B idx;
                      p ← GF.multiply F d_inv b;
                      vector_set C (idx + pos) (GF.add cur p))
                   C;
             if 2 * L <=? i then Ok (i + 1 - L, 1, C, T)
             else Ok (L, pos + 1, C, B))
        (0, 1, C0, B0);
    Ok (GFPolynomial.make F (take (Z.to_nat (L + 1)) C)).

  (** [chien_search] *)
Definition chien_search (error_locator : GFPolynomial.t) : result (list Z) :=
    for_range 0 (n c)
      (fun i positions =>
         alpha_inv ← GF.power F (primitive_element c) (size_t (n c - 1 - i));
         v ← evaluate error_locator alpha_inv;
         if v =? 0 then Ok (positions ++ [i]) else Ok positions)
      [].

  (** The derivative [forney_algorithm] builds from the error locator: the
      coefficients of odd index, pushed one after the other. *)
Definition error_locator_derivative (error_locator : GFPolynomial.t) : GFPolynomial.t :=
    let derivative_coeffs :=
      map (fun j => coeff error_locator (2 * Z.of_nat j + 1))
          (seq 0 (Z.to_nat ((degree error_locator + 1) / 2))) in
    GFPolynomial.make F derivative_coeffs.

  (** The local [denominator] of [forney_algorithm] at error position [pos]. *)
Definition forney_denominator (error_locator : GFPolynomial.t) (pos : Z) : result Z :=
    alpha_inv ← GF.power F (primitive_element c) (size_t (n c - 1 - pos));
    evaluate (error_locator_derivative error_locator) alpha_inv.

  (** The local [numerator] of [forney_algorithm] at error position [pos]. *)
Definition forney_numerator (syndromes : list Z) (error_locator : GFPolynomial.t)
      (pos : Z) : result Z :=
    let syndrome_poly := GFPolynomial.make F (rev syndromes) in
    error_evaluator ← GFPolynomial.mul syndrome_poly error_locator;
    alpha_inv ← GF.power F (primitive_element c) (size_t (n c - 1 - pos));
    evaluate error_evaluator alpha_inv.

  (** [forney_algorithm] *)
Definition forney_algorithm (syndromes : list Z) (error_locator : GFPolynomial.t)
      (error_positions : list Z) : result (list Z) :=
    let syndrome_poly := GFPolynomial.make F (rev syndromes) in
    error_evaluator ← GFPolynomial.mul syndrome_poly error_locator;
    let derivative := error_locator_derivative error_locator in
    for_range 0 (size error_positions)
      (fun i error_values =>
         pos ← vector_get error_positions i;
         alpha_inv ← GF.power F (primitive_element c) (size_t (n c - 1 - pos));
         numerator ← evaluate error_evaluator alpha_inv;
         denominator ← evaluate derivative alpha_inv;
         if negb (denominator =? 0)
         then q ← GF.divide F numerator denominator; vector_set error_values i q
         else Ok error_values)
      (vector_zeros (size error_positions)).

  (** [decode] *)
Definition decode (received : list Z) : result DecodeResult :=
    syndromes ← calculate_syndromes received;
    let has_errors := existsb (fun s => negb (s =? 0)) syndromes in
    if negb has_errors
    then Ok (mkDecodeResult (take (Z.to_nat (k c)) received) true 0 [])
    else
      error_locator ← berlekamp_massey syndromes;
      error_positions ← chien_search error_locator;
      if tcap <? size error_positions
      then Ok (mkDecodeResult (replicate (Z.to_nat (k c)) 0) false 0 [])
      else
        error_values ← forney_algorithm syndromes error_locator error_positions;
        corrected ←
          for_range 0 (size error_positions)
            (fun i corrected =>
               pos ← vector_get error_positions i;
               cur ← vector_get corrected pos;
               ev ← vector_get error_values i;
               vector_set corrected pos (GF.add cur ev))
            received;
        Ok (mkDecodeResult (take (Z.to_nat (k c)) corrected) true
              (size error_positions) error_positions).
End Codec.

End RS.

(** ** namespace galois_utils, continued (galois_field.cpp)

    [minimal_polynomial] collects the conjugates alpha, alpha^2, alpha^4, ...
    of an element until one comes back, keeping those it has met in a
    [std::set], and multiplies the factors (x + conjugate) on plain
    coefficient vectors. *)

Module galois_utils_poly.

(** One turn of [while (seen.find(current) == seen.end())]; the state is
    [(seen, conjugates, current)]. *)
Definition conjugates_step (F : GF.GaloisField) (s : gset Z * list Z * Z)
  : result (gset Z * list Z * Z) :=
  let '(seen, conjugates, current) := s in
  next ← GF.power F current 2;
  Ok ({[current]} ∪ seen, conjugates ++ [current], next).

Definition conjugates_cond (s : gset Z * list Z * Z) : bool :=
  let '(seen, _, current) := s in negb (bool_decide (current ∈ seen)).

(** The two nested loops that multiply [poly] by [factor] into a fresh
    vector of [poly.size() + factor.size() - 1] zeros. *)
Definition multiply_vectors (F : GF.GaloisField) (poly factor : list Z)
  : result (list Z) :=
  for_range 0 (size poly)
    (fun i new_poly =>
       for_range 0 (size factor)
         (fun j new_poly =>
            pi ← vector_get poly i;
            fj ← vector_get factor j;
            product ← GF.multiply F pi fj;
            r ← vector_get new_poly (i + j);
            vector_set new_poly (i + j) (GF.add r product))
         new_poly)
    (vector_zeros (size poly + size factor - 1)).

(** [minimal_polynomial(field, alpha)]; the [while] loop runs on fuel. *)
Definition minimal_polynomial (fuel : nat) (F : GF.GaloisField) (alpha : Z)
  : option (result (list Z)) :=
  match while_fuel fuel conjugates_cond (conjugates_step F) (∅, [], alpha) with
  | None => None
  | Some (Throw e) => Some (Throw e)
  | Some (Ok (_, conjugates, _)) =>
      Some (foldM (fun poly root => multiply_vectors F poly [root; 1])
                  conjugates [1])
  end.

End galois_utils_poly.

(** ** Well-formed fields and field elements

    A field value is well-formed for [(m, poly)] when its tables hold what
    [build_tables] stores for a primitive polynomial: [exp] lists the powers
    of alpha and [log] inverts it. *)

Definition valid_field (m poly : Z) (F : GF.GaloisField) : Prop :=
  GF.gf_m F = m
  ∧ GF.primitive_poly F = poly
  ∧ length (GF.exp_table F) = Z.to_nat (2 ^ m)
  ∧ length (GF.log_table F) = Z.to_nat (2 ^ m)
  ∧ (∀ i, (i < Z.to_nat (2 ^ m - 1))%nat →
          GF.exp_table F !! i = Some (Some (exp_seq m poly i)))
  ∧ GF.log_table F !! 0%nat = Some (Some 0)
  ∧ (∀ i, (i < Z.to_nat (2 ^ m - 1))%nat →
          GF.log_table F !! Z.to_nat (exp_seq m poly i) = Some (Some (Z.of_nat i)))
  ∧ (∀ a v, GF.log_table F !! a = Some (Some v) → 0 ≤ v < 2 ^ m - 1).

(** A field element of GF(2^m). *)
Definition element (m a : Z) : Prop := 0 ≤ a < 2 ^ m.

(** The discrete logarithm a well-formed field stores, and the product it
    computes: multiplying by alpha^i is [i] turns of [shift_reduce]. *)

Definition dlog (F : GF.GaloisField) (a : Z) : nat :=
  match GF.log_table F !! Z.to_nat a with
  | Some (Some v) => Z.to_nat v
  | _ => 0%nat
  end.

Definition gmul (F : GF.GaloisField) (a b : Z) : Z :=
  if a =? 0 then 0
  else Nat.iter (dlog F a) (GF.shift_reduce (GF.gf_m F) (GF.primitive_poly F)) b.

(** Horner's rule and the powers of a point, on the products of [gmul]. *)

Definition horner (F : GF.GaloisField) (cs : list Z) (x : Z) : Z :=
  fold_right (fun c acc => Z.lxor (gmul F acc x) c) 0 cs.

Definition gpow (F : GF.GaloisField) (x : Z) (k : nat) : Z :=
  Nat.iter k (fun acc => gmul F acc x) 1.

(** The invariants of the tables of a field, as a check that can be run:
    exp[0] = 1; exp[log[a]] = a for every nonzero a; alpha = 2 passes
    [is_primitive]; alpha^k differs from 1 for 0 < k < 2^m - 1 and
    alpha^(2^m - 1) = 1. *)

Definition exp_log_inverse (F : GF.GaloisField) (a : Z) : bool :=
  match array_get (GF.log_table F) a with
  | Ok l => match array_get (GF.exp_table F) l with
            | Ok v => v =? a
            | Throw _ => false
            end
  | Throw _ => false
  end.

Definition power_is_not_1 (F : GF.GaloisField) (k : Z) : bool :=
  match GF.power F GF.primitive_element k with
  | Ok v => negb (v =? 1)
  | Throw _ => false
  end.

Definition is_Ok_of {A : Type} (eqb : A → A → bool) (r : result A) (a : A) : bool :=
  match r with
  | Ok v => eqb v a
  | Throw _ => false
  end.

Definition field_invariants (m : Z) (F : GF.GaloisField) : bool :=
  is_Ok_of Z.eqb (array_get (GF.exp_table F) 0) 1
  && forallb (exp_log_inverse F) (seqZ 1 (2 ^ m - 1))
  && is_Ok_of Bool.eqb (GF.is_primitive F GF.primitive_element) true
  && forallb (power_is_not_1 F) (seqZ 1 (2 ^ m - 2))
  && is_Ok_of Z.eqb (GF.power F GF.primitive_element (2 ^ m - 1)) 1.

Definition default_field_invariants (m : Z) : bool :=
  match GF.make m (galois_utils.get_default_primitive m) with
  | Ok F => field_invariants m F
  | Throw _ => false
  end.

(** The coefficient vector after the resize of [set_coefficient], for an index
    the resize accepts: grown with zeros up to [index]. *)
Definition resized (c : list Z) (index : Z) : list Z :=
  if size c <=? index then c ++ replicate (Z.to_nat (index + 1 - size c)) 0 else c.

(** A computation that does not end in [std::invalid_argument], the only
    exception the library itself throws. *)
Definition no_invalid_argument {A : Type} (r : result A) : Prop :=
  r ≠ Throw invalid_argument.

(** All the bitsets of a given length, to check a codec on every data word. *)
Fixpoint all_bitsets (n : nat) : list (list bool) :=
  match n with
  | O => [[]]
  | S n' => flat_map (fun w => [false :: w; true :: w]) (all_bitsets n')
  end.

Definition hamming_round_trip (c : Hamming.t) (d : list bool) : bool :=
  let r := Hamming.decode_with_detection c (Hamming.encode c d) in
  forallb (fun i => Bool.eqb (Hamming.bit (Hamming.data r) i) (Hamming.bit d i))
          (seq 0 (Hamming.k c))
  && (length (Hamming.data r) =? Hamming.k c)%nat
  && negb (Hamming.error_detected r)
  && (Hamming.error_position r =? Hamming.n c)%nat.

(** ** Parity sums and bitsets given bit by bit (hamming_code.hpp)

    [xor_sum f n] is the value of the accumulator of the loops
    [for (j = 0; j < n; ++j) parity ^= f(j)] of the Hamming codec;
    [bits_spec b L f] says that the bitset [b] has [L] bits and that bit [c]
    is [f c]; [mat_spec M R L f] says the same of a matrix of [R] rows. *)

Definition xor_sum (f : nat → bool) (n : nat) : bool :=
  Hamming.loop n (fun j b => xorb b (f j)) false.

Definition bits_spec (b : list bool) (L : nat) (f : nat → bool) : Prop :=
  length b = L ∧ ∀ c, (c < L)%nat → nth c b false = f c.

Definition mat_spec (M : list (list bool)) (R L : nat) (f : nat → nat → bool) : Prop :=
  length M = R ∧ ∀ i, (i < R)%nat → bits_spec (Hamming.row M i) L (f i).

(** The entries of the matrices [generate_matrices] builds, the syndrome of
    a single error at position [p] read as a number, and the position
    [build_syndrome_table] leaves in the table for that syndrome. *)

Definition G_entry (k i c : nat) : bool :=
  if (c <? k)%nat then (c =? i)%nat else Nat.testbit (i + 1) (c - k).

Definition H_entry (k i c : nat) : bool :=
  if (c <? k)%nat then Nat.testbit (c + 1) i else (c =? k + i)%nat.

Definition column (k p : nat) : nat :=
  if (p <? k)%nat then (p + 1)%nat else (2 ^ (p - k))%nat.

Definition located (k p : nat) : nat :=
  if (p <? k)%nat && (2 ^ Nat.log2 (p + 1) =? p + 1)%nat
  then (k + Nat.log2 (p + 1))%nat else p.

(** * The field engine: properties *)

(** ** The exception monad and the loop combinator *)

Lemma bind_Ok {A B : Type} (c : result A) (k : A → result B) (b : B) :
  (x ← c; k x) = Ok b ↔ ∃ a, c = Ok a ∧ k a = Ok b.
Proof.
  destruct c as [a|e]; simpl; split.
  - intros H; exists a; auto.
  - intros (a' & Ha & Hk); congruence.
  - discriminate.
  - intros (a' & Ha & _); discriminate.
Qed.

(** Invariant rule for [for_loop]: a body that preserves [I] from [i] to
    [i + 1] and never throws makes the loop return a state satisfying [I] at
    the upper bound. *)
Lemma for_loop_inv {S : Type} (I : Z → S → Prop) (body : Z → S → result S) :
  ∀ (n : nat) (lo : Z) (s : S),
    I lo s →
    (∀ i s, lo ≤ i < lo + Z.of_nat n → I i s →
            ∃ s', body i s = Ok s' ∧ I (i + 1) s') →
    ∃ s', for_loop n lo body s = Ok s' ∧ I (lo + Z.of_nat n) s'.
Proof.
  induction n as [|n IH]; intros lo s H0 Hstep.
  - exists s; split; [reflexivity|]. now replace (lo + Z.of_nat 0) with lo by lia.
  - destruct (Hstep lo s ltac:(lia) H0) as (s1 & Hb & H1).
    destruct (IH (lo + 1) s1 H1) as (s2 & Hl & H2).
    { intros i s' Hi; apply Hstep; lia. }
    exists s2; split.
    + cbn [for_loop]. rewrite Hb. exact Hl.
    + now replace (lo + Z.of_nat (Datatypes.S n)) with (lo + 1 + Z.of_nat n) by lia.
Qed.

Lemma for_range_inv {S : Type} (I : Z → S → Prop) (body : Z → S → result S)
    (lo hi : Z) (s : S) :
  lo ≤ hi →
  I lo s →
  (∀ i s, lo ≤ i < hi → I i s → ∃ s', body i s = Ok s' ∧ I (i + 1) s') →
  ∃ s', for_range lo hi body s = Ok s' ∧ I hi s'.
Proof.
  intros Hle H0 Hstep. unfold for_range.
  destruct (for_loop_inv I body (Z.to_nat (hi - lo)) lo s H0) as (s' & Hl & Hs).
  { intros i s0 Hi; apply Hstep; lia. }
  exists s'; split; [exact Hl|].
  now replace (lo + Z.of_nat (Z.to_nat (hi - lo))) with hi in Hs by lia.
Qed.

(** ** Arrays *)

Lemma array_new_length (n : Z) : length (array_new n) = Z.to_nat n.
Proof. apply length_replicate. Qed.

Lemma array_set_Ok (a : cells) (i v : Z) :
  0 ≤ i < Z.of_nat (length a) →
  array_set a i v = Ok (<[Z.to_nat i := Some v]> a).
Proof.
  intros Hi. unfold array_set.
  destruct (Z.leb_spec 0 i); [|lia].
  destruct (Z.ltb_spec i (Z.of_nat (length a))); [reflexivity|lia].
Qed.

Lemma array_get_Ok (a : cells) (i v : Z) :
  0 ≤ i → a !! Z.to_nat i = Some (Some v) → array_get a i = Ok v.
Proof.
  intros Hi Hl. unfold array_get.
  destruct (Z.ltb_spec i 0); [lia|]. now rewrite Hl.
Qed.

Lemma array_get_inv (a : cells) (i v : Z) :
  array_get a i = Ok v → 0 ≤ i < Z.of_nat (length a) ∧ a !! Z.to_nat i = Some (Some v).
Proof.
  unfold array_get. destruct (Z.ltb_spec i 0); [discriminate|].
  destruct (a !! Z.to_nat i) as [[w|]|] eqn:E; try discriminate.
  intros [= ->]. split; [|reflexivity].
  apply lookup_lt_Some in E. lia.
Qed.

(** ** Bit-level facts used by [shift_reduce] *)

Lemma testbit_top (m x : Z) :
  0 ≤ m → 0 ≤ x < 2 ^ (m + 1) → Z.testbit x m = (2 ^ m <=? x).
Proof.
  intros Hm Hx.
  assert (Hp : 2 ^ (m + 1) = 2 * 2 ^ m) by (rewrite Z.pow_add_r by lia; lia).
  assert (H2 : 0 < 2 ^ m) by (apply Z.pow_pos_nonneg; lia).
  rewrite Z.testbit_eqb by lia.
  destruct (Z.leb_spec (2 ^ m) x) as [Hle|Hlt].
  - assert (x / 2 ^ m = 1) as ->; [|reflexivity].
    symmetry; apply (Z.div_unique x (2 ^ m) 1 (x - 2 ^ m)); lia.
  - rewrite Z.div_small by lia. reflexivity.
Qed.

Lemma land_pow2 (m x : Z) :
  0 ≤ m → Z.land x (2 ^ m) = if Z.testbit x m then 2 ^ m else 0.
Proof.
  intros Hm. apply Z.bits_inj'. intros i Hi.
  rewrite Z.land_spec, Z.pow2_bits_eqb by lia.
  destruct (Z.eqb_spec m i) as [->|Hne].
  - destruct (Z.testbit x i); simpl.
    + rewrite Z.pow2_bits_true by lia. reflexivity.
    + rewrite Z.bits_0. reflexivity.
  - rewrite andb_false_r.
    destruct (Z.testbit x m).
    + rewrite Z.pow2_bits_false by lia. reflexivity.
    + rewrite Z.bits_0. reflexivity.
Qed.

Lemma lt_pow2_bits (m x : Z) :
  0 ≤ m → 0 ≤ x → (∀ i, m ≤ i → Z.testbit x i = false) → x < 2 ^ m.
Proof.
  intros Hm Hx Hb.
  assert (E : x = x mod 2 ^ m).
  { rewrite <- Z.land_ones by lia. apply Z.bits_inj'. intros i Hi.
    rewrite Z.land_spec, Z.testbit_ones_nonneg by lia.
    destruct (Z.ltb_spec i m).
    - now rewrite andb_true_r.
    - rewrite andb_false_r. apply Hb; lia. }
  rewrite E. apply Z.mod_pos_bound. apply Z.pow_pos_nonneg; lia.
Qed.

Lemma bits_above_pow2 (m x i : Z) :
  0 ≤ m → 0 ≤ x < 2 ^ m → m ≤ i → Z.testbit x i = false.
Proof.
  intros Hm Hx Hi.
  destruct (Z.eq_dec x 0) as [->|Hne]; [apply Z.bits_0|].
  apply Z.bits_above_log2; [lia|].
  assert (Z.log2 x < m) by (apply Z.log2_lt_pow2; lia). lia.
Qed.

Lemma lxor_range (m x y : Z) :
  0 ≤ m → 0 ≤ x < 2 ^ m → 0 ≤ y < 2 ^ m → 0 ≤ Z.lxor x y < 2 ^ m.
Proof.
  intros Hm Hx Hy. split.
  - apply Z.lxor_nonneg. lia.
  - apply lt_pow2_bits; [lia| apply Z.lxor_nonneg; lia|].
    intros i Hi. rewrite Z.lxor_spec.
    rewrite (bits_above_pow2 m x i), (bits_above_pow2 m y i) by lia. reflexivity.
Qed.

Lemma lxor_cancel_r (x y p : Z) : Z.lxor x p = Z.lxor y p → x = y.
Proof.
  intros H.
  assert (E : Z.lxor (Z.lxor x p) p = Z.lxor (Z.lxor y p) p) by now rewrite H.
  now rewrite !Z.lxor_assoc, Z.lxor_nilpotent, !Z.lxor_0_r in E.
Qed.

(** ** One turn of the table loop: multiplication by alpha *)

Section ShiftReduce.
Variables m poly : Z.
Hypothesis Hm : 1 ≤ m ≤ 31.
Hypothesis Hpoly : 2 ^ m ≤ poly < 2 ^ (m + 1).

Let sr := GF.shift_reduce m poly.

Lemma pow2_m_bounds : 2 ≤ 2 ^ m ∧ 2 ^ (m + 1) = 2 * 2 ^ m ∧ 2 ^ (m + 1) ≤ 2 ^ 32.
Proof.
    split; [|split].
    - change 2 with (2 ^ 1) at 1. apply Z.pow_le_mono_r; lia.
    - rewrite Z.pow_add_r by lia. lia.
    - apply Z.pow_le_mono_r; lia.
Qed.

Lemma field_size_eq : GF.field_size m = 2 ^ m.
Proof.
    destruct pow2_m_bounds as (H2 & Hs & H32).
    unfold GF.field_size, uint32, size_t. rewrite Z.shiftl_1_l.
    assert (2 ^ 32 < 2 ^ 64) by (apply Z.pow_lt_mono_r; lia).
    rewrite (Z.mod_small (2 ^ m) (2 ^ 32)) by lia.
    rewrite Z.mod_small by lia. reflexivity.
Qed.

Lemma shift_reduce_eq (v : Z) :
    0 ≤ v < 2 ^ m →
    sr v = if Z.testbit v (m - 1) then Z.lxor (2 * v) poly else 2 * v.
Proof.
    intros Hv. destruct pow2_m_bounds as (H2 & Hs & H32).
    unfold sr, GF.shift_reduce. rewrite field_size_eq.
    rewrite Z.shiftl_mul_pow2 by lia. change (2 ^ 1) with 2.
    replace (v * 2) with (2 * v) by lia.
    unfold uint32. rewrite Z.mod_small by lia.
    rewrite land_pow2 by lia.
    replace (Z.testbit (2 * v) m) with (Z.testbit v (m - 1)).
    2:{ replace m with (Z.succ (m - 1)) at 2 by lia.
        now rewrite Z.double_bits_succ. }
    assert (0 < 2 ^ m) by lia.
    destruct (Z.testbit v (m - 1)).
    - destruct (Z.eqb_spec (2 ^ m) 0); [lia|reflexivity].
    - reflexivity.
Qed.

Lemma testbit_pred_m (v : Z) :
    0 ≤ v < 2 ^ m → Z.testbit v (m - 1) = (2 ^ (m - 1) <=? v).
Proof.
    intros Hv. apply testbit_top; [lia|]. now replace (m - 1 + 1) with m by lia.
Qed.

Lemma shift_reduce_range (v : Z) : 0 ≤ v < 2 ^ m → 0 ≤ sr v < 2 ^ m.
Proof.
    intros Hv. destruct pow2_m_bounds as (H2 & Hs & H32).
    rewrite shift_reduce_eq by assumption.
    assert (Hh : 2 ^ m = 2 * 2 ^ (m - 1)).
    { replace m with (m - 1 + 1) at 1 by lia. rewrite Z.pow_add_r by lia. lia. }
    rewrite testbit_pred_m by assumption.
    destruct (Z.leb_spec (2 ^ (m - 1)) v) as [Hle|Hlt]; [|lia].
    split; [apply Z.lxor_nonneg; lia|].
    apply lt_pow2_bits; [lia|apply Z.lxor_nonneg; lia|].
    intros i Hi. rewrite Z.lxor_spec.
    destruct (Z.eq_dec i m) as [->|Hne].
    - rewrite !(testbit_top m) by lia.
      destruct (Z.leb_spec (2 ^ m) (2 * v)); [|lia].
      destruct (Z.leb_spec (2 ^ m) poly); [reflexivity|lia].
    - rewrite (bits_above_pow2 (m + 1) (2 * v) i), (bits_above_pow2 (m + 1) poly i) by lia.
      reflexivity.
Qed.

Lemma shift_reduce_0 : sr 0 = 0.
Proof.
    destruct pow2_m_bounds as (H2 & Hs & H32).
    rewrite shift_reduce_eq by lia. now rewrite Z.bits_0.
Qed.

  (** Multiplication by alpha is linear over GF(2). *)
Lemma shift_reduce_lxor (a b : Z) :
    0 ≤ a < 2 ^ m → 0 ≤ b < 2 ^ m →
    sr (Z.lxor a b) = Z.lxor (sr a) (sr b).
Proof.
    intros Ha Hb.
    rewrite !shift_reduce_eq by (try apply lxor_range; lia).
    rewrite Z.lxor_spec.
    assert (E : 2 * Z.lxor a b = Z.lxor (2 * a) (2 * b)).
    { replace (2 * Z.lxor a b) with (Z.shiftl (Z.lxor a b) 1)
        by (rewrite Z.shiftl_mul_pow2 by lia; change (2 ^ 1) with 2; lia).
      replace (2 * a) with (Z.shiftl a 1)
        by (rewrite Z.shiftl_mul_pow2 by lia; change (2 ^ 1) with 2; lia).
      replace (2 * b) with (Z.shiftl b 1)
        by (rewrite Z.shiftl_mul_pow2 by lia; change (2 ^ 1) with 2; lia).
      apply Z.shiftl_lxor. }
    rewrite E.
    destruct (Z.testbit a (m - 1)), (Z.testbit b (m - 1)); cbn [xorb].
    - rewrite (Z.lxor_comm (2 * b) poly), Z.lxor_assoc, <- (Z.lxor_assoc poly poly).
      now rewrite Z.lxor_nilpotent, Z.lxor_0_l.
    - rewrite !Z.lxor_assoc. f_equal. apply Z.lxor_comm.
    - now rewrite Z.lxor_assoc.
    - reflexivity.
Qed.

Lemma shift_reduce_bit0 (v : Z) :
    0 ≤ v < 2 ^ m →
    Z.testbit (sr v) 0 = Z.testbit v (m - 1) && Z.testbit poly 0.
Proof.
    intros Hv. rewrite shift_reduce_eq by assumption.
    destruct (Z.testbit v (m - 1)); cbn [andb].
    - rewrite Z.lxor_spec, Z.testbit_even_0. reflexivity.
    - apply Z.testbit_even_0.
Qed.

  (** With a polynomial whose constant term is 1, multiplication by alpha
      is injective. *)
Lemma shift_reduce_inj (a b : Z) :
    Z.testbit poly 0 = true →
    0 ≤ a < 2 ^ m → 0 ≤ b < 2 ^ m → sr a = sr b → a = b.
Proof.
    intros Hodd Ha Hb E.
    assert (Eb : Z.testbit a (m - 1) = Z.testbit b (m - 1)).
    { pose proof (shift_reduce_bit0 a Ha) as H1.
      pose proof (shift_reduce_bit0 b Hb) as H2.
      rewrite Hodd, andb_true_r in H1, H2. congruence. }
    rewrite !shift_reduce_eq in E by assumption. rewrite Eb in E.
    destruct (Z.testbit b (m - 1)).
    - apply lxor_cancel_r in E. lia.
    - lia.
Qed.
End ShiftReduce.

Create HintDb el discriminated.

(** ** Vectors *)

Lemma vector_get_Ok (v : list Z) (i : Z) :
  0 ≤ i < Z.of_nat (length v) → vector_get v i = Ok (nth (Z.to_nat i) v 0).
Proof.
  intros Hi. unfold vector_get. destruct (Z.ltb_spec i 0); [lia|].
  destruct (v !! Z.to_nat i) as [x|] eqn:E.
  - f_equal. symmetry. apply nth_lookup_Some with (d := 0) in E. exact E.
  - apply lookup_ge_None in E. lia.
Qed.

Lemma vector_set_Ok (v : list Z) (i x : Z) :
  0 ≤ i < Z.of_nat (length v) → vector_set v i x = Ok (<[Z.to_nat i := x]> v).
Proof.
  intros Hi. unfold vector_set.
  destruct (Z.leb_spec 0 i); [|lia].
  destruct (Z.ltb_spec i (Z.of_nat (length v))); [reflexivity|lia].
Qed.

Lemma Forall_nth_default {A : Type} (P : A → Prop) (l : list A) (d : A) (i : nat) :
  Forall P l → P d → P (nth i l d).
Proof.
  intros Hl Hd. revert i. induction Hl as [|x l Hx Hl IH]; intros [|i]; cbn; auto.
Qed.

(** ** The powers of alpha under a primitive polynomial *)

Section Primitive.
Variables m poly : Z.
Hypothesis Hm : 3 ≤ m ≤ 12.
Hypothesis Hprim : primitive_polynomial m poly = true.

Let sr := GF.shift_reduce m poly.
Let E := exp_seq m poly.
Let N : nat := Z.to_nat (2 ^ m - 1).

Lemma Hm31 : 1 ≤ m ≤ 31.
Proof. lia. Qed.

Lemma pow2_m_ge8 : 8 ≤ 2 ^ m.
Proof. change 8 with (2 ^ 3). apply Z.pow_le_mono_r; lia. Qed.

Lemma N_eq : Z.of_nat N = 2 ^ m - 1.
Proof. pose proof pow2_m_ge8. unfold N. lia. Qed.

Lemma primitive_poly_range : 2 ^ m ≤ poly < 2 ^ (m + 1).
Proof.
    unfold primitive_polynomial in Hprim.
    apply andb_prop in Hprim as [H1 _]. apply andb_prop in H1 as [H1 _].
    apply andb_prop in H1 as [H1 H2]. lia.
Qed.

Lemma exp_seq_N : E N = 1.
Proof.
    unfold primitive_polynomial in Hprim.
    apply andb_prop in Hprim as [H1 _]. apply andb_prop in H1 as [_ H1].
    apply Z.eqb_eq in H1. exact H1.
Qed.

Lemma exp_seq_not_1 (i : nat) : (1 ≤ i < N)%nat → E i ≠ 1.
Proof.
    intros Hi.
    unfold primitive_polynomial in Hprim.
    apply andb_prop in Hprim as [_ H1].
    rewrite forallb_forall in H1.
    specialize (H1 i). fold N in H1.
    assert (Hin : In i (seq 1 (N - 1))) by (apply in_seq; lia).
    apply H1 in Hin. apply negb_true_iff, Z.eqb_neq in Hin. exact Hin.
Qed.

Lemma exp_seq_S (i : nat) : E (S i) = sr (E i).
Proof. reflexivity. Qed.

Lemma exp_seq_range (i : nat) : 0 ≤ E i < 2 ^ m.
Proof.
    pose proof pow2_m_ge8.
    induction i as [|i IH].
    - unfold E, exp_seq; simpl. lia.
    - rewrite exp_seq_S. apply shift_reduce_range;
        [exact Hm31|exact primitive_poly_range|exact IH].
Qed.

Lemma primitive_poly_odd : Z.testbit poly 0 = true.
Proof.
    pose proof N_eq as HN. pose proof pow2_m_ge8.
    assert (HS : N = S (N - 1)) by lia.
    pose proof exp_seq_N as H1. rewrite HS, exp_seq_S in H1.
    pose proof (shift_reduce_bit0 m poly Hm31 (E (N - 1)) (exp_seq_range _)) as Hb.
    fold sr in Hb. rewrite H1 in Hb. change (Z.testbit 1 0) with true in Hb.
    symmetry in Hb. apply andb_prop in Hb as [_ Hb]. exact Hb.
Qed.

Lemma iter_sr_range (k : nat) (v : Z) :
    0 ≤ v < 2 ^ m → 0 ≤ Nat.iter k sr v < 2 ^ m.
Proof.
    intros Hv. induction k as [|k IH]; [exact Hv|].
    rewrite Nat.iter_succ. apply shift_reduce_range;
      [exact Hm31|exact primitive_poly_range|exact IH].
Qed.

Lemma exp_seq_add (i j : nat) : E (i + j) = Nat.iter i sr (E j).
Proof. unfold E, exp_seq. apply Nat.iter_add. Qed.

Lemma exp_seq_period (i : nat) : E (i + N) = E i.
Proof. rewrite exp_seq_add, exp_seq_N. reflexivity. Qed.

Lemma exp_seq_mul_period (k i : nat) : E (i + k * N) = E i.
Proof.
    induction k as [|k IH].
    - f_equal; lia.
    - replace (i + S k * N)%nat with (i + k * N + N)%nat by lia.
      now rewrite exp_seq_period.
Qed.

Lemma exp_seq_mod (i : nat) : E i = E (i mod N).
Proof.
    pose proof N_eq. pose proof pow2_m_ge8.
    rewrite (Nat.div_mod_eq i N) at 1.
    replace (N * (i / N) + i mod N)%nat with (i mod N + (i / N) * N)%nat by lia.
    apply exp_seq_mul_period.
Qed.

Lemma iter_sr_inj (k : nat) (a b : Z) :
    0 ≤ a < 2 ^ m → 0 ≤ b < 2 ^ m →
    Nat.iter k sr a = Nat.iter k sr b → a = b.
Proof.
    intros Ha Hb. induction k as [|k IH]; [auto|].
    rewrite Nat.iter_succ. intros Heq. apply IH.
    apply (shift_reduce_inj m poly Hm31);
      auto using primitive_poly_odd, iter_sr_range.
Qed.

Lemma exp_seq_inj (i j : nat) : (i < N)%nat → (j < N)%nat → E i = E j → i = j.
Proof.
    assert (Hlt : ∀ i j, (i < j)%nat → (j < N)%nat → E i ≠ E j).
    { intros a b Hab Hb Heq.
      replace b with (a + (b - a))%nat in Heq by lia.
      rewrite exp_seq_add in Heq.
      replace (E a) with (Nat.iter a sr (E 0)) in Heq at 1
        by (rewrite <- exp_seq_add; f_equal; lia).
      apply iter_sr_inj in Heq; try apply exp_seq_range.
      symmetry in Heq. revert Heq. apply exp_seq_not_1. lia. }
    intros Hi Hj Heq.
    destruct (Nat.lt_trichotomy i j) as [H|[H|H]]; [|exact H|].
    - exfalso. exact (Hlt i j H Hj Heq).
    - exfalso. symmetry in Heq. exact (Hlt j i H Hi Heq).
Qed.

Lemma iter_sr_0 (k : nat) : Nat.iter k sr 0 = 0.
Proof.
    induction k as [|k IH]; [reflexivity|].
    rewrite Nat.iter_succ. rewrite IH.
    apply shift_reduce_0. exact Hm31.
Qed.

Lemma exp_seq_nonzero (i : nat) : E i ≠ 0.
Proof.
    pose proof N_eq. pose proof pow2_m_ge8.
    rewrite exp_seq_mod.
    assert (Hi : (i mod N < N)%nat) by (apply Nat.mod_upper_bound; lia).
    generalize dependent (i mod N)%nat. intros j Hj Hz.
    pose proof exp_seq_N as H1.
    replace N with ((N - j) + j)%nat in H1 by lia.
    rewrite exp_seq_add, Hz, iter_sr_0 in H1. discriminate.
Qed.

  (** Every nonzero element is a power of alpha. *)
Lemma exp_seq_surj (a : Z) : 1 ≤ a < 2 ^ m → ∃ i, (i < N)%nat ∧ E i = a.
Proof.
    intros Ha. pose proof N_eq as HN.
    set (l := E <$> seq 0 N).
    assert (Hnd : NoDup l).
    { apply NoDup_fmap_2_strong; [|apply NoDup_seq].
      intros x y Hx Hy. apply elem_of_seq in Hx, Hy. apply exp_seq_inj; lia. }
    assert (Hsub : l ⊆+ seqZ 1 (2 ^ m - 1)).
    { apply NoDup_submseteq; [exact Hnd|].
      intros x Hx. apply list_elem_of_fmap in Hx as (i & -> & _).
      apply elem_of_seqZ. pose proof (exp_seq_range i). pose proof (exp_seq_nonzero i).
      lia. }
    assert (Hperm : l ≡ₚ seqZ 1 (2 ^ m - 1)).
    { apply submseteq_length_Permutation; [exact Hsub|].
      unfold l. rewrite length_seqZ, length_fmap, length_seq. unfold N. lia. }
    assert (Hin : a ∈ l).
    { rewrite Hperm. apply elem_of_seqZ. lia. }
    apply list_elem_of_fmap in Hin as (i & -> & Hi).
    apply elem_of_seq in Hi. exists i. split; [lia|reflexivity].
Qed.

  (** *** What [build_tables] stores *)

Lemma build_exp_table_spec :
    ∃ e v, GF.build_exp_table m poly = Ok (e, v)
           ∧ length e = Z.to_nat (2 ^ m)
           ∧ ∀ i, (i < N)%nat → e !! i = Some (Some (E i)).
Proof.
    pose proof N_eq as HN. pose proof pow2_m_ge8 as H8.
    unfold GF.build_exp_table. rewrite (field_size_eq m Hm31).
    rewrite array_set_Ok by (rewrite array_new_length; lia).
    cbn [mbind result_bind bind].
    set (e0 := <[Z.to_nat 0 := Some 1]> (array_new (2 ^ m))).
    set (I := fun (i : Z) (s : cells * Z) =>
                snd s = E (Z.to_nat (i - 1))
                ∧ length (fst s) = Z.to_nat (2 ^ m)
                ∧ fst s !! 0%nat = Some (Some 1)
                ∧ ∀ j, (1 ≤ j < N)%nat → Z.of_nat j < i →
                       fst s !! j = Some (Some (E j))).
    destruct (for_range_inv I
      (fun i '(e, value) =>
         let value := GF.shift_reduce m poly value in
         e ← array_set e (i mod (2 ^ m - 1)) value; Ok (e, value))
      1 (2 ^ m) (e0, 1)) as ([e v] & Hrun & Hv & Hlen & H0 & Hj).
    - lia.
    - unfold I, e0; cbn [fst snd]. split; [reflexivity|]. split; [|split].
      + rewrite length_insert, array_new_length. reflexivity.
      + apply list_lookup_insert_eq. rewrite array_new_length. lia.
      + intros j Hj1 Hj2. lia.
    - intros i [e v] Hi (Hv & Hlen & H0 & Hj). cbn [fst snd] in *.
      assert (Hidx : 0 ≤ i mod (2 ^ m - 1) < 2 ^ m - 1)
        by (apply Z.mod_pos_bound; lia).
      rewrite array_set_Ok by lia. cbn [mbind result_bind bind].
      eexists; split; [reflexivity|].
      assert (Hval : GF.shift_reduce m poly v = E (Z.to_nat i)).
      { subst v. replace (Z.to_nat i) with (S (Z.to_nat (i - 1))) by lia.
        reflexivity. }
      unfold I; cbn [fst snd]. split; [|split; [|split]].
      + rewrite Hval. f_equal. f_equal. lia.
      + rewrite length_insert. exact Hlen.
      + destruct (Z.eq_dec i (2 ^ m - 1)) as [->|Hne].
        * rewrite Z.mod_same by lia. rewrite Hval.
          rewrite list_lookup_insert_eq by lia.
          replace (Z.to_nat (2 ^ m - 1)) with N by reflexivity.
          now rewrite exp_seq_N.
        * rewrite Z.mod_small by lia.
          rewrite list_lookup_insert_ne by lia. exact H0.
      + intros j Hj1 Hj2.
        destruct (Z.eq_dec (Z.of_nat j) i) as [<-|Hne].
        * rewrite Z.mod_small by lia. rewrite Nat2Z.id.
          rewrite list_lookup_insert_eq by lia. rewrite Hval, Nat2Z.id. reflexivity.
        * assert (Z.to_nat (i mod (2 ^ m - 1)) ≠ j).
          { destruct (Z.eq_dec i (2 ^ m - 1)) as [->|Hne'].
            - rewrite Z.mod_same by lia. lia.
            - rewrite Z.mod_small by lia. lia. }
          rewrite list_lookup_insert_ne by assumption. apply Hj; lia.
    - exists e, v. split; [exact Hrun|]. cbn [fst snd] in *.
      split; [exact Hlen|].
      intros i Hi. destruct i as [|i].
      + exact H0.
      + apply Hj; lia.
Qed.

Lemma build_log_table_spec (e : cells) :
    length e = Z.to_nat (2 ^ m) →
    (∀ i, (i < N)%nat → e !! i = Some (Some (E i))) →
    ∃ l, GF.build_log_table m e = Ok l
         ∧ length l = Z.to_nat (2 ^ m)
         ∧ l !! 0%nat = Some (Some 0)
         ∧ (∀ i, (i < N)%nat → l !! Z.to_nat (E i) = Some (Some (Z.of_nat i)))
         ∧ (∀ a v, l !! a = Some (Some v) → 0 ≤ v < 2 ^ m - 1).
Proof.
    intros Hlen He.
    pose proof N_eq as HN. pose proof pow2_m_ge8 as H8.
    unfold GF.build_log_table. rewrite (field_size_eq m Hm31).
    rewrite array_set_Ok by (rewrite array_new_length; lia).
    cbn [mbind result_bind bind].
    set (l0 := <[Z.to_nat 0 := Some 0]> (array_new (2 ^ m))).
    set (I := fun (i : Z) (l : cells) =>
                length l = Z.to_nat (2 ^ m)
                ∧ l !! 0%nat = Some (Some 0)
                ∧ (∀ j, Z.of_nat j < i → l !! Z.to_nat (E j) = Some (Some (Z.of_nat j)))
                ∧ (∀ a v, l !! a = Some (Some v) → 0 ≤ v < 2 ^ m - 1)).
    destruct (for_range_inv I
      (fun i l => v ← array_get e i; array_set l v i)
      0 (2 ^ m - 1) l0) as (l & Hrun & Hl & H0 & Hj & Hst).
    - lia.
    - unfold I, l0. split; [|split; [|split]].
      + rewrite length_insert, array_new_length. reflexivity.
      + apply list_lookup_insert_eq. rewrite array_new_length. lia.
      + intros j Hj. lia.
      + intros a v H.
        apply list_lookup_insert_Some in H as [(_ & Hv & _)|(_ & H)].
        * injection Hv as <-. lia.
        * unfold array_new in H. apply lookup_replicate in H as [H _]. discriminate.
    - intros i l Hi (Hl & H0 & Hj & Hst).
      pose proof (exp_seq_range (Z.to_nat i)) as Hr.
      pose proof (exp_seq_nonzero (Z.to_nat i)) as Hnz.
      rewrite (array_get_Ok e i (E (Z.to_nat i))) by (try apply He; lia).
      cbn [mbind result_bind bind].
      rewrite array_set_Ok by lia.
      eexists; split; [reflexivity|].
      unfold I. split; [|split; [|split]].
      + rewrite length_insert. exact Hl.
      + rewrite list_lookup_insert_ne by (fold E; lia). exact H0.
      + intros j Hj'.
        destruct (Z.eq_dec (Z.of_nat j) i) as [<-|Hne].
        * rewrite Nat2Z.id. rewrite list_lookup_insert_eq by (pose proof (exp_seq_range j); fold E; lia).
          reflexivity.
        * rewrite list_lookup_insert_ne.
          -- apply Hj; lia.
          -- intros Heq. apply Hne.
             pose proof (exp_seq_range j).
             assert (E (Z.to_nat i) = E j) as Heq' by (unfold E in *; lia).
             apply exp_seq_inj in Heq'; lia.
      + intros a v H.
        apply list_lookup_insert_Some in H as [(_ & Hv & _)|(_ & H)].
        * injection Hv as <-. lia.
        * apply Hst in H. lia.
    - exists l. split; [exact Hrun|]. split; [exact Hl|]. split; [exact H0|].
      split; [|exact Hst]. intros i Hi. apply Hj. lia.
Qed.

Lemma make_valid : ∃ F, GF.make m poly = Ok F ∧ valid_field m poly F.
Proof.
    destruct build_exp_table_spec as (e & v & He & Hlen & Hcells).
    destruct (build_log_table_spec e Hlen Hcells) as (l & Hl & Hll & H0 & Hlog & Hst).
    exists (GF.mkGaloisField m e l poly). split.
    - unfold GF.make, GF.build_tables. rewrite He. cbn [mbind result_bind bind].
      rewrite Hl. reflexivity.
    - unfold valid_field; cbn. auto 10.
Qed.

  (** *** The operations of a well-formed field *)

Variable F : GF.GaloisField.
Hypothesis Hvalid : valid_field m poly F.

Lemma valid_fs : GF.field_size (GF.gf_m F) = 2 ^ m.
Proof. destruct Hvalid as (-> & _). apply field_size_eq, Hm31. Qed.

Lemma exp_get (k : Z) :
    0 ≤ k < 2 ^ m - 1 → array_get (GF.exp_table F) k = Ok (E (Z.to_nat k)).
Proof.
    intros Hk. destruct Hvalid as (_ & _ & _ & _ & He & _).
    apply array_get_Ok; [lia|]. apply He. lia.
Qed.

Lemma exp_get_mod (x : Z) :
    array_get (GF.exp_table F) (x mod (2 ^ m - 1))
    = Ok (E (Z.to_nat (x mod (2 ^ m - 1)))).
Proof. pose proof pow2_m_ge8. apply exp_get. apply Z.mod_pos_bound. lia. Qed.

Lemma log_get (a : Z) :
    1 ≤ a < 2 ^ m →
    ∃ i, (i < N)%nat ∧ E i = a ∧ array_get (GF.log_table F) a = Ok (Z.of_nat i).
Proof.
    intros Ha. destruct (exp_seq_surj a Ha) as (i & Hi & Hia).
    exists i. split; [exact Hi|]. split; [exact Hia|].
    destruct Hvalid as (_ & _ & _ & _ & _ & _ & Hl & _).
    apply array_get_Ok; [lia|]. rewrite <- Hia. apply Hl. exact Hi.
Qed.

Lemma exp_seq_Zmod (x : Z) :
    0 ≤ x → E (Z.to_nat (x mod (2 ^ m - 1))) = E (Z.to_nat x).
Proof.
    intros Hx. pose proof pow2_m_ge8. pose proof N_eq as HN.
    rewrite (exp_seq_mod (Z.to_nat x)). f_equal.
    apply Nat2Z.inj. rewrite Nat2Z.inj_mod, HN, !Z2Nat.id; try lia.
    apply Z.mod_pos_bound. lia.
Qed.

Lemma dlog_spec (a : Z) :
    1 ≤ a < 2 ^ m →
    (dlog F a < N)%nat ∧ E (dlog F a) = a
    ∧ array_get (GF.log_table F) a = Ok (Z.of_nat (dlog F a)).
Proof.
    intros Ha. destruct (log_get a Ha) as (i & Hi & Hia & Hget).
    apply array_get_inv in Hget as [_ Hl].
    unfold dlog. rewrite Hl, Nat2Z.id.
    split; [exact Hi|]. split; [exact Hia|].
    apply array_get_Ok; [lia|exact Hl].
Qed.

Lemma dlog_exp (i : nat) : (i < N)%nat → dlog F (E i) = i.
Proof.
    intros Hi. destruct Hvalid as (_ & _ & _ & _ & _ & _ & Hl & _).
    unfold dlog, E. rewrite (Hl i Hi). apply Nat2Z.id.
Qed.

Lemma gmul_unfold (a b : Z) :
    gmul F a b = if a =? 0 then 0 else Nat.iter (dlog F a) sr b.
Proof.
    unfold gmul, sr. destruct Hvalid as (-> & -> & _). reflexivity.
Qed.

Lemma gmul_0_l (b : Z) : gmul F 0 b = 0.
Proof. reflexivity. Qed.

Lemma gmul_0_r (a : Z) : gmul F a 0 = 0.
Proof.
    rewrite gmul_unfold. destruct (a =? 0); [reflexivity|apply iter_sr_0].
Qed.

Lemma gmul_exp (a b : Z) :
    1 ≤ a < 2 ^ m → 1 ≤ b < 2 ^ m → gmul F a b = E (dlog F a + dlog F b).
Proof.
    intros Ha Hb. rewrite gmul_unfold.
    destruct (Z.eqb_spec a 0); [lia|].
    destruct (dlog_spec b Hb) as (_ & Hb' & _).
    rewrite <- Hb' at 1. symmetry. apply exp_seq_add.
Qed.

Lemma gmul_range (a b : Z) : element m a → element m b → element m (gmul F a b).
Proof.
    unfold element. intros Ha Hb. rewrite gmul_unfold.
    destruct (a =? 0); [pose proof pow2_m_ge8; lia|].
    apply iter_sr_range; exact Hb.
Qed.

Lemma gmul_nonzero (a b : Z) :
    1 ≤ a < 2 ^ m → 1 ≤ b < 2 ^ m → 1 ≤ gmul F a b < 2 ^ m.
Proof.
    intros Ha Hb. rewrite gmul_exp by assumption.
    pose proof (exp_seq_range (dlog F a + dlog F b)).
    pose proof (exp_seq_nonzero (dlog F a + dlog F b)). lia.
Qed.

Lemma gmul_comm (a b : Z) : element m a → element m b → gmul F a b = gmul F b a.
Proof.
    unfold element. intros Ha Hb.
    destruct (Z.eq_dec a 0) as [->|Ha0]; [now rewrite gmul_0_l, gmul_0_r|].
    destruct (Z.eq_dec b 0) as [->|Hb0]; [now rewrite gmul_0_l, gmul_0_r|].
    rewrite !gmul_exp by lia. f_equal. lia.
Qed.

Lemma dlog_gmul (a b : Z) :
    1 ≤ a < 2 ^ m → 1 ≤ b < 2 ^ m →
    dlog F (gmul F a b) = ((dlog F a + dlog F b) mod N)%nat.
Proof.
    intros Ha Hb. pose proof N_eq. pose proof pow2_m_ge8.
    rewrite gmul_exp by assumption. rewrite exp_seq_mod.
    apply dlog_exp. apply Nat.mod_upper_bound. lia.
Qed.

Lemma gmul_assoc (a b c : Z) :
    element m a → element m b → element m c →
    gmul F (gmul F a b) c = gmul F a (gmul F b c).
Proof.
    unfold element. intros Ha Hb Hc. pose proof N_eq. pose proof pow2_m_ge8.
    destruct (Z.eq_dec a 0) as [->|Ha0]; [now rewrite !gmul_0_l|].
    destruct (Z.eq_dec b 0) as [->|Hb0]; [now rewrite gmul_0_l, gmul_0_r, gmul_0_l|].
    destruct (Z.eq_dec c 0) as [->|Hc0]; [now rewrite !gmul_0_r|].
    pose proof (gmul_nonzero a b ltac:(lia) ltac:(lia)).
    pose proof (gmul_nonzero b c ltac:(lia) ltac:(lia)).
    rewrite (gmul_exp (gmul F a b) c) by lia.
    rewrite (gmul_exp a (gmul F b c)) by lia.
    rewrite !dlog_gmul by lia.
    rewrite exp_seq_mod. rewrite (exp_seq_mod (dlog F a + _)).
    f_equal.
    rewrite Nat.Div0.add_mod_idemp_l, Nat.Div0.add_mod_idemp_r. f_equal. lia.
Qed.

Lemma iter_sr_lxor (k : nat) (a b : Z) :
    element m a → element m b →
    Nat.iter k sr (Z.lxor a b) = Z.lxor (Nat.iter k sr a) (Nat.iter k sr b).
Proof.
    unfold element. intros Ha Hb. induction k as [|k IH]; [reflexivity|].
    rewrite !Nat.iter_succ, IH.
    apply (shift_reduce_lxor m poly Hm31); apply iter_sr_range; assumption.
Qed.

Lemma gmul_lxor_r (a b c : Z) :
    element m b → element m c →
    gmul F a (Z.lxor b c) = Z.lxor (gmul F a b) (gmul F a c).
Proof.
    intros Hb Hc. rewrite !gmul_unfold.
    destruct (a =? 0); [reflexivity|]. apply iter_sr_lxor; assumption.
Qed.

Lemma element_lxor (a b : Z) : element m a → element m b → element m (Z.lxor a b).
Proof. unfold element. intros. apply lxor_range; lia. Qed.

Lemma gmul_lxor_l (a b c : Z) :
    element m a → element m b → element m c →
    gmul F (Z.lxor a b) c = Z.lxor (gmul F a c) (gmul F b c).
Proof.
    intros Ha Hb Hc.
    rewrite (gmul_comm (Z.lxor a b) c), gmul_lxor_r by auto using element_lxor.
    f_equal; apply gmul_comm; assumption.
Qed.

Lemma dlog_1 : dlog F 1 = 0%nat.
Proof.
    pose proof N_eq. pose proof pow2_m_ge8.
    change 1 with (E 0). apply dlog_exp. lia.
Qed.

Lemma gmul_1_l (b : Z) : gmul F 1 b = b.
Proof. rewrite gmul_unfold. cbn. rewrite dlog_1. reflexivity. Qed.

Lemma gmul_1_r (a : Z) : element m a → gmul F a 1 = a.
Proof.
    intros Ha. pose proof pow2_m_ge8.
    rewrite gmul_comm by (unfold element in *; auto; lia). apply gmul_1_l.
Qed.

Lemma small_uint32_size_t (x : Z) : 0 ≤ x < 2 ^ 32 → size_t (uint32 x) = x.
Proof.
    intros Hx. unfold size_t, uint32.
    rewrite (Z.mod_small x (2 ^ 32)) by lia. apply Z.mod_small. lia.
Qed.

Lemma pow2_m_le_4096 : 2 ^ m ≤ 4096.
Proof. change 4096 with (2 ^ 12). apply Z.pow_le_mono_r; lia. Qed.

  (** [multiply] returns the product and reads the tables in range. *)
Lemma multiply_gmul (a b : Z) :
    element m a → element m b → GF.multiply F a b = Ok (gmul F a b).
Proof.
    unfold element. intros Ha Hb.
    pose proof pow2_m_ge8. pose proof pow2_m_le_4096. pose proof N_eq as HN.
    unfold GF.multiply.
    destruct (Z.eqb_spec a 0) as [->|Ha0]; [reflexivity|].
    destruct (Z.eqb_spec b 0) as [->|Hb0]; [now rewrite gmul_0_r|].
    cbn [orb].
    destruct (dlog_spec a ltac:(lia)) as (Hia & _ & ->).
    destruct (dlog_spec b ltac:(lia)) as (Hib & _ & ->).
    cbn [mbind result_bind bind]. unfold GF.log_sum.
    rewrite valid_fs, small_uint32_size_t by lia.
    rewrite exp_get_mod, exp_seq_Zmod by lia.
    rewrite gmul_exp by lia. f_equal. f_equal. lia.
Qed.

Lemma exp_get_element (x : Z) :
    ∃ v, array_get (GF.exp_table F) (x mod (2 ^ m - 1)) = Ok v ∧ 1 ≤ v < 2 ^ m.
Proof.
    eexists. split; [apply exp_get_mod|].
    pose proof (exp_seq_range (Z.to_nat (x mod (2 ^ m - 1)))).
    pose proof (exp_seq_nonzero (Z.to_nat (x mod (2 ^ m - 1)))).
    lia.
Qed.

Lemma power_Ok (a e : Z) :
    element m a → ∃ v, GF.power F a e = Ok v ∧ element m v.
Proof.
    unfold element. intros Ha. pose proof pow2_m_ge8.
    unfold GF.power.
    destruct (Z.eqb_spec a 0) as [->|Ha0].
    - eexists; split; [reflexivity|]. destruct (e =? 0); lia.
    - destruct (dlog_spec a ltac:(lia)) as (_ & _ & ->).
      cbn [mbind result_bind bind]. unfold GF.log_result. rewrite valid_fs.
      destruct (exp_get_element (size_t (Z.of_nat (dlog F a) * e))) as (v & -> & Hv).
      exists v. split; [reflexivity|lia].
Qed.

Lemma divide_Ok (a b : Z) :
    element m a → element m b → b ≠ 0 →
    ∃ v, GF.divide F a b = Ok v ∧ element m v.
Proof.
    unfold element. intros Ha Hb Hb0. pose proof pow2_m_ge8.
    unfold GF.divide.
    destruct (Z.eqb_spec b 0) as [|_]; [contradiction|].
    destruct (Z.eqb_spec a 0) as [->|Ha0].
    - eexists; split; [reflexivity|lia].
    - destruct (dlog_spec a ltac:(lia)) as (_ & _ & ->).
      destruct (dlog_spec b ltac:(lia)) as (_ & _ & ->).
      cbn [mbind result_bind bind]. unfold GF.log_diff. rewrite valid_fs.
      match goal with |- context [array_get _ (?x mod _)] =>
        destruct (exp_get_element x) as (v & -> & Hv) end.
      exists v. split; [reflexivity|lia].
Qed.

Lemma inverse_Ok (a : Z) :
    element m a → a ≠ 0 →
    ∃ v, GF.inverse F a = Ok v ∧ element m v ∧ gmul F a v = 1.
Proof.
    unfold element. intros Ha Ha0.
    pose proof pow2_m_ge8. pose proof pow2_m_le_4096. pose proof N_eq as HN.
    unfold GF.inverse.
    destruct (Z.eqb_spec a 0) as [|_]; [contradiction|].
    destruct (dlog_spec a ltac:(lia)) as (Hla & Hea & ->).
    cbn [mbind result_bind bind]. unfold GF.inv_log. rewrite valid_fs.
    assert (Hs : size_t (2 ^ m - 1 - Z.of_nat (dlog F a))
                 = Z.of_nat (N - dlog F a)).
    { unfold size_t. rewrite Z.mod_small; lia. }
    rewrite Hs, exp_get_mod, exp_seq_Zmod, Nat2Z.id by lia.
    eexists. split; [reflexivity|].
    pose proof (exp_seq_range (N - dlog F a)).
    pose proof (exp_seq_nonzero (N - dlog F a)).
    split; [unfold E in *; lia|].
    rewrite gmul_unfold. destruct (Z.eqb_spec a 0); [contradiction|].
    rewrite <- exp_seq_add.
    replace (dlog F a + (N - dlog F a))%nat with N by lia.
    apply exp_seq_N.
Qed.

  (** *** Horner evaluation over the field *)

Lemma element_0 : element m 0.
Proof. pose proof pow2_m_ge8. unfold element. lia. Qed.

Lemma element_1 : element m 1.
Proof. pose proof pow2_m_ge8. unfold element. lia. Qed.

Hint Resolve element_0 element_1 element_lxor gmul_range : el.

Lemma horner_cons (c : Z) (cs : list Z) (x : Z) :
    horner F (c :: cs) x = Z.lxor (gmul F (horner F cs x) x) c.
Proof. reflexivity. Qed.

Lemma horner_range (cs : list Z) (x : Z) :
    Forall (element m) cs → element m x → element m (horner F cs x).
Proof.
    intros Hcs Hx. induction Hcs as [|c cs Hc Hcs IH]; [apply element_0|].
    rewrite horner_cons. auto with el.
Qed.

Lemma gpow_range (x : Z) (k : nat) : element m x → element m (gpow F x k).
Proof.
    intros Hx. induction k as [|k IH]; [apply element_1|].
    unfold gpow. rewrite Nat.iter_succ. fold (gpow F x k). auto with el.
Qed.

Hint Resolve horner_range gpow_range : el.

Lemma gpow_S (x : Z) (k : nat) : gpow F x (S k) = gmul F (gpow F x k) x.
Proof. reflexivity. Qed.

Lemma horner_zeros (z : nat) (x : Z) : horner F (replicate z 0) x = 0.
Proof.
    induction z as [|z IH]; [reflexivity|].
    cbn [replicate]. rewrite horner_cons, IH, gmul_0_l. reflexivity.
Qed.

Lemma horner_app_zeros (cs : list Z) (z : nat) (x : Z) :
    horner F (cs ++ replicate z 0) x = horner F cs x.
Proof.
    induction cs as [|c cs IH]; [apply horner_zeros|].
    cbn [app]. rewrite !horner_cons, IH. reflexivity.
Qed.

  (** horner (l ++ [c]) = horner l + c x^|l| *)
Lemma horner_snoc (cs : list Z) (c x : Z) :
    Forall (element m) cs → element m c → element m x →
    horner F (cs ++ [c]) x
    = Z.lxor (horner F cs x) (gmul F c (gpow F x (length cs))).
Proof.
    intros Hcs Hc Hx. induction Hcs as [|c0 cs Hc0 Hcs IH].
    - cbn [app length]. rewrite horner_cons. cbn [horner fold_right].
      rewrite gmul_0_l, Z.lxor_0_l, Z.lxor_0_l.
      change (gpow F x 0) with 1. now rewrite gmul_1_r.
    - cbn [app length]. rewrite !horner_cons, IH, gpow_S.
      rewrite gmul_lxor_l by auto with el.
      rewrite (gmul_assoc c) by auto with el.
      rewrite !Z.lxor_assoc. f_equal. apply Z.lxor_comm.
Qed.

  (** Adding [v] to coefficient [k] adds [v x^k] to the value. *)
Lemma horner_update (res : list Z) (k : nat) (v x : Z) :
    Forall (element m) res → element m v → element m x →
    (k < length res)%nat →
    horner F (<[k := Z.lxor (nth k res 0) v]> res) x
    = Z.lxor (horner F res x) (gmul F v (gpow F x k)).
Proof.
    intros Hres Hv Hx. revert k.
    induction Hres as [|r0 res Hr0 Hres IH]; intros k Hk; [cbn in Hk; lia|].
    destruct k as [|k].
    - cbn [nth]. change (<[0%nat := Z.lxor r0 v]> (r0 :: res)) with (Z.lxor r0 v :: res).
      rewrite !horner_cons. change (gpow F x 0) with 1.
      rewrite gmul_1_r by assumption. now rewrite Z.lxor_assoc.
    - cbn [nth].
      change (<[S k := Z.lxor (nth k res 0) v]> (r0 :: res))
        with (r0 :: <[k := Z.lxor (nth k res 0) v]> res).
      rewrite !horner_cons, IH by (cbn in Hk; lia).
      rewrite gmul_lxor_l by auto with el.
      rewrite gpow_S, (gmul_assoc v) by auto with el.
      rewrite !Z.lxor_assoc. f_equal. apply Z.lxor_comm.
Qed.

Lemma gpow_add (x : Z) (i j : nat) :
    element m x → gpow F x (i + j) = gmul F (gpow F x i) (gpow F x j).
Proof.
    intros Hx. induction j as [|j IH].
    - rewrite Nat.add_0_r. change (gpow F x 0) with 1.
      now rewrite gmul_1_r by auto with el.
    - rewrite Nat.add_succ_r, !gpow_S, IH.
      now rewrite gmul_assoc by auto with el.
Qed.

  (** *** [GFPolynomial]: evaluation *)

Lemma foldM_horner_step (rest : list Z) (acc x : Z) :
    Forall (element m) rest → element m acc → element m x →
    foldM (fun result ci => r ← GF.multiply F result x; Ok (GF.add r ci)) rest acc
    = Ok (fold_left (fun acc c => Z.lxor (gmul F acc x) c) rest acc).
Proof.
    intros Hrest. revert acc.
    induction Hrest as [|c rest Hc Hrest IH]; intros acc Hacc Hx; [reflexivity|].
    cbn [foldM fold_left]. rewrite multiply_gmul by assumption.
    cbn [mbind result_bind bind]. unfold GF.add. apply IH; auto with el.
Qed.

Lemma evaluate_horner (cs : list Z) (x : Z) :
    Forall (element m) cs → element m x →
    GFPolynomial.evaluate (GFPolynomial.mk cs F) x = Ok (horner F cs x).
Proof.
    intros Hcs Hx. unfold GFPolynomial.evaluate. cbn [GFPolynomial.coefficients GFPolynomial.field].
    assert (Hh : horner F cs x
                 = fold_left (fun acc c => Z.lxor (gmul F acc x) c) (rev cs) 0).
    { unfold horner. rewrite <- (rev_involutive cs) at 1.
      exact (fold_left_rev_right (fun c acc => Z.lxor (gmul F acc x) c) (rev cs) 0). }
    rewrite Hh. clear Hh.
    assert (Hrev : Forall (element m) (rev cs)) by now apply Forall_rev.
    destruct (rev cs) as [|back rest]; [reflexivity|].
    apply Forall_cons_1 in Hrev as [Hb Hrest].
    rewrite foldM_horner_step by assumption.
    cbn [fold_left]. now rewrite gmul_0_l, Z.lxor_0_l.
Qed.

Lemma pop_zeros_spec (l : list Z) :
    ∃ z, l = replicate z 0 ++ GFPolynomial.pop_zeros l.
Proof.
    induction l as [|c l (z & IH)]; [exists 0%nat; reflexivity|].
    cbn [GFPolynomial.pop_zeros]. destruct (Z.eqb_spec c 0) as [->|Hc].
    - exists (S z). cbn [replicate app]. now rewrite <- IH.
    - exists 0%nat. reflexivity.
Qed.

Lemma pop_zeros_Forall (P : Z → Prop) (l : list Z) :
    Forall P l → Forall P (GFPolynomial.pop_zeros l).
Proof.
    induction 1 as [|c l Hc Hl IH]; [constructor|].
    cbn [GFPolynomial.pop_zeros]. destruct (c =? 0); [exact IH|now constructor].
Qed.

Lemma normalize_Forall (cs : list Z) :
    Forall (element m) cs → Forall (element m) (GFPolynomial.normalize cs).
Proof.
    intros Hcs. unfold GFPolynomial.normalize.
    assert (H : Forall (element m) (GFPolynomial.pop_zeros (rev cs)))
      by now apply pop_zeros_Forall, Forall_rev.
    destruct (GFPolynomial.pop_zeros (rev cs)) as [|c r] eqn:Epz.
    - constructor; [apply element_0|constructor].
    - now apply Forall_rev.
Qed.

Lemma replicate_rev_zeros (z : nat) : rev (replicate z 0) = replicate z 0.
Proof.
    induction z as [|z IH]; [reflexivity|].
    cbn [replicate rev]. rewrite IH.
    clear IH. induction z as [|z IH]; [reflexivity|].
    cbn [replicate app]. now rewrite IH.
Qed.

Lemma horner_normalize (cs : list Z) (x : Z) :
    horner F (GFPolynomial.normalize cs) x = horner F cs x.
Proof.
    unfold GFPolynomial.normalize.
    destruct (pop_zeros_spec (rev cs)) as (z & Hz).
    assert (Hcs : cs = rev (GFPolynomial.pop_zeros (rev cs)) ++ replicate z 0).
    { rewrite <- (rev_involutive cs) at 1. rewrite Hz at 1.
      now rewrite rev_app_distr, replicate_rev_zeros. }
    destruct (GFPolynomial.pop_zeros (rev cs)) as [|c r] eqn:Epz.
    - rewrite Hcs. cbn [rev app]. rewrite horner_zeros.
      apply (horner_zeros 1).
    - rewrite Hcs. now rewrite horner_app_zeros.
Qed.

Lemma evaluate_make (cs : list Z) (x : Z) :
    Forall (element m) cs → element m x →
    GFPolynomial.evaluate (GFPolynomial.make F cs) x = Ok (horner F cs x).
Proof.
    intros Hcs Hx. unfold GFPolynomial.make.
    rewrite evaluate_horner by auto using normalize_Forall.
    now rewrite horner_normalize.
Qed.

  (** *** [GFPolynomial]: addition *)


Lemma horner_pointwise_add (n : nat) (a b : list Z) (x : Z) :
    (length a ≤ n)%nat → (length b ≤ n)%nat →
    Forall (element m) a → Forall (element m) b → element m x →
    horner F (map (fun i => Z.lxor (nth i a 0) (nth i b 0)) (seq 0 n)) x
    = Z.lxor (horner F a x) (horner F b x).
Proof.
    intros Ha Hb Hae Hbe Hx. revert a b Ha Hb Hae Hbe.
    induction n as [|n IH]; intros a b Ha Hb Hae Hbe.
    - destruct a; [|cbn in Ha; lia]. destruct b; [|cbn in Hb; lia]. reflexivity.
    - cbn [seq map]. rewrite <- seq_shift, map_map, horner_cons.
      assert (Htl : ∀ l : list Z, Forall (element m) l → Forall (element m) (tl l))
        by (intros l Hl; destruct Hl; [constructor|assumption]).
      assert (Hlen : ∀ l : list Z, (length l ≤ S n)%nat → (length (tl l) ≤ n)%nat)
        by (intros l Hl; destruct l; cbn in *; lia).
      rewrite (map_ext _ (fun i => Z.lxor (nth i (tl a) 0) (nth i (tl b) 0))).
      2:{ intros i. destruct a, b; cbn [tl nth]; destruct i; reflexivity. }
      rewrite IH by auto.
      assert (Hh : ∀ l : list Z,
                 horner F l x = Z.lxor (gmul F (horner F (tl l) x) x) (nth 0 l 0)).
      { intros [|c l]; reflexivity. }
      rewrite (Hh a), (Hh b).
      rewrite gmul_lxor_l by auto with el.
      rewrite !Z.lxor_assoc. f_equal.
      rewrite <- !Z.lxor_assoc. f_equal. apply Z.lxor_comm.
Qed.


  (** *** [GFPolynomial]: multiplication *)

Lemma gmul_swap4 (a b c d : Z) :
    element m a → element m b → element m c → element m d →
    gmul F (gmul F a b) (gmul F c d) = gmul F (gmul F a c) (gmul F b d).
Proof.
    intros Ha Hb Hc Hd.
    rewrite (gmul_assoc a b) by auto with el.
    rewrite <- (gmul_assoc b c d) by auto with el.
    rewrite (gmul_comm b c) by auto with el.
    rewrite (gmul_assoc c b d) by auto with el.
    now rewrite <- (gmul_assoc a c) by auto with el.
Qed.

Lemma is_zero_horner (a : list Z) (x : Z) :
    forallb (fun e => e =? 0) a = true → horner F a x = 0.
Proof.
    induction a as [|c a IH]; [reflexivity|].
    cbn [forallb]. intros H. apply andb_prop in H as [Hc Ha].
    apply Z.eqb_eq in Hc. subst c.
    now rewrite horner_cons, IH, gmul_0_l.
Qed.

Lemma Forall_insert_element (l : list Z) (i : nat) (v : Z) :
    Forall (element m) l → element m v → Forall (element m) (<[i := v]> l).
Proof. intros Hl Hv. apply Forall_insert; assumption. Qed.

Lemma take_S_nth (l : list Z) (j : nat) :
    (j < length l)%nat → take (S j) l = take j l ++ [nth j l 0].
Proof.
    intros Hj. apply take_S_r.
    destruct (nth_lookup_or_length l j 0) as [H|H]; [exact H|lia].
Qed.

  (** Row [i] of the schoolbook product adds [a_i x^i b(x)] to the value. *)
Lemma mul_inner_loop (a b : list Z) (x : Z) (i : Z) (res0 : list Z) :
    Forall (element m) a → Forall (element m) b → element m x →
    0 ≤ i < size a →
    length res0 = Z.to_nat (size a + size b - 1) →
    Forall (element m) res0 →
    ∃ res,
      for_range 0 (size b)
        (fun j result =>
           ci ← vector_get a i;
           oj ← vector_get b j;
           product ← GF.multiply F ci oj;
           r ← vector_get result (i + j);
           vector_set result (i + j) (GF.add r product))
        res0 = Ok res
      ∧ length res = length res0
      ∧ Forall (element m) res
      ∧ horner F res x
        = Z.lxor (horner F res0 x)
            (gmul F (gmul F (nth (Z.to_nat i) a 0) (gpow F x (Z.to_nat i)))
                    (horner F b x)).
Proof.
    intros Ha Hb Hx Hi Hlen Hres0. unfold size in *.
    set (ai := nth (Z.to_nat i) a 0).
    assert (Hai : element m ai) by (apply Forall_nth_default; auto using element_0).
    set (I := fun (j : Z) (res : list Z) =>
                length res = length res0
                ∧ Forall (element m) res
                ∧ horner F res x
                  = Z.lxor (horner F res0 x)
                      (gmul F (gmul F ai (gpow F x (Z.to_nat i)))
                              (horner F (take (Z.to_nat j) b) x))).
    destruct (for_range_inv I
      (fun j result =>
         ci ← vector_get a i;
         oj ← vector_get b j;
         product ← GF.multiply F ci oj;
         r ← vector_get result (i + j);
         vector_set result (i + j) (GF.add r product))
      0 (Z.of_nat (length b)) res0) as (res & Hrun & Hl & Hel & Hh).
    - lia.
    - unfold I. split; [reflexivity|]. split; [assumption|].
      change (Z.to_nat 0) with 0%nat. rewrite take_0.
      change (horner F [] x) with 0. now rewrite gmul_0_r, Z.lxor_0_r.
    - intros j res Hj (Hl & Hel & Hh).
      set (bj := nth (Z.to_nat j) b 0).
      assert (Hbj : element m bj) by (apply Forall_nth_default; auto using element_0).
      rewrite (vector_get_Ok a i) by lia. cbn [mbind result_bind bind].
      rewrite (vector_get_Ok b j) by lia. cbn [mbind result_bind bind].
      fold ai bj. rewrite multiply_gmul by assumption.
      cbn [mbind result_bind bind].
      rewrite (vector_get_Ok res (i + j)) by lia. cbn [mbind result_bind bind].
      rewrite vector_set_Ok by lia.
      eexists. split; [reflexivity|]. unfold I, GF.add.
      split; [now rewrite length_insert|].
      split.
      { apply Forall_insert_element; [assumption|].
        apply element_lxor; [apply Forall_nth_default; auto using element_0|auto with el]. }
      rewrite horner_update by (auto with el; lia).
      rewrite Hh.
      replace (Z.to_nat (j + 1)) with (S (Z.to_nat j)) by lia.
      rewrite take_S_nth by lia. fold bj.
      rewrite horner_snoc by (auto using Forall_take with el).
      rewrite length_take_le by lia.
      rewrite gmul_lxor_r by (auto using Forall_take with el).
      rewrite Z.lxor_assoc. f_equal. f_equal.
      replace (Z.to_nat (i + j)) with (Z.to_nat i + Z.to_nat j)%nat by lia.
      rewrite gpow_add by assumption.
      now rewrite gmul_swap4 by auto with el.
    - exists res. split; [exact Hrun|]. split; [exact Hl|]. split; [exact Hel|].
      rewrite Hh. rewrite Nat2Z.id, firstn_all. reflexivity.
Qed.

Lemma mul_loops (a b : list Z) (x : Z) :
    Forall (element m) a → Forall (element m) b → element m x →
    ∃ res,
      for_range 0 (size a)
        (fun i result =>
           for_range 0 (size b)
             (fun j result =>
                ci ← vector_get a i;
                oj ← vector_get b j;
                product ← GF.multiply F ci oj;
                r ← vector_get result (i + j);
                vector_set result (i + j) (GF.add r product))
             result)
        (vector_zeros (size a + size b - 1)) = Ok res
      ∧ Forall (element m) res
      ∧ horner F res x = gmul F (horner F a x) (horner F b x).
Proof.
    intros Ha Hb Hx.
    set (L := Z.to_nat (size a + size b - 1)).
    set (I := fun (i : Z) (res : list Z) =>
                length res = L
                ∧ Forall (element m) res
                ∧ horner F res x
                  = gmul F (horner F (take (Z.to_nat i) a) x) (horner F b x)).
    destruct (for_range_inv I
      (fun i result =>
         for_range 0 (size b)
           (fun j result =>
              ci ← vector_get a i;
              oj ← vector_get b j;
              product ← GF.multiply F ci oj;
              r ← vector_get result (i + j);
              vector_set result (i + j) (GF.add r product))
           result)
      0 (size a) (vector_zeros (size a + size b - 1))) as (res & Hrun & Hl & Hel & Hh).
    - unfold size. lia.
    - unfold I, vector_zeros. split; [apply length_replicate|].
      split; [apply Forall_replicate, element_0|].
      now rewrite horner_zeros.
    - intros i res Hi (Hl & Hel & Hh).
      destruct (mul_inner_loop a b x i res Ha Hb Hx Hi Hl Hel)
        as (res' & Hrun & Hl' & Hel' & Hh').
      exists res'. split; [exact Hrun|]. unfold I.
      split; [congruence|]. split; [exact Hel'|].
      rewrite Hh', Hh.
      assert (Hai : element m (nth (Z.to_nat i) a 0))
        by (apply Forall_nth_default; auto using element_0).
      rewrite <- gmul_lxor_l by (auto using Forall_take with el).
      f_equal.
      replace (Z.to_nat (i + 1)) with (S (Z.to_nat i)) by lia.
      rewrite take_S_nth by (unfold size in Hi; lia).
      rewrite horner_snoc by (auto using Forall_take with el).
      rewrite length_take_le by (unfold size in Hi; lia). reflexivity.
    - exists res. split; [exact Hrun|]. split; [exact Hel|].
      rewrite Hh. unfold size. now rewrite Nat2Z.id, firstn_all.
Qed.

Lemma mul_spec_at (a b : list Z) (x : Z) :
    Forall (element m) a → Forall (element m) b → element m x →
    ∃ r, GFPolynomial.mul (GFPolynomial.mk a F) (GFPolynomial.mk b F) = Ok r
         ∧ GFPolynomial.field r = F
         ∧ Forall (element m) (GFPolynomial.coefficients r)
         ∧ horner F (GFPolynomial.coefficients r) x
           = gmul F (horner F a x) (horner F b x).
Proof.
    intros Ha Hb Hx. unfold GFPolynomial.mul, GFPolynomial.is_zero.
    cbn [GFPolynomial.coefficients GFPolynomial.field].
    destruct (forallb (fun e => e =? 0) a) eqn:Eza.
    { eexists. split; [reflexivity|]. unfold GFPolynomial.make.
      cbn [GFPolynomial.coefficients GFPolynomial.field].
      split; [reflexivity|]. split.
      - apply normalize_Forall. constructor; [apply element_0|constructor].
      - rewrite horner_normalize, (is_zero_horner a) by assumption.
        reflexivity. }
    destruct (forallb (fun e => e =? 0) b) eqn:Ezb.
    { eexists. split; [reflexivity|]. unfold GFPolynomial.make.
      cbn [GFPolynomial.coefficients GFPolynomial.field].
      split; [reflexivity|]. split.
      - apply normalize_Forall. constructor; [apply element_0|constructor].
      - rewrite horner_normalize, (is_zero_horner b), gmul_0_r by assumption.
        reflexivity. }
    cbn [orb].
    destruct (mul_loops a b x Ha Hb Hx) as (res & -> & Hel & Hh).
    cbn [mbind result_bind bind].
    eexists. split; [reflexivity|]. unfold GFPolynomial.make.
    cbn [GFPolynomial.coefficients GFPolynomial.field].
    split; [reflexivity|]. split; [now apply normalize_Forall|].
    now rewrite horner_normalize.
Qed.

Lemma mul_spec (a b : list Z) :
    Forall (element m) a → Forall (element m) b →
    ∃ r, GFPolynomial.mul (GFPolynomial.mk a F) (GFPolynomial.mk b F) = Ok r
         ∧ GFPolynomial.field r = F
         ∧ Forall (element m) (GFPolynomial.coefficients r)
         ∧ ∀ x, element m x →
                horner F (GFPolynomial.coefficients r) x
                = gmul F (horner F a x) (horner F b x).
Proof.
    intros Ha Hb.
    destruct (mul_spec_at a b 0 Ha Hb element_0) as (r & Hr & Hf & Hel & _).
    exists r. split; [exact Hr|]. split; [exact Hf|]. split; [exact Hel|].
    intros x Hx.
    destruct (mul_spec_at a b x Ha Hb Hx) as (r' & Hr' & _ & _ & Hh).
    congruence.
Qed.

(** *** The library's own primitivity test accepts the polynomial *)

Lemma element_alpha : element m GF.primitive_element.
Proof. pose proof pow2_m_ge8. unfold element, GF.primitive_element. lia. Qed.

Lemma exp_seq_1 : E 1 = GF.primitive_element.
Proof.
  pose proof pow2_m_ge8 as H8.
  unfold E, exp_seq. cbn [Nat.iter nat_rect].
  rewrite (shift_reduce_eq m poly Hm31) by lia.
  rewrite (testbit_pred_m m Hm31) by lia.
  assert (2 ≤ 2 ^ (m - 1)).
  { change 2 with (2 ^ 1) at 1. apply Z.pow_le_mono_r; lia. }
  destruct (Z.leb_spec (2 ^ (m - 1)) 1); [lia|reflexivity].
Qed.

Lemma is_primitive_alpha : GF.is_primitive F GF.primitive_element = Ok true.
Proof.
  pose proof pow2_m_ge8 as H8. pose proof N_eq as HN.
  unfold GF.is_primitive. rewrite valid_fs.
  change (GF.primitive_element <=? 1) with false. cbn iota.
  lazymatch goal with
  | |- context [for_range ?lo ?hi ?body ?s] =>
      destruct (for_range_inv
                  (fun (i : Z) (st : Z * option bool) => st = (E (Z.to_nat i), None))
                  body lo hi s) as (st & Hrun & HI)
  end.
  - lia.
  - change (Z.to_nat 1) with 1%nat. now rewrite exp_seq_1.
  - intros i st Hi ->.
    destruct (Z.eqb_spec (E (Z.to_nat i)) 1) as [H1|_].
    { exfalso. revert H1. apply exp_seq_not_1. lia. }
    pose proof (exp_seq_range (Z.to_nat i)) as Hr.
    pose proof (exp_seq_nonzero (Z.to_nat i)) as Hnz.
    rewrite multiply_gmul by (try apply element_alpha; exact Hr).
    cbn [mbind result_bind bind].
    eexists. split; [reflexivity|]. f_equal.
    rewrite <- exp_seq_1 at 1.
    pose proof (exp_seq_range 1) as Hr1. pose proof (exp_seq_nonzero 1) as Hnz1.
    rewrite gmul_exp by (fold E; lia).
    rewrite !dlog_exp by lia. f_equal. lia.
  - rewrite Hrun, HI. cbn [mbind result_bind bind].
    replace (Z.to_nat (2 ^ m - 1)) with N by reflexivity.
    now rewrite exp_seq_N.
Qed.

(** *** [divide] when the logarithm of the dividend is the smaller one *)

Lemma pow2_32_not_multiple : (2 ^ 32) mod (2 ^ m - 1) ≠ 0.
Proof.
  assert (Hc : m = 3 ∨ m = 4 ∨ m = 5 ∨ m = 6 ∨ m = 7 ∨ m = 8 ∨ m = 9
               ∨ m = 10 ∨ m = 11 ∨ m = 12) by lia.
  destruct Hc as [->|[->|[->|[->|[->|[->|[->|[->|[->| ->]]]]]]]]];
    vm_compute; discriminate.
Qed.

(** The subtraction wraps in [uint32_t] before [field_size] is added: the
    quotient [divide] returns, multiplied by the divisor, never gives the
    dividend back. *)
Lemma divide_wrong_when_log_smaller (a b : Z) :
  1 ≤ a < 2 ^ m → 1 ≤ b < 2 ^ m → (dlog F a < dlog F b)%nat →
  ∃ q, GF.divide F a b = Ok q ∧ element m q ∧ gmul F q b ≠ a.
Proof.
  intros Ha Hb Hlt.
  pose proof pow2_m_ge8 as H8. pose proof pow2_m_le_4096 as H4096.
  pose proof N_eq as HN.
  destruct (dlog_spec a Ha) as (Hla & Hea & Hga).
  destruct (dlog_spec b Hb) as (Hlb & Heb & Hgb).
  set (la := Z.of_nat (dlog F a)) in *. set (lb := Z.of_nat (dlog F b)) in *.
  set (X := 2 ^ 32 + la - lb + 2 ^ m - 1).
  assert (HX : GF.log_diff F la lb = X mod (2 ^ m - 1)).
  { unfold GF.log_diff. rewrite valid_fs. unfold uint32, size_t.
    assert (Hu : (la - lb) mod 2 ^ 32 = la - lb + 2 ^ 32).
    { symmetry. apply (Z.mod_unique (la - lb) (2 ^ 32) (-1)); lia. }
    rewrite Hu. rewrite (Z.mod_small (la - lb + 2 ^ 32 + 2 ^ m)) by lia.
    rewrite (Z.mod_small (la - lb + 2 ^ 32 + 2 ^ m - 1)) by lia.
    f_equal. unfold X. lia. }
  assert (Hidx : 0 ≤ X mod (2 ^ m - 1) < 2 ^ m - 1) by (apply Z.mod_pos_bound; lia).
  set (q := E (Z.to_nat (X mod (2 ^ m - 1)))).
  assert (Hq : GF.divide F a b = Ok q).
  { unfold GF.divide.
    destruct (Z.eqb_spec b 0); [lia|]. destruct (Z.eqb_spec a 0); [lia|].
    rewrite Hga, Hgb. cbn [mbind result_bind bind]. rewrite HX.
    apply exp_get. exact Hidx. }
  pose proof (exp_seq_range (Z.to_nat (X mod (2 ^ m - 1)))) as Hqr.
  pose proof (exp_seq_nonzero (Z.to_nat (X mod (2 ^ m - 1)))) as Hqnz.
  fold E in Hqr, Hqnz. fold q in Hqr, Hqnz.
  exists q. split; [exact Hq|]. split; [exact Hqr|].
  intros Hmul.
  rewrite gmul_exp in Hmul by lia.
  unfold q in Hmul at 1. rewrite dlog_exp in Hmul by lia.
  rewrite <- Hea in Hmul at 1.
  rewrite exp_seq_mod in Hmul.
  apply exp_seq_inj in Hmul; [|apply Nat.mod_upper_bound; lia|exact Hla].
  apply (f_equal Z.of_nat) in Hmul.
  rewrite Nat2Z.inj_mod, Nat2Z.inj_add, HN, Z2Nat.id in Hmul by lia.
  fold la lb in Hmul.
  rewrite Z.add_mod_idemp_l in Hmul by lia.
  assert (Hz : (X + lb - la) mod (2 ^ m - 1) = 0).
  { pose proof (Z.div_mod (X + lb) (2 ^ m - 1) ltac:(lia)) as Hd.
    rewrite Hmul in Hd.
    replace (X + lb - la) with ((X + lb) / (2 ^ m - 1) * (2 ^ m - 1)) by lia.
    apply Z.mod_mul. lia. }
  replace (X + lb - la) with (2 ^ 32 + 1 * (2 ^ m - 1)) in Hz by (unfold X; lia).
  rewrite Z.mod_add in Hz by lia.
  exact (pow2_32_not_multiple Hz).
Qed.

(** When the logarithm of the dividend is not the smaller one nothing wraps
    and [divide] returns the quotient. *)
Lemma divide_right_when_log_not_smaller (a b : Z) :
  1 ≤ a < 2 ^ m → 1 ≤ b < 2 ^ m → (dlog F b ≤ dlog F a)%nat →
  ∃ q, GF.divide F a b = Ok q ∧ element m q ∧ gmul F q b = a.
Proof.
  intros Ha Hb Hle.
  pose proof pow2_m_ge8 as H8. pose proof pow2_m_le_4096 as H4096.
  pose proof N_eq as HN.
  destruct (dlog_spec a Ha) as (Hla & Hea & Hga).
  destruct (dlog_spec b Hb) as (Hlb & Heb & Hgb).
  set (la := Z.of_nat (dlog F a)) in *. set (lb := Z.of_nat (dlog F b)) in *.
  set (X := la - lb + 2 ^ m - 1).
  assert (HX : GF.log_diff F la lb = X mod (2 ^ m - 1)).
  { unfold GF.log_diff. rewrite valid_fs. unfold uint32, size_t.
    rewrite (Z.mod_small (la - lb)) by lia.
    rewrite (Z.mod_small (la - lb + 2 ^ m)) by lia.
    rewrite (Z.mod_small (la - lb + 2 ^ m - 1)) by lia.
    reflexivity. }
  assert (Hidx : 0 ≤ X mod (2 ^ m - 1) < 2 ^ m - 1) by (apply Z.mod_pos_bound; lia).
  set (q := E (Z.to_nat (X mod (2 ^ m - 1)))).
  assert (Hq : GF.divide F a b = Ok q).
  { unfold GF.divide.
    destruct (Z.eqb_spec b 0); [lia|]. destruct (Z.eqb_spec a 0); [lia|].
    rewrite Hga, Hgb. cbn [mbind result_bind bind]. rewrite HX.
    apply exp_get. exact Hidx. }
  pose proof (exp_seq_range (Z.to_nat (X mod (2 ^ m - 1)))) as Hqr.
  pose proof (exp_seq_nonzero (Z.to_nat (X mod (2 ^ m - 1)))) as Hqnz.
  fold E in Hqr, Hqnz. fold q in Hqr, Hqnz.
  exists q. split; [exact Hq|]. split; [exact Hqr|].
  rewrite gmul_exp by lia.
  unfold q at 1. rewrite dlog_exp by lia.
  rewrite <- Hea at 1. rewrite exp_seq_mod. f_equal.
  apply Nat2Z.inj.
  rewrite Nat2Z.inj_mod, Nat2Z.inj_add, HN, Z2Nat.id by lia.
  fold la lb. rewrite Z.add_mod_idemp_l by lia.
  replace (X + lb) with (la + 1 * (2 ^ m - 1)) by (unfold X; lia).
  rewrite Z.mod_add by lia. apply Z.mod_small. lia.
Qed.


(** *** Powers of an element, inverses and orders *)

Lemma gpow_0_base (k : nat) : gpow F 0 k = match k with O => 1 | S _ => 0 end.
Proof. destruct k; [reflexivity|]. rewrite gpow_S. apply gmul_0_r. Qed.

Lemma gpow_exp (a : Z) (k : nat) :
  1 ≤ a < 2 ^ m → gpow F a k = E (k * dlog F a).
Proof.
  intros Ha. pose proof N_eq as HN. pose proof pow2_m_ge8 as H8.
  destruct (dlog_spec a Ha) as (Hla & Hea & _).
  induction k as [|k IH]; [reflexivity|].
  rewrite gpow_S, IH.
  pose proof (exp_seq_range (k * dlog F a)) as Hr.
  pose proof (exp_seq_nonzero (k * dlog F a)) as Hnz.
  rewrite gmul_exp by (fold E; lia).
  rewrite (exp_seq_mod (k * dlog F a)).
  rewrite dlog_exp by (apply Nat.mod_upper_bound; lia).
  rewrite exp_seq_mod. rewrite (exp_seq_mod (S k * dlog F a)). f_equal.
  rewrite Nat.Div0.add_mod_idemp_l. f_equal. lia.
Qed.

Lemma gpow_order (a : Z) : 1 ≤ a < 2 ^ m → gpow F a N = 1.
Proof.
  intros Ha. rewrite gpow_exp by exact Ha.
  rewrite Nat.mul_comm.
  change (E (dlog F a * N)) with (E (0 + dlog F a * N)).
  now rewrite exp_seq_mul_period.
Qed.

Lemma power_gpow (a e : Z) :
  element m a → 0 ≤ e < 2 ^ 52 →
  GF.power F a e = Ok (gpow F a (Z.to_nat e)).
Proof.
  unfold element. intros Ha He.
  pose proof pow2_m_ge8 as H8. pose proof pow2_m_le_4096 as H4096.
  pose proof N_eq as HN.
  unfold GF.power.
  destruct (Z.eqb_spec a 0) as [->|Ha0].
  - rewrite gpow_0_base.
    destruct (Z.eqb_spec e 0) as [->|He0]; [reflexivity|].
    destruct (Z.to_nat e) eqn:Ee; [lia|reflexivity].
  - destruct (dlog_spec a ltac:(lia)) as (Hla & _ & ->).
    cbn [mbind result_bind bind]. unfold GF.log_result. rewrite valid_fs.
    assert (Hs : size_t (Z.of_nat (dlog F a) * e) = Z.of_nat (dlog F a) * e).
    { unfold size_t. apply Z.mod_small.
      change (2 ^ 64) with (2 ^ 12 * 2 ^ 52). nia. }
    rewrite Hs, exp_get_mod, exp_seq_Zmod by nia.
    rewrite gpow_exp by lia. f_equal. f_equal. nia.
Qed.

Lemma gmul_cancel_r (a b c : Z) :
  element m a → element m b → 1 ≤ c < 2 ^ m →
  gmul F a c = gmul F b c → a = b.
Proof.
  unfold element. intros Ha Hb Hc Heq.
  destruct (inverse_Ok c ltac:(unfold element; lia) ltac:(lia)) as (v & _ & Hv & Hcv).
  rewrite <- (gmul_1_r a), <- (gmul_1_r b) by (unfold element; lia).
  rewrite <- Hcv.
  rewrite <- !gmul_assoc by (unfold element in *; auto; lia).
  now rewrite Heq.
Qed.

(** [is_primitive]: the loop leaves early exactly when a power a^i with
    0 < i < 2^m - 1 is 1, and the value tested after the loop is
    a^(2^m - 1) = 1. *)
Lemma is_primitive_spec (a : Z) :
  2 ≤ a < 2 ^ m →
  GF.is_primitive F a
  = Ok (forallb (fun i => negb (gpow F a i =? 1)) (seq 1 (N - 1))).
Proof.
  intros Ha. pose proof pow2_m_ge8 as H8. pose proof N_eq as HN.
  assert (Hel : element m a) by (unfold element; lia).
  unfold GF.is_primitive. rewrite valid_fs.
  destruct (Z.leb_spec a 1) as [|_]; [lia|].
  lazymatch goal with
  | |- context [for_range ?lo ?hi ?body ?s] =>
      destruct (for_range_inv
                  (fun (i : Z) (st : Z * option bool) =>
                     let done := forallb (fun j => negb (gpow F a j =? 1))
                                         (seq 1 (Z.to_nat i - 1)) in
                     if done then st = (gpow F a (Z.to_nat i), None)
                     else snd st = Some false)
                  body lo hi s) as ([cur early] & Hrun & HI)
  end.
  - lia.
  - change (Z.to_nat 1 - 1)%nat with 0%nat. cbn [seq forallb].
    change (gpow F a (Z.to_nat 1)) with (gmul F 1 a). now rewrite gmul_1_l.
  - intros i [cur early] Hi HI.
    replace (Z.to_nat (i + 1) - 1)%nat with (S (Z.to_nat i - 1)) by lia.
    rewrite seq_S, forallb_app. cbn [forallb andb].
    replace (1 + (Z.to_nat i - 1))%nat with (Z.to_nat i) by lia.
    cbv zeta in HI.
    destruct (forallb _ (seq 1 (Z.to_nat i - 1))).
    + injection HI as -> ->. cbn [andb].
      destruct (Z.eqb_spec (gpow F a (Z.to_nat i)) 1) as [H1|H1].
      * eexists. split; [reflexivity|]. reflexivity.
      * rewrite multiply_gmul by (auto using gpow_range).
        cbn [mbind result_bind bind negb andb].
        eexists. split; [reflexivity|].
        replace (Z.to_nat (i + 1)) with (S (Z.to_nat i)) by lia.
        now rewrite gpow_S.
    + cbn [snd] in HI. subst early. cbn [andb].
      eexists. split; reflexivity.
  - rewrite Hrun. cbn [mbind result_bind bind]. cbv zeta in HI.
    replace (Z.to_nat (2 ^ m - 1) - 1)%nat with (N - 1)%nat in HI by reflexivity.
    destruct (forallb _ (seq 1 (N - 1))).
    + injection HI as -> ->.
      replace (Z.to_nat (2 ^ m - 1)) with N by reflexivity.
      rewrite gpow_order by lia. reflexivity.
    + cbn [snd] in HI. now subst early.
Qed.

Lemma dlog_nonzero (a : Z) : 2 ≤ a < 2 ^ m → (0 < dlog F a)%nat.
Proof.
  intros Ha. destruct (dlog_spec a ltac:(lia)) as (_ & Hea & _).
  destruct (dlog F a); [|lia].
  change (E 0) with 1 in Hea. lia.
Qed.

Lemma gpow_is_1 (a : Z) (j : nat) :
  1 ≤ a < 2 ^ m →
  gpow F a j = 1 ↔ (Z.of_nat j * Z.of_nat (dlog F a)) mod (2 ^ m - 1) = 0.
Proof.
  intros Ha. pose proof N_eq as HN. pose proof pow2_m_ge8 as H8.
  rewrite gpow_exp by exact Ha. rewrite exp_seq_mod.
  assert (Hlt : (((j * dlog F a) mod N) < N)%nat)
    by (apply Nat.mod_upper_bound; lia).
  assert (Hz : Z.of_nat ((j * dlog F a) mod N)
               = (Z.of_nat j * Z.of_nat (dlog F a)) mod (2 ^ m - 1)).
  { rewrite Nat2Z.inj_mod, Nat2Z.inj_mul, HN. reflexivity. }
  split.
  - intros H1. change 1 with (E 0) in H1.
    apply exp_seq_inj in H1; [|exact Hlt|lia]. lia.
  - intros H0. rewrite H0 in Hz.
    replace ((j * dlog F a) mod N)%nat with 0%nat by lia. reflexivity.
Qed.

(** An element passes [is_primitive] exactly when its logarithm is coprime
    to the order 2^m - 1 of the multiplicative group. *)
Lemma is_primitive_gcd (a : Z) :
  2 ≤ a < 2 ^ m →
  forallb (fun i => negb (gpow F a i =? 1)) (seq 1 (N - 1)) = true
  ↔ Z.gcd (Z.of_nat (dlog F a)) (2 ^ m - 1) = 1.
Proof.
  intros Ha. pose proof N_eq as HN. pose proof pow2_m_ge8 as H8.
  pose proof (dlog_nonzero a Ha) as Hd.
  destruct (dlog_spec a ltac:(lia)) as (Hla & _ & _).
  set (d := Z.of_nat (dlog F a)) in *.
  rewrite forallb_forall. split.
  - intros Hall.
    pose proof (Z.gcd_nonneg d (2 ^ m - 1)) as Hg0.
    pose proof (Z.gcd_divide_l d (2 ^ m - 1)) as [u Hu].
    pose proof (Z.gcd_divide_r d (2 ^ m - 1)) as [w Hw].
    set (g := Z.gcd d (2 ^ m - 1)) in *. clearbody g.
    destruct (Z.eq_dec g 1) as [|Hg1]; [assumption|exfalso].
    assert (Hg2 : 2 ≤ g).
    { destruct (Z.eq_dec g 0) as [H0|H0]; [rewrite H0 in Hw; lia|lia]. }
    assert (Hw1 : 1 ≤ w < 2 ^ m - 1).
    { set (M := 2 ^ m - 1) in *. assert (7 ≤ M) by (unfold M; lia).
      clearbody M. nia. }
    specialize (Hall (Z.to_nat w)).
    assert (Hin : In (Z.to_nat w) (seq 1 (N - 1))) by (apply in_seq; lia).
    specialize (Hall Hin). apply negb_true_iff, Z.eqb_neq in Hall.
    apply Hall. apply gpow_is_1; [lia|]. fold d. rewrite Z2Nat.id by lia.
    replace (w * d) with (u * (2 ^ m - 1)) by (rewrite Hw, Hu; ring).
    apply Z.mod_mul. lia.
  - intros Hg j Hj. apply in_seq in Hj.
    apply negb_true_iff, Z.eqb_neq. intros H1.
    apply gpow_is_1 in H1; [|lia]. fold d in H1.
    apply Z.mod_divide in H1; [|lia].
    rewrite Z.mul_comm in H1.
    apply Z.gauss in H1; [|now rewrite Z.gcd_comm].
    apply Z.divide_pos_le in H1; lia.
Qed.

Lemma inverse_exp (a : Z) :
  1 ≤ a < 2 ^ m → GF.inverse F a = Ok (E (N - dlog F a)).
Proof.
  intros Ha.
  pose proof pow2_m_ge8. pose proof pow2_m_le_4096. pose proof N_eq as HN.
  unfold GF.inverse.
  destruct (Z.eqb_spec a 0) as [|_]; [lia|].
  destruct (dlog_spec a ltac:(lia)) as (Hla & Hea & ->).
  cbn [mbind result_bind bind]. unfold GF.inv_log. rewrite valid_fs.
  assert (Hs : size_t (2 ^ m - 1 - Z.of_nat (dlog F a))
               = Z.of_nat (N - dlog F a)).
  { unfold size_t. rewrite Z.mod_small; lia. }
  now rewrite Hs, exp_get_mod, exp_seq_Zmod, Nat2Z.id by lia.
Qed.

(** The first loop of [build_tables] stores at [i % (field_size - 1)]: the
    last cell of [exp_table] is never written. *)
Lemma build_exp_table_last_cell (e : cells) (v : Z) :
  GF.build_exp_table m poly = Ok (e, v) → e !! N = Some None.
Proof.
  pose proof N_eq as HN. pose proof pow2_m_ge8 as H8.
  unfold GF.build_exp_table. rewrite (field_size_eq m Hm31).
  rewrite array_set_Ok by (rewrite array_new_length; lia).
  cbn [mbind result_bind bind].
  lazymatch goal with
  | |- for_range ?lo ?hi ?body ?s = _ → _ =>
      destruct (for_range_inv
                  (fun (_ : Z) (st : cells * Z) =>
                     length (fst st) = Z.to_nat (2 ^ m)
                     ∧ fst st !! N = Some None)
                  body lo hi s) as ([e' v'] & Hrun & Hlen & Hlast)
  end.
  - lia.
  - cbn [fst]. rewrite length_insert, array_new_length. split; [reflexivity|].
    rewrite list_lookup_insert_ne by lia.
    unfold array_new. apply lookup_replicate. split; [reflexivity|lia].
  - intros i [e' v'] Hi (Hlen & Hlast). cbn [fst] in *.
    assert (Hidx : 0 ≤ i mod (2 ^ m - 1) < 2 ^ m - 1)
      by (apply Z.mod_pos_bound; lia).
    rewrite array_set_Ok by lia. cbn [mbind result_bind bind].
    eexists. split; [reflexivity|]. cbn [fst].
    rewrite length_insert. split; [exact Hlen|].
    rewrite list_lookup_insert_ne by lia. exact Hlast.
  - rewrite Hrun. intros [= <- <-]. exact Hlast.
Qed.

(** *** [GFPolynomial]: the normal form and the coefficients *)

Lemma pop_zeros_head (l r : list Z) (c : Z) :
  GFPolynomial.pop_zeros l = c :: r → c ≠ 0.
Proof using.
  clear.
  induction l as [|x l IH]; [discriminate|].
  cbn [GFPolynomial.pop_zeros]. destruct (Z.eqb_spec x 0) as [|Hx]; [exact IH|].
  now intros [= <- _].
Qed.

Lemma normalize_split (cs : list Z) :
  ∃ z, (GFPolynomial.normalize cs = [0] ∧ cs = replicate z 0)
       ∨ (cs = GFPolynomial.normalize cs ++ replicate z 0
          ∧ GFPolynomial.normalize cs ≠ []
          ∧ List.last (GFPolynomial.normalize cs) 0 ≠ 0).
Proof using.
  clear.
  unfold GFPolynomial.normalize.
  destruct (pop_zeros_spec (rev cs)) as (z & Hz). exists z.
  assert (Hcs : cs = rev (GFPolynomial.pop_zeros (rev cs)) ++ replicate z 0).
  { rewrite <- (rev_involutive cs) at 1. rewrite Hz at 1.
    now rewrite rev_app_distr, replicate_rev_zeros. }
  destruct (GFPolynomial.pop_zeros (rev cs)) as [|c r] eqn:Epz.
  - left. split; [reflexivity|exact Hcs].
  - right. split; [exact Hcs|]. cbn [rev]. split.
    + intros H. apply app_eq_nil in H as [_ H]. discriminate.
    + rewrite List.last_last. exact (pop_zeros_head _ _ _ Epz).
Qed.

Lemma nth_replicate_zero (z i : nat) : nth i (replicate z 0) 0 = 0.
Proof using.
  clear.
  revert i. induction z as [|z IH]; intros [|i]; cbn; auto.
Qed.

Lemma normalize_nth (cs : list Z) (i : nat) :
  nth i (GFPolynomial.normalize cs) 0 = nth i cs 0.
Proof using.
  clear.
  destruct (normalize_split cs) as (z & [[Hn Hcs] | (Hcs & _ & _)]).
  - rewrite Hn, Hcs, nth_replicate_zero. destruct i as [|[|i]]; reflexivity.
  - rewrite Hcs at 2.
    destruct (Nat.lt_ge_cases i (length (GFPolynomial.normalize cs))) as [Hi|Hi].
    + now rewrite app_nth1 by exact Hi.
    + rewrite app_nth2 by exact Hi. rewrite nth_replicate_zero.
      now apply nth_overflow.
Qed.

Lemma normalize_nonempty (cs : list Z) : GFPolynomial.normalize cs ≠ [].
Proof using.
  clear.
  destruct (normalize_split cs) as (z & [[Hn _] | (_ & Hne & _)]);
    [rewrite Hn; discriminate|exact Hne].
Qed.

Lemma normalize_fixed (l : list Z) :
  l ≠ [] → List.last l 0 ≠ 0 → GFPolynomial.normalize l = l.
Proof using.
  clear.
  intros Hne Hlast. destruct l as [|x l] using rev_ind; [contradiction|].
  rewrite List.last_last in Hlast. unfold GFPolynomial.normalize.
  rewrite rev_app_distr. cbn [rev app GFPolynomial.pop_zeros].
  destruct (Z.eqb_spec x 0) as [|_]; [contradiction|].
  cbn [rev]. now rewrite rev_involutive.
Qed.

Lemma normalize_idempotent (cs : list Z) :
  GFPolynomial.normalize (GFPolynomial.normalize cs) = GFPolynomial.normalize cs.
Proof using.
  clear.
  destruct (normalize_split cs) as (z & [[Hn _] | (_ & Hne & Hlast)]).
  - rewrite Hn. reflexivity.
  - now apply normalize_fixed.
Qed.

Lemma normalize_length (cs : list Z) :
  (1 ≤ length (GFPolynomial.normalize cs) ≤ Nat.max 1 (length cs))%nat.
Proof using.
  clear.
  pose proof (normalize_nonempty cs) as Hne.
  destruct (normalize_split cs) as (z & [[Hn _] | (Hcs & _ & _)]).
  - rewrite Hn. cbn. lia.
  - apply (f_equal (@length Z)) in Hcs. rewrite length_app in Hcs.
    destruct (GFPolynomial.normalize cs); [contradiction|]. cbn [length] in *. lia.
Qed.

Lemma coeff_of_nat (p : GFPolynomial.t) (i : nat) :
  GFPolynomial.coeff p (Z.of_nat i) = nth i (GFPolynomial.coefficients p) 0.
Proof using.
  clear.
  unfold GFPolynomial.coeff, size.
  destruct (Z.leb_spec 0 (Z.of_nat i)); [|lia]. cbn [andb].
  destruct (Z.ltb_spec (Z.of_nat i) (Z.of_nat (length (GFPolynomial.coefficients p)))).
  - now rewrite Nat2Z.id.
  - symmetry. apply nth_overflow. lia.
Qed.

Lemma coeff_Z (p : GFPolynomial.t) (i : Z) :
  GFPolynomial.coeff p i
  = if 0 <=? i then nth (Z.to_nat i) (GFPolynomial.coefficients p) 0 else 0.
Proof using.
  clear.
  destruct (Z.leb_spec 0 i) as [Hi|Hi].
  - rewrite <- (Z2Nat.id i) at 1 by exact Hi. apply coeff_of_nat.
  - unfold GFPolynomial.coeff. destruct (Z.leb_spec 0 i); [lia|reflexivity].
Qed.

Lemma coeff_make (G : GF.GaloisField) (cs : list Z) (i : Z) :
  GFPolynomial.coeff (GFPolynomial.make G cs) i
  = if 0 <=? i then nth (Z.to_nat i) cs 0 else 0.
Proof using.
  clear.
  rewrite coeff_Z. unfold GFPolynomial.make. cbn [GFPolynomial.coefficients].
  now rewrite normalize_nth.
Qed.

Lemma nth_insert_Z (l : list Z) (i j : nat) (v : Z) :
  (i < length l)%nat →
  nth j (<[i := v]> l) 0 = if (j =? i)%nat then v else nth j l 0.
Proof using.
  clear.
  intros Hi. destruct (Nat.eqb_spec j i) as [->|Hne].
  - apply nth_lookup_Some with (d := 0). now apply list_lookup_insert_eq.
  - destruct (nth_lookup_or_length (<[i := v]> l) j 0) as [H|H].
    + rewrite list_lookup_insert_ne in H by auto.
      destruct (nth_lookup_or_length l j 0) as [H'|H'].
      * congruence.
      * apply lookup_lt_Some in H. lia.
    + rewrite length_insert in H.
      rewrite !nth_overflow; [reflexivity|lia|rewrite length_insert; lia].
Qed.

Lemma vector_max_size_eq : vector_max_size = 2 ^ 61 - 1.
Proof using. clear. reflexivity. Qed.

(** [set_coefficient] at an index below [max_size()]: the vector is grown
    with zeros when the index is outside it, and the value is stored. *)
Lemma set_coefficient_Ok (p : GFPolynomial.t) (index value : Z) :
  0 ≤ index < vector_max_size →
  GFPolynomial.set_coefficient p index value
  = Ok (GFPolynomial.make (GFPolynomial.field p)
          (<[Z.to_nat index := value]> (resized (GFPolynomial.coefficients p) index))).
Proof using.
  clear.
  intros Hidx. rewrite vector_max_size_eq in Hidx.
  unfold GFPolynomial.set_coefficient, resized. cbn zeta.
  set (c := GFPolynomial.coefficients p). unfold size.
  destruct (Z.leb_spec (Z.of_nat (length c)) index) as [Hgrow|Hin].
  - unfold vector_resize, size_t. rewrite Z.mod_small by lia.
    rewrite vector_max_size_eq.
    destruct (Z.ltb_spec (2 ^ 61 - 1) (index + 1)) as [|_]; [lia|].
    cbn [mbind result_bind bind].
    rewrite firstn_all2 by lia.
    replace (Z.to_nat (index + 1) - length c)%nat
      with (Z.to_nat (index + 1 - Z.of_nat (length c))) by lia.
    rewrite vector_set_Ok by (rewrite length_app, length_replicate; lia).
    reflexivity.
  - cbn [mbind result_bind bind]. rewrite vector_set_Ok by lia. reflexivity.
Qed.

(** [set_coefficient] followed by [operator[]] *)
Lemma set_coefficient_coeff (p : GFPolynomial.t) (index value j : Z) :
  0 ≤ index →
  GFPolynomial.coeff
    (GFPolynomial.make (GFPolynomial.field p)
       (<[Z.to_nat index := value]> (resized (GFPolynomial.coefficients p) index))) j
  = if j =? index then value else GFPolynomial.coeff p j.
Proof using.
  clear.
  intros Hidx. unfold resized. rewrite coeff_make.
  rewrite (coeff_Z p j). unfold size.
  set (c := GFPolynomial.coefficients p).
  destruct (Z.leb_spec 0 j) as [Hj|Hj].
  2:{ destruct (Z.eqb_spec j index); [lia|reflexivity]. }
  destruct (Z.leb_spec (Z.of_nat (length c)) index) as [Hgrow|Hin].
  - rewrite nth_insert_Z by (rewrite length_app, length_replicate; lia).
    destruct (Z.eqb_spec j index) as [->|Hne].
    + now rewrite Nat.eqb_refl.
    + destruct (Nat.eqb_spec (Z.to_nat j) (Z.to_nat index)); [lia|].
      destruct (Nat.lt_ge_cases (Z.to_nat j) (length c)) as [Hlt|Hge].
      * now rewrite app_nth1 by exact Hlt.
      * rewrite app_nth2 by exact Hge. rewrite nth_replicate_zero.
        symmetry. now apply nth_overflow.
  - rewrite nth_insert_Z by lia.
    destruct (Z.eqb_spec j index) as [->|Hne].
    + now rewrite Nat.eqb_refl.
    + destruct (Nat.eqb_spec (Z.to_nat j) (Z.to_nat index)); [lia|reflexivity].
Qed.

(** [operator+] adds coefficient by coefficient. *)
Lemma add_coeff (p q : GFPolynomial.t) (i : Z) :
  GFPolynomial.coeff (GFPolynomial.add p q) i
  = Z.lxor (GFPolynomial.coeff p i) (GFPolynomial.coeff q i).
Proof using.
  clear.
  unfold GFPolynomial.add. rewrite coeff_make, !(coeff_Z _ i). unfold size.
  destruct (Z.leb_spec 0 i) as [Hi|Hi]; [|reflexivity].
  set (a := GFPolynomial.coefficients p). set (b := GFPolynomial.coefficients q).
  set (n := Z.to_nat (Z.max (Z.of_nat (length a)) (Z.of_nat (length b)))).
  destruct (Nat.lt_ge_cases (Z.to_nat i) n) as [Hlt|Hge].
  - rewrite (nth_indep _ 0 (Z.lxor (GFPolynomial.coeff p (Z.of_nat 0))
                                   (GFPolynomial.coeff q (Z.of_nat 0))))
      by (rewrite length_map, length_seq; exact Hlt).
    rewrite (map_nth (fun k => Z.lxor (GFPolynomial.coeff p (Z.of_nat k))
                                      (GFPolynomial.coeff q (Z.of_nat k)))).
    rewrite seq_nth by exact Hlt. cbn [Nat.add].
    now rewrite !coeff_of_nat.
  - rewrite nth_overflow by (rewrite length_map, length_seq; exact Hge).
    rewrite !nth_overflow by (unfold n in Hge; lia). reflexivity.
Qed.

Lemma coefficients_ext (a b : list Z) :
  (∀ i, nth i a 0 = nth i b 0) →
  GFPolynomial.normalize a = GFPolynomial.normalize b.
Proof using.
  clear.
  intros Hext.
  assert (Hgen : ∀ a b : list Z, (length a ≤ length b)%nat →
                 (∀ i, nth i a 0 = nth i b 0) →
                 b = a ++ replicate (length b - length a) 0).
  { clear. intros a. induction a as [|x a IH]; intros b Hlen Hext.
    - cbn [app length]. rewrite Nat.sub_0_r.
      clear Hlen. induction b as [|y b IHb]; [reflexivity|].
      cbn [length replicate]. f_equal.
      + symmetry. exact (Hext 0%nat).
      + apply IHb. intros i. specialize (Hext (S i)). now destruct i.
    - destruct b as [|y b]; [cbn in Hlen; lia|].
      cbn [length app Nat.sub]. f_equal.
      + symmetry. exact (Hext 0%nat).
      + apply IH; [cbn in Hlen; lia|]. intros i. exact (Hext (S i)). }
  assert (Hpad : ∀ (l : list Z) (z : nat),
                 GFPolynomial.normalize (l ++ replicate z 0)
                 = GFPolynomial.normalize l).
  { clear. intros l z. unfold GFPolynomial.normalize.
    rewrite rev_app_distr, replicate_rev_zeros.
    replace (GFPolynomial.pop_zeros (replicate z 0 ++ rev l))
      with (GFPolynomial.pop_zeros (rev l)); [reflexivity|].
    induction z as [|z IH]; [reflexivity|exact IH]. }
  destruct (Nat.le_ge_cases (length a) (length b)) as [Hle|Hle].
  - rewrite (Hgen a b Hle Hext). now rewrite Hpad.
  - rewrite (Hgen b a Hle (fun i => eq_sym (Hext i))). now rewrite Hpad.
Qed.



(** *** [GFPolynomial]: the leading coefficient of a product *)

Lemma last_nth_Z (l : list Z) : List.last l 0 = nth (length l - 1) l 0.
Proof using.
  clear.
  destruct l as [|x l] using rev_ind; [reflexivity|].
  rewrite List.last_last, length_app. cbn [length].
  rewrite app_nth2 by lia.
  replace (length l + 1 - 1 - length l)%nat with 0%nat by lia. reflexivity.
Qed.

Lemma Forall_last_element (l : list Z) :
  Forall (element m) l → element m (List.last l 0).
Proof.
  intros Hl. rewrite last_nth_Z. apply Forall_nth_default; auto using element_0.
Qed.

Lemma mul_inner_loop_top (a b : list Z) (i : Z) (res0 : list Z) :
  Forall (element m) a → Forall (element m) b →
  0 ≤ i < size a → 0 < size b →
  length res0 = Z.to_nat (size a + size b - 1) →
  Forall (element m) res0 →
  nth (Z.to_nat (size a + size b - 2)) res0 0 = 0 →
  ∃ res,
    for_range 0 (size b)
      (fun j result =>
         ci ← vector_get a i;
         oj ← vector_get b j;
         product ← GF.multiply F ci oj;
         r ← vector_get result (i + j);
         vector_set result (i + j) (GF.add r product))
      res0 = Ok res
    ∧ length res = length res0
    ∧ Forall (element m) res
    ∧ nth (Z.to_nat (size a + size b - 2)) res 0
      = if i =? size a - 1 then gmul F (List.last a 0) (List.last b 0) else 0.
Proof.
  intros Ha Hb Hi Hb0 Hlen Hres0 Htop. unfold size in *.
  set (top := Z.to_nat (Z.of_nat (length a) + Z.of_nat (length b) - 2)) in *.
  set (ai := nth (Z.to_nat i) a 0).
  assert (Hai : element m ai) by (apply Forall_nth_default; auto using element_0).
  set (I := fun (j : Z) (res : list Z) =>
              length res = length res0
              ∧ Forall (element m) res
              ∧ nth top res 0
                = if (i =? Z.of_nat (length a) - 1) && (j =? Z.of_nat (length b))
                  then gmul F (List.last a 0) (List.last b 0) else 0).
  destruct (for_range_inv I
    (fun j result =>
       ci ← vector_get a i;
       oj ← vector_get b j;
       product ← GF.multiply F ci oj;
       r ← vector_get result (i + j);
       vector_set result (i + j) (GF.add r product))
    0 (Z.of_nat (length b)) res0) as (res & Hrun & Hl & Hel & Ht).
  - lia.
  - unfold I. split; [reflexivity|]. split; [assumption|].
    rewrite Htop. destruct (Z.eqb_spec 0 (Z.of_nat (length b))); [lia|].
    now rewrite andb_false_r.
  - intros j res Hj (Hl & Hel & Ht).
    set (bj := nth (Z.to_nat j) b 0).
    assert (Hbj : element m bj) by (apply Forall_nth_default; auto using element_0).
    rewrite (vector_get_Ok a i) by lia. cbn [mbind result_bind bind].
    rewrite (vector_get_Ok b j) by lia. cbn [mbind result_bind bind].
    fold ai bj. rewrite multiply_gmul by assumption.
    cbn [mbind result_bind bind].
    rewrite (vector_get_Ok res (i + j)) by lia. cbn [mbind result_bind bind].
    rewrite vector_set_Ok by lia.
    eexists. split; [reflexivity|]. unfold I, GF.add.
    split; [now rewrite length_insert|].
    split.
    { apply Forall_insert_element; [assumption|].
      apply element_lxor; [apply Forall_nth_default; auto using element_0|auto with el]. }
    rewrite nth_insert_Z by lia.
    destruct (Z.eqb_spec j (Z.of_nat (length b))) as [|_]; [lia|].
    rewrite andb_false_r in Ht.
    destruct (Nat.eqb_spec top (Z.to_nat (i + j))) as [Heq|Hne].
    + assert (Hi' : i = Z.of_nat (length a) - 1) by (unfold top in Heq; lia).
      assert (Hj' : j + 1 = Z.of_nat (length b)) by (unfold top in Heq; lia).
      rewrite <- Heq, Ht, Z.lxor_0_l.
      destruct (Z.eqb_spec i (Z.of_nat (length a) - 1)); [|lia].
      destruct (Z.eqb_spec (j + 1) (Z.of_nat (length b))); [|lia].
      cbn [andb]. rewrite !last_nth_Z. unfold ai, bj.
      f_equal; f_equal; lia.
    + rewrite Ht.
      destruct (Z.eqb_spec i (Z.of_nat (length a) - 1)) as [Hi'|];
        [|reflexivity].
      destruct (Z.eqb_spec (j + 1) (Z.of_nat (length b))) as [Hj'|];
        [|reflexivity].
      exfalso. apply Hne. unfold top. lia.
  - exists res. split; [exact Hrun|]. split; [exact Hl|]. split; [exact Hel|].
    rewrite Ht. rewrite Z.eqb_refl, andb_true_r. reflexivity.
Qed.

Lemma mul_loops_top (a b : list Z) :
  Forall (element m) a → Forall (element m) b → a ≠ [] → b ≠ [] →
  ∃ res,
    for_range 0 (size a)
      (fun i result =>
         for_range 0 (size b)
           (fun j result =>
              ci ← vector_get a i;
              oj ← vector_get b j;
              product ← GF.multiply F ci oj;
              r ← vector_get result (i + j);
              vector_set result (i + j) (GF.add r product))
           result)
      (vector_zeros (size a + size b - 1)) = Ok res
    ∧ length res = (length a + length b - 1)%nat
    ∧ Forall (element m) res
    ∧ List.last res 0 = gmul F (List.last a 0) (List.last b 0).
Proof.
  intros Ha Hb Hane Hbne.
  assert (Hla : 0 < size a) by (unfold size; destruct a; [contradiction|cbn; lia]).
  assert (Hlb : 0 < size b) by (unfold size; destruct b; [contradiction|cbn; lia]).
  set (L := Z.to_nat (size a + size b - 1)).
  set (top := Z.to_nat (size a + size b - 2)).
  set (I := fun (i : Z) (res : list Z) =>
              length res = L
              ∧ Forall (element m) res
              ∧ nth top res 0
                = if i =? size a then gmul F (List.last a 0) (List.last b 0) else 0).
  destruct (for_range_inv I
    (fun i result =>
       for_range 0 (size b)
         (fun j result =>
            ci ← vector_get a i;
            oj ← vector_get b j;
            product ← GF.multiply F ci oj;
            r ← vector_get result (i + j);
            vector_set result (i + j) (GF.add r product))
         result)
    0 (size a) (vector_zeros (size a + size b - 1))) as (res & Hrun & Hl & Hel & Ht).
  - lia.
  - unfold I, vector_zeros. split; [apply length_replicate|].
    split; [apply Forall_replicate, element_0|].
    rewrite nth_replicate_zero. destruct (Z.eqb_spec 0 (size a)); [lia|reflexivity].
  - intros i res Hi (Hl & Hel & Ht).
    destruct (Z.eqb_spec i (size a)) as [|_]; [lia|].
    destruct (mul_inner_loop_top a b i res Ha Hb Hi Hlb Hl Hel Ht)
      as (res' & Hrun & Hl' & Hel' & Ht').
    exists res'. split; [exact Hrun|]. unfold I.
    split; [congruence|]. split; [exact Hel'|].
    fold top in Ht'. rewrite Ht'.
    destruct (Z.eqb_spec i (size a - 1)), (Z.eqb_spec (i + 1) (size a));
      try reflexivity; lia.
  - exists res. split; [exact Hrun|].
    split; [rewrite Hl; unfold L, size; lia|]. split; [exact Hel|].
    rewrite last_nth_Z, Hl.
    replace (L - 1)%nat with top by (unfold L, top; lia).
    rewrite Ht, Z.eqb_refl. reflexivity.
Qed.

Lemma is_zero_false_last (l : list Z) :
  l ≠ [] → (l = [0] ∨ List.last l 0 ≠ 0) →
  forallb (fun e => e =? 0) l = false → List.last l 0 ≠ 0.
Proof.
  intros Hne [-> | H] Hz; [discriminate|exact H].
Qed.

(** A product of two nonzero polynomials in normal form: the leading
    coefficient is the product of the leading coefficients and the degrees
    add up. *)
Lemma mul_leading (a b : list Z) :
  Forall (element m) a → Forall (element m) b →
  a ≠ [] → b ≠ [] → List.last a 0 ≠ 0 → List.last b 0 ≠ 0 →
  ∃ res, GFPolynomial.mul (GFPolynomial.mk a F) (GFPolynomial.mk b F)
         = Ok (GFPolynomial.mk res F)
         ∧ length res = (length a + length b - 1)%nat
         ∧ Forall (element m) res
         ∧ List.last res 0 = gmul F (List.last a 0) (List.last b 0)
         ∧ List.last res 0 ≠ 0.
Proof.
  intros Ha Hb Hane Hbne Hla Hlb.
  pose proof (Forall_last_element a Ha) as Hela.
  pose proof (Forall_last_element b Hb) as Helb.
  assert (Hnz : ∀ l : list Z, List.last l 0 ≠ 0 →
                forallb (fun e => e =? 0) l = false).
  { intros l Hl. apply not_true_is_false. intros Hall. apply Hl.
    rewrite forallb_forall in Hall. rewrite last_nth_Z.
    destruct (Nat.lt_ge_cases (length l - 1) (length l)) as [Hlt|Hge].
    - apply Z.eqb_eq, Hall, nth_In, Hlt.
    - now apply nth_overflow. }
  unfold GFPolynomial.mul, GFPolynomial.is_zero.
  cbn [GFPolynomial.coefficients GFPolynomial.field].
  rewrite (Hnz a Hla), (Hnz b Hlb). cbn [orb].
  destruct (mul_loops_top a b Ha Hb Hane Hbne) as (res & -> & Hlen & Hel & Hlast).
  cbn [mbind result_bind bind].
  assert (Hprod : gmul F (List.last a 0) (List.last b 0) ≠ 0).
  { pose proof (gmul_nonzero (List.last a 0) (List.last b 0)) as H.
    unfold element in *. lia. }
  exists res. unfold GFPolynomial.make.
  rewrite normalize_fixed.
  - split; [reflexivity|]. split; [exact Hlen|]. split; [exact Hel|].
    split; [exact Hlast|]. now rewrite Hlast.
  - intros ->. cbn [length] in Hlen.
    destruct a; [contradiction|]. destruct b; [contradiction|]. cbn [length] in Hlen. lia.
  - now rewrite Hlast.
Qed.

(** *** [find_roots] *)


(** *** Products of linear factors: the generator polynomials *)

Lemma horner_linear (root x : Z) :
  element m x → horner F [root; 1] x = Z.lxor x root.
Proof.
  intros Hx. cbn [horner fold_right].
  now rewrite gmul_0_l, Z.lxor_0_l, gmul_1_l.
Qed.

Lemma make_linear (root : Z) :
  GFPolynomial.make F [root; 1] = GFPolynomial.mk [root; 1] F.
Proof.
  unfold GFPolynomial.make. rewrite normalize_fixed; [reflexivity|discriminate|].
  cbn. lia.
Qed.

(** One factor (x - root) more: the degree grows by one, the polynomial stays
    monic and its value at a point is multiplied by (x + root). *)
Lemma mul_linear_factor (g : list Z) (root : Z) :
  Forall (element m) g → g ≠ [] → List.last g 0 = 1 → element m root →
  ∃ res, GFPolynomial.mul (GFPolynomial.mk g F) (GFPolynomial.make F [root; 1])
         = Ok (GFPolynomial.mk res F)
         ∧ Forall (element m) res
         ∧ length res = S (length g)
         ∧ List.last res 0 = 1
         ∧ ∀ x, element m x →
                horner F res x = gmul F (horner F g x) (Z.lxor x root).
Proof.
  intros Hg Hne Hlast Hroot. rewrite make_linear.
  assert (Hf : Forall (element m) [root; 1])
    by (constructor; [exact Hroot|constructor; [apply element_1|constructor]]).
  destruct (mul_leading g [root; 1] Hg Hf Hne) as (res & Hmul & Hlen & Hel & Hl & _);
    [discriminate|lia|cbn; lia|].
  destruct (mul_spec g [root; 1] Hg Hf) as (r & Hr & _ & _ & Hh).
  rewrite Hmul in Hr. injection Hr as <-.
  cbn [GFPolynomial.coefficients] in Hh.
  exists res. split; [exact Hmul|]. split; [exact Hel|].
  split; [cbn [length] in Hlen; lia|]. split.
  - rewrite Hl, Hlast. cbn [List.last]. apply gmul_1_l.
  - intros x Hx. rewrite Hh by exact Hx. now rewrite horner_linear.
Qed.

Lemma make_one : GFPolynomial.make F [1] = GFPolynomial.mk [1] F.
Proof. reflexivity. Qed.

Lemma degree_mk (l : list Z) :
  l ≠ [] →
  GFPolynomial.degree (GFPolynomial.mk l F) = Z.of_nat (length l) - 1
  ∧ GFPolynomial.coeff (GFPolynomial.mk l F) (Z.of_nat (length l) - 1)
    = List.last l 0.
Proof using.
  clear.
  intros Hl. unfold GFPolynomial.degree, size.
  cbn [GFPolynomial.coefficients].
  destruct l as [|x l']; [contradiction|]. split; [reflexivity|].
  rewrite coeff_Z. cbn [GFPolynomial.coefficients].
  destruct (Z.leb_spec 0 (Z.of_nat (length (x :: l')) - 1));
    [|cbn [length] in *; lia].
  rewrite last_nth_Z. f_equal. lia.
Qed.

(** [ReedSolomonCode::generate_polynomial] *)
Lemma rs_generate_polynomial_spec (n k : Z) :
  0 ≤ k ≤ n → n - k < 2 ^ 52 →
  ∃ g, RS.generate_polynomial n k F GF.primitive_element
       = Ok (GFPolynomial.mk g F)
       ∧ Forall (element m) g
       ∧ length g = Z.to_nat (n - k + 1)
       ∧ List.last g 0 = 1
       ∧ ∀ j, 1 ≤ j ≤ n - k →
              horner F g (gpow F GF.primitive_element (Z.to_nat j)) = 0.
Proof.
  intros Hk Hn. unfold RS.generate_polynomial, RS.parity_length.
  assert (Hs : size_t (n - k) = n - k) by (unfold size_t; apply Z.mod_small; lia).
  rewrite Hs, make_one.
  lazymatch goal with
  | |- context [for_range ?lo ?hi ?body ?s] =>
      destruct (for_range_inv
        (fun (i : Z) (p : GFPolynomial.t) =>
           ∃ g, p = GFPolynomial.mk g F
                ∧ Forall (element m) g
                ∧ length g = Z.to_nat i
                ∧ List.last g 0 = 1
                ∧ ∀ j, 1 ≤ j < i →
                       horner F g (gpow F GF.primitive_element (Z.to_nat j)) = 0)
        body lo hi s) as (p & Hrun & g & -> & Hel & Hlen & Hlast & Hroots)
  end.
  - lia.
  - exists [1]. split; [reflexivity|].
    split; [constructor; [apply element_1|constructor]|].
    split; [reflexivity|]. split; [reflexivity|]. intros j Hj. lia.
  - intros i p Hi (g & -> & Hel & Hlen & Hlast & Hroots).
    rewrite power_gpow by (auto using element_alpha; lia).
    cbn [mbind result_bind bind].
    set (root := gpow F GF.primitive_element (Z.to_nat i)).
    assert (Hroot : element m root) by (apply gpow_range, element_alpha).
    destruct (mul_linear_factor g root Hel) as (res & Hmul & Hrel & Hrlen & Hrlast & Hh);
      [intros ->; cbn [length] in Hlen; lia|exact Hlast|exact Hroot|].
    exists (GFPolynomial.mk res F). split; [exact Hmul|].
    exists res. split; [reflexivity|]. split; [exact Hrel|].
    split; [lia|]. split; [exact Hrlast|].
    intros j Hj.
    rewrite Hh by (apply gpow_range, element_alpha).
    destruct (Z.eq_dec j i) as [->|Hne].
    + fold root. rewrite Z.lxor_nilpotent. apply gmul_0_r.
    + rewrite Hroots by lia. apply gmul_0_l.
  - exists g. split; [exact Hrun|]. split; [exact Hel|]. split; [exact Hlen|].
    split; [exact Hlast|]. intros j Hj. apply Hroots. lia.
Qed.
(** *** The Reed-Solomon decoder runs to completion *)

Variable c : RS.t.
Hypothesis Hfield : RS.field c = F.
Hypothesis Halpha : RS.primitive_element c = GF.primitive_element.
Hypothesis Hgeom : 0 ≤ RS.k c ≤ RS.n c ∧ RS.n c ≤ 2 ^ m - 1.

Lemma parity_length_eq :
  RS.parity_length (RS.n c) (RS.k c) = RS.n c - RS.k c.
Proof.
  pose proof pow2_m_le_4096. unfold RS.parity_length, size_t.
  apply Z.mod_small. lia.
Qed.

Ltac mstep := cbn [mbind result_bind bind].

Ltac loop_inv I :=
  lazymatch goal with
  | |- context [for_range ?lo ?hi ?body ?s] =>
      let s' := fresh "s" in
      let Hrun := fresh "Hrun" in
      let HI := fresh "HI" in
      destruct (for_range_inv I body lo hi s) as (s' & Hrun & HI);
      [ | | | rewrite Hrun; mstep ]
  end.

Lemma syndromes_Ok (received : list Z) :
  length received = Z.to_nat (RS.n c) → Forall (element m) received →
  ∃ s, RS.calculate_syndromes c received = Ok s
       ∧ length s = Z.to_nat (RS.n c - RS.k c)
       ∧ Forall (element m) s.
Proof.
  intros Hlen Hrec. unfold RS.calculate_syndromes. cbn zeta.
  rewrite Hfield, Halpha, parity_length_eq.
  loop_inv (fun (_ : Z) (s : list Z) =>
              length s = Z.to_nat (RS.n c - RS.k c) ∧ Forall (element m) s).
  - lia.
  - split; [apply length_replicate|apply Forall_replicate, element_0].
  - intros i s Hi (Hl & Hel).
    destruct (power_Ok GF.primitive_element (i + 1) element_alpha) as (ap & Hap & Hapel).
    rewrite Hap. mstep.
    loop_inv (fun (_ : Z) (st : Z * Z) => element m (fst st) ∧ element m (snd st)).
    + lia.
    + split; [apply element_0|apply element_1].
    + intros j [sy cp] Hj (Hsy & Hcp). cbn [fst snd] in *.
      rewrite (vector_get_Ok received j) by lia. mstep.
      assert (Hrj : element m (nth (Z.to_nat j) received 0))
        by (apply Forall_nth_default; auto using element_0).
      rewrite multiply_gmul by assumption. mstep.
      rewrite multiply_gmul by assumption. mstep.
      eexists. split; [reflexivity|]. cbn [fst snd]. unfold GF.add.
      split; auto with el.
    + destruct s0 as [sy cp]. destruct HI as (Hsy & _). cbn [fst snd] in Hsy.
      rewrite vector_set_Ok by lia.
      eexists. split; [reflexivity|].
      split; [now rewrite length_insert|now apply Forall_insert_element].
  - exists s. split; [reflexivity|exact HI].
Qed.

Lemma berlekamp_massey_Ok (syndromes : list Z) :
  length syndromes = Z.to_nat (RS.n c - RS.k c) → Forall (element m) syndromes →
  ∃ locator, RS.berlekamp_massey c syndromes = Ok locator
             ∧ GFPolynomial.field locator = F
             ∧ Forall (element m) (GFPolynomial.coefficients locator).
Proof.
  intros Hlen Hsyn. pose proof pow2_m_le_4096 as H4096.
  unfold RS.berlekamp_massey. cbn zeta.
  rewrite Hfield, parity_length_eq.
  set (npar := RS.n c - RS.k c) in *.
  loop_inv (fun (i : Z) (st : Z * Z * list Z * list Z) =>
              let '(L, pos, C, B) := st in
              0 ≤ L ≤ i ∧ 1 ≤ pos ≤ i + 1
              ∧ length C = Z.to_nat (npar + 1) ∧ length B = Z.to_nat (npar + 1)
              ∧ Forall (element m) C ∧ Forall (element m) B).
  - unfold npar. lia.
  - unfold vector_zeros. rewrite !length_insert, !length_replicate.
    repeat (split; [lia|]).
    split; apply Forall_insert_element;
      auto using element_1; apply Forall_replicate, element_0.
  - intros i [[[L pos] C] B] Hi (HL & Hpos & HlC & HlB & HC & HB).
    rewrite (vector_get_Ok syndromes i) by lia. mstep.
    assert (Hsi : element m (nth (Z.to_nat i) syndromes 0))
      by (apply Forall_nth_default; auto using element_0).
    loop_inv (fun (_ : Z) (d : Z) => element m d).
    + lia.
    + exact Hsi.
    + intros j d Hj Hd.
      rewrite (vector_get_Ok C j) by lia. mstep.
      rewrite (vector_get_Ok syndromes (i - j)) by lia. mstep.
      rewrite multiply_gmul
        by (apply Forall_nth_default; auto using element_0). mstep.
      eexists. split; [reflexivity|]. unfold GF.add.
      apply element_lxor; [assumption|].
      apply gmul_range; apply Forall_nth_default; auto using element_0.
    + rename s into d.
      destruct (Z.eqb_spec d 0) as [Hd0|Hd0].
      { eexists. split; [reflexivity|]. cbn beta iota.
        repeat (split; [lia|]). auto. }
      destruct (inverse_Ok d HI Hd0) as (d_inv & Hinv & Hdinv & _).
      rewrite Hinv. mstep.
      assert (Hb : size_t (npar + 1 - pos) = npar + 1 - pos)
        by (unfold size_t; apply Z.mod_small; unfold npar in *; lia).
      rewrite Hb, Z.min_id.
      loop_inv (fun (_ : Z) (C' : list Z) =>
                  length C' = Z.to_nat (npar + 1) ∧ Forall (element m) C').
      * lia.
      * split; assumption.
      * intros idx C' Hidx (HlC' & HC').
        rewrite (vector_get_Ok C' (idx + pos)) by lia. mstep.
        rewrite (vector_get_Ok B idx) by lia. mstep.
        rewrite multiply_gmul
          by (auto; apply Forall_nth_default; auto using element_0). mstep.
        rewrite vector_set_Ok by lia.
        eexists. split; [reflexivity|].
        split; [now rewrite length_insert|].
        apply Forall_insert_element; [assumption|]. unfold GF.add.
        apply element_lxor; [apply Forall_nth_default; auto using element_0|].
        apply gmul_range; [assumption|].
        apply Forall_nth_default; auto using element_0.
      * destruct HI0 as (HlC' & HC').
        destruct (Z.leb_spec (2 * L) i).
        -- eexists. split; [reflexivity|]. cbn beta iota.
           repeat (split; [lia|]). auto.
        -- eexists. split; [reflexivity|]. cbn beta iota.
           repeat (split; [lia|]). auto.
  - destruct s as [[[L pos] C] B]. destruct HI as (_ & _ & _ & _ & HC & _).
    eexists. split; [reflexivity|]. unfold GFPolynomial.make.
    cbn [GFPolynomial.field GFPolynomial.coefficients].
    split; [reflexivity|]. apply normalize_Forall. now apply Forall_take.
Qed.

Lemma coeff_element (p : GFPolynomial.t) (i : Z) :
  Forall (element m) (GFPolynomial.coefficients p) →
  element m (GFPolynomial.coeff p i).
Proof.
  intros Hp. unfold GFPolynomial.coeff.
  destruct (_ && _); [|apply element_0].
  apply Forall_nth_default; auto using element_0.
Qed.

Lemma chien_search_Ok (locator : GFPolynomial.t) :
  GFPolynomial.field locator = F →
  Forall (element m) (GFPolynomial.coefficients locator) →
  ∃ positions, RS.chien_search c locator = Ok positions
               ∧ Forall (fun p => 0 ≤ p < RS.n c) positions.
Proof.
  intros Hf Hcs. destruct locator as [cs f].
  cbn [GFPolynomial.field GFPolynomial.coefficients] in *. subst f.
  unfold RS.chien_search. cbn zeta. rewrite Hfield, Halpha.
  loop_inv (fun (i : Z) (ps : list Z) => Forall (fun p => 0 ≤ p < i) ps).
  - lia.
  - constructor.
  - intros i ps Hi Hps.
    destruct (power_Ok GF.primitive_element (size_t (RS.n c - 1 - i)) element_alpha)
      as (x & Hx & Hxel).
    rewrite Hx. mstep.
    rewrite evaluate_horner by assumption. mstep.
    assert (Hps' : Forall (fun p => 0 ≤ p < i + 1) ps).
    { eapply Forall_impl; [exact Hps|]. cbn. intros. lia. }
    destruct (horner F cs x =? 0).
    + eexists. split; [reflexivity|].
      apply Forall_app. split; [exact Hps'|]. constructor; [lia|constructor].
    + eexists. split; [reflexivity|exact Hps'].
  - eexists. split; [reflexivity|exact HI].
Qed.

Lemma forney_algorithm_Ok (syndromes : list Z) (locator : GFPolynomial.t)
    (positions : list Z) :
  Forall (element m) syndromes →
  GFPolynomial.field locator = F →
  Forall (element m) (GFPolynomial.coefficients locator) →
  ∃ values, RS.forney_algorithm c syndromes locator positions = Ok values
            ∧ length values = length positions
            ∧ Forall (element m) values.
Proof.
  intros Hsyn Hf Hcs.
  assert (Hder : ∃ ds, RS.error_locator_derivative c locator = GFPolynomial.mk ds F
                       ∧ Forall (element m) ds).
  { eexists. unfold RS.error_locator_derivative, GFPolynomial.make. cbn zeta.
    rewrite Hfield. split; [reflexivity|].
    apply normalize_Forall, List.Forall_forall. intros y Hy.
    apply in_map_iff in Hy as (j & <- & _). now apply coeff_element. }
  destruct Hder as (ds & Hder & Hds).
  destruct locator as [cs f].
  cbn [GFPolynomial.field GFPolynomial.coefficients] in Hf, Hcs. subst f.
  unfold RS.forney_algorithm. cbn zeta. rewrite Hder, Hfield, Halpha.
  unfold GFPolynomial.make at 1.
  destruct (mul_spec (GFPolynomial.normalize (rev syndromes)) cs)
    as ([es ef] & Hmul & Hef & Hes & _);
    [apply normalize_Forall, Forall_rev; assumption|assumption|].
  cbn [GFPolynomial.field GFPolynomial.coefficients] in Hef, Hes. subst ef.
  rewrite Hmul. mstep.
  loop_inv (fun (_ : Z) (vs : list Z) =>
              length vs = length positions ∧ Forall (element m) vs).
  - unfold size. lia.
  - unfold vector_zeros, size. rewrite length_replicate, Nat2Z.id.
    split; [reflexivity|apply Forall_replicate, element_0].
  - intros i vs Hi (Hl & Hvs). unfold size in Hi.
    rewrite (vector_get_Ok positions i) by lia. mstep.
    destruct (power_Ok GF.primitive_element
                (size_t (RS.n c - 1 - nth (Z.to_nat i) positions 0)) element_alpha)
      as (x & Hx & Hxel).
    rewrite Hx. mstep.
    rewrite !evaluate_horner by assumption. mstep.
    destruct (Z.eqb_spec (horner F ds x) 0) as [Hz|Hnz]; cbn [negb].
    + eexists. split; [reflexivity|]. split; assumption.
    + destruct (divide_Ok (horner F es x) (horner F ds x)) as (q & Hq & Hqel);
        [auto with el|auto with el|assumption|].
      rewrite Hq. mstep. rewrite vector_set_Ok by lia.
      eexists. split; [reflexivity|].
      split; [now rewrite length_insert|now apply Forall_insert_element].
  - eexists. split; [reflexivity|exact HI].
Qed.

(** [decode] returns a result on every received word of n field elements;
    when some syndrome is not zero, it reports failure exactly when the Chien
    search found more than t roots. *)
Lemma decode_total (received : list Z) :
  length received = Z.to_nat (RS.n c) → Forall (element m) received →
  ∃ syndromes,
    RS.calculate_syndromes c received = Ok syndromes
    ∧ (existsb (fun s => negb (s =? 0)) syndromes = false →
       RS.decode c received
       = Ok (RS.mkDecodeResult (take (Z.to_nat (RS.k c)) received) true 0 []))
    ∧ (existsb (fun s => negb (s =? 0)) syndromes = true →
       ∃ locator positions r,
         RS.berlekamp_massey c syndromes = Ok locator
         ∧ RS.chien_search c locator = Ok positions
         ∧ RS.decode c received = Ok r
         ∧ (RS.success r = false
            ↔ RS.error_correction_capability (RS.n c) (RS.k c) < size positions)).
Proof.
  intros Hlen Hrec.
  destruct (syndromes_Ok received Hlen Hrec) as (syn & Hsyn & Hsl & Hsel).
  exists syn. split; [exact Hsyn|]. unfold RS.decode. cbn zeta.
  rewrite Hsyn. mstep. split.
  - intros ->. reflexivity.
  - intros ->. cbn [negb].
    destruct (berlekamp_massey_Ok syn Hsl Hsel) as (loc & Hbm & Hlf & Hlel).
    destruct (chien_search_Ok loc Hlf Hlel) as (ps & Hch & Hps).
    exists loc, ps. rewrite Hbm. mstep. rewrite Hch. mstep.
    destruct (Z.ltb_spec (RS.error_correction_capability (RS.n c) (RS.k c)) (size ps))
      as [Hgt|Hle].
    + eexists. split; [reflexivity|]. split; [reflexivity|].
      split; [reflexivity|]. cbn [RS.success]. split; [intros _; exact Hgt|reflexivity].
    + destruct (forney_algorithm_Ok syn loc ps Hsel Hlf Hlel) as (vs & Hfo & Hvl & Hvel).
      rewrite Hfo. mstep.
      loop_inv (fun (_ : Z) (w : list Z) => length w = Z.to_nat (RS.n c)).
      * unfold size. lia.
      * exact Hlen.
      * intros i w Hi Hw. unfold size in Hi.
        rewrite (vector_get_Ok ps i) by lia. mstep.
        assert (Hp : 0 ≤ nth (Z.to_nat i) ps 0 < RS.n c).
        { rewrite List.Forall_forall in Hps. apply Hps, nth_In. lia. }
        rewrite (vector_get_Ok w _) by lia. mstep.
        rewrite (vector_get_Ok vs i) by lia. mstep.
        rewrite vector_set_Ok by lia.
        eexists. split; [reflexivity|]. now rewrite length_insert.
      * eexists. split; [reflexivity|]. split; [reflexivity|].
        split; [reflexivity|]. cbn [RS.success]. split; [discriminate|lia].
Qed.

(** *** The Reed-Solomon decoder: syndromes and the shape of the result *)

Ltac loop_inv' I :=
  lazymatch goal with
  | |- context [for_range ?lo ?hi ?body ?s] =>
      let s' := fresh "s" in
      let Hrun := fresh "Hrun" in
      let HI := fresh "HI" in
      destruct (for_range_inv I body lo hi s) as (s' & Hrun & HI);
      [ | | | rewrite Hrun; cbn [mbind result_bind bind] ]
  end.

Lemma nth_take_lt (l : list Z) (i n : nat) :
  (i < n)%nat → nth i (take n l) 0 = nth i l 0.
Proof using.
  clear. intros Hi. rewrite nth_firstn.
  destruct (Nat.ltb_spec i n); [reflexivity|lia].
Qed.

(** Syndrome [i] is the received word, read as the polynomial whose
    coefficient of x^j is [received[j]], at the point alpha^(i+1). *)
Lemma syndromes_values (received : list Z) :
  length received = Z.to_nat (RS.n c) → Forall (element m) received →
  ∃ s, RS.calculate_syndromes c received = Ok s
       ∧ length s = Z.to_nat (RS.n c - RS.k c)
       ∧ ∀ i, (i < length s)%nat →
              nth i s 0 = horner F received (gpow F GF.primitive_element (S i)).
Proof.
  intros Hlen Hrec. pose proof pow2_m_le_4096 as H4096.
  unfold RS.calculate_syndromes. cbn zeta.
  rewrite Hfield, Halpha, parity_length_eq.
  loop_inv' (fun (i : Z) (s : list Z) =>
              length s = Z.to_nat (RS.n c - RS.k c)
              ∧ ∀ i', Z.of_nat i' < i →
                      nth i' s 0
                      = horner F received (gpow F GF.primitive_element (S i'))).
  - lia.
  - split; [apply length_replicate|]. intros i' Hi'. lia.
  - intros i s Hi (Hl & Hvals).
    rewrite power_gpow by (auto using element_alpha; lia). mstep.
    set (x := gpow F GF.primitive_element (Z.to_nat (i + 1))).
    assert (Hx : element m x) by (apply gpow_range, element_alpha).
    loop_inv' (fun (j : Z) (st : Z * Z) =>
                st = (horner F (take (Z.to_nat j) received) x,
                      gpow F x (Z.to_nat j))).
    + lia.
    + reflexivity.
    + intros j [sy cp] Hj [= -> ->].
      rewrite (vector_get_Ok received j) by lia. mstep.
      assert (Hrj : element m (nth (Z.to_nat j) received 0))
        by (apply Forall_nth_default; auto using element_0).
      rewrite multiply_gmul by (auto using gpow_range). mstep.
      rewrite multiply_gmul by (auto using gpow_range). mstep.
      eexists. split; [reflexivity|]. unfold GF.add.
      replace (Z.to_nat (j + 1)) with (S (Z.to_nat j)) by lia.
      rewrite take_S_nth by lia.
      rewrite horner_snoc by (auto using Forall_take).
      rewrite length_take_le by lia. now rewrite gpow_S.
    + subst s0. rewrite vector_set_Ok by lia.
      eexists. split; [reflexivity|].
      split; [now rewrite length_insert|].
      intros i' Hi'. rewrite nth_insert_Z by lia.
      destruct (Nat.eqb_spec i' (Z.to_nat i)) as [->|Hne].
      * rewrite <- Hlen, firstn_all. unfold x. do 2 f_equal. lia.
      * apply Hvals. lia.
  - exists s. split; [reflexivity|]. destruct HI as (Hl & Hvals).
    split; [exact Hl|]. intros i Hi. apply Hvals. lia.
Qed.

(** The positions the Chien search reports are inside the word and increase. *)
Lemma chien_search_sorted (locator : GFPolynomial.t) :
  GFPolynomial.field locator = F →
  Forall (element m) (GFPolynomial.coefficients locator) →
  ∃ positions, RS.chien_search c locator = Ok positions
               ∧ Forall (fun p => 0 ≤ p < RS.n c) positions
               ∧ StronglySorted Z.lt positions.
Proof.
  intros Hf Hcs. destruct locator as [cs f].
  cbn [GFPolynomial.field GFPolynomial.coefficients] in *. subst f.
  unfold RS.chien_search. cbn zeta. rewrite Hfield, Halpha.
  loop_inv' (fun (i : Z) (ps : list Z) =>
               Forall (fun p => 0 ≤ p < i) ps ∧ StronglySorted Z.lt ps).
  - lia.
  - split; constructor.
  - intros i ps Hi (Hps & Hsorted).
    destruct (power_Ok GF.primitive_element (size_t (RS.n c - 1 - i)) element_alpha)
      as (x & Hx & Hxel).
    rewrite Hx. mstep.
    rewrite evaluate_horner by assumption. mstep.
    assert (Hps' : Forall (fun p => 0 ≤ p < i + 1) ps).
    { eapply Forall_impl; [exact Hps|]. cbn. intros. lia. }
    destruct (horner F cs x =? 0).
    + eexists. split; [reflexivity|]. split.
      * apply Forall_app. split; [exact Hps'|]. constructor; [lia|constructor].
      * clear Hps'. induction Hsorted as [|p ps Hs IH Hp].
        -- repeat constructor.
        -- inversion Hps as [|? ? Hp0 Hps0]; subst.
           cbn [app]. constructor; [now apply IH|].
           apply Forall_app. split; [exact Hp|]. constructor; [lia|constructor].
    + eexists. split; [reflexivity|]. split; assumption.
  - eexists. split; [reflexivity|exact HI].
Qed.

(** [decode] on a word with a nonzero syndrome: the corrected word differs
    from the received one only at the reported positions. *)
Lemma decode_shape (received : list Z) :
  length received = Z.to_nat (RS.n c) → Forall (element m) received →
  ∃ r, RS.decode c received = Ok r
       ∧ length (RS.data r) = Z.to_nat (RS.k c)
       ∧ Forall (element m) (RS.data r)
       ∧ Forall (fun p => 0 ≤ p < RS.n c) (RS.error_positions r)
       ∧ StronglySorted Z.lt (RS.error_positions r)
       ∧ RS.errors_corrected r = size (RS.error_positions r)
       ∧ RS.errors_corrected r
         ≤ RS.error_correction_capability (RS.n c) (RS.k c)
       ∧ (RS.success r = false →
          RS.data r = replicate (Z.to_nat (RS.k c)) 0
          ∧ RS.error_positions r = [])
       ∧ (RS.success r = true →
          ∀ i, (i < Z.to_nat (RS.k c))%nat →
               ¬ In (Z.of_nat i) (RS.error_positions r) →
               nth i (RS.data r) 0 = nth i received 0).
Proof.
  intros Hlen Hrec. pose proof pow2_m_le_4096 as H4096.
  assert (Ht0 : 0 ≤ RS.error_correction_capability (RS.n c) (RS.k c)).
  { unfold RS.error_correction_capability. rewrite parity_length_eq.
    apply Z.div_pos; lia. }
  assert (Htake : ∀ w : list Z, length w = Z.to_nat (RS.n c) →
                  length (take (Z.to_nat (RS.k c)) w) = Z.to_nat (RS.k c))
    by (intros w Hw; rewrite length_take; lia).
  destruct (syndromes_Ok received Hlen Hrec) as (syn & Hsyn & Hsl & Hsel).
  unfold RS.decode. cbn zeta. rewrite Hsyn. mstep.
  destruct (existsb (fun s => negb (s =? 0)) syn); cbn [negb].
  2:{ eexists. split; [reflexivity|]. cbn [RS.data RS.error_positions
        RS.errors_corrected RS.success].
      split; [now apply Htake|]. split; [now apply Forall_take|].
      split; [constructor|]. split; [constructor|]. split; [reflexivity|].
      split; [exact Ht0|]. split; [discriminate|].
      intros _ i Hi _. apply nth_take_lt. exact Hi. }
  destruct (berlekamp_massey_Ok syn Hsl Hsel) as (loc & Hbm & Hlf & Hlel).
  destruct (chien_search_sorted loc Hlf Hlel) as (ps & Hch & Hps & Hsorted).
  rewrite Hbm. mstep. rewrite Hch. mstep.
  destruct (Z.ltb_spec (RS.error_correction_capability (RS.n c) (RS.k c)) (size ps))
    as [Hgt|Hle].
  - eexists. split; [reflexivity|]. cbn [RS.data RS.error_positions
      RS.errors_corrected RS.success].
    split; [apply length_replicate|].
    split; [apply Forall_replicate, element_0|].
    split; [constructor|]. split; [constructor|]. split; [reflexivity|].
    split; [exact Ht0|]. split; [auto|discriminate].
  - destruct (forney_algorithm_Ok syn loc ps Hsel Hlf Hlel) as (vs & Hfo & Hvl & Hvel).
    rewrite Hfo. mstep.
    loop_inv' (fun (j : Z) (w : list Z) =>
                 length w = Z.to_nat (RS.n c)
                 ∧ Forall (element m) w
                 ∧ ∀ i, ¬ In (Z.of_nat i) ps → nth i w 0 = nth i received 0).
    + unfold size. lia.
    + split; [exact Hlen|]. split; [exact Hrec|]. reflexivity.
    + intros j w Hj (Hw & Hwel & Hsame). unfold size in Hj.
      rewrite (vector_get_Ok ps j) by lia. mstep.
      assert (Hpin : In (nth (Z.to_nat j) ps 0) ps) by (apply nth_In; lia).
      assert (Hp : 0 ≤ nth (Z.to_nat j) ps 0 < RS.n c).
      { rewrite List.Forall_forall in Hps. now apply Hps. }
      rewrite (vector_get_Ok w _) by lia. mstep.
      rewrite (vector_get_Ok vs j) by lia. mstep.
      rewrite vector_set_Ok by lia.
      eexists. split; [reflexivity|].
      split; [now rewrite length_insert|]. split.
      * apply Forall_insert_element; [exact Hwel|]. unfold GF.add.
        apply element_lxor; apply Forall_nth_default; auto using element_0.
      * intros i Hi. rewrite nth_insert_Z by lia.
        destruct (Nat.eqb_spec i (Z.to_nat (nth (Z.to_nat j) ps 0))) as [->|Hne].
        -- exfalso. apply Hi. now rewrite Z2Nat.id by lia.
        -- now apply Hsame.
    + destruct HI as (Hw & Hwel & Hsame).
      eexists. split; [reflexivity|]. cbn [RS.data RS.error_positions
        RS.errors_corrected RS.success].
      split; [now apply Htake|]. split; [now apply Forall_take|].
      split; [exact Hps|]. split; [exact Hsorted|]. split; [reflexivity|].
      split; [exact Hle|]. split; [discriminate|].
      intros _ i Hi Hnin. rewrite nth_take_lt by exact Hi. now apply Hsame.
Qed.

(** *** The error values and the corrected word *)

Lemma sorted_nth_lt (l : list Z) (i j : nat) :
  StronglySorted Z.lt l → (i < j < length l)%nat → nth i l 0 < nth j l 0.
Proof using.
  clear. intros Hs. revert i j.
  induction Hs as [|x l Hs IH Hx]; intros i j Hij; cbn [length] in Hij; [lia|].
  destruct j as [|j]; [lia|]. destruct i as [|i]; cbn [nth].
  - rewrite List.Forall_forall in Hx. apply Hx, nth_In. lia.
  - apply IH. lia.
Qed.

Lemma In_take_nth (l : list Z) (j : nat) (x : Z) :
  In x (take j l) → ∃ i, (i < j)%nat ∧ (i < length l)%nat ∧ nth i l 0 = x.
Proof using.
  clear. intros Hin. apply (In_nth _ _ 0) in Hin as (i & Hi & Hx).
  rewrite length_take in Hi. exists i. split; [lia|]. split; [lia|].
  rewrite <- Hx. rewrite nth_firstn.
  destruct (Nat.ltb_spec i j); [reflexivity|lia].
Qed.

(** [forney_algorithm] returns one value per position: 0 where the
    denominator, the derivative of the locator at the inverse locator point,
    is 0, and numerator / denominator elsewhere. *)
Lemma forney_algorithm_values (syndromes : list Z) (locator : GFPolynomial.t)
    (positions : list Z) :
  Forall (element m) syndromes →
  GFPolynomial.field locator = F →
  Forall (element m) (GFPolynomial.coefficients locator) →
  ∃ values, RS.forney_algorithm c syndromes locator positions = Ok values
            ∧ length values = length positions
            ∧ Forall (element m) values
            ∧ ∀ i, (i < length positions)%nat →
                ∃ num den,
                  RS.forney_numerator c syndromes locator (nth i positions 0) = Ok num
                  ∧ RS.forney_denominator c locator (nth i positions 0) = Ok den
                  ∧ (den = 0 → nth i values 0 = 0)
                  ∧ (den ≠ 0 → GF.divide F num den = Ok (nth i values 0)).
Proof.
  intros Hsyn Hf Hcs.
  assert (Hder : ∃ ds, RS.error_locator_derivative c locator = GFPolynomial.mk ds F
                       ∧ Forall (element m) ds).
  { eexists. unfold RS.error_locator_derivative, GFPolynomial.make. cbn zeta.
    rewrite Hfield. split; [reflexivity|].
    apply normalize_Forall, List.Forall_forall. intros y Hy.
    apply in_map_iff in Hy as (j & <- & _). now apply coeff_element. }
  destruct Hder as (ds & Hder & Hds).
  destruct locator as [cs f].
  cbn [GFPolynomial.field GFPolynomial.coefficients] in Hf, Hcs. subst f.
  unfold RS.forney_algorithm, RS.forney_numerator, RS.forney_denominator.
  cbn zeta. rewrite Hder, Hfield, Halpha.
  unfold GFPolynomial.make at 1 2.
  destruct (mul_spec (GFPolynomial.normalize (rev syndromes)) cs)
    as ([es ef] & Hmul & Hef & Hes & _);
    [apply normalize_Forall, Forall_rev; assumption|assumption|].
  cbn [GFPolynomial.field GFPolynomial.coefficients] in Hef, Hes. subst ef.
  rewrite Hmul. mstep.
  loop_inv' (fun (i : Z) (vs : list Z) =>
               length vs = length positions ∧ Forall (element m) vs
               ∧ (∀ j, i ≤ Z.of_nat j → nth j vs 0 = 0)
               ∧ ∀ j, Z.of_nat j < i →
                   ∃ num den,
                     (alpha_inv ← GF.power F GF.primitive_element
                                    (size_t (RS.n c - 1 - nth j positions 0));
                      GFPolynomial.evaluate (GFPolynomial.mk es F) alpha_inv) = Ok num
                     ∧ (alpha_inv ← GF.power F GF.primitive_element
                                      (size_t (RS.n c - 1 - nth j positions 0));
                        GFPolynomial.evaluate (GFPolynomial.mk ds F) alpha_inv) = Ok den
                     ∧ (den = 0 → nth j vs 0 = 0)
                     ∧ (den ≠ 0 → GF.divide F num den = Ok (nth j vs 0))).
  - unfold size. lia.
  - unfold vector_zeros, size. rewrite length_replicate, Nat2Z.id.
    split; [reflexivity|]. split; [apply Forall_replicate, element_0|].
    split; [intros j _; apply nth_replicate_zero|]. intros j Hj. lia.
  - intros i vs Hi (Hl & Hvs & Hzero & Hdone). unfold size in Hi.
    rewrite (vector_get_Ok positions i) by lia. mstep.
    destruct (power_Ok GF.primitive_element
                (size_t (RS.n c - 1 - nth (Z.to_nat i) positions 0)) element_alpha)
      as (x & Hx & Hxel).
    rewrite Hx. mstep.
    rewrite !evaluate_horner by assumption. mstep.
    assert (Hnum : element m (horner F es x)) by (now apply horner_range).
    assert (Hden : element m (horner F ds x)) by (now apply horner_range).
    destruct (Z.eqb_spec (horner F ds x) 0) as [Hz|Hnz]; cbn [negb].
    + eexists. split; [reflexivity|]. split; [assumption|]. split; [assumption|].
      split; [intros j Hj; apply Hzero; lia|].
      intros j Hj. destruct (Z.eq_dec (Z.of_nat j) i) as [Hji|Hji].
      * replace j with (Z.to_nat i) by lia. rewrite Hx. mstep.
        rewrite !evaluate_horner by assumption.
        exists (horner F es x), (horner F ds x).
        split; [reflexivity|]. split; [reflexivity|].
        split; [intros _; apply Hzero; lia|]. intros Hc. contradiction.
      * apply Hdone. lia.
    + destruct (divide_Ok (horner F es x) (horner F ds x)) as (q & Hq & Hqel);
        [assumption|assumption|assumption|].
      rewrite Hq. mstep. rewrite vector_set_Ok by lia.
      eexists. split; [reflexivity|].
      split; [now rewrite length_insert|].
      split; [now apply Forall_insert_element|].
      split.
      * intros j Hj. rewrite nth_insert_Z by lia.
        destruct (Nat.eqb_spec j (Z.to_nat i)); [lia|]. apply Hzero. lia.
      * intros j Hj. destruct (Z.eq_dec (Z.of_nat j) i) as [Hji|Hji].
        -- replace j with (Z.to_nat i) by lia. rewrite Hx. mstep.
           rewrite !evaluate_horner by assumption.
           exists (horner F es x), (horner F ds x).
           split; [reflexivity|]. split; [reflexivity|].
           rewrite nth_insert_Z by lia. rewrite Nat.eqb_refl.
           split; [intros Hc; contradiction|]. intros _. exact Hq.
        -- destruct (Hdone j ltac:(lia)) as (num & den & Hn & Hd & H0 & H1).
           exists num, den. split; [exact Hn|]. split; [exact Hd|].
           rewrite nth_insert_Z by lia.
           destruct (Nat.eqb_spec j (Z.to_nat i)); [lia|]. split; assumption.
  - destruct HI as (Hl & Hvs & _ & Hdone).
    exists s. split; [reflexivity|]. split; [exact Hl|]. split; [exact Hvs|].
    intros i Hi. apply Hdone. unfold size. lia.
Qed.

(** [decode], branch by branch.  A word whose syndromes are all zero is
    returned as it is.  Otherwise the decoder fails exactly when the Chien
    search reports more than t positions; when it does not fail, the error
    values of [forney_algorithm] are added to the received symbols at the
    reported positions and every other symbol is kept. *)
Lemma decode_values (received : list Z) :
  length received = Z.to_nat (RS.n c) → Forall (element m) received →
  ∃ syn r,
    RS.calculate_syndromes c received = Ok syn
    ∧ RS.decode c received = Ok r
    ∧ (existsb (fun s => negb (s =? 0)) syn = false →
       r = RS.mkDecodeResult (take (Z.to_nat (RS.k c)) received) true 0 [])
    ∧ (existsb (fun s => negb (s =? 0)) syn = true →
       ∃ loc ps,
         RS.berlekamp_massey c syn = Ok loc
         ∧ RS.chien_search c loc = Ok ps
         ∧ (RS.error_correction_capability (RS.n c) (RS.k c) < size ps →
            r = RS.mkDecodeResult (replicate (Z.to_nat (RS.k c)) 0) false 0 [])
         ∧ (size ps ≤ RS.error_correction_capability (RS.n c) (RS.k c) →
            ∃ vs,
              RS.forney_algorithm c syn loc ps = Ok vs
              ∧ length vs = length ps
              ∧ RS.success r = true
              ∧ RS.errors_corrected r = size ps
              ∧ RS.error_positions r = ps
              ∧ length (RS.data r) = Z.to_nat (RS.k c)
              ∧ (∀ i, (i < length ps)%nat →
                   ∃ num den,
                     RS.forney_numerator c syn loc (nth i ps 0) = Ok num
                     ∧ RS.forney_denominator c loc (nth i ps 0) = Ok den
                     ∧ (den = 0 → nth i vs 0 = 0)
                     ∧ (den ≠ 0 → GF.divide F num den = Ok (nth i vs 0))
                     ∧ (nth i ps 0 < RS.k c →
                        nth (Z.to_nat (nth i ps 0)) (RS.data r) 0
                        = GF.add (nth (Z.to_nat (nth i ps 0)) received 0)
                                 (nth i vs 0)))
              ∧ (∀ j, (j < Z.to_nat (RS.k c))%nat → ¬ In (Z.of_nat j) ps →
                      nth j (RS.data r) 0 = nth j received 0))).
Proof.
  intros Hlen Hrec. pose proof pow2_m_le_4096 as H4096.
  destruct (syndromes_Ok received Hlen Hrec) as (syn & Hsyn & Hsl & Hsel).
  exists syn. unfold RS.decode. cbn zeta. rewrite Hsyn. mstep.
  destruct (existsb (fun s => negb (s =? 0)) syn); cbn [negb].
  2:{ eexists. split; [reflexivity|]. split; [reflexivity|].
      split; [reflexivity|discriminate]. }
  destruct (berlekamp_massey_Ok syn Hsl Hsel) as (loc & Hbm & Hlf & Hlel).
  destruct (chien_search_sorted loc Hlf Hlel) as (ps & Hch & Hps & Hsorted).
  rewrite Hbm. mstep. rewrite Hch. mstep.
  destruct (Z.ltb_spec (RS.error_correction_capability (RS.n c) (RS.k c)) (size ps))
    as [Hgt|Hle].
  { eexists. split; [reflexivity|]. split; [reflexivity|].
    split; [discriminate|]. intros _. exists loc, ps.
    split; [reflexivity|]. split; [exact Hch|].
    split; [reflexivity|]. intros Hc. lia. }
  destruct (forney_algorithm_values syn loc ps Hsel Hlf Hlel)
    as (vs & Hfo & Hvl & Hvel & Hvals).
  rewrite Hfo. mstep.
  loop_inv' (fun (j : Z) (w : list Z) =>
               length w = Z.to_nat (RS.n c)
               ∧ (∀ i, Z.of_nat i < j →
                       nth (Z.to_nat (nth i ps 0)) w 0
                       = GF.add (nth (Z.to_nat (nth i ps 0)) received 0)
                                (nth i vs 0))
               ∧ ∀ p, ¬ In (Z.of_nat p) (take (Z.to_nat j) ps) →
                      nth p w 0 = nth p received 0).
  - unfold size. lia.
  - split; [exact Hlen|]. split; [intros i Hi; lia|]. reflexivity.
  - intros j w Hj (Hw & Hdone & Hsame). unfold size in Hj.
    rewrite (vector_get_Ok ps j) by lia. mstep.
    set (pos := nth (Z.to_nat j) ps 0).
    assert (Hp : 0 ≤ pos < RS.n c).
    { rewrite List.Forall_forall in Hps. apply Hps, nth_In. lia. }
    assert (Hfresh : ¬ In pos (take (Z.to_nat j) ps)).
    { intros Hin. apply In_take_nth in Hin as (i & Hi & Hil & Hx).
      pose proof (sorted_nth_lt ps i (Z.to_nat j) Hsorted ltac:(lia)) as Hlt.
      fold pos in Hlt. lia. }
    rewrite (vector_get_Ok w pos) by lia. mstep.
    rewrite (vector_get_Ok vs j) by lia. mstep.
    rewrite vector_set_Ok by lia.
    eexists. split; [reflexivity|].
    split; [now rewrite length_insert|]. split.
    + intros i Hi. rewrite nth_insert_Z by lia.
      destruct (Z.eq_dec (Z.of_nat i) j) as [Hij|Hij].
      * replace i with (Z.to_nat j) by lia. fold pos. rewrite Nat.eqb_refl.
        f_equal. apply Hsame. now rewrite Z2Nat.id by lia.
      * assert (Hne : nth i ps 0 < pos).
        { apply (sorted_nth_lt ps i (Z.to_nat j) Hsorted). lia. }
        assert (Hi0 : 0 ≤ nth i ps 0).
        { rewrite List.Forall_forall in Hps.
          apply (Hps (nth i ps 0)), nth_In. lia. }
        destruct (Nat.eqb_spec (Z.to_nat (nth i ps 0)) (Z.to_nat pos)); [lia|].
        apply Hdone. lia.
    + intros p Hnin. rewrite nth_insert_Z by lia.
      replace (Z.to_nat (j + 1)) with (S (Z.to_nat j)) in Hnin by lia.
      rewrite take_S_nth in Hnin by lia. fold pos in Hnin.
      rewrite in_app_iff in Hnin. cbn [In] in Hnin.
      destruct (Nat.eqb_spec p (Z.to_nat pos)) as [->|Hne].
      * exfalso. apply Hnin. right. left. now rewrite Z2Nat.id by lia.
      * apply Hsame. tauto.
  - destruct HI as (Hw & Hdone & Hsame).
    eexists. split; [reflexivity|]. split; [reflexivity|].
    split; [discriminate|]. intros _. exists loc, ps.
    split; [reflexivity|]. split; [exact Hch|].
    split; [intros Hc; lia|]. intros _. exists vs.
    cbn [RS.data RS.error_positions RS.errors_corrected RS.success].
    split; [exact Hfo|]. split; [exact Hvl|]. split; [reflexivity|].
    split; [reflexivity|]. split; [reflexivity|].
    split; [rewrite length_take; lia|]. split.
    + intros i Hi. destruct (Hvals i Hi) as (num & den & Hn & Hd & H0 & H1).
      exists num, den. split; [exact Hn|]. split; [exact Hd|].
      split; [exact H0|]. split; [exact H1|].
      intros Hk.
      assert (Hi0 : 0 ≤ nth i ps 0).
      { rewrite List.Forall_forall in Hps.
        apply (Hps (nth i ps 0)), nth_In. lia. }
      rewrite nth_take_lt by lia. apply Hdone. unfold size. lia.
    + intros j Hj Hnin. rewrite nth_take_lt by exact Hj.
      apply Hsame. unfold size. rewrite Nat2Z.id, firstn_all. exact Hnin.
Qed.

(** *** The Reed-Solomon encoder: the remainder loop *)

Lemma horner_nth_ext (a b : list Z) (x : Z) :
  (∀ i, nth i a 0 = nth i b 0) → horner F a x = horner F b x.
Proof.
  intros H.
  rewrite <- (horner_normalize a), <- (horner_normalize b).
  now rewrite (coefficients_ext a b H).
Qed.

Lemma normal_zero_or_last (l : list Z) :
  GFPolynomial.normalize l = l →
  l ≠ [] ∧ (l = [0] ∨ List.last l 0 ≠ 0).
Proof using.
  clear. intros Hn. split.
  - rewrite <- Hn. apply normalize_nonempty.
  - destruct (normalize_split l) as (z & [[H0 _] | (_ & _ & Hlast)]).
    + left. now rewrite <- Hn.
    + right. now rewrite Hn in Hlast.
Qed.

Lemma normal_short (l : list Z) (d : nat) :
  GFPolynomial.normalize l = l →
  (∀ j, (d ≤ j)%nat → nth j l 0 = 0) →
  l = [0] ∨ (length l ≤ d)%nat.
Proof using.
  clear. intros Hn Hz.
  destruct (normal_zero_or_last l Hn) as (Hne & [H0 | Hlast]); [now left|].
  right. rewrite last_nth_Z in Hlast.
  destruct (Nat.le_gt_cases d (length l - 1)) as [Hle|Hgt].
  - now rewrite Hz in Hlast.
  - destruct l; [contradiction|]. cbn [length] in *. lia.
Qed.

Lemma set_coefficient_horner (l : list Z) (index value x : Z) :
  Forall (element m) l → 0 ≤ index → element m value → element m x →
  let p := GFPolynomial.mk l F in
  let l' := GFPolynomial.coefficients
              (GFPolynomial.make F (<[Z.to_nat index := value]> (resized l index))) in
  Forall (element m) l'
  ∧ GFPolynomial.normalize l' = l'
  ∧ horner F l' x
    = Z.lxor (horner F l x)
        (gmul F (Z.lxor (GFPolynomial.coeff p index) value)
                (gpow F x (Z.to_nat index))).
Proof.
  intros Hl Hidx Hval Hx p l'.
  unfold l', resized, GFPolynomial.make, p.
  cbn [GFPolynomial.coefficients GFPolynomial.field].
  set (e := if size l <=? index
            then l ++ replicate (Z.to_nat (index + 1 - size l)) 0 else l).
  assert (He : Forall (element m) e).
  { unfold e. destruct (size l <=? index); [|assumption].
    apply Forall_app. split; [assumption|]. apply Forall_replicate, element_0. }
  assert (Hlen : (Z.to_nat index < length e)%nat).
  { unfold e, size. destruct (Z.leb_spec (Z.of_nat (length l)) index).
    - rewrite length_app, length_replicate. lia.
    - lia. }
  assert (Hh : horner F e x = horner F l x).
  { unfold e. destruct (size l <=? index); [apply horner_app_zeros|reflexivity]. }
  assert (Hc : nth (Z.to_nat index) e 0 = GFPolynomial.coeff (GFPolynomial.mk l F) index).
  { rewrite coeff_Z. cbn [GFPolynomial.coefficients].
    destruct (Z.leb_spec 0 index); [|lia].
    unfold e, size. destruct (Z.leb_spec (Z.of_nat (length l)) index).
    - rewrite app_nth2 by lia. rewrite nth_replicate_zero.
      symmetry. apply nth_overflow. lia.
    - reflexivity. }
  split; [apply normalize_Forall; now apply Forall_insert_element|].
  split; [apply normalize_idempotent|].
  rewrite horner_normalize.
  replace value with (Z.lxor (nth (Z.to_nat index) e 0)
                             (Z.lxor (nth (Z.to_nat index) e 0) value)) at 1
    by (now rewrite <- Z.lxor_assoc, Z.lxor_nilpotent, Z.lxor_0_l).
  rewrite horner_update; auto.
  - now rewrite Hh, Hc.
  - apply element_lxor; [|assumption].
    apply Forall_nth_default; auto using element_0.
Qed.

Lemma divide_by_one (a : Z) :
  element m a → a ≠ 0 → GF.divide F a 1 = Ok a.
Proof.
  intros Ha Ha0. pose proof pow2_m_ge8 as H8.
  destruct (divide_right_when_log_not_smaller a 1) as (q & Hq & Hel & Hmul).
  - unfold element in Ha. lia.
  - lia.
  - rewrite dlog_1. lia.
  - rewrite gmul_1_r in Hmul by assumption. now subst q.
Qed.

(** One turn of the loop of [polynomial_mod] on a monic divisor: the leading
    coefficient of the running remainder is cancelled, and the value at every
    root of the divisor is kept. *)
Lemma polynomial_mod_step_spec (g ql : list Z) :
  Forall (element m) g → g ≠ [] → List.last g 0 = 1 →
  Forall (element m) ql → GFPolynomial.normalize ql = ql →
  forallb (fun e => e =? 0) ql = false →
  (length g ≤ length ql)%nat → Z.of_nat (length ql) ≤ vector_max_size →
  ∃ ql', RS.polynomial_mod_step c (GFPolynomial.mk g F) (GFPolynomial.mk ql F)
         = Ok (GFPolynomial.mk ql' F)
       ∧ Forall (element m) ql'
       ∧ GFPolynomial.normalize ql' = ql'
       ∧ (ql' = [0] ∨ (length ql' < length ql)%nat)
       ∧ ∀ x, element m x → horner F g x = 0 → horner F ql' x = horner F ql x.
Proof.
  intros Hg Hgne Hmonic Hql Hnorm Hnz Hlen Hbig.
  rewrite vector_max_size_eq in Hbig.
  destruct (normal_zero_or_last ql Hnorm) as (Hqne & [Hz | Hlast]);
    [subst ql; discriminate|].
  destruct (degree_mk g Hgne) as (Hdg & Hlg).
  destruct (degree_mk ql Hqne) as (Hdq & Hlq).
  assert (Hlg1 : (1 ≤ length g)%nat) by (destruct g; [contradiction|cbn; lia]).
  set (lead := List.last ql 0) in *.
  assert (Hlead : element m lead) by (apply Forall_last_element; assumption).
  set (s := (length ql - length g)%nat).
  unfold RS.polynomial_mod_step. rewrite Hfield, Hdg, Hdq, Hlg, Hlq, Hmonic.
  rewrite (divide_by_one lead Hlead Hlast). mstep.
  replace (size_t (Z.of_nat (length ql) - 1 - (Z.of_nat (length g) - 1)))
    with (Z.of_nat s)
    by (unfold size_t, s; rewrite Z.mod_small; lia).
  loop_inv (fun (i : Z) (q : GFPolynomial.t) =>
              ∃ l, q = GFPolynomial.mk l F
                   ∧ Forall (element m) l
                   ∧ GFPolynomial.normalize l = l
                   ∧ (∀ j : nat,
                        nth j l 0
                        = if (s <=? j)%nat && (Z.of_nat j <? Z.of_nat s + i)
                          then Z.lxor (nth j ql 0)
                                      (gmul F lead (nth (j - s) g 0))
                          else nth j ql 0)
                   ∧ ∀ x, element m x →
                          horner F l x
                          = Z.lxor (horner F ql x)
                              (gmul F (gmul F lead (gpow F x s))
                                      (horner F (take (Z.to_nat i) g) x))).
  - lia.
  - exists ql. split; [reflexivity|]. split; [assumption|]. split; [assumption|].
    split.
    + intros j. destruct (Nat.leb_spec s j); [|reflexivity].
      destruct (Z.ltb_spec (Z.of_nat j) (Z.of_nat s + 0)); [lia|reflexivity].
    + intros x Hx. cbn [Z.to_nat take horner fold_right].
      now rewrite gmul_0_r, Z.lxor_0_r.
  - intros i q Hi (l & -> & Hl & Hln & Hco & Hho).
    assert (Hgi : element m (nth (Z.to_nat i) g 0))
      by (apply Forall_nth_default; auto using element_0).
    replace (GFPolynomial.coeff (GFPolynomial.mk g F) i)
      with (nth (Z.to_nat i) g 0)
      by (rewrite coeff_Z; cbn [GFPolynomial.coefficients];
          destruct (Z.leb_spec 0 i); [reflexivity|lia]).
    rewrite multiply_gmul by assumption. mstep.
    set (term := gmul F lead (nth (Z.to_nat i) g 0)).
    assert (Hterm : element m term) by (apply gmul_range; assumption).
    replace (size_t (i + Z.of_nat s)) with (i + Z.of_nat s)
      by (unfold size_t, s; rewrite Z.mod_small; lia).
    set (cur := GFPolynomial.coeff (GFPolynomial.mk l F) (i + Z.of_nat s)).
    assert (Hcur : element m cur) by (apply coeff_element; assumption).
    rewrite set_coefficient_Ok
      by (rewrite vector_max_size_eq; unfold s; lia).
    cbn [GFPolynomial.field GFPolynomial.coefficients].
    eexists. split; [reflexivity|].
    set (q' := GFPolynomial.make F
                 (<[Z.to_nat (i + Z.of_nat s) := GF.add cur term]>
                    (resized l (i + Z.of_nat s)))).
    exists (GFPolynomial.coefficients q').
    split; [reflexivity|].
    assert (Hadd : element m (GF.add cur term))
      by (apply element_lxor; assumption).
    split; [|split; [|split]].
    + apply (set_coefficient_horner l (i + Z.of_nat s) (GF.add cur term) 0);
        auto using element_0; lia.
    + apply (set_coefficient_horner l (i + Z.of_nat s) (GF.add cur term) 0);
        auto using element_0; lia.
    + intros j.
      pose proof (set_coefficient_coeff (GFPolynomial.mk l F) (i + Z.of_nat s)
                    (GF.add cur term) (Z.of_nat j) ltac:(lia)) as Hsc.
      cbn [GFPolynomial.field GFPolynomial.coefficients] in Hsc.
      fold q' in Hsc. rewrite !coeff_of_nat in Hsc.
      cbn [GFPolynomial.coefficients] in Hsc. rewrite Hsc.
      destruct (Z.eqb_spec (Z.of_nat j) (i + Z.of_nat s)) as [Hj|Hj].
      * destruct (Nat.leb_spec s j); [|lia].
        destruct (Z.ltb_spec (Z.of_nat j) (Z.of_nat s + (i + 1))); [|lia].
        cbn [andb]. unfold GF.add, cur. rewrite <- Hj, coeff_of_nat.
        cbn [GFPolynomial.coefficients]. rewrite Hco.
        destruct (Z.ltb_spec (Z.of_nat j) (Z.of_nat s + i)); [lia|].
        rewrite andb_false_r. unfold term. do 3 f_equal. lia.
      * rewrite Hco.
        destruct (Nat.leb_spec s j); [|reflexivity]. cbn [andb].
        destruct (Z.ltb_spec (Z.of_nat j) (Z.of_nat s + i)),
                 (Z.ltb_spec (Z.of_nat j) (Z.of_nat s + (i + 1)));
          try reflexivity; lia.
    + intros x Hx.
      destruct (set_coefficient_horner l (i + Z.of_nat s) (GF.add cur term) x)
        as (_ & _ & Hh); auto; [lia|].
      fold q' in Hh. cbv zeta in Hh. rewrite Hh. fold cur.
      unfold GF.add.
      replace (Z.lxor cur (Z.lxor cur term)) with term
        by (now rewrite <- Z.lxor_assoc, Z.lxor_nilpotent, Z.lxor_0_l).
      rewrite Hho by assumption. rewrite Z.lxor_assoc. f_equal.
      replace (Z.to_nat (i + 1)) with (S (Z.to_nat i)) by lia.
      rewrite take_S_nth by lia.
      assert (Htk : Forall (element m) (take (Z.to_nat i) g))
        by (now apply Forall_take).
      rewrite horner_snoc by assumption.
      rewrite length_take, Nat.min_l by lia.
      rewrite gmul_lxor_r by auto with el. f_equal.
      replace (Z.to_nat (i + Z.of_nat s)) with (s + Z.to_nat i)%nat by lia.
      rewrite gpow_add by assumption. unfold term.
      apply gmul_swap4; auto with el.
  - destruct HI as (l & -> & Hl & Hln & Hco & Hho).
    exists l. split; [reflexivity|]. split; [assumption|]. split; [assumption|].
    split.
    + destruct (normal_short l (length ql - 1) Hln) as [H0|Hle];
        [|now left|right; lia].
      intros j Hj. rewrite Hco.
      destruct (Nat.leb_spec s j); [|lia]. cbn [andb].
      destruct (Z.ltb_spec (Z.of_nat j) (Z.of_nat s + (Z.of_nat (length g) - 1 + 1))).
      * assert (j = (length ql - 1)%nat) by lia. subst j.
        rewrite <- last_nth_Z. fold lead.
        replace (length ql - 1 - s)%nat with (length g - 1)%nat by lia.
        rewrite <- last_nth_Z, Hmonic, gmul_1_r by assumption.
        apply Z.lxor_nilpotent.
      * apply nth_overflow. lia.
    + intros x Hx Hroot. rewrite Hho by assumption.
      replace (Z.to_nat (Z.of_nat (length g) - 1 + 1)) with (length g) by lia.
      rewrite firstn_all, Hroot, gmul_0_r. apply Z.lxor_0_r.
Qed.

(** [while_fuel] with a measure that every turn decreases. *)
Lemma while_fuel_measure {S : Type} (I : S → Prop) (μ : S → nat)
    (cond : S → bool) (body : S → result S) :
  (∀ s, I s → cond s = true →
        ∃ s', body s = Ok s' ∧ I s' ∧ (μ s' < μ s)%nat) →
  ∀ fuel s, I s → (μ s ≤ fuel)%nat →
  ∃ s', while_fuel fuel cond body s = Some (Ok s') ∧ I s' ∧ cond s' = false.
Proof using.
  clear. intros Hstep. induction fuel as [|fuel IH]; intros s HI Hmu.
  - cbn. destruct (cond s) eqn:Hc.
    + destruct (Hstep s HI Hc) as (s' & _ & _ & Hlt). lia.
    + eauto.
  - cbn. destruct (cond s) eqn:Hc; [|eauto].
    destruct (Hstep s HI Hc) as (s' & -> & HI' & Hlt).
    apply IH; [assumption|lia].
Qed.

(** [polynomial_mod] by a monic divisor ends within one turn per coefficient
    of the dividend; the remainder has no coefficient of the divisor's degree
    or above and takes the dividend's value at every root of the divisor. *)
Lemma polynomial_mod_spec (g dl : list Z) (fuel : nat) :
  Forall (element m) g → g ≠ [] → List.last g 0 = 1 →
  Forall (element m) dl → GFPolynomial.normalize dl = dl →
  Z.of_nat (length dl) ≤ vector_max_size →
  dl = [0] ∨ (length dl ≤ fuel)%nat →
  ∃ rl, RS.polynomial_mod c fuel (GFPolynomial.mk dl F) (GFPolynomial.mk g F)
        = Some (Ok (GFPolynomial.mk rl F))
      ∧ Forall (element m) rl
      ∧ (∀ j, (length g - 1 ≤ j)%nat → nth j rl 0 = 0)
      ∧ ∀ x, element m x → horner F g x = 0 → horner F rl x = horner F dl x.
Proof.
  intros Hg Hgne Hmonic Hdl Hnorm Hbig Hfuel.
  destruct (degree_mk g Hgne) as (Hdg & _).
  assert (Hlg1 : (1 ≤ length g)%nat) by (destruct g; [contradiction|cbn; lia]).
  unfold RS.polynomial_mod.
  destruct (while_fuel_measure
              (fun q => ∃ l, q = GFPolynomial.mk l F
                             ∧ Forall (element m) l
                             ∧ GFPolynomial.normalize l = l
                             ∧ (length l ≤ length dl)%nat
                             ∧ ∀ x, element m x → horner F g x = 0 →
                                    horner F l x = horner F dl x)
              (fun q => if GFPolynomial.is_zero q then 0%nat
                        else length (GFPolynomial.coefficients q))
              (fun q => (GFPolynomial.degree (GFPolynomial.mk g F)
                         <=? GFPolynomial.degree q)
                        && negb (GFPolynomial.is_zero q))
              (RS.polynomial_mod_step c (GFPolynomial.mk g F)))
    with (fuel := fuel) (s := GFPolynomial.mk dl F)
    as (q & Hrun & (rl & -> & Hrl & Hrn & Hrlen & Hrh) & Hcond).
  - intros q (l & -> & Hl & Hln & Hllen & Hlh) Hc.
    apply andb_true_iff in Hc as [Hdeg Hnz].
    apply negb_true_iff in Hnz. unfold GFPolynomial.is_zero in Hnz.
    cbn [GFPolynomial.coefficients] in Hnz.
    destruct (normal_zero_or_last l Hln) as (Hlne & _).
    destruct (degree_mk l Hlne) as (Hdl' & _).
    rewrite Hdg, Hdl' in Hdeg. apply Z.leb_le in Hdeg.
    destruct (polynomial_mod_step_spec g l Hg Hgne Hmonic Hl Hln Hnz)
      as (l' & Hstep & Hl' & Hln' & Hshort & Hh'); [lia|lia|].
    exists (GFPolynomial.mk l' F). split; [exact Hstep|]. split.
    + exists l'. split; [reflexivity|]. split; [assumption|].
      split; [assumption|]. split.
      * destruct Hshort as [-> | Hlt]; [cbn [length]|]; lia.
      * intros x Hx Hroot. rewrite Hh' by assumption. now apply Hlh.
    + unfold GFPolynomial.is_zero. cbn [GFPolynomial.coefficients].
      rewrite Hnz. destruct Hshort as [-> | Hlt].
      * cbn. lia.
      * destruct (forallb (λ e : Z, e =? 0) l'); lia.
  - exists dl. split; [reflexivity|]. split; [assumption|].
    split; [assumption|]. split; [lia|]. intros; reflexivity.
  - unfold GFPolynomial.is_zero. cbn [GFPolynomial.coefficients].
    destruct Hfuel as [-> | Hle]; [cbn; lia|].
    destruct (forallb (λ e : Z, e =? 0) dl); lia.
  - exists rl. split; [exact Hrun|]. split; [assumption|]. split; [|assumption].
    intros j Hj.
    destruct (normal_zero_or_last rl Hrn) as (Hrne & _).
    destruct (degree_mk rl Hrne) as (Hdr & _).
    rewrite Hdg, Hdr in Hcond.
    apply andb_false_iff in Hcond as [Hdeg | Hz].
    + apply Z.leb_gt in Hdeg. apply nth_overflow. lia.
    + apply negb_false_iff in Hz. unfold GFPolynomial.is_zero in Hz.
      cbn [GFPolynomial.coefficients] in Hz.
      destruct (Nat.lt_ge_cases j (length rl)) as [Hlt|Hge];
        [|now apply nth_overflow].
      rewrite forallb_forall in Hz. apply Z.eqb_eq, Hz, nth_In, Hlt.
Qed.

Lemma nth_map_seq (f : nat → Z) (n i : nat) :
  nth i (map f (seq 0 n)) 0 = if (i <? n)%nat then f i else 0.
Proof using.
  clear. destruct (Nat.ltb_spec i n).
  - rewrite (nth_indep _ 0 (f 0%nat)) by (rewrite length_map, length_seq; lia).
    rewrite map_nth, seq_nth by lia. reflexivity.
  - apply nth_overflow. rewrite length_map, length_seq. lia.
Qed.

(** [encode]: the word is the data followed by the n - k low coefficients of
    the remainder of x^(n-k) d(x) by the generator; the polynomial with the
    parity symbols as low and the data symbols as high coefficients vanishes
    at alpha^1 .. alpha^(n-k). *)
Lemma rs_encode_spec (g data : list Z) :
  RS.generator_poly c = GFPolynomial.mk g F →
  Forall (element m) g → length g = Z.to_nat (RS.n c - RS.k c + 1) →
  List.last g 0 = 1 →
  (∀ j, 1 ≤ j ≤ RS.n c - RS.k c →
        horner F g (gpow F GF.primitive_element (Z.to_nat j)) = 0) →
  length data = Z.to_nat (RS.k c) → Forall (element m) data →
  ∃ parity, RS.encode c data = Some (Ok (data ++ parity))
    ∧ length parity = Z.to_nat (RS.n c - RS.k c)
    ∧ Forall (element m) parity
    ∧ ∀ j, 1 ≤ j ≤ RS.n c - RS.k c →
           horner F (parity ++ data) (gpow F GF.primitive_element (Z.to_nat j)) = 0.
Proof.
  intros Hgen Hg Hglen Hmonic Hroots Hdlen Hdata.
  pose proof pow2_m_le_4096 as H4096.
  set (np := Z.to_nat (RS.n c - RS.k c)).
  set (shifted := replicate np 0 ++ data).
  assert (Hsl : length shifted = Z.to_nat (RS.n c)).
  { unfold shifted, np. rewrite length_app, length_replicate. lia. }
  assert (Hsh : Forall (element m) shifted).
  { apply Forall_app. split; [apply Forall_replicate, element_0|assumption]. }
  assert (Hgne : g ≠ []) by (intros ->; cbn in Hglen; lia).
  pose proof (normalize_length shifted) as Hnl.
  destruct (polynomial_mod_spec g (GFPolynomial.normalize shifted) (length shifted))
    as (rl & Hmod & Hrl & Hrz & Hrh); auto.
  { apply normalize_Forall; assumption. }
  { apply normalize_idempotent. }
  { rewrite vector_max_size_eq. lia. }
  { destruct (Nat.eq_dec (length shifted) 0%nat) as [H0|H0]; [left|right; lia].
    destruct shifted; [reflexivity|discriminate]. }
  set (parity := map (fun j => nth j rl 0) (seq 0 np)).
  assert (Hpl : length parity = np)
    by (unfold parity; now rewrite length_map, length_seq).
  assert (Hpar : Forall (element m) parity).
  { unfold parity. apply Forall_map, Forall_forall. intros j _.
    apply Forall_nth_default; auto using element_0. }
  exists parity. split; [|split; [exact Hpl|split; [exact Hpar|]]].
  - unfold RS.encode. cbv zeta. rewrite Hfield, parity_length_eq, Hgen.
    fold np. fold shifted. unfold GFPolynomial.make at 1. rewrite Hmod.
    loop_inv (fun (i : Z) (cw : list Z) =>
                length cw = Z.to_nat (RS.n c)
                ∧ ∀ j : nat,
                    nth j cw 0
                    = if (j <? Z.to_nat (RS.k c))%nat then nth j data 0
                      else if Z.of_nat j <? RS.k c + i
                           then nth (j - Z.to_nat (RS.k c)) rl 0
                           else 0).
    + lia.
    + split; [rewrite length_app, length_replicate; unfold np; lia|].
      intros j. destruct (Nat.ltb_spec j (Z.to_nat (RS.k c))).
      * apply app_nth1. lia.
      * rewrite app_nth2 by lia. rewrite nth_replicate_zero.
        destruct (Z.ltb_spec (Z.of_nat j) (RS.k c + 0)); [lia|reflexivity].
    + intros i cw Hi (Hcl & Hcw).
      rewrite vector_set_Ok by lia.
      eexists. split; [reflexivity|]. split; [now rewrite length_insert|].
      intros j. rewrite nth_insert_Z by lia. rewrite Hcw.
      destruct (Nat.eqb_spec j (Z.to_nat (RS.k c + i))) as [->|Hne].
      * destruct (Nat.ltb_spec (Z.to_nat (RS.k c + i)) (Z.to_nat (RS.k c))); [lia|].
        destruct (Z.ltb_spec (Z.of_nat (Z.to_nat (RS.k c + i))) (RS.k c + (i + 1)));
          [|lia].
        rewrite coeff_Z. cbn [GFPolynomial.coefficients].
        destruct (Z.leb_spec 0 i); [|lia]. f_equal. lia.
      * destruct (Nat.ltb_spec j (Z.to_nat (RS.k c))); [reflexivity|].
        destruct (Z.ltb_spec (Z.of_nat j) (RS.k c + i)),
                 (Z.ltb_spec (Z.of_nat j) (RS.k c + (i + 1)));
          try reflexivity; lia.
    + destruct HI as (Hcl & Hcw). do 2 f_equal.
      apply (nth_ext _ _ 0 0).
      * rewrite length_app, Hpl. unfold np. lia.
      * intros j Hj. rewrite Hcw.
        destruct (Nat.ltb_spec j (Z.to_nat (RS.k c))).
        -- symmetry. apply app_nth1. lia.
        -- rewrite app_nth2 by lia. unfold parity. rewrite nth_map_seq.
           rewrite Hdlen.
           destruct (Z.ltb_spec (Z.of_nat j) (RS.k c + (RS.n c - RS.k c)));
             [|lia].
           destruct (Nat.ltb_spec (j - Z.to_nat (RS.k c)) np);
             [reflexivity|unfold np in *; lia].
  - intros j Hj.
    set (x := gpow F GF.primitive_element (Z.to_nat j)).
    assert (Hx : element m x) by (apply gpow_range, element_alpha).
    rewrite (horner_nth_ext (parity ++ data)
               (map (fun i => Z.lxor (nth i parity 0) (nth i shifted 0))
                    (seq 0 (Z.to_nat (RS.n c))))).
    2:{ intros i. rewrite nth_map_seq. unfold shifted.
        destruct (Nat.ltb_spec i (Z.to_nat (RS.n c))).
        - destruct (Nat.lt_ge_cases i np).
          + rewrite !app_nth1 by (rewrite ?length_replicate; lia).
            now rewrite nth_replicate_zero, Z.lxor_0_r.
          + rewrite !app_nth2 by (rewrite ?length_replicate; lia).
            rewrite (nth_overflow parity) by lia.
            rewrite length_replicate, Hpl. now rewrite Z.lxor_0_l.
        - apply nth_overflow. rewrite length_app, Hpl. unfold np. lia. }
    rewrite horner_pointwise_add; auto; [|unfold np in *; lia|lia].
    rewrite (horner_nth_ext parity rl).
    2:{ intros i. unfold parity. rewrite nth_map_seq.
        destruct (Nat.ltb_spec i np); [reflexivity|].
        symmetry. apply Hrz. unfold np in *. lia. }
    rewrite Hrh by (auto; now apply Hroots).
    rewrite horner_normalize. apply Z.lxor_nilpotent.
Qed.

(** *** The minimal polynomial of an element *)

Lemma power_2 (x : Z) : element m x → GF.power F x 2 = Ok (gmul F x x).
Proof using Hm Hprim Hvalid.
  clear c Hfield Halpha Hgeom.
  intros Hx. rewrite power_gpow by (auto; lia).
  change (gpow F x (Z.to_nat 2)) with (gmul F (gmul F 1 x) x).
  now rewrite gmul_1_l.
Qed.

Lemma gpow_1 (x : Z) : gpow F x 1 = x.
Proof using Hm Hvalid. change (gpow F x 1) with (gmul F 1 x). apply gmul_1_l. Qed.

Lemma gpow_double (x : Z) (i : nat) :
  element m x →
  gpow F x (2 ^ S i) = gmul F (gpow F x (2 ^ i)) (gpow F x (2 ^ i)).
Proof using Hm Hprim Hvalid.
  clear c Hfield Halpha Hgeom.
  intros Hx. replace (2 ^ S i)%nat with (2 ^ i + 2 ^ i)%nat by (cbn; lia).
  now apply gpow_add.
Qed.

(** Squaring [m] times is the identity of the field. *)
Lemma gpow_frobenius (x : Z) : element m x → gpow F x (2 ^ Z.to_nat m) = x.
Proof using Hm Hprim Hvalid.
  clear c Hfield Halpha Hgeom.
  intros Hx. pose proof pow2_m_ge8 as H8.
  assert (Hpow : (2 ^ Z.to_nat m)%nat = (Z.to_nat (2 ^ m - 1) + 1)%nat).
  { apply Nat2Z.inj. rewrite Nat2Z.inj_pow, Nat2Z.inj_add, !Z2Nat.id by lia.
    change (Z.of_nat 2) with 2. change (Z.of_nat 1) with 1. lia. }
  destruct (Z.eq_dec x 0) as [->|Hx0].
  - rewrite Hpow, Nat.add_1_r. now rewrite gpow_0_base.
  - rewrite Hpow, gpow_add by assumption.
    rewrite gpow_order by (unfold element in Hx; lia).
    rewrite gpow_1. apply gmul_1_l.
Qed.

Lemma gmul_zero (a b : Z) :
  element m a → element m b → gmul F a b = 0 → a = 0 ∨ b = 0.
Proof using Hm Hprim Hvalid.
  clear c Hfield Halpha Hgeom.
  intros Ha Hb H0.
  destruct (Z.eq_dec a 0) as [|Ha0]; [now left|].
  destruct (Z.eq_dec b 0) as [|Hb0]; [now right|].
  pose proof (gmul_nonzero a b) as Hnz. unfold element in *. lia.
Qed.

(** Squaring is one-to-one: (x + y)^2 = x^2 + y^2. *)
Lemma square_inj (x y : Z) :
  element m x → element m y → gmul F x x = gmul F y y → x = y.
Proof using Hm Hprim Hvalid.
  clear c Hfield Halpha Hgeom.
  intros Hx Hy Heq.
  assert (Hxy : element m (Z.lxor x y)) by (now apply element_lxor).
  assert (H0 : gmul F (Z.lxor x y) (Z.lxor x y) = 0).
  { rewrite gmul_lxor_r by assumption.
    rewrite !gmul_lxor_l by assumption.
    rewrite (gmul_comm y x) by assumption. rewrite Heq.
    rewrite Z.lxor_assoc, <- (Z.lxor_assoc (gmul F x y)).
    rewrite Z.lxor_nilpotent, Z.lxor_0_l. apply Z.lxor_nilpotent. }
  apply gmul_zero in H0; [|assumption|assumption].
  apply Z.lxor_eq. tauto.
Qed.

(** The loop that collects the conjugates ends within [m] turns, with the
    list alpha^(2^0), ..., alpha^(2^(d-1)) of distinct elements, when
    alpha^(2^d) is alpha again. *)
Lemma conjugates_loop (alpha : Z) (fuel : nat) :
  element m alpha → (Z.to_nat m ≤ fuel)%nat →
  ∃ (d : nat) (seen : gset Z),
    (1 ≤ d ≤ Z.to_nat m)%nat
    ∧ while_fuel fuel galois_utils_poly.conjugates_cond
        (galois_utils_poly.conjugates_step F) (∅, [], alpha)
      = Some (Ok (seen, map (fun i => gpow F alpha (2 ^ i)) (seq 0 d),
                  gpow F alpha (2 ^ d)))
    ∧ NoDup (map (fun i => gpow F alpha (2 ^ i)) (seq 0 d))
    ∧ gpow F alpha (2 ^ d) = alpha.
Proof using Hm Hprim Hvalid.
  clear c Hfield Halpha Hgeom.
  intros Ha Hfuel. pose proof pow2_m_ge8 as H8.
  set (cj := fun i : nat => gpow F alpha (2 ^ i)).
  assert (Hcj : ∀ i, element m (cj i)) by (intros i; now apply gpow_range).
  destruct (while_fuel_measure
              (fun s : gset Z * list Z * Z =>
                 ∃ i, (i ≤ Z.to_nat m)%nat
                      ∧ s.1.2 = map cj (seq 0 i)
                      ∧ s.2 = cj i
                      ∧ (∀ x, x ∈ s.1.1 ↔ In x (map cj (seq 0 i)))
                      ∧ NoDup (map cj (seq 0 i)))
              (fun s => (Z.to_nat m - length s.1.2)%nat)
              galois_utils_poly.conjugates_cond
              (galois_utils_poly.conjugates_step F))
    with (fuel := fuel) (s := ((∅ : gset Z), ([] : list Z), alpha))
    as ([[seen cs] cur] & Hrun & (d & Hd & Hcs & Hcur & Hseen & Hnd) & Hcond).
  - intros [[seen cs] cur] (i & Hi & Hcs & Hcur & Hseen & Hnd) Hc.
    cbn [fst snd] in *. subst cs cur.
    unfold galois_utils_poly.conjugates_cond in Hc.
    apply negb_true_iff, bool_decide_eq_false in Hc.
    rewrite Hseen in Hc.
    assert (Hlt : (i < Z.to_nat m)%nat).
    { destruct (Nat.eq_dec i (Z.to_nat m)) as [->|]; [|lia].
      exfalso. apply Hc. unfold cj at 1. rewrite gpow_frobenius by assumption.
      apply in_map_iff. exists 0%nat. split; [apply gpow_1|].
      apply in_seq. lia. }
    unfold galois_utils_poly.conjugates_step.
    rewrite power_2 by apply Hcj. cbn [mbind result_bind bind].
    eexists. split; [reflexivity|]. split.
    + exists (S i). cbn [fst snd].
      rewrite seq_S, map_app. cbn [map Nat.add].
      split; [lia|]. split; [reflexivity|]. split.
      { unfold cj. now rewrite gpow_double. }
      split.
      * intros x. rewrite elem_of_union, elem_of_singleton, Hseen, in_app_iff.
        cbn [In]. intuition congruence.
      * apply NoDup_app. split; [exact Hnd|]. split.
        -- intros x Hx Hx'. apply list_elem_of_In in Hx, Hx'.
           destruct Hx' as [<-|[]]. contradiction.
        -- apply NoDup_singleton.
    + cbn [fst snd]. rewrite length_app, length_map, length_seq. cbn [length]. lia.
  - exists 0%nat. cbn [fst snd seq map].
    split; [lia|]. split; [reflexivity|]. split; [symmetry; apply gpow_1|].
    split; [|constructor].
    intros x. split; [intros Hx; now apply not_elem_of_empty in Hx|intros []].
  - cbn [fst snd length]. lia.
  - cbn [fst snd] in *. subst cs cur.
    unfold galois_utils_poly.conjugates_cond in Hcond.
    apply negb_false_iff, bool_decide_eq_true in Hcond.
    rewrite Hseen in Hcond.
    apply in_map_iff in Hcond as (j & Hj & Hin). apply in_seq in Hin.
    assert (Hd1 : (1 ≤ d)%nat) by lia.
    exists d, seen. split; [lia|]. split; [exact Hrun|]. split; [exact Hnd|].
    destruct j as [|j]; [change (cj d = alpha); rewrite <- Hj; apply gpow_1|].
    exfalso. destruct d as [|d]; [lia|].
    unfold cj in Hj. rewrite !gpow_double in Hj by assumption.
    apply square_inj in Hj; [|apply Hcj|apply Hcj].
    assert (j = d); [|lia].
    apply NoDup_ListNoDup in Hnd.
    apply (proj1 (NoDup_nth (map cj (seq 0 (S d))) 0) Hnd).
    + rewrite length_map, length_seq. lia.
    + rewrite length_map, length_seq. lia.
    + rewrite !(nth_indep _ 0 (cj 0%nat))
        by (rewrite length_map, length_seq; lia).
      rewrite !map_nth, !seq_nth by lia. exact Hj.
Qed.

(** One factor more: the two loops multiply a monic vector by x + root. *)
Lemma multiply_vectors_linear (p : list Z) (root : Z) :
  Forall (element m) p → p ≠ [] → List.last p 0 = 1 → element m root →
  ∃ res, galois_utils_poly.multiply_vectors F p [root; 1] = Ok res
         ∧ Forall (element m) res
         ∧ length res = S (length p)
         ∧ List.last res 0 = 1
         ∧ ∀ x, element m x →
                horner F res x = gmul F (horner F p x) (Z.lxor x root).
Proof using Hm Hprim Hvalid.
  clear c Hfield Halpha Hgeom.
  intros Hp Hne Hlast Hroot.
  assert (Hf : Forall (element m) [root; 1])
    by (constructor; [exact Hroot|constructor; [apply element_1|constructor]]).
  destruct (mul_loops_top p [root; 1] Hp Hf Hne) as (res & Hmul & Hlen & Hel & Hl);
    [discriminate|].
  exists res. split; [exact Hmul|]. split; [exact Hel|].
  split; [cbn [length] in Hlen; lia|]. split.
  - rewrite Hl, Hlast. cbn [List.last]. apply gmul_1_l.
  - intros x Hx.
    destruct (mul_loops p [root; 1] x Hp Hf Hx) as (res' & Hmul' & _ & Hh).
    unfold galois_utils_poly.multiply_vectors in Hmul.
    rewrite Hmul in Hmul'. injection Hmul' as <-.
    rewrite Hh. now rewrite horner_linear.
Qed.

Lemma multiply_vectors_fold (rs p0 : list Z) :
  Forall (element m) rs → Forall (element m) p0 → p0 ≠ [] →
  List.last p0 0 = 1 →
  ∃ p, foldM (fun poly root => galois_utils_poly.multiply_vectors F poly [root; 1])
             rs p0 = Ok p
       ∧ Forall (element m) p
       ∧ length p = (length p0 + length rs)%nat
       ∧ List.last p 0 = 1
       ∧ ∀ x, element m x →
              (horner F p x = 0 ↔ horner F p0 x = 0 ∨ In x rs).
Proof using Hm Hprim Hvalid.
  clear c Hfield Halpha Hgeom.
  intros Hrs. revert p0.
  induction Hrs as [|r rs Hr Hrs IH]; intros p0 Hp0 Hne Hlast.
  - exists p0. cbn [foldM length]. split; [reflexivity|]. split; [assumption|].
    split; [lia|]. split; [assumption|]. intros x _. cbn [In]. tauto.
  - destruct (multiply_vectors_linear p0 r Hp0 Hne Hlast Hr)
      as (p1 & Hm1 & Hel1 & Hlen1 & Hlast1 & Hh1).
    assert (Hne1 : p1 ≠ []) by (intros ->; discriminate).
    destruct (IH p1 Hel1 Hne1 Hlast1) as (p & Hf & Hel & Hlen & Hl & Hh).
    exists p. cbn [foldM]. rewrite Hm1. cbn [mbind result_bind bind].
    split; [exact Hf|]. split; [exact Hel|].
    split; [cbn [length]; lia|]. split; [exact Hl|].
    intros x Hx. rewrite (Hh x Hx), (Hh1 x Hx). cbn [In]. split.
    + intros [H0 | Hin]; [|tauto].
      apply gmul_zero in H0 as [H0 | H0];
        [tauto| |now apply horner_range|now apply element_lxor].
      apply Z.lxor_eq in H0. auto.
    + intros [H0 | [-> | Hin]]; [| |tauto].
      * left. rewrite H0. apply gmul_0_l.
      * left. rewrite Z.lxor_nilpotent. apply gmul_0_r.
Qed.

End Primitive.

(** * The Hamming codec for every valid pair (n, k) *)

Section HammingLoops.

Local Open Scope nat_scope.

Lemma loop_S {S : Type} (n : nat) (body : nat → S → S) (s : S) :
  Hamming.loop (Datatypes.S n) body s = body n (Hamming.loop n body s).
Proof.
  unfold Hamming.loop. rewrite seq_S, fold_left_app. reflexivity.
Qed.

Lemma loop_ext {S : Type} (n : nat) (body body' : nat → S → S) (s : S) :
  (∀ i s, i < n → body i s = body' i s) →
  Hamming.loop n body s = Hamming.loop n body' s.
Proof.
  induction n as [|n IH]; intros Hext; [reflexivity|].
  rewrite !loop_S, IH by (intros; apply Hext; lia). apply Hext. lia.
Qed.

Lemma loop_inv_nat {S : Type} (I : nat → S → Prop) (n : nat)
    (body : nat → S → S) (s : S) :
  I 0 s → (∀ i s, i < n → I i s → I (Datatypes.S i) (body i s)) →
  I n (Hamming.loop n body s).
Proof.
  intros H0 Hstep. induction n as [|n IH]; [exact H0|].
  rewrite loop_S. apply Hstep; [lia|]. apply IH. intros; apply Hstep; [lia|assumption].
Qed.

(** *** Parity sums *)

Lemma xor_sum_S (f : nat → bool) (n : nat) :
  xor_sum f (S n) = xorb (xor_sum f n) (f n).
Proof. unfold xor_sum. now rewrite loop_S. Qed.

Lemma xor_sum_ext (f g : nat → bool) (n : nat) :
  (∀ j, j < n → f j = g j) → xor_sum f n = xor_sum g n.
Proof.
  intros Hext. induction n as [|n IH]; [reflexivity|].
  rewrite !xor_sum_S, IH, Hext by (intros; try apply Hext; lia). reflexivity.
Qed.

Lemma xor_sum_false (n : nat) : xor_sum (fun _ => false) n = false.
Proof.
  induction n as [|n IH]; [reflexivity|]. now rewrite xor_sum_S, IH.
Qed.

Lemma xor_sum_xorb (f g : nat → bool) (n : nat) :
  xor_sum (fun j => xorb (f j) (g j)) n = xorb (xor_sum f n) (xor_sum g n).
Proof.
  induction n as [|n IH]; [reflexivity|]. rewrite !xor_sum_S, IH.
  destruct (xor_sum f n), (xor_sum g n), (f n), (g n); reflexivity.
Qed.

Lemma xor_sum_app (f : nat → bool) (a b : nat) :
  xor_sum f (a + b) = xorb (xor_sum f a) (xor_sum (fun j => f (a + j)) b).
Proof.
  induction b as [|b IH].
  - rewrite Nat.add_0_r. cbn. now rewrite xorb_false_r.
  - rewrite Nat.add_succ_r, !xor_sum_S, IH. now rewrite xorb_assoc.
Qed.

Lemma xor_sum_indicator (h : nat → bool) (p n : nat) :
  xor_sum (fun j => (j =? p) && h j) n = if p <? n then h p else false.
Proof.
  induction n as [|n IH]; [reflexivity|]. rewrite xor_sum_S, IH.
  destruct (Nat.ltb_spec p n), (Nat.ltb_spec p (S n)), (Nat.eqb_spec n p);
    try lia; subst; cbn [andb]; rewrite ?xorb_false_r, ?xorb_false_l;
    reflexivity.
Qed.

(** *** Bitsets and matrices given bit by bit *)

Lemma nth_insert_gen {A : Type} (l : list A) (i j : nat) (v d : A) :
  i < length l →
  nth j (<[i := v]> l) d = if j =? i then v else nth j l d.
Proof.
  intros Hi. destruct (Nat.eqb_spec j i) as [->|Hne].
  - apply nth_lookup_Some with (d := d). now apply list_lookup_insert_eq.
  - destruct (nth_lookup_or_length (<[i := v]> l) j d) as [H|H].
    + rewrite list_lookup_insert_ne in H by auto.
      destruct (nth_lookup_or_length l j d) as [H'|H'].
      * congruence.
      * apply lookup_lt_Some in H. lia.
    + rewrite length_insert in H.
      rewrite !nth_overflow; [reflexivity|lia|rewrite length_insert; lia].
Qed.

Lemma bits_spec_ext (b : list bool) (L : nat) (f g : nat → bool) :
  (∀ c, c < L → f c = g c) → bits_spec b L f → bits_spec b L g.
Proof.
  intros Hext [Hlen Hb]. split; [exact Hlen|].
  intros c Hc. rewrite Hb by exact Hc. now apply Hext.
Qed.

Lemma bits_spec_eq (b b' : list bool) (L : nat) (f : nat → bool) :
  bits_spec b L f → bits_spec b' L f → b = b'.
Proof.
  intros [Hl Hb] [Hl' Hb'].
  apply (nth_ext b b' false false); [congruence|].
  intros c Hc. rewrite Hb, Hb' by lia. reflexivity.
Qed.

Lemma bits_spec_self (d : list bool) :
  bits_spec d (length d) (fun i => nth i d false).
Proof. split; [reflexivity|auto]. Qed.

Lemma bits_spec_map (L : nat) (f : nat → bool) :
  bits_spec (map f (seq 0 L)) L f.
Proof.
  split; [now rewrite length_map, length_seq|].
  intros c Hc. rewrite (nth_indep _ false (f 0)) by (now rewrite length_map, length_seq).
  rewrite map_nth, seq_nth by exact Hc. reflexivity.
Qed.

Lemma bits_spec_new (L : nat) :
  bits_spec (Hamming.bitset_new L) L (fun _ => false).
Proof.
  split; [apply length_replicate|].
  intros c Hc. unfold Hamming.bitset_new.
  apply nth_lookup_Some with (d := false).
  now apply lookup_replicate.
Qed.

Lemma bits_spec_set (b : list bool) (L i : nat) (v : bool) (f : nat → bool) :
  bits_spec b L f → i < L →
  bits_spec (Hamming.set_bit b i v) L (fun c => if c =? i then v else f c).
Proof.
  intros [Hlen Hb] Hi. unfold Hamming.set_bit, Hamming.bitset. split.
  - now rewrite length_insert.
  - intros c Hc. rewrite nth_insert_gen by lia.
    destruct (c =? i); [reflexivity|now apply Hb].
Qed.

Lemma bits_spec_flip (b : list bool) (L i : nat) (f : nat → bool) :
  bits_spec b L f → i < L →
  bits_spec (Hamming.flip b i) L (fun c => xorb (f c) (c =? i)).
Proof.
  intros Hb Hi. unfold Hamming.flip.
  eapply bits_spec_ext; [|apply (bits_spec_set b L i _ f Hb Hi)].
  intros c Hc. cbv beta. destruct (Nat.eqb_spec c i) as [->|_].
  - unfold Hamming.bit. destruct Hb as [_ Hb]. rewrite Hb by exact Hi.
    now destruct (f i).
  - now rewrite xorb_false_r.
Qed.

(** A loop that stores [f j] in bit [off + j]. *)
Lemma bits_spec_loop (b : list bool) (L off cnt : nat) (f g : nat → bool) :
  bits_spec b L g → off + cnt ≤ L →
  bits_spec (Hamming.loop cnt (fun j r => Hamming.set_bit r (off + j) (f j)) b) L
            (fun c => if (off <=? c) && (c <? off + cnt) then f (c - off) else g c).
Proof.
  intros Hb Hle. induction cnt as [|cnt IH].
  - eapply bits_spec_ext; [|exact Hb]. intros c Hc. cbv beta.
    destruct (Nat.leb_spec off c), (Nat.ltb_spec c (off + 0)); try lia; reflexivity.
  - rewrite loop_S.
    eapply bits_spec_ext; [|apply bits_spec_set; [apply IH; lia|lia]].
    intros c Hc. cbv beta.
    destruct (Nat.eqb_spec c (off + cnt)) as [->|Hne].
    + destruct (Nat.leb_spec off (off + cnt)), (Nat.ltb_spec (off + cnt) (off + S cnt));
        try lia. cbn [andb]. f_equal. lia.
    + destruct (Nat.leb_spec off c), (Nat.ltb_spec c (off + cnt)),
        (Nat.ltb_spec c (off + S cnt)); try lia; reflexivity.
Qed.

Lemma row_insert (M : list (list bool)) (i j : nat) (r : list bool) :
  i < length M →
  Hamming.row (<[i := r]> M) j = if j =? i then r else Hamming.row M j.
Proof. intros Hi. unfold Hamming.row. now apply nth_insert_gen. Qed.

(** A loop that rebuilds row [i] of a matrix at turn [i]. *)
Lemma mat_spec_loop (M0 : list (list bool)) (R L : nat)
    (rowfun : nat → list bool → list bool) (g0 : nat → bool)
    (f : nat → nat → bool) :
  mat_spec M0 R L (fun _ => g0) →
  (∀ i b, i < R → bits_spec b L g0 → bits_spec (rowfun i b) L (f i)) →
  mat_spec (Hamming.loop R (fun i M => <[i := rowfun i (Hamming.row M i)]> M) M0)
           R L f.
Proof.
  intros [Hlen Hrows] Hfun.
  assert (H : ∀ q, q ≤ R →
            let M := Hamming.loop q
                       (fun i M => <[i := rowfun i (Hamming.row M i)]> M) M0 in
            length M = R
            ∧ ∀ i, i < R →
                   bits_spec (Hamming.row M i) L (if i <? q then f i else g0)).
  { induction q as [|q IH]; intros Hq; cbv zeta.
    - split; [exact Hlen|]. intros i Hi. now apply Hrows.
    - rewrite loop_S. destruct (IH ltac:(lia)) as [Hl Hr]. cbv zeta in Hl, Hr.
      split; [now rewrite length_insert|].
      intros i Hi. rewrite row_insert by (unfold Hamming.bitset in *; lia).
      destruct (Nat.eqb_spec i q) as [->|Hne].
      + destruct (Nat.ltb_spec q (S q)); [|lia].
        apply Hfun; [lia|]. specialize (Hr q ltac:(lia)).
        destruct (Nat.ltb_spec q q); [lia|exact Hr].
      + specialize (Hr i Hi).
        destruct (Nat.ltb_spec i q), (Nat.ltb_spec i (S q)); try lia; exact Hr. }
  destruct (H R (Nat.le_refl R)) as [Hl Hr]. cbv zeta in Hl, Hr.
  split; [exact Hl|]. intros i Hi. specialize (Hr i Hi).
  destruct (Nat.ltb_spec i R); [exact Hr|lia].
Qed.

Lemma mat_spec_new (R L : nat) :
  mat_spec (replicate R (Hamming.bitset_new L)) R L (fun _ _ => false).
Proof.
  split; [apply length_replicate|].
  intros i Hi. unfold Hamming.row.
  replace (nth i (replicate R (Hamming.bitset_new L)) [])
    with (Hamming.bitset_new L); [apply bits_spec_new|].
  symmetry. apply nth_lookup_Some with (d := []). now apply lookup_replicate.
Qed.

(** *** Bits of numbers *)

Lemma land_pow2_testbit (a j : nat) :
  negb (Nat.land a (Nat.shiftl 1 j) =? 0) = Nat.testbit a j.
Proof.
  rewrite Nat.shiftl_1_l.
  assert (H : Nat.land a (2 ^ j) = if Nat.testbit a j then 2 ^ j else 0).
  { apply Nat.bits_inj. intros i. rewrite Nat.land_spec, Nat.pow2_bits_eqb.
    destruct (Nat.eqb_spec j i) as [->|Hne].
    - destruct (Nat.testbit a i); [now rewrite Nat.pow2_bits_eqb, Nat.eqb_refl|].
      now rewrite Nat.bits_0.
    - rewrite andb_false_r.
      destruct (Nat.testbit a j); [|now rewrite Nat.bits_0].
      rewrite Nat.pow2_bits_eqb. symmetry. now apply Nat.eqb_neq. }
  rewrite H. destruct (Nat.testbit a j); [|reflexivity].
  pose proof (Nat.pow_nonzero 2 j ltac:(lia)).
  destruct (Nat.eqb_spec (2 ^ j) 0); [lia|reflexivity].
Qed.

Lemma testbit_to_ulong (l : list bool) (i : nat) :
  Nat.testbit (Hamming.to_ulong l) i = nth i l false.
Proof.
  revert i. induction l as [|b l IH]; intros i.
  - cbn. rewrite Nat.bits_0. now destruct i.
  - cbn [Hamming.to_ulong fold_right]. fold (Hamming.to_ulong l).
    rewrite Nat.add_comm. destruct i as [|i].
    + cbn [nth]. apply Nat.testbit_0_r.
    + cbn [nth]. rewrite Nat.testbit_succ_r. apply IH.
Qed.

Lemma to_ulong_of_bits (l : list bool) (L v : nat) :
  bits_spec l L (Nat.testbit v) → v < 2 ^ L → Hamming.to_ulong l = v.
Proof.
  intros [Hlen Hb] Hv. apply Nat.bits_inj. intros i.
  rewrite testbit_to_ulong.
  destruct (Nat.lt_ge_cases i L) as [Hi|Hi]; [now apply Hb|].
  rewrite nth_overflow by lia. symmetry.
  destruct (Nat.eq_dec v 0) as [->|Hv0]; [apply Nat.bits_0|].
  apply Nat.bits_above_log2.
  apply Nat.log2_lt_pow2 in Hv; [|lia]. lia.
Qed.

Lemma nth_zip_with_xorb (a b : list bool) (i : nat) :
  length a = length b →
  nth i (zip_with xorb a b) false = xorb (nth i a false) (nth i b false).
Proof.
  revert b i. induction a as [|x a IH]; intros [|y b] i Hl;
    try discriminate; [now destruct i|].
  destruct i as [|i]; [reflexivity|]. cbn. apply IH. now injection Hl.
Qed.

Lemma bits_spec_xor (a b : list bool) (L : nat) (f g : nat → bool) :
  bits_spec a L f → bits_spec b L g →
  bits_spec (zip_with xorb a b) L (fun i => xorb (f i) (g i)).
Proof.
  intros [Hla Ha] [Hlb Hb]. split.
  - rewrite length_zip_with. lia.
  - intros i Hi. rewrite nth_zip_with_xorb by lia. now rewrite Ha, Hb.
Qed.

Lemma to_ulong_bound (l : list bool) : Hamming.to_ulong l < 2 ^ length l.
Proof.
  induction l as [|b l IH]; [cbn; lia|].
  cbn [Hamming.to_ulong fold_right length]. fold (Hamming.to_ulong l).
  rewrite Nat.pow_succ_r'. destruct b; cbn [Nat.b2n]; lia.
Qed.

End HammingLoops.

Section HammingGeneral.

Local Open Scope nat_scope.

Variables n k : nat.
Hypothesis Hparams : Hamming.ValidHammingParams n k = true.

Let r : nat := n - k.
Let c : Hamming.t := Hamming.make n k.

Lemma hamming_params : k < n ∧ n + 1 = 2 ^ r ∧ n = k + r ∧ 1 ≤ r.
Proof.
  unfold Hamming.ValidHammingParams in Hparams.
  apply andb_prop in Hparams as [H12 _]. apply andb_prop in H12 as [H1 H2].
  apply Nat.ltb_lt in H1. apply Nat.eqb_eq in H2.
  rewrite Nat.shiftl_1_l in H2. fold r in H2.
  pose proof (Nat.pow_nonzero 2 r ltac:(lia)). unfold r in *. lia.
Qed.

Lemma generator_matrix_spec :
  mat_spec (Hamming.generate_generator_matrix n k) k n (G_entry k).
Proof.
  destruct hamming_params as (Hkn & Hpow & Hn & Hr).
  unfold Hamming.generate_generator_matrix.
  apply (mat_spec_loop _ k n
           (fun i b =>
              Hamming.loop (n - k)
                (fun j r0 =>
                   Hamming.set_bit r0 (k + j)
                     (negb (Nat.land (i + 1) (Nat.shiftl 1 j) =? 0)))
                (Hamming.set_bit b i true))
           (fun _ => false) (G_entry k)).
  - apply mat_spec_new.
  - intros i b Hi Hb.
    eapply bits_spec_ext;
      [|apply bits_spec_loop; [apply bits_spec_set; [exact Hb|lia]|lia]].
    intros c0 Hc. cbv beta. unfold G_entry.
    destruct (Nat.leb_spec k c0), (Nat.ltb_spec c0 (k + (n - k))),
      (Nat.ltb_spec c0 k); try lia; cbn [andb].
    + apply land_pow2_testbit.
    + destruct (c0 =? i); reflexivity.
Qed.

Lemma parity_check_matrix_spec :
  mat_spec (Hamming.parity_check_matrix c) r n (H_entry k).
Proof.
  destruct hamming_params as (Hkn & Hpow & Hn & Hr).
  pose proof generator_matrix_spec as [HGl HG].
  unfold c, Hamming.make. cbn [Hamming.parity_check_matrix].
  unfold Hamming.generate_parity_check_matrix.
  set (G := Hamming.generate_generator_matrix n k) in *.
  apply (mat_spec_loop _ (n - k) n
           (fun i b =>
              Hamming.set_bit
                (Hamming.loop k
                   (fun j r0 =>
                      Hamming.set_bit r0 (0 + j)
                        (Hamming.bit (Hamming.row G j) (k + i)))
                   b)
                (k + i) true)
           (fun _ => false) (H_entry k)).
  - apply mat_spec_new.
  - intros i b Hi Hb.
    eapply bits_spec_ext;
      [|apply bits_spec_set; [apply bits_spec_loop; [exact Hb|lia]|lia]].
    intros c0 Hc. cbv beta. unfold H_entry.
    destruct (Nat.ltb_spec c0 k) as [Hlt|Hge].
    + destruct (Nat.eqb_spec c0 (k + i)); [lia|].
      destruct (Nat.leb_spec 0 c0), (Nat.ltb_spec c0 (0 + k)); try lia.
      cbn [andb]. rewrite Nat.sub_0_r. unfold Hamming.bit.
      destruct (HG c0 Hlt) as [_ Hrow]. rewrite Hrow by lia.
      unfold G_entry. destruct (Nat.ltb_spec (k + i) k); [lia|].
      do 2 f_equal. lia.
    + destruct (Nat.eqb_spec c0 (k + i)); [reflexivity|].
      destruct (Nat.leb_spec 0 c0), (Nat.ltb_spec c0 (0 + k)); try lia.
      reflexivity.
Qed.

(** The syndrome of any word: bit [i] is the parity of the data bits the
    row selects, added to the parity bit [k + i] of the word. *)
Lemma syndrome_spec (w : list bool) :
  bits_spec (Hamming.calculate_syndrome c w) r
    (fun i => xorb (xor_sum (fun j => Hamming.bit w j && Nat.testbit (j + 1) i) k)
                   (Hamming.bit w (k + i))).
Proof.
  destruct hamming_params as (Hkn & Hpow & Hn & Hr).
  pose proof parity_check_matrix_spec as [HHl HH].
  unfold Hamming.calculate_syndrome, Hamming.calculate_syndrome_with.
  change (Hamming.n c) with n. change (Hamming.k c) with k.
  eapply bits_spec_ext;
    [|apply (bits_spec_loop _ (n - k) 0 (n - k)
               (fun i => Hamming.loop n
                           (fun j b =>
                              xorb b (Hamming.bit w j
                                      && Hamming.bit
                                           (Hamming.row (Hamming.parity_check_matrix c) i) j))
                           false)
               (fun _ => false));
      [apply bits_spec_new|lia]].
  intros i Hi. cbv beta.
  destruct (Nat.leb_spec 0 i), (Nat.ltb_spec i (0 + (n - k))); try lia.
  cbn [andb]. rewrite Nat.sub_0_r.
  change (Hamming.loop n ?body false)
    with (xor_sum (fun j => Hamming.bit w j
                            && Hamming.bit
                                 (Hamming.row (Hamming.parity_check_matrix c) i) j) n).
  rewrite (xor_sum_ext _ (fun j => Hamming.bit w j && H_entry k i j)).
  2:{ intros j Hj. f_equal. unfold Hamming.bit.
      destruct (HH i Hi) as [_ Hrow]. now apply Hrow. }
  rewrite Hn at 1. rewrite xor_sum_app. f_equal.
  - apply xor_sum_ext. intros j Hj. unfold H_entry.
    destruct (Nat.ltb_spec j k); [reflexivity|lia].
  - rewrite (xor_sum_ext _ (fun j => (j =? i) && Hamming.bit w (k + j))).
    + rewrite xor_sum_indicator. fold r.
      destruct (Nat.ltb_spec i r); [reflexivity|unfold r in *; lia].
    + intros j Hj. unfold H_entry.
      destruct (Nat.ltb_spec (k + j) k); [lia|].
      destruct (Nat.eqb_spec (k + j) (k + i)), (Nat.eqb_spec j i);
        try (exfalso; lia); cbn [andb];
        rewrite ?andb_true_r, ?andb_false_r; reflexivity.
Qed.

Lemma encode_spec (d : list bool) :
  bits_spec (Hamming.encode c d) n
    (fun c0 => if c0 <? k then Hamming.bit d c0
               else xor_sum (fun j => Hamming.bit d j
                                      && Nat.testbit (j + 1) (c0 - k)) k).
Proof.
  destruct hamming_params as (Hkn & Hpow & Hn & Hr).
  pose proof generator_matrix_spec as [HGl HG].
  unfold Hamming.encode.
  change (Hamming.n c) with n. change (Hamming.k c) with k.
  change (Hamming.generator_matrix c) with (Hamming.generate_generator_matrix n k).
  set (G := Hamming.generate_generator_matrix n k) in *.
  eapply bits_spec_ext;
    [|apply (bits_spec_loop _ n k (n - k)
               (fun i => Hamming.loop k
                           (fun j p =>
                              xorb p (Hamming.bit d j
                                      && Hamming.bit (Hamming.row G j) (k + i)))
                           false));
      [apply (bits_spec_loop _ n 0 k (fun i => Hamming.bit d i));
       [apply bits_spec_new|lia]|lia]].
  intros c0 Hc. cbv beta.
  destruct (Nat.ltb_spec c0 k) as [Hlt|Hge].
  - destruct (Nat.leb_spec k c0); [lia|]. cbn [andb].
    destruct (Nat.leb_spec 0 c0), (Nat.ltb_spec c0 (0 + k)); try lia.
    cbn [andb]. f_equal. lia.
  - destruct (Nat.leb_spec k c0), (Nat.ltb_spec c0 (k + (n - k))); try lia.
    cbn [andb].
    change (Hamming.loop k ?body false)
      with (xor_sum (fun j => Hamming.bit d j
                              && Hamming.bit (Hamming.row G j) (k + (c0 - k))) k).
    apply xor_sum_ext. intros j Hj. f_equal. unfold Hamming.bit.
    destruct (HG j Hj) as [_ Hrow]. rewrite Hrow by lia.
    unfold G_entry. destruct (Nat.ltb_spec (k + (c0 - k)) k); [lia|].
    f_equal. lia.
Qed.

Lemma syndrome_of_codeword (d : list bool) :
  Hamming.calculate_syndrome c (Hamming.encode c d) = Hamming.bitset_new r.
Proof.
  destruct hamming_params as (Hkn & Hpow & Hn & Hr).
  destruct (encode_spec d) as [_ He].
  eapply bits_spec_eq; [|apply bits_spec_new].
  eapply bits_spec_ext; [|apply syndrome_spec].
  intros i Hi. cbv beta. unfold Hamming.bit.
  rewrite (He (k + i)) by (unfold r in *; lia).
  destruct (Nat.ltb_spec (k + i) k); [lia|].
  replace (k + i - k) with i by lia.
  rewrite (xor_sum_ext _ (fun j => nth j d false && Nat.testbit (j + 1) i)).
  - apply xorb_nilpotent.
  - intros j Hj. rewrite He by lia.
    destruct (Nat.ltb_spec j k); [reflexivity|lia].
Qed.

Lemma column_bits (p i : nat) :
  p < n → i < r → H_entry k i p = Nat.testbit (column k p) i.
Proof.
  intros Hp Hi. unfold H_entry, column.
  destruct (Nat.ltb_spec p k); [reflexivity|].
  rewrite Nat.pow2_bits_eqb.
  destruct (Nat.eqb_spec p (k + i)), (Nat.eqb_spec (p - k) i); try lia; reflexivity.
Qed.

Lemma column_range (p : nat) : p < n → 1 ≤ column k p < 2 ^ r.
Proof.
  intros Hp. destruct hamming_params as (Hkn & Hpow & Hn & Hr).
  unfold column. destruct (Nat.ltb_spec p k); [lia|].
  pose proof (Nat.pow_nonzero 2 (p - k) ltac:(lia)).
  split; [lia|]. apply Nat.pow_lt_mono_r; unfold r; lia.
Qed.

(** The syndrome of a word with the bits [f]: every bit that is set adds its
    column. *)
Lemma syndrome_of_flipped (d : list bool) (p : nat) :
  p < n →
  Hamming.to_ulong
    (Hamming.calculate_syndrome c (Hamming.flip (Hamming.encode c d) p))
  = column k p.
Proof.
  intros Hp. destruct hamming_params as (Hkn & Hpow & Hn & Hr).
  pose proof (syndrome_of_codeword d) as Hzero.
  pose proof (syndrome_spec (Hamming.encode c d)) as Hcw.
  rewrite Hzero in Hcw. destruct Hcw as [_ Hcw].
  destruct (encode_spec d) as [Hlen _].
  assert (Hself : bits_spec (Hamming.encode c d) n
                    (fun j => nth j (Hamming.encode c d) false))
    by (rewrite <- Hlen; apply bits_spec_self).
  pose proof (bits_spec_flip _ n p _ Hself Hp) as [_ Hfl].
  apply (to_ulong_of_bits _ r); [|apply column_range, Hp].
  eapply bits_spec_ext; [|apply syndrome_spec].
  intros i Hi. cbv beta.
  pose proof (bits_spec_new r) as [_ Hnew].
  specialize (Hcw i Hi). rewrite Hnew in Hcw by exact Hi.
  unfold Hamming.bit in *.
  rewrite (xor_sum_ext _
             (fun j => xorb (nth j (Hamming.encode c d) false && Nat.testbit (j + 1) i)
                            ((j =? p) && Nat.testbit (j + 1) i))).
  2:{ intros j Hj. rewrite Hfl by lia.
      destruct (nth j (Hamming.encode c d) false), (j =? p),
        (Nat.testbit (j + 1) i); reflexivity. }
  rewrite xor_sum_xorb, xor_sum_indicator.
  rewrite Hfl by (unfold r in *; lia).
  rewrite <- column_bits by assumption. unfold H_entry.
  set (A := xor_sum _ k) in *. set (B := nth (k + i) _ false) in *.
  assert (HAB : A = B) by (destruct A, B; try reflexivity; discriminate).
  rewrite HAB.
  destruct (Nat.ltb_spec p k) as [Hpk|Hpk].
  - destruct (Nat.eqb_spec (k + i) p); [lia|].
    destruct B, (Nat.testbit (p + 1) i); reflexivity.
  - destruct (Nat.eqb_spec (k + i) p), (Nat.eqb_spec p (k + i));
      try (exfalso; lia); destruct B; reflexivity.
Qed.

(** *** The syndrome table *)

Lemma syndrome_table_spec :
  Hamming.syndrome_table c
  = Hamming.loop n (fun pos table => <[column k pos := pos]> table)
                 (replicate (2 ^ r) n).
Proof.
  destruct hamming_params as (Hkn & Hpow & Hn & Hr).
  pose proof parity_check_matrix_spec as HH.
  unfold c at 1, Hamming.make. cbn [Hamming.syndrome_table].
  unfold Hamming.build_syndrome_table. rewrite Nat.shiftl_1_l. fold r.
  apply loop_ext. intros pos table Hpos. f_equal.
  change (Hamming.calculate_syndrome_with n k
            (Hamming.generate_parity_check_matrix n k
               (Hamming.generate_generator_matrix n k)) ?w)
    with (Hamming.calculate_syndrome c w).
  apply (to_ulong_of_bits _ r); [|apply column_range, Hpos].
  eapply bits_spec_ext; [|apply syndrome_spec].
  intros i Hi. cbv beta.
  pose proof (bits_spec_set _ n pos true _ (bits_spec_new n) Hpos) as [_ He].
  unfold Hamming.bit.
  rewrite (xor_sum_ext _ (fun j => (j =? pos) && Nat.testbit (j + 1) i)).
  2:{ intros j Hj. rewrite He by lia. destruct (j =? pos); reflexivity. }
  rewrite xor_sum_indicator, He by (unfold r in *; lia).
  rewrite <- column_bits by assumption. unfold H_entry.
  destruct (Nat.ltb_spec pos k) as [Hpk|Hpk].
  - destruct (Nat.eqb_spec (k + i) pos); [lia|]. now rewrite xorb_false_r.
  - rewrite xorb_false_l. destruct (k + i =? pos) eqn:E1, (pos =? k + i) eqn:E2;
      try reflexivity.
    + apply Nat.eqb_eq in E1. apply Nat.eqb_neq in E2. lia.
    + apply Nat.eqb_neq in E1. apply Nat.eqb_eq in E2. lia.
Qed.

Lemma syndrome_table_lookup :
  length (Hamming.syndrome_table c) = 2 ^ r
  ∧ (∀ s, s < 2 ^ r → (∀ pos, pos < n → column k pos ≠ s) →
          nth s (Hamming.syndrome_table c) 0 = n)
  ∧ (∀ p, p < n → (∀ pos, p < pos < n → column k pos ≠ column k p) →
          nth (column k p) (Hamming.syndrome_table c) 0 = p).
Proof.
  rewrite syndrome_table_spec.
  apply (loop_inv_nat
           (fun q (tab : list nat) =>
              length tab = 2 ^ r
              ∧ (∀ s, s < 2 ^ r → (∀ pos, pos < q → column k pos ≠ s) →
                      nth s tab 0 = n)
              ∧ (∀ p, p < q → (∀ pos, p < pos < q → column k pos ≠ column k p) →
                      nth (column k p) tab 0 = p))).
  - split; [apply length_replicate|]. split; [|intros p Hp; lia].
    intros s Hs _.
    apply nth_lookup_Some with (d := 0). now apply lookup_replicate.
  - intros q tab Hq (Hlen & HA & HB).
    pose proof (column_range q Hq) as Hcq.
    split; [now rewrite length_insert|]. split.
    + intros s Hs2 Hs. rewrite nth_insert_gen by lia.
      destruct (Nat.eqb_spec s (column k q)) as [->|Hne].
      * exfalso. apply (Hs q); [lia|reflexivity].
      * apply HA; [exact Hs2|]. intros pos Hpos. apply Hs. lia.
    + intros p Hp Hlater. rewrite nth_insert_gen by lia.
      destruct (Nat.eq_dec p q) as [->|Hpq].
      * now rewrite Nat.eqb_refl.
      * destruct (Nat.eqb_spec (column k p) (column k q)) as [Heq|Hne].
        -- exfalso. apply (Hlater q); [lia|now symmetry].
        -- apply HB; [lia|]. intros pos Hpos. apply Hlater. lia.
Qed.

Lemma located_spec (p : nat) :
  p < n →
  nth (column k p) (Hamming.syndrome_table c) 0 = located k p
  ∧ located k p < n
  ∧ (located k p = p ∨ (p < k ∧ k ≤ located k p)).
Proof.
  intros Hp. destruct hamming_params as (Hkn & Hpow & Hn & Hr).
  destruct syndrome_table_lookup as (_ & _ & HB).
  assert (Hcol_hi : ∀ pos, k ≤ pos → column k pos = 2 ^ (pos - k)).
  { intros pos Hpos. unfold column. destruct (Nat.ltb_spec pos k); [lia|reflexivity]. }
  assert (Hcol_lo : ∀ pos, pos < k → column k pos = pos + 1).
  { intros pos Hpos. unfold column. destruct (Nat.ltb_spec pos k); [reflexivity|lia]. }
  unfold located.
  destruct (Nat.ltb_spec p k) as [Hpk|Hpk]; cbn [andb].
  - destruct (Nat.eqb_spec (2 ^ Nat.log2 (p + 1)) (p + 1)) as [Hpow2|Hnp].
    + set (i := Nat.log2 (p + 1)) in *.
      assert (Hi : i < r).
      { apply Nat.log2_lt_pow2; [lia|]. rewrite <- Hpow. lia. }
      split; [|split; [unfold r in *; lia|right; lia]].
      rewrite (Hcol_lo p Hpk), <- Hpow2.
      replace (2 ^ i) with (column k (k + i))
        by (rewrite Hcol_hi by lia; f_equal; lia).
      apply HB; [unfold r in *; lia|].
      intros pos Hpos. rewrite !Hcol_hi by lia.
      intros Heq. apply Nat.pow_inj_r in Heq; lia.
    + split; [|split; [exact Hp|now left]].
      apply HB; [exact Hp|].
      intros pos Hpos. rewrite (Hcol_lo p Hpk).
      destruct (Nat.lt_ge_cases pos k) as [Hlt|Hge].
      * rewrite Hcol_lo by exact Hlt. lia.
      * rewrite Hcol_hi by exact Hge. intros Heq. apply Hnp.
        rewrite <- Heq. now rewrite Nat.log2_pow2 by lia.
  - split; [|split; [exact Hp|now left]].
    apply HB; [exact Hp|].
    intros pos Hpos. rewrite !Hcol_hi by lia.
    intros Heq. apply Nat.pow_inj_r in Heq; lia.
Qed.

(** *** Extraction of the data bits *)

Lemma extract_data_spec (w : list bool) :
  bits_spec (Hamming.extract_data c w) k (fun i => Hamming.bit w i).
Proof.
  unfold Hamming.extract_data. change (Hamming.k c) with k.
  eapply bits_spec_ext;
    [|apply (bits_spec_loop _ k 0 k (fun i => Hamming.bit w i));
      [apply bits_spec_new|lia]].
  intros i Hi. cbv beta.
  destruct (Nat.leb_spec 0 i), (Nat.ltb_spec i (0 + k)); try lia.
  cbn [andb]. f_equal. lia.
Qed.

Lemma extract_encode (d : list bool) :
  length d = k → Hamming.extract_data c (Hamming.encode c d) = d.
Proof.
  intros Hd. destruct (encode_spec d) as [_ He].
  destruct hamming_params as (Hkn & _).
  apply (bits_spec_eq _ _ k (fun i => nth i d false));
    [|rewrite <- Hd; apply bits_spec_self].
  eapply bits_spec_ext; [|apply extract_data_spec].
  intros i Hi. cbv beta. unfold Hamming.bit. rewrite He by lia.
  destruct (Nat.ltb_spec i k); [reflexivity|lia].
Qed.

Lemma decode_is_data (w : list bool) :
  Hamming.decode c w = Hamming.data (Hamming.decode_with_detection c w).
Proof.
  unfold Hamming.decode, Hamming.decode_with_detection, Hamming.correct_errors.
  cbv zeta. destruct (_ <? _); reflexivity.
Qed.

Lemma round_trip_general (d : list bool) :
  length d = k →
  Hamming.decode_with_detection c (Hamming.encode c d)
  = Hamming.mkDecodeResult d false n.
Proof.
  intros Hd. destruct hamming_params as (Hkn & Hpow & Hn & Hr).
  destruct syndrome_table_lookup as (_ & HA & _).
  unfold Hamming.decode_with_detection. cbv zeta.
  rewrite syndrome_of_codeword.
  assert (H0 : Hamming.to_ulong (Hamming.bitset_new r) = 0).
  { apply (to_ulong_of_bits _ r).
    - eapply bits_spec_ext; [|apply bits_spec_new].
      intros i _. cbv beta. now rewrite Nat.bits_0.
    - pose proof (Nat.pow_nonzero 2 r ltac:(lia)). lia. }
  rewrite H0, HA.
  2:{ pose proof (Nat.pow_nonzero 2 r ltac:(lia)). lia. }
  2:{ intros pos Hpos. pose proof (column_range pos Hpos). lia. }
  change (Hamming.n c) with n. rewrite Nat.ltb_irrefl.
  now rewrite extract_encode.
Qed.

Lemma single_error_general (d : list bool) (p : nat) :
  length d = k → p < n →
  Hamming.decode_with_detection c (Hamming.flip (Hamming.encode c d) p)
  = Hamming.mkDecodeResult
      (if located k p =? p then d else Hamming.flip d p) true (located k p).
Proof.
  intros Hd Hp. destruct hamming_params as (Hkn & Hpow & Hn & Hr).
  destruct (located_spec p Hp) as (Hloc & Hlt & Hcase).
  unfold Hamming.decode_with_detection. cbv zeta.
  rewrite syndrome_of_flipped by exact Hp. rewrite Hloc.
  change (Hamming.n c) with n.
  destruct (Nat.ltb_spec (located k p) n); [|lia].
  f_equal.
  pose proof (bits_spec_flip _ n (located k p) _
                (bits_spec_flip _ n p _ (encode_spec d) Hp) Hlt) as [_ Hff].
  destruct (Nat.eqb_spec (located k p) p) as [Heq|Hne].
  - apply (bits_spec_eq _ _ k (fun i => nth i d false));
      [|rewrite <- Hd; apply bits_spec_self].
    eapply bits_spec_ext; [|apply extract_data_spec].
    intros i Hi. cbv beta. unfold Hamming.bit. rewrite Hff by lia.
    destruct (Nat.ltb_spec i k); [|lia]. rewrite Heq. unfold Hamming.bit.
    destruct (nth i d false), (i =? p); reflexivity.
  - destruct Hcase as [|[Hpk Hge]]; [contradiction|].
    assert (Hself : bits_spec d k (fun i => nth i d false))
      by (rewrite <- Hd; apply bits_spec_self).
    apply (bits_spec_eq _ _ k (fun i => xorb (nth i d false) (i =? p)));
      [|apply (bits_spec_flip d k p _ Hself Hpk)].
    eapply bits_spec_ext; [|apply extract_data_spec].
    intros i Hi. cbv beta. unfold Hamming.bit. rewrite Hff by lia.
    destruct (Nat.ltb_spec i k); [|lia].
    destruct (Nat.eqb_spec i (located k p)); [lia|]. unfold Hamming.bit.
    now rewrite xorb_false_r.
Qed.

(** *** The code is linear, and two of its words differ in two places *)

Lemma encode_xor (d e : list bool) :
  length d = k → length e = k →
  Hamming.encode c (zip_with xorb d e)
  = zip_with xorb (Hamming.encode c d) (Hamming.encode c e).
Proof.
  intros Hd He.
  apply (bits_spec_eq _ _ n
           (fun c0 => xorb (if c0 <? k then Hamming.bit d c0
                            else xor_sum (fun j => Hamming.bit d j
                                            && Nat.testbit (j + 1) (c0 - k)) k)
                           (if c0 <? k then Hamming.bit e c0
                            else xor_sum (fun j => Hamming.bit e j
                                            && Nat.testbit (j + 1) (c0 - k)) k))).
  - eapply bits_spec_ext; [|apply encode_spec].
    intros c0 Hc. cbv beta. unfold Hamming.bit.
    destruct (Nat.ltb_spec c0 k) as [Hlt|Hge].
    + apply nth_zip_with_xorb. lia.
    + rewrite <- xor_sum_xorb. apply xor_sum_ext. intros j Hj.
      rewrite nth_zip_with_xorb by lia.
      now destruct (nth j d false), (nth j e false), (Nat.testbit (j + 1) (c0 - k)).
  - apply bits_spec_xor; apply encode_spec.
Qed.

Lemma encode_flip_pow2 (d : list bool) (p : nat) :
  length d = k → p < k → 2 ^ Nat.log2 (p + 1) = p + 1 →
  k + Nat.log2 (p + 1) < n
  ∧ Hamming.flip (Hamming.flip (Hamming.encode c d) p) (k + Nat.log2 (p + 1))
    = Hamming.encode c (Hamming.flip d p).
Proof.
  intros Hd Hp Hpow. destruct hamming_params as (Hkn & Hn1 & Hn & Hr).
  set (i := Nat.log2 (p + 1)) in *.
  assert (Hi : i < r).
  { apply Nat.log2_lt_pow2; [lia|]. fold r in Hn1. lia. }
  fold r in Hn. split; [lia|].
  pose proof (bits_spec_flip _ _ p _ (bits_spec_self d) ltac:(lia)) as [_ Hfd].
  apply (bits_spec_eq _ _ n
           (fun c0 => xorb (xorb (if c0 <? k then Hamming.bit d c0
                                  else xor_sum (fun j => Hamming.bit d j
                                                  && Nat.testbit (j + 1) (c0 - k)) k)
                                 (c0 =? p))
                           (c0 =? k + i))).
  - apply bits_spec_flip; [|lia]. apply bits_spec_flip; [|lia]. apply encode_spec.
  - eapply bits_spec_ext; [|apply encode_spec].
    intros c0 Hc. cbv beta. unfold Hamming.bit.
    destruct (Nat.ltb_spec c0 k) as [Hlt|Hge].
    + rewrite Hfd by lia.
      destruct (Nat.eqb_spec c0 (k + i)); [lia|]. now rewrite xorb_false_r.
    + destruct (Nat.eqb_spec c0 p); [lia|]. rewrite xorb_false_r.
      rewrite (xor_sum_ext _ (fun j => xorb (nth j d false && Nat.testbit (j + 1) (c0 - k))
                                         ((j =? p) && Nat.testbit (j + 1) (c0 - k)))).
      2:{ intros j Hj. rewrite Hfd by lia.
          now destruct (nth j d false), (j =? p), (Nat.testbit (j + 1) (c0 - k)). }
      rewrite xor_sum_xorb, xor_sum_indicator.
      destruct (Nat.ltb_spec p k); [|lia]. f_equal.
      rewrite <- Hpow, Nat.pow2_bits_eqb.
      destruct (Nat.eqb_spec i (c0 - k)), (Nat.eqb_spec c0 (k + i)); try reflexivity; lia.
Qed.

(** *** What the decoder does with each syndrome *)

Lemma extract_flip (w : list bool) (p : nat) :
  length w = n → p < n →
  Hamming.extract_data c w = take k w
  ∧ Hamming.extract_data c (Hamming.flip w p)
    = if p <? k then Hamming.flip (take k w) p else take k w.
Proof.
  intros Hw Hp. destruct hamming_params as (Hkn & _).
  assert (Htk : bits_spec (take k w) k (fun i => nth i w false)).
  { split; [rewrite length_take; lia|].
    intros i Hi. rewrite nth_firstn. now destruct (Nat.ltb_spec i k); [|lia]. }
  assert (Hself : bits_spec w n (fun i => nth i w false))
    by (rewrite <- Hw; apply bits_spec_self).
  pose proof (bits_spec_flip w n p _ Hself Hp) as [_ Hfl].
  split.
  - apply (bits_spec_eq _ _ k (fun i => nth i w false)); [|exact Htk].
    apply extract_data_spec.
  - destruct (Nat.ltb_spec p k) as [Hpk|Hpk].
    + apply (bits_spec_eq _ _ k (fun i => xorb (nth i w false) (i =? p)));
        [|apply (bits_spec_flip _ k p _ Htk Hpk)].
      eapply bits_spec_ext; [|apply extract_data_spec].
      intros i Hi. cbv beta. unfold Hamming.bit. apply Hfl. lia.
    + apply (bits_spec_eq _ _ k (fun i => nth i w false)); [|exact Htk].
      eapply bits_spec_ext; [|apply extract_data_spec].
      intros i Hi. cbv beta. unfold Hamming.bit. rewrite Hfl by lia.
      destruct (Nat.eqb_spec i p); [lia|]. apply xorb_false_r.
Qed.

Lemma decode_by_syndrome (w : list bool) :
  length w = n →
  let s := Hamming.to_ulong (Hamming.calculate_syndrome c w) in
  s < 2 ^ r
  ∧ Hamming.decode_with_detection c w
    = if s =? 0 then Hamming.mkDecodeResult (take k w) false n
      else if 2 ^ Nat.log2 s =? s
           then Hamming.mkDecodeResult (take k w) true (k + Nat.log2 s)
      else if s <=? k
           then Hamming.mkDecodeResult (Hamming.flip (take k w) (s - 1)) true (s - 1)
      else Hamming.mkDecodeResult (take k w) false n.
Proof.
  intros Hw s. destruct hamming_params as (Hkn & Hpow & Hn & Hr).
  destruct syndrome_table_lookup as (_ & HA & _).
  assert (Hs : s < 2 ^ r).
  { destruct (syndrome_spec w) as [Hl _]. fold r in Hl.
    unfold s. rewrite <- Hl. apply to_ulong_bound. }
  split; [exact Hs|].
  unfold Hamming.decode_with_detection. cbv zeta. fold s.
  change (Hamming.n c) with n.
  assert (Hnone : nth s (Hamming.syndrome_table c) 0 = n →
            (if nth s (Hamming.syndrome_table c) 0 <? n
             then Hamming.mkDecodeResult
                    (Hamming.extract_data c
                       (Hamming.flip w (nth s (Hamming.syndrome_table c) 0)))
                    (nth s (Hamming.syndrome_table c) 0 <? n)
                    (nth s (Hamming.syndrome_table c) 0)
             else Hamming.mkDecodeResult (Hamming.extract_data c w)
                    (nth s (Hamming.syndrome_table c) 0 <? n)
                    (nth s (Hamming.syndrome_table c) 0))
            = Hamming.mkDecodeResult (take k w) false n).
  { intros ->. rewrite Nat.ltb_irrefl.
    destruct (extract_flip w 0 Hw ltac:(lia)) as [-> _]. reflexivity. }
  assert (Hsome : ∀ p, p < n → column k p = s → located k p = p →
            (if nth s (Hamming.syndrome_table c) 0 <? n
             then Hamming.mkDecodeResult
                    (Hamming.extract_data c
                       (Hamming.flip w (nth s (Hamming.syndrome_table c) 0)))
                    (nth s (Hamming.syndrome_table c) 0 <? n)
                    (nth s (Hamming.syndrome_table c) 0)
             else Hamming.mkDecodeResult (Hamming.extract_data c w)
                    (nth s (Hamming.syndrome_table c) 0 <? n)
                    (nth s (Hamming.syndrome_table c) 0))
            = Hamming.mkDecodeResult
                (if p <? k then Hamming.flip (take k w) p else take k w) true p).
  { intros p Hp Hcol Hloc.
    destruct (located_spec p Hp) as (Hnth & _ & _).
    rewrite Hcol, Hloc in Hnth. rewrite Hnth.
    destruct (Nat.ltb_spec p n); [|lia].
    destruct (extract_flip w p Hw Hp) as [_ ->]. reflexivity. }
  destruct (Nat.eqb_spec s 0) as [Hs0|Hs0].
  { apply Hnone. rewrite Hs0. apply HA; [lia|].
    intros pos Hpos. pose proof (column_range pos Hpos). lia. }
  destruct (Nat.eqb_spec (2 ^ Nat.log2 s) s) as [Hp2|Hp2].
  { assert (Hi : Nat.log2 s < r) by (apply Nat.log2_lt_pow2; lia).
    rewrite (Hsome (k + Nat.log2 s)).
    - destruct (Nat.ltb_spec (k + Nat.log2 s) k); [lia|reflexivity].
    - lia.
    - unfold column. destruct (Nat.ltb_spec (k + Nat.log2 s) k); [lia|].
      rewrite <- Hp2 at 2. f_equal. lia.
    - unfold located. destruct (Nat.ltb_spec (k + Nat.log2 s) k); [lia|].
      reflexivity. }
  destruct (Nat.leb_spec s k) as [Hsk|Hsk].
  { rewrite (Hsome (s - 1)).
    - destruct (Nat.ltb_spec (s - 1) k); [reflexivity|lia].
    - lia.
    - unfold column. destruct (Nat.ltb_spec (s - 1) k); lia.
    - unfold located. destruct (Nat.ltb_spec (s - 1) k); [|lia].
      replace (s - 1 + 1) with s by lia.
      destruct (Nat.eqb_spec (2 ^ Nat.log2 s) s); [contradiction|reflexivity]. }
  apply Hnone. apply HA; [exact Hs|].
  intros pos Hpos Hcol. unfold column in Hcol.
  destruct (Nat.ltb_spec pos k); [lia|].
  apply Hp2. rewrite <- Hcol. now rewrite Nat.log2_pow2 by lia.
Qed.

End HammingGeneral.

(** *** The SECDED class derives from [HammingCode<n + 1, k>] *)

Lemma valid_params_not_extended (n k : nat) :
  Hamming.ValidHammingParams n k = true →
  Hamming.ValidHammingParams (n + 1) k = false.
Proof.
  intros Hv. destruct (hamming_params n k Hv) as (Hkn & Hpow & Hn & Hr).
  apply not_true_is_false. intros Hv'.
  destruct (hamming_params (n + 1) k Hv') as (_ & Hpow' & _ & _).
  replace (n + 1 - k)%nat with (S (n - k)) in Hpow' by lia.
  rewrite Nat.pow_succ_r' in Hpow'. lia.
Qed.

(** * The claims about the field engine and the polynomial algebra *)

Lemma make_valid_field (m poly : Z) (F : GF.GaloisField) :
  3 ≤ m ≤ 12 → primitive_polynomial m poly = true →
  GF.make m poly = Ok F → valid_field m poly F.
Proof.
  intros Hm Hprim HF.
  destruct (make_valid m poly Hm Hprim) as (F' & HF' & Hv). congruence.
Qed.

(** The hypothesis "primitive polynomial" of the theorems below implies the
    library's own test [is_primitive_polynomial]. *)
Lemma primitive_polynomial_accepted (m poly : Z) :
  3 ≤ m ≤ 12 → primitive_polynomial m poly = true →
  galois_utils.is_primitive_polynomial m poly = Ok true.
Proof.
  intros Hm Hprim.
  destruct (make_valid m poly Hm Hprim) as (F & HF & Hv).
  unfold galois_utils.is_primitive_polynomial. rewrite HF.
  cbn [mbind result_bind bind]. unfold GF.get_primitive.
  now rewrite (is_primitive_alpha m poly Hm Hprim F Hv).
Qed.

(** C10.  For every m in [3, 12] and every primitive polynomial whose highest
    bit is bit m, the constructor builds both tables with 2^m cells without an
    out-of-range access; every log entry is stored and is below 2^m - 1; the
    indices [log_sum], [log_diff], [log_result] and [inv_log] are below
    2^m - 1 whatever the operands; and for all a, b in [0, 2^m) the
    operations add, multiply, power, divide (b nonzero) and inverse
    (a nonzero) return a field element, that is, every table access they make
    is inside [0, 2^m). *)
Theorem table_accesses_in_range (m poly : Z) :
  3 ≤ m ≤ 12 → primitive_polynomial m poly = true →
  ∃ F, GF.make m poly = Ok F
       ∧ length (GF.exp_table F) = Z.to_nat (2 ^ m)
       ∧ length (GF.log_table F) = Z.to_nat (2 ^ m)
       ∧ (∀ a, element m a →
               ∃ l, array_get (GF.log_table F) a = Ok l ∧ 0 ≤ l < 2 ^ m - 1)
       ∧ (∀ x y, 0 ≤ GF.log_sum F x y < 2 ^ m - 1
                 ∧ 0 ≤ GF.log_diff F x y < 2 ^ m - 1
                 ∧ 0 ≤ GF.log_result F x y < 2 ^ m - 1
                 ∧ 0 ≤ GF.inv_log F x < 2 ^ m - 1)
       ∧ ∀ a b, element m a → element m b →
                element m (GF.add a b)
                ∧ (∃ v, GF.multiply F a b = Ok v ∧ element m v)
                ∧ (∃ v, GF.power F a b = Ok v ∧ element m v)
                ∧ (b ≠ 0 → ∃ v, GF.divide F a b = Ok v ∧ element m v)
                ∧ (a ≠ 0 → ∃ v, GF.inverse F a = Ok v ∧ element m v).
Proof.
  intros Hm Hprim.
  destruct (make_valid m poly Hm Hprim) as (F & HF & Hv).
  pose proof (pow2_m_ge8 m Hm) as H8.
  pose proof (valid_fs m poly Hm F Hv) as Hfs.
  exists F. split; [exact HF|].
  pose proof Hv as (_ & _ & Hle & Hll & _ & Hl0 & _ & Hst).
  split; [exact Hle|]. split; [exact Hll|]. split; [|split].
  - intros a Ha.
    destruct (Z.eq_dec a 0) as [->|Hnz].
    + exists 0. split; [|lia]. apply array_get_Ok; [lia|exact Hl0].
    + destruct (log_get m poly Hm Hprim F Hv a) as (i & Hi & _ & Hget);
        [unfold element in Ha; lia|].
      exists (Z.of_nat i). split; [exact Hget|].
      apply array_get_inv in Hget as [_ Hget]. exact (Hst _ _ Hget).
  - intros x y. unfold GF.log_sum, GF.log_diff, GF.log_result, GF.inv_log.
    rewrite Hfs. repeat split; apply Z.mod_pos_bound; lia.
  - intros a b Ha Hb. split; [|split; [|split; [|split]]].
    + apply (element_lxor m Hm); assumption.
    + exists (gmul F a b). split.
      * apply (multiply_gmul m poly Hm Hprim F Hv); assumption.
      * apply (gmul_range m poly Hm Hprim F Hv); assumption.
    + apply (power_Ok m poly Hm Hprim F Hv). assumption.
    + intros Hb0. apply (divide_Ok m poly Hm Hprim F Hv); assumption.
    + intros Ha0.
      destruct (inverse_Ok m poly Hm Hprim F Hv a Ha Ha0) as (v & Hi & Hel & _).
      exists v. split; assumption.
Qed.

Lemma table_accesses_in_range_witness :
  3 ≤ 4 ≤ 12 ∧ primitive_polynomial 4 0x13 = true ∧
  ∃ F, GF.make 4 0x13 = Ok F
       ∧ length (GF.exp_table F) = Z.to_nat (2 ^ 4)
       ∧ length (GF.log_table F) = Z.to_nat (2 ^ 4)
       ∧ (∀ a, element 4 a →
               ∃ l, array_get (GF.log_table F) a = Ok l ∧ 0 ≤ l < 2 ^ 4 - 1)
       ∧ (∀ x y, 0 ≤ GF.log_sum F x y < 2 ^ 4 - 1
                 ∧ 0 ≤ GF.log_diff F x y < 2 ^ 4 - 1
                 ∧ 0 ≤ GF.log_result F x y < 2 ^ 4 - 1
                 ∧ 0 ≤ GF.inv_log F x < 2 ^ 4 - 1)
       ∧ ∀ a b, element 4 a → element 4 b →
                element 4 (GF.add a b)
                ∧ (∃ v, GF.multiply F a b = Ok v ∧ element 4 v)
                ∧ (∃ v, GF.power F a b = Ok v ∧ element 4 v)
                ∧ (b ≠ 0 → ∃ v, GF.divide F a b = Ok v ∧ element 4 v)
                ∧ (a ≠ 0 → ∃ v, GF.inverse F a = Ok v ∧ element 4 v).
Proof.
  split; [lia|]. split; [vm_compute; reflexivity|].
  apply (table_accesses_in_range 4 0x13); [lia|vm_compute; reflexivity].
Defined.



(** C4.  [divide] does not compute the index in exact arithmetic: the
    difference of the two logarithms is taken in [uint32_t] and wraps before
    [field_size] is added in [size_t].  In GF(2^4) with x^4 + x + 1,
    log[1] = 0 and log[2] = 1, the claimed index is
    (0 - 1 + 15) mod 15 = 14 with exp[14] = 9 = 1/2, but [divide(1, 2)]
    reads index (2^32 - 1 + 16 - 1) mod 15 = 0 and returns exp[0] = 1, so
    multiply(divide(1, 2), 2) = 2, not 1. *)
Theorem divide_index_wraps :
  ∃ F, GF.make 4 0x13 = Ok F
       ∧ array_get (GF.log_table F) 1 = Ok 0
       ∧ array_get (GF.log_table F) 2 = Ok 1
       ∧ array_get (GF.exp_table F) ((0 - 1 + (2 ^ 4 - 1)) mod (2 ^ 4 - 1)) = Ok 9
       ∧ GF.multiply F 9 2 = Ok 1
       ∧ GF.log_diff F 0 1 = 0
       ∧ GF.divide F 1 2 = Ok 1
       ∧ (q ← GF.divide F 1 2; GF.multiply F q 2) = Ok 2.
Proof.
  eexists. split; [vm_compute; reflexivity|].
  vm_compute. repeat split; reflexivity.
Qed.

(** ** Construction for an arbitrary polynomial of degree m *)

Section AnyPolynomial.
Variables m poly : Z.
Hypothesis Hm : 3 ≤ m ≤ 12.
Hypothesis Hpoly : 2 ^ m ≤ poly < 2 ^ (m + 1).



End AnyPolynomial.

(** ** No std::invalid_argument at construction *)

Lemma nia_Ok {A : Type} (a : A) : no_invalid_argument (Ok a).
Proof. discriminate. Qed.

Lemma nia_bind {A B : Type} (c : result A) (k : A → result B) :
  no_invalid_argument c → (∀ a, no_invalid_argument (k a)) →
  no_invalid_argument (c ≫= k).
Proof.
  intros Hc Hk. destruct c as [a|e]; cbn; [apply Hk|].
  intros [= ->]. now apply Hc.
Qed.



Lemma nia_foldM {A S : Type} (f : S → A → result S) (l : list A) (s : S) :
  (∀ s a, no_invalid_argument (f s a)) → no_invalid_argument (foldM f l s).
Proof.
  intros Hf. revert s. induction l as [|a l IH]; intros s; cbn [foldM].
  - apply nia_Ok.
  - apply nia_bind; [apply Hf|]. intros s'. apply IH.
Qed.














(** C8 (as stated, refuted).  For m = 11 the default polynomial is the
    fall-back x^11 + x + 1 (0x803), which is not primitive: after table
    construction exp[0] = 869, not 1, and [is_primitive] rejects alpha.
    For m = 9 the fall-back x^9 + x + 1 gives alpha the order 73, not 511. *)
Lemma default_polynomial_11_breaks_invariants :
  galois_utils.get_default_primitive 11 = 0x803
  ∧ (∃ F, GF.make 11 (galois_utils.get_default_primitive 11) = Ok F
          ∧ array_get (GF.exp_table F) 0 = Ok 869
          ∧ GF.is_primitive F GF.primitive_element = Ok false)
  ∧ (∃ F, GF.make 9 (galois_utils.get_default_primitive 9) = Ok F
          ∧ GF.power F GF.primitive_element 73 = Ok 1
          ∧ GF.is_primitive F GF.primitive_element = Ok false).
Proof.
  split; [reflexivity|].
  split; eexists; (split; [vm_compute; reflexivity|]); vm_compute; split; reflexivity.
Qed.

Lemma field_invariants_sound (m : Z) (F : GF.GaloisField) :
  field_invariants m F = true →
  array_get (GF.exp_table F) 0 = Ok 1
  ∧ (∀ a, 1 ≤ a < 2 ^ m →
          ∃ l, array_get (GF.log_table F) a = Ok l
               ∧ array_get (GF.exp_table F) l = Ok a)
  ∧ GF.is_primitive F GF.primitive_element = Ok true
  ∧ (∀ k, 1 ≤ k < 2 ^ m - 1 →
          ∃ v, GF.power F GF.primitive_element k = Ok v ∧ v ≠ 1)
  ∧ GF.power F GF.primitive_element (2 ^ m - 1) = Ok 1.
Proof.
  unfold field_invariants. intros H.
  apply andb_prop in H as [H H5]. apply andb_prop in H as [H H4].
  apply andb_prop in H as [H H3]. apply andb_prop in H as [H1 H2].
  rewrite forallb_forall in H2, H4.
  split; [|split; [|split; [|split]]].
  - destruct (array_get (GF.exp_table F) 0); [|discriminate].
    cbn in H1. apply Z.eqb_eq in H1. now subst.
  - intros a Ha. specialize (H2 a).
    assert (Hin : In a (seqZ 1 (2 ^ m - 1)))
      by (apply list_elem_of_In, elem_of_seqZ; lia).
    apply H2 in Hin. unfold exp_log_inverse in Hin.
    destruct (array_get (GF.log_table F) a) as [l|]; [|discriminate].
    exists l. split; [reflexivity|].
    destruct (array_get (GF.exp_table F) l) as [v|]; [|discriminate].
    apply Z.eqb_eq in Hin. now subst.
  - destruct (GF.is_primitive F GF.primitive_element) as [[|]|]; try discriminate.
    reflexivity.
  - intros k Hk. specialize (H4 k).
    assert (Hin : In k (seqZ 1 (2 ^ m - 2)))
      by (apply list_elem_of_In, elem_of_seqZ; lia).
    apply H4 in Hin. unfold power_is_not_1 in Hin.
    destruct (GF.power F GF.primitive_element k) as [v|]; [|discriminate].
    exists v. split; [reflexivity|].
    apply negb_true_iff, Z.eqb_neq in Hin. exact Hin.
  - destruct (GF.power F GF.primitive_element (2 ^ m - 1)); [|discriminate].
    cbn in H5. apply Z.eqb_eq in H5. now subst.
Qed.

(** C8 (amended).  For every m with a tabulated default polynomial, that is
    m in {3, 4, 5, 6, 7, 8, 10, 12}, the tables built from it satisfy
    exp[0] = 1, exp[log[a]] = a for every nonzero a in [0, 2^m), and alpha = 2
    has multiplicative order exactly 2^m - 1. *)
Theorem default_tables_invariants (m : Z) :
  In m [3; 4; 5; 6; 7; 8; 10; 12] →
  ∃ F, GF.make m (galois_utils.get_default_primitive m) = Ok F
       ∧ array_get (GF.exp_table F) 0 = Ok 1
       ∧ (∀ a, 1 ≤ a < 2 ^ m →
               ∃ l, array_get (GF.log_table F) a = Ok l
                    ∧ array_get (GF.exp_table F) l = Ok a)
       ∧ GF.is_primitive F GF.primitive_element = Ok true
       ∧ (∀ k, 1 ≤ k < 2 ^ m - 1 →
               ∃ v, GF.power F GF.primitive_element k = Ok v ∧ v ≠ 1)
       ∧ GF.power F GF.primitive_element (2 ^ m - 1) = Ok 1.
Proof.
  intros Hin.
  assert (Hc : default_field_invariants m = true).
  { cbn [In] in Hin.
    destruct Hin as [<-|[<-|[<-|[<-|[<-|[<-|[<-|[<-|[]]]]]]]]];
      vm_compute; reflexivity. }
  unfold default_field_invariants in Hc.
  destruct (GF.make m (galois_utils.get_default_primitive m)) as [F|];
    [|discriminate].
  exists F. split; [reflexivity|]. now apply field_invariants_sound.
Qed.

Lemma default_tables_invariants_witness :
  In 8 [3; 4; 5; 6; 7; 8; 10; 12] ∧
  ∃ F, GF.make 8 (galois_utils.get_default_primitive 8) = Ok F
       ∧ array_get (GF.exp_table F) 0 = Ok 1
       ∧ (∀ a, 1 ≤ a < 2 ^ 8 →
               ∃ l, array_get (GF.log_table F) a = Ok l
                    ∧ array_get (GF.exp_table F) l = Ok a)
       ∧ GF.is_primitive F GF.primitive_element = Ok true
       ∧ (∀ k, 1 ≤ k < 2 ^ 8 - 1 →
               ∃ v, GF.power F GF.primitive_element k = Ok v ∧ v ≠ 1)
       ∧ GF.power F GF.primitive_element (2 ^ 8 - 1) = Ok 1.
Proof.
  assert (Hin : In 8 [3; 4; 5; 6; 7; 8; 10; 12]) by (cbn; tauto).
  split; [exact Hin|]. exact (default_tables_invariants 8 Hin).
Defined.

(** * The claims about the codecs *)

(** C1.  Hamming(7,4), data 1011 (bit 0 first: 1, 1, 0, 1), bit 0 of the
    codeword flipped.  The data column 0 and the parity column 4 of H have
    the same syndrome 1, and [build_syndrome_table] keeps the later position:
    the decoder reports position 4, flips that parity bit and returns the
    data with bit 0 still wrong.  The same happens at positions 1 and 3. *)
Theorem hamming_single_error_miscorrected :
  let c := Hamming.make 7 4 in
  let d := [true; true; false; true] in
  let decode_flipped p :=
    Hamming.decode_with_detection c (Hamming.flip (Hamming.encode c d) p) in
  Hamming.ValidHammingParams 7 4 = true
  ∧ Hamming.syndrome_table c = [7; 4; 5; 2; 6; 7; 7; 7]%nat
  ∧ Hamming.error_position (decode_flipped 0%nat) = 4%nat
  ∧ Hamming.data (decode_flipped 0%nat) = [false; true; false; true]
  ∧ Hamming.data (decode_flipped 0%nat) ≠ d
  ∧ Hamming.error_position (decode_flipped 1%nat) = 5%nat
  ∧ Hamming.data (decode_flipped 1%nat) ≠ d
  ∧ Hamming.error_position (decode_flipped 3%nat) = 6%nat
  ∧ Hamming.data (decode_flipped 3%nat) ≠ d.
Proof. vm_compute. repeat split; discriminate. Qed.

Lemma all_bitsets_complete (n : nat) (d : list bool) :
  length d = n → In d (all_bitsets n).
Proof.
  revert d. induction n as [|n IH]; intros [|b d] Hlen; try discriminate.
  - now left.
  - cbn [all_bitsets]. apply in_flat_map. exists d.
    split; [apply IH; now injection Hlen|].
    destruct b; cbn; auto.
Qed.

(** The Hamming codec does round-trip: on Hamming(7,4) and Hamming(15,11),
    decoding the codeword of any data word returns that data word and
    reports no error (error_position = n). *)
Lemma hamming_round_trip_all (d : list bool) :
  (length d = 4%nat → hamming_round_trip (Hamming.make 7 4) d = true)
  ∧ (length d = 11%nat → hamming_round_trip (Hamming.make 15 11) d = true).
Proof.
  split; intros Hlen; apply all_bitsets_complete in Hlen; revert d Hlen;
    apply forallb_forall; vm_compute; reflexivity.
Qed.

(** C2.  Reed-Solomon (3,1) over GF(2^3) with x^3 + x + 1 (t = 1), data
    (1): the generator is x^2 + 6x + 3, [encode] gives (1, 3, 6), and
    [decode] does not recognise it as a codeword: the syndromes are (2, 4),
    the decoder "corrects" position 0 and reports errors_corrected = 1
    instead of 0.  Reed-Solomon (3,2), data (1, 0): the codeword (1, 0, 2)
    is rejected with success = false. *)
Theorem rs_round_trip_reports_error :
  RS.requires 3 1 3 = true ∧ RS.requires 3 2 3 = true
  ∧ (∃ c, RS.make 3 1 3 0x0B = Ok c
          ∧ GFPolynomial.coefficients (RS.generator_poly c) = [3; 6; 1]
          ∧ RS.encode c [1] = Some (Ok [1; 3; 6])
          ∧ RS.calculate_syndromes c [1; 3; 6] = Ok [2; 4]
          ∧ RS.decode c [1; 3; 6] = Ok (RS.mkDecodeResult [1] true 1 [0]))
  ∧ (∃ c, RS.make 3 2 3 0x0B = Ok c
          ∧ RS.encode c [1; 0] = Some (Ok [1; 0; 2])
          ∧ RS.decode c [1; 0; 2] = Ok (RS.mkDecodeResult [0; 0] false 0 [])).
Proof.
  split; [reflexivity|]. split; [reflexivity|].
  split; eexists; (split; [vm_compute; reflexivity|]);
    vm_compute; repeat split; reflexivity.
Qed.

(** On the model of the BCH class (the class does not compile as written,
    and [divmod] is taken from the specification: see the head of module
    BCH).  The codec of the test suite, BCH<4, 1> with x^4 + x + 1 and the
    data bits 1,0,1,1,0,1,0 of test_bch.cpp, does not round-trip in the
    model either: the decoder flips data bit 8 and reports one corrected
    error. *)
Lemma bch_round_trip_reports_error :
  let d := [true; false; true; true; false; true; false;
            false; false; false; false] in
  ∃ c w r, BCH.make 4 1 0x13 = Ok c
           ∧ BCH.encode c d = Some (Ok w)
           ∧ BCH.decode c w = Ok r
           ∧ BCH.success r = true
           ∧ BCH.errors_corrected r = 1
           ∧ BCH.error_positions r = [12]
           ∧ BCH.data r ≠ d.
Proof.
  eexists. eexists. eexists. split; [vm_compute; reflexivity|].
  split; [vm_compute; reflexivity|].
  split; [vm_compute; reflexivity|].
  vm_compute. repeat split; discriminate.
Qed.

(** On the model of the BCH class (the class does not compile as written, so
    the program builds no BCH generator polynomial: see the head of module
    BCH).  With the constructor calls repaired as the model does, BCH<4, 1>
    with x^4 + x + 1 has the roots alpha and alpha^2, the generator
    (x - alpha)(x - alpha^2) = x^2 + 6x + 8 of degree 2, and the parity
    length m t = 4; BCH<4, 2> has a generator of degree 4 and the parity
    length 8. *)
Lemma bch_model_generator_degree :
  (∃ c, BCH.make 4 1 0x13 = Ok c
        ∧ BCH.roots c = [2; 4]
        ∧ GFPolynomial.coefficients (BCH.generator_poly c) = [8; 6; 1]
        ∧ GFPolynomial.degree (BCH.generator_poly c) = 2
        ∧ BCH.parity_length 4 1 = 4)
  ∧ (∃ c, BCH.make 4 2 0x13 = Ok c
          ∧ GFPolynomial.degree (BCH.generator_poly c) = 4
          ∧ BCH.parity_length 4 2 = 8).
Proof.
  split; eexists; (split; [vm_compute; reflexivity|]);
    vm_compute; repeat split; reflexivity.
Qed.

(** C6 (as stated, refuted).  Reed-Solomon (3,1) over GF(2^3) with
    x^3 + x + 1, t = 1, received word (2, 1, 0).  The syndromes are (0, 6),
    the locator is 1 + 3x^2, the Chien search finds the single position 0
    (1 <= t), the derivative built from the locator is the zero polynomial,
    so the Forney denominator at that position is 0, and the decoder reports
    success with errors_corrected = 1 and the symbol left as received. *)
Lemma zero_forney_denominator_reported_as_success :
  let received := [2; 1; 0] in
  RS.requires 3 1 3 = true ∧
  ∃ c syndromes locator,
    RS.make 3 1 3 0x0B = Ok c
    ∧ RS.calculate_syndromes c received = Ok syndromes
    ∧ syndromes = [0; 6]
    ∧ existsb (fun s => negb (s =? 0)) syndromes = true
    ∧ RS.berlekamp_massey c syndromes = Ok locator
    ∧ GFPolynomial.coefficients locator = [1; 0; 3]
    ∧ RS.chien_search c locator = Ok [0]
    ∧ RS.error_correction_capability 3 1 = 1
    ∧ RS.forney_denominator c locator 0 = Ok 0
    ∧ RS.decode c received = Ok (RS.mkDecodeResult [2] true 1 [0]).
Proof.
  split; [reflexivity|].
  eexists. eexists. eexists. split; [vm_compute; reflexivity|].
  split; [vm_compute; reflexivity|].
  split; [reflexivity|].
  split; [reflexivity|].
  split; [vm_compute; reflexivity|].
  vm_compute. repeat split; reflexivity.
Qed.

(** C3.  One symbol error, within the capacity t, is not corrected.
    Reed-Solomon (3,1) over GF(2^3) with x^3 + x + 1 (t = 1), data (0),
    codeword (0, 0, 0), symbol 0 changed to 1: the syndromes are (1, 1), the
    locator is 1 + x, the Chien search reports position 2 instead of 0 and
    the decoder returns the data (1) with success = true.
    Reed-Solomon (7,3) over the same field (t = 2), data (1, 2, 3), symbol 0
    changed by 5: the decoder finds no position, reports success with
    errors_corrected = 0 and returns (4, 2, 3).  RS(255,223) over GF(2^8)
    with the default polynomial (t = 16), data 0, 1, ..., 222, symbol 0
    changed from 0 to 1: the decoder reports position 254 instead of 0 and
    returns the data with symbol 0 still equal to 1. *)
Theorem rs_single_error_not_corrected :
  RS.error_correction_capability 3 1 = 1
  ∧ (∃ c, RS.make 3 1 3 0x0B = Ok c
          ∧ RS.encode c [0] = Some (Ok [0; 0; 0])
          ∧ RS.calculate_syndromes c [1; 0; 0] = Ok [1; 1]
          ∧ RS.decode c [1; 0; 0] = Ok (RS.mkDecodeResult [1] true 1 [2]))
  ∧ RS.error_correction_capability 7 3 = 2
  ∧ (c ← RS.make 7 3 3 0x0B;
     match RS.encode c [1; 2; 3] with
     | Some (Ok w) => RS.decode c (<[0%nat := Z.lxor (nth 0 w 0) 5]> w)
     | _ => Throw out_of_bounds
     end) = Ok (RS.mkDecodeResult [4; 2; 3] true 0 [])
  ∧ RS.error_correction_capability 255 223 = 16
  ∧ (c ← RS.make_default 255 223 8;
     match RS.encode c (map Z.of_nat (seq 0 223)) with
     | Some (Ok w) =>
         r ← RS.decode c (<[0%nat := Z.lxor (nth 0 w 0) 1]> w);
         Ok (nth 0 w 0, RS.success r, RS.errors_corrected r,
             RS.error_positions r, nth 0 (RS.data r) 0)
     | _ => Throw out_of_bounds
     end) = Ok (0, true, 1, [254], 1).
Proof.
  split; [reflexivity|].
  split; [eexists; split; [vm_compute; reflexivity|];
          vm_compute; repeat split; reflexivity|].
  split; [reflexivity|]. split; [vm_compute; reflexivity|].
  split; [reflexivity|]. vm_compute; reflexivity.
Qed.

Lemma rs_requires_geometry (n k m : Z) :
  3 ≤ m ≤ 12 → 0 ≤ k → RS.requires n k m = true →
  0 ≤ k ≤ n ∧ n ≤ 2 ^ m - 1.
Proof.
  intros Hm Hk Hreq. unfold RS.requires in Hreq.
  apply andb_prop in Hreq as [Hreq _]. apply andb_prop in Hreq as [Hn Hkn].
  apply Z.leb_le in Hn, Hkn.
  pose proof (pow2_m_ge8 m Hm) as H8. pose proof (pow2_m_le_4096 m Hm) as H4096.
  assert (Hs : size_t (uint32 (uint32 (Z.shiftl 1 m) - 1)) = 2 ^ m - 1).
  { unfold size_t, uint32. rewrite Z.shiftl_1_l.
    rewrite (Z.mod_small (2 ^ m)) by lia.
    rewrite (Z.mod_small (2 ^ m - 1)) by lia.
    apply Z.mod_small. lia. }
  rewrite Hs in Hn. lia.
Qed.

(** C6 (amended).  For a Reed-Solomon codec built from a primitive
    polynomial and a received word of n field elements, the decoder always
    returns a result.  A word whose syndromes are all zero is returned as it
    is, with success = true and no error counted.  When at least one syndrome
    is not zero, the result has success = false if and only if the number of
    Chien-search roots of the error locator exceeds t, and the failed result
    carries zeroed data and no position.  Otherwise the decoder succeeds and
    reports the Chien-search positions; the error value of a position is 0
    when its Forney denominator is 0 and numerator / denominator when it is
    not; the data symbol at a reported position is the received symbol plus
    that error value (so it is left as received under a zero denominator),
    and every other data symbol is the received one.  A zero Forney
    denominator never makes the decode fail. *)
Theorem rs_decode_fails_iff_too_many_roots (m poly n k : Z) (c : RS.t)
    (received : list Z) :
  3 ≤ m ≤ 12 → primitive_polynomial m poly = true →
  0 ≤ k → RS.requires n k m = true →
  RS.make n k m poly = Ok c →
  length received = Z.to_nat n → Forall (element m) received →
  ∃ syndromes r,
    RS.calculate_syndromes c received = Ok syndromes
    ∧ RS.decode c received = Ok r
    ∧ (existsb (fun s => negb (s =? 0)) syndromes = false →
       r = RS.mkDecodeResult (take (Z.to_nat k) received) true 0 [])
    ∧ (existsb (fun s => negb (s =? 0)) syndromes = true →
       ∃ locator positions,
         RS.berlekamp_massey c syndromes = Ok locator
         ∧ RS.chien_search c locator = Ok positions
         ∧ (RS.success r = false
            ↔ RS.error_correction_capability n k < size positions)
         ∧ (RS.error_correction_capability n k < size positions →
            r = RS.mkDecodeResult (replicate (Z.to_nat k) 0) false 0 [])
         ∧ (size positions ≤ RS.error_correction_capability n k →
            ∃ values,
              RS.forney_algorithm c syndromes locator positions = Ok values
              ∧ length values = length positions
              ∧ RS.errors_corrected r = size positions
              ∧ RS.error_positions r = positions
              ∧ length (RS.data r) = Z.to_nat k
              ∧ (∀ i, (i < length positions)%nat →
                   ∃ numerator denominator,
                     RS.forney_numerator c syndromes locator (nth i positions 0)
                     = Ok numerator
                     ∧ RS.forney_denominator c locator (nth i positions 0)
                       = Ok denominator
                     ∧ (denominator = 0 → nth i values 0 = 0)
                     ∧ (denominator ≠ 0 →
                        GF.divide (RS.field c) numerator denominator
                        = Ok (nth i values 0))
                     ∧ (nth i positions 0 < k →
                        nth (Z.to_nat (nth i positions 0)) (RS.data r) 0
                        = GF.add (nth (Z.to_nat (nth i positions 0)) received 0)
                                 (nth i values 0)))
              ∧ (∀ j, (j < Z.to_nat k)%nat → ¬ In (Z.of_nat j) positions →
                      nth j (RS.data r) 0 = nth j received 0))).
Proof.
  intros Hm Hprim Hk Hreq Hmake Hlen Hrec.
  destruct (make_valid m poly Hm Hprim) as (F & HF & Hv).
  unfold RS.make in Hmake. rewrite HF in Hmake.
  cbn [mbind result_bind bind] in Hmake.
  destruct (RS.generate_polynomial n k F GF.get_primitive) as [g|] eqn:Eg;
    [|discriminate].
  cbn [mbind result_bind bind] in Hmake. injection Hmake as <-.
  pose proof (rs_requires_geometry n k m Hm Hk Hreq) as Hgeom.
  destruct (decode_values m poly Hm Hprim F Hv
              (RS.mk n k m F g GF.get_primitive) eq_refl eq_refl Hgeom
              received Hlen Hrec) as (syn & r & Hsyn & Hdec & Hclean & Herr).
  cbn [RS.n RS.k RS.field] in *.
  exists syn, r. split; [exact Hsyn|]. split; [exact Hdec|].
  split; [exact Hclean|]. intros Hnz.
  destruct (Herr Hnz) as (loc & ps & Hbm & Hch & Hfail & Hgood).
  exists loc, ps. split; [exact Hbm|]. split; [exact Hch|].
  split; [|split; [exact Hfail|]].
  - destruct (Z.lt_ge_cases (RS.error_correction_capability n k) (size ps))
      as [Hgt|Hle].
    + rewrite (Hfail Hgt). cbn [RS.success]. tauto.
    + destruct (Hgood Hle) as (vs & _ & _ & Hs & _). rewrite Hs.
      split; [discriminate|lia].
  - intros Hle.
    destruct (Hgood Hle) as (vs & Hfo & Hvl & _ & Hec & Hep & Hdl & Hvals & Hrest).
    exists vs. split; [exact Hfo|]. split; [exact Hvl|]. split; [exact Hec|].
    split; [exact Hep|]. split; [exact Hdl|]. split; [exact Hvals|exact Hrest].
Qed.

Lemma rs_decode_fails_iff_too_many_roots_witness :
  3 ≤ 3 ≤ 12 ∧ primitive_polynomial 3 0x0B = true ∧ 0 ≤ 1
  ∧ RS.requires 3 1 3 = true
  ∧ ∃ c, RS.make 3 1 3 0x0B = Ok c
    ∧ ∃ syndromes r,
        RS.calculate_syndromes c [2; 1; 0] = Ok syndromes
        ∧ RS.decode c [2; 1; 0] = Ok r
        ∧ (existsb (fun s => negb (s =? 0)) syndromes = false →
           r = RS.mkDecodeResult (take (Z.to_nat 1) [2; 1; 0]) true 0 [])
        ∧ (existsb (fun s => negb (s =? 0)) syndromes = true →
           ∃ locator positions,
             RS.berlekamp_massey c syndromes = Ok locator
             ∧ RS.chien_search c locator = Ok positions
             ∧ (RS.success r = false
                ↔ RS.error_correction_capability 3 1 < size positions)
             ∧ (RS.error_correction_capability 3 1 < size positions →
                r = RS.mkDecodeResult (replicate (Z.to_nat 1) 0) false 0 [])
             ∧ (size positions ≤ RS.error_correction_capability 3 1 →
                ∃ values,
                  RS.forney_algorithm c syndromes locator positions = Ok values
                  ∧ length values = length positions
                  ∧ RS.errors_corrected r = size positions
                  ∧ RS.error_positions r = positions
                  ∧ length (RS.data r) = Z.to_nat 1
                  ∧ (∀ i, (i < length positions)%nat →
                       ∃ numerator denominator,
                         RS.forney_numerator c syndromes locator (nth i positions 0)
                         = Ok numerator
                         ∧ RS.forney_denominator c locator (nth i positions 0)
                           = Ok denominator
                         ∧ (denominator = 0 → nth i values 0 = 0)
                         ∧ (denominator ≠ 0 →
                            GF.divide (RS.field c) numerator denominator
                            = Ok (nth i values 0))
                         ∧ (nth i positions 0 < 1 →
                            nth (Z.to_nat (nth i positions 0)) (RS.data r) 0
                            = GF.add (nth (Z.to_nat (nth i positions 0)) [2; 1; 0] 0)
                                     (nth i values 0)))
                  ∧ (∀ j, (j < Z.to_nat 1)%nat → ¬ In (Z.of_nat j) positions →
                          nth j (RS.data r) 0 = nth j [2; 1; 0] 0))).
Proof.
  split; [lia|]. split; [vm_compute; reflexivity|]. split; [lia|].
  split; [reflexivity|].
  eexists. split; [vm_compute; reflexivity|].
  apply (rs_decode_fails_iff_too_many_roots 3 0x0B 3 1 _ [2; 1; 0]);
    [lia | vm_compute; reflexivity | lia | reflexivity | vm_compute; reflexivity
    | reflexivity | repeat constructor; unfold element; lia].
Defined.

(** * Further properties of the field engine (galois_field.hpp)

    The statements below are about the values the member functions return
    on a field built by the constructor from a primitive polynomial of
    degree m, 3 <= m <= 12, the range of the explicit instantiations. *)

Ltac field_ctx m poly F Hm Hprim HF Hv :=
  pose proof (make_valid_field m poly F Hm Hprim HF) as Hv;
  pose proof (pow2_m_ge8 m Hm) as Hp8;
  pose proof (N_eq m Hm) as HNeq.

Ltac el := unfold element in *; lia.

(** X1.  What [build_tables] stores: exp_table[0] = 1; for every index
    0 <= i < 2^m - 1 the cell exp_table[i] holds a nonzero field element a
    with log_table[a] = i, and the next cell (cyclically) is a multiplied by
    alpha = 2; for every nonzero element a the cell log_table[a] holds an
    index i < 2^m - 1 with exp_table[i] = a; log_table[0] is 0; and the last
    cell exp_table[2^m - 1] is never written. *)
Theorem tables_are_mutually_inverse (m poly : Z) (F : GF.GaloisField) :
  3 ≤ m ≤ 12 → primitive_polynomial m poly = true → GF.make m poly = Ok F →
  array_get (GF.exp_table F) 0 = Ok 1
  ∧ (∀ i, 0 ≤ i < 2 ^ m - 1 →
       ∃ a, array_get (GF.exp_table F) i = Ok a
            ∧ 1 ≤ a < 2 ^ m
            ∧ array_get (GF.log_table F) a = Ok i
            ∧ GF.multiply F a GF.primitive_element
              = array_get (GF.exp_table F) ((i + 1) mod (2 ^ m - 1)))
  ∧ (∀ a, 1 ≤ a < 2 ^ m →
       ∃ i, array_get (GF.log_table F) a = Ok i
            ∧ 0 ≤ i < 2 ^ m - 1
            ∧ array_get (GF.exp_table F) i = Ok a)
  ∧ array_get (GF.log_table F) 0 = Ok 0
  ∧ array_get (GF.exp_table F) (2 ^ m - 1) = Throw indeterminate.
Proof.
  intros Hm Hprim HF. field_ctx m poly F Hm Hprim HF Hv.
  split; [|split; [|split; [|split]]].
  - now rewrite (exp_get m poly Hm F Hv) by lia.
  - intros i Hi.
    pose proof (exp_seq_range m poly Hm Hprim (Z.to_nat i)) as Hr.
    pose proof (exp_seq_nonzero m poly Hm Hprim (Z.to_nat i)) as Hnz.
    exists (exp_seq m poly (Z.to_nat i)).
    split; [apply (exp_get m poly Hm F Hv); lia|].
    split; [lia|]. split.
    + pose proof Hv as (_ & _ & _ & _ & _ & _ & Hl & _).
      apply array_get_Ok; [lia|].
      rewrite (Hl (Z.to_nat i)) by lia. now rewrite Z2Nat.id by lia.
    + rewrite (multiply_gmul m poly Hm Hprim F Hv)
        by (try apply (element_alpha m Hm); el).
      rewrite (exp_get_mod m poly Hm F Hv).
      rewrite (exp_seq_Zmod m poly Hm Hprim) by lia. f_equal.
      pose proof (exp_seq_range m poly Hm Hprim 1) as Hr1.
      pose proof (exp_seq_nonzero m poly Hm Hprim 1) as Hnz1.
      rewrite <- (exp_seq_1 m poly Hm).
      rewrite (gmul_exp m poly Hm Hprim F Hv) by lia.
      rewrite !(dlog_exp m poly F Hv) by lia. f_equal. lia.
  - intros a Ha.
    destruct (dlog_spec m poly Hm Hprim F Hv a Ha) as (Hla & Hea & Hga).
    exists (Z.of_nat (dlog F a)). split; [exact Hga|]. split; [lia|].
    rewrite (exp_get m poly Hm F Hv) by lia. now rewrite Nat2Z.id, Hea.
  - destruct Hv as (_ & _ & _ & _ & _ & Hl0 & _).
    apply array_get_Ok; [lia|exact Hl0].
  - unfold GF.make, GF.build_tables in HF.
    destruct (GF.build_exp_table m poly) as [[e v]|] eqn:He; [|discriminate].
    cbn [mbind result_bind bind] in HF.
    destruct (GF.build_log_table m e) as [l|]; [|discriminate].
    cbn [mbind result_bind bind] in HF. injection HF as <-.
    cbn [GF.exp_table].
    pose proof (build_exp_table_last_cell m poly Hm e v He) as Hlast.
    unfold array_get. destruct (Z.ltb_spec (2 ^ m - 1) 0); [lia|].
    now rewrite Hlast.
Qed.

Lemma tables_are_mutually_inverse_witness :
  3 ≤ 3 ≤ 12 ∧ primitive_polynomial 3 0x0B = true ∧
  ∃ F, GF.make 3 0x0B = Ok F
    ∧ array_get (GF.exp_table F) 0 = Ok 1
    ∧ (∀ i, 0 ≤ i < 2 ^ 3 - 1 →
         ∃ a, array_get (GF.exp_table F) i = Ok a
              ∧ 1 ≤ a < 2 ^ 3
              ∧ array_get (GF.log_table F) a = Ok i
              ∧ GF.multiply F a GF.primitive_element
                = array_get (GF.exp_table F) ((i + 1) mod (2 ^ 3 - 1)))
    ∧ (∀ a, 1 ≤ a < 2 ^ 3 →
         ∃ i, array_get (GF.log_table F) a = Ok i
              ∧ 0 ≤ i < 2 ^ 3 - 1
              ∧ array_get (GF.exp_table F) i = Ok a)
    ∧ array_get (GF.log_table F) 0 = Ok 0
    ∧ array_get (GF.exp_table F) (2 ^ 3 - 1) = Throw indeterminate.
Proof.
  split; [lia|]. split; [vm_compute; reflexivity|].
  eexists. split; [vm_compute; reflexivity|].
  apply (tables_are_mutually_inverse 3 0x0B);
    [lia | vm_compute; reflexivity | vm_compute; reflexivity].
Defined.

(** X2.  The five identities [verify_field_axioms] samples hold for all
    field elements a, b, c: a + 0 = a, a * 1 = a, a + a = 0,
    a * inverse(a) = 1 for a nonzero, and a * (b + c) = a * b + a * c. *)
Theorem field_axioms_hold (m poly : Z) (F : GF.GaloisField) (a b c : Z) :
  3 ≤ m ≤ 12 → primitive_polynomial m poly = true → GF.make m poly = Ok F →
  element m a → element m b → element m c →
  GF.add a 0 = a
  ∧ GF.multiply F a 1 = Ok a
  ∧ GF.add a a = 0
  ∧ (a ≠ 0 → ∃ inv_a, GF.inverse F a = Ok inv_a
                      ∧ GF.multiply F a inv_a = Ok 1)
  ∧ GF.multiply F a (GF.add b c)
    = (ab ← GF.multiply F a b; ac ← GF.multiply F a c; Ok (GF.add ab ac)).
Proof.
  intros Hm Hprim HF Ha Hb Hc. field_ctx m poly F Hm Hprim HF Hv.
  unfold GF.add.
  split; [apply Z.lxor_0_r|]. split; [|split; [apply Z.lxor_nilpotent|split]].
  - rewrite (multiply_gmul m poly Hm Hprim F Hv) by (auto; el).
    now rewrite (gmul_1_r m poly Hm Hprim F Hv).
  - intros Ha0.
    destruct (inverse_Ok m poly Hm Hprim F Hv a Ha Ha0) as (v & Hi & Hel & Hav).
    exists v. split; [exact Hi|].
    rewrite (multiply_gmul m poly Hm Hprim F Hv) by assumption.
    now rewrite Hav.
  - rewrite !(multiply_gmul m poly Hm Hprim F Hv)
      by (auto; apply (element_lxor m Hm); assumption).
    cbn [mbind result_bind bind].
    now rewrite (gmul_lxor_r m poly Hm Hprim F Hv).
Qed.

Lemma field_axioms_hold_witness :
  3 ≤ 4 ≤ 12 ∧ primitive_polynomial 4 0x13 = true ∧
  ∃ F, GF.make 4 0x13 = Ok F
    ∧ element 4 7 ∧ element 4 9 ∧ element 4 13
    ∧ GF.add 7 0 = 7
    ∧ GF.multiply F 7 1 = Ok 7
    ∧ GF.add 7 7 = 0
    ∧ (7 ≠ 0 → ∃ inv_a, GF.inverse F 7 = Ok inv_a
                        ∧ GF.multiply F 7 inv_a = Ok 1)
    ∧ GF.multiply F 7 (GF.add 9 13)
      = (ab ← GF.multiply F 7 9; ac ← GF.multiply F 7 13; Ok (GF.add ab ac)).
Proof.
  split; [lia|]. split; [vm_compute; reflexivity|].
  eexists. split; [vm_compute; reflexivity|].
  split; [unfold element; lia|]. split; [unfold element; lia|].
  split; [unfold element; lia|].
  apply (field_axioms_hold 4 0x13 _ 7 9 13);
    [lia | vm_compute; reflexivity | vm_compute; reflexivity
    | unfold element; lia | unfold element; lia | unfold element; lia].
Defined.

(** X3.  [multiply] is closed on the field, commutative and associative, and
    the field has no zero divisors: a product is 0 exactly when a factor
    is 0. *)
Theorem multiply_commutative_associative (m poly : Z) (F : GF.GaloisField)
    (a b c : Z) :
  3 ≤ m ≤ 12 → primitive_polynomial m poly = true → GF.make m poly = Ok F →
  element m a → element m b → element m c →
  (∃ v, GF.multiply F a b = Ok v ∧ element m v ∧ (v = 0 ↔ a = 0 ∨ b = 0))
  ∧ GF.multiply F a b = GF.multiply F b a
  ∧ (ab ← GF.multiply F a b; GF.multiply F ab c)
    = (bc ← GF.multiply F b c; GF.multiply F a bc).
Proof.
  intros Hm Hprim HF Ha Hb Hc. field_ctx m poly F Hm Hprim HF Hv.
  pose proof (gmul_range m poly Hm Hprim F Hv) as Hgr.
  split; [|split].
  - exists (gmul F a b).
    split; [apply (multiply_gmul m poly Hm Hprim F Hv); assumption|].
    split; [auto|]. split.
    + intros Hz.
      destruct (Z.eq_dec a 0) as [|Ha0]; [now left|].
      destruct (Z.eq_dec b 0) as [|Hb0]; [now right|].
      pose proof (gmul_nonzero m poly Hm Hprim F Hv a b) as Hnz.
      unfold element in *. lia.
    + intros [-> | ->]; [apply gmul_0_l|apply (gmul_0_r m poly Hm F Hv)].
  - rewrite !(multiply_gmul m poly Hm Hprim F Hv) by assumption.
    now rewrite (gmul_comm m poly Hm Hprim F Hv).
  - rewrite !(multiply_gmul m poly Hm Hprim F Hv) by assumption.
    cbn [mbind result_bind bind].
    rewrite !(multiply_gmul m poly Hm Hprim F Hv) by auto.
    now rewrite (gmul_assoc m poly Hm Hprim F Hv).
Qed.

Lemma multiply_commutative_associative_witness :
  3 ≤ 4 ≤ 12 ∧ primitive_polynomial 4 0x13 = true ∧
  ∃ F, GF.make 4 0x13 = Ok F
    ∧ (∃ v, GF.multiply F 6 11 = Ok v ∧ element 4 v ∧ (v = 0 ↔ 6 = 0 ∨ 11 = 0))
    ∧ GF.multiply F 6 11 = GF.multiply F 11 6
    ∧ (ab ← GF.multiply F 6 11; GF.multiply F ab 14)
      = (bc ← GF.multiply F 11 14; GF.multiply F 6 bc).
Proof.
  split; [lia|]. split; [vm_compute; reflexivity|].
  eexists. split; [vm_compute; reflexivity|].
  apply (multiply_commutative_associative 4 0x13 _ 6 11 14);
    [lia | vm_compute; reflexivity | vm_compute; reflexivity
    | unfold element; lia | unfold element; lia | unfold element; lia].
Defined.

(** X4.  [inverse] throws std::invalid_argument on 0.  On a nonzero element a
    it returns the one element v with a * v = 1; v is nonzero,
    inverse(v) = a, and v = a^(2^m - 2) as [power] computes it. *)
Theorem inverse_is_the_reciprocal (m poly : Z) (F : GF.GaloisField) (a : Z) :
  3 ≤ m ≤ 12 → primitive_polynomial m poly = true → GF.make m poly = Ok F →
  element m a → a ≠ 0 →
  GF.inverse F 0 = Throw invalid_argument
  ∧ ∃ v, GF.inverse F a = Ok v
         ∧ 1 ≤ v < 2 ^ m
         ∧ GF.multiply F a v = Ok 1
         ∧ GF.inverse F v = Ok a
         ∧ GF.power F a (2 ^ m - 2) = Ok v
         ∧ ∀ w, element m w → GF.multiply F a w = Ok 1 → w = v.
Proof.
  intros Hm Hprim HF Ha Ha0. field_ctx m poly F Hm Hprim HF Hv.
  pose proof (pow2_m_le_4096 m Hm) as H4096.
  split; [reflexivity|].
  assert (Ha1 : 1 ≤ a < 2 ^ m) by el.
  destruct (dlog_spec m poly Hm Hprim F Hv a Ha1) as (Hla & Hea & _).
  set (N := Z.to_nat (2 ^ m - 1)) in *. set (d := dlog F a) in *.
  set (v := exp_seq m poly (N - d)).
  pose proof (exp_seq_range m poly Hm Hprim (N - d)) as Hvr.
  pose proof (exp_seq_nonzero m poly Hm Hprim (N - d)) as Hvnz.
  fold v in Hvr, Hvnz.
  assert (Hinv : GF.inverse F a = Ok v)
    by (apply (inverse_exp m poly Hm Hprim F Hv); exact Ha1).
  assert (Hav : gmul F a v = 1).
  { destruct (inverse_Ok m poly Hm Hprim F Hv a Ha Ha0) as (v' & Hi & _ & Hg).
    rewrite Hinv in Hi. injection Hi as <-. exact Hg. }
  exists v. split; [exact Hinv|]. split; [lia|]. split; [|split; [|split]].
  - rewrite (multiply_gmul m poly Hm Hprim F Hv) by (auto; el). now rewrite Hav.
  - rewrite (inverse_exp m poly Hm Hprim F Hv) by lia. f_equal.
    rewrite <- Hea. unfold v.
    destruct (Nat.eq_dec d 0%nat) as [Hd0|Hd0].
    + rewrite Hd0, Nat.sub_0_r. unfold N.
      rewrite (exp_seq_N m poly Hprim), (dlog_1 m poly Hm F Hv), Nat.sub_0_r.
      apply (exp_seq_N m poly Hprim).
    + rewrite (dlog_exp m poly F Hv) by (fold N; lia). f_equal. lia.
  - rewrite (power_gpow m poly Hm Hprim F Hv) by (auto; lia).
    rewrite (gpow_exp m poly Hm Hprim F Hv) by exact Ha1. fold d. f_equal.
    unfold v.
    destruct (Nat.eq_dec d 0%nat) as [Hd0|Hd0].
    + rewrite Hd0, Nat.mul_0_r, Nat.sub_0_r.
      symmetry. apply (exp_seq_N m poly Hprim).
    + replace (Z.to_nat (2 ^ m - 2) * d)%nat with (N - d + (d - 1) * N)%nat by nia.
      apply (exp_seq_mul_period m poly Hprim).
  - intros w Hw Hmul.
    rewrite (multiply_gmul m poly Hm Hprim F Hv) in Hmul by assumption.
    injection Hmul as Hmul.
    apply (gmul_cancel_r m poly Hm Hprim F Hv w v a); [assumption|el|lia|].
    rewrite (gmul_comm m poly Hm Hprim F Hv w a) by assumption.
    rewrite (gmul_comm m poly Hm Hprim F Hv v a) by (auto; el).
    congruence.
Qed.

Lemma inverse_is_the_reciprocal_witness :
  3 ≤ 4 ≤ 12 ∧ primitive_polynomial 4 0x13 = true ∧
  ∃ F, GF.make 4 0x13 = Ok F ∧ element 4 6 ∧ 6 ≠ 0
    ∧ GF.inverse F 0 = Throw invalid_argument
    ∧ ∃ v, GF.inverse F 6 = Ok v
           ∧ 1 ≤ v < 2 ^ 4
           ∧ GF.multiply F 6 v = Ok 1
           ∧ GF.inverse F v = Ok 6
           ∧ GF.power F 6 (2 ^ 4 - 2) = Ok v
           ∧ ∀ w, element 4 w → GF.multiply F 6 w = Ok 1 → w = v.
Proof.
  split; [lia|]. split; [vm_compute; reflexivity|].
  eexists. split; [vm_compute; reflexivity|].
  split; [unfold element; lia|]. split; [lia|].
  apply (inverse_is_the_reciprocal 4 0x13 _ 6);
    [lia | vm_compute; reflexivity | vm_compute; reflexivity
    | unfold element; lia | lia].
Defined.

(** X5.  [power] is repeated multiplication: a^0 = 1 for every a, zero
    included, a^1 = a, a^(e1 + e2) = a^e1 * a^e2 for exponents whose sum is
    below 2^52 (no product of a logarithm and an exponent wraps in size_t),
    and a^(2^m - 1) = 1 for every nonzero a. *)
Theorem power_is_repeated_multiplication (m poly : Z) (F : GF.GaloisField)
    (a e1 e2 : Z) :
  3 ≤ m ≤ 12 → primitive_polynomial m poly = true → GF.make m poly = Ok F →
  element m a → 0 ≤ e1 → 0 ≤ e2 → e1 + e2 < 2 ^ 52 →
  GF.power F a 0 = Ok 1
  ∧ GF.power F a 1 = Ok a
  ∧ (∃ v1 v2, GF.power F a e1 = Ok v1 ∧ GF.power F a e2 = Ok v2
              ∧ element m v1 ∧ element m v2
              ∧ GF.power F a (e1 + e2) = GF.multiply F v1 v2)
  ∧ (a ≠ 0 → GF.power F a (2 ^ m - 1) = Ok 1).
Proof.
  intros Hm Hprim HF Ha He1 He2 Hsum. field_ctx m poly F Hm Hprim HF Hv.
  pose proof (pow2_m_le_4096 m Hm) as H4096.
  pose proof (gpow_range m poly Hm Hprim F Hv a) as Hgr.
  split; [|split; [|split]].
  - now rewrite (power_gpow m poly Hm Hprim F Hv) by (auto; lia).
  - rewrite (power_gpow m poly Hm Hprim F Hv) by (auto; lia).
    change (gpow F a (Z.to_nat 1)) with (gmul F 1 a).
    now rewrite (gmul_1_l m poly Hm F Hv).
  - exists (gpow F a (Z.to_nat e1)), (gpow F a (Z.to_nat e2)).
    split; [apply (power_gpow m poly Hm Hprim F Hv); auto; lia|].
    split; [apply (power_gpow m poly Hm Hprim F Hv); auto; lia|].
    split; [auto|]. split; [auto|].
    rewrite (power_gpow m poly Hm Hprim F Hv) by (auto; lia).
    rewrite (multiply_gmul m poly Hm Hprim F Hv) by auto.
    rewrite Z2Nat.inj_add by lia.
    now rewrite (gpow_add m poly Hm Hprim F Hv) by assumption.
  - intros Ha0.
    rewrite (power_gpow m poly Hm Hprim F Hv) by (auto; lia).
    rewrite (gpow_order m poly Hm Hprim F Hv) by el. reflexivity.
Qed.

Lemma power_is_repeated_multiplication_witness :
  3 ≤ 4 ≤ 12 ∧ primitive_polynomial 4 0x13 = true ∧
  ∃ F, GF.make 4 0x13 = Ok F ∧ element 4 5 ∧ 0 ≤ 3 ∧ 0 ≤ 20 ∧ 3 + 20 < 2 ^ 52
    ∧ GF.power F 5 0 = Ok 1
    ∧ GF.power F 5 1 = Ok 5
    ∧ (∃ v1 v2, GF.power F 5 3 = Ok v1 ∧ GF.power F 5 20 = Ok v2
                ∧ element 4 v1 ∧ element 4 v2
                ∧ GF.power F 5 (3 + 20) = GF.multiply F v1 v2)
    ∧ (5 ≠ 0 → GF.power F 5 (2 ^ 4 - 1) = Ok 1).
Proof.
  split; [lia|]. split; [vm_compute; reflexivity|].
  eexists. split; [vm_compute; reflexivity|].
  split; [unfold element; lia|]. split; [lia|]. split; [lia|]. split; [lia|].
  apply (power_is_repeated_multiplication 4 0x13 _ 5 3 20);
    [lia | vm_compute; reflexivity | vm_compute; reflexivity
    | unfold element; lia | lia | lia | lia].
Defined.

(** X6.  [divide] throws std::invalid_argument when the divisor is 0 and
    returns 0 when only the dividend is 0.  For nonzero a and b it returns a
    nonzero element q, and q * b = a holds exactly when
    log_table[b] <= log_table[a]: when the logarithm of the dividend is the
    smaller one the difference wraps in uint32_t and the quotient is not
    a / b. *)
Theorem divide_exact_iff_log_not_smaller (m poly : Z) (F : GF.GaloisField)
    (a b : Z) :
  3 ≤ m ≤ 12 → primitive_polynomial m poly = true → GF.make m poly = Ok F →
  element m a → element m b →
  (b = 0 → GF.divide F a b = Throw invalid_argument)
  ∧ (b ≠ 0 → a = 0 → GF.divide F a b = Ok 0)
  ∧ (a ≠ 0 → b ≠ 0 →
     ∃ q la lb, GF.divide F a b = Ok q
                ∧ 1 ≤ q < 2 ^ m
                ∧ array_get (GF.log_table F) a = Ok la
                ∧ array_get (GF.log_table F) b = Ok lb
                ∧ (GF.multiply F q b = Ok a ↔ lb ≤ la)).
Proof.
  intros Hm Hprim HF Ha Hb. field_ctx m poly F Hm Hprim HF Hv.
  split; [|split].
  - intros ->. reflexivity.
  - intros Hb0 ->. unfold GF.divide.
    destruct (Z.eqb_spec b 0); [contradiction|reflexivity].
  - intros Ha0 Hb0.
    assert (Ha1 : 1 ≤ a < 2 ^ m) by el. assert (Hb1 : 1 ≤ b < 2 ^ m) by el.
    destruct (dlog_spec m poly Hm Hprim F Hv a Ha1) as (_ & _ & Hga).
    destruct (dlog_spec m poly Hm Hprim F Hv b Hb1) as (_ & _ & Hgb).
    destruct (le_lt_dec (dlog F b) (dlog F a)) as [Hle|Hlt].
    + destruct (divide_right_when_log_not_smaller m poly Hm Hprim F Hv a b Ha1 Hb1 Hle)
        as (q & Hq & Hel & Hqb).
      exists q, (Z.of_nat (dlog F a)), (Z.of_nat (dlog F b)).
      split; [exact Hq|]. split.
      { destruct (Z.eq_dec q 0) as [->|]; [|el].
        rewrite gmul_0_l in Hqb. lia. }
      split; [exact Hga|]. split; [exact Hgb|].
      rewrite (multiply_gmul m poly Hm Hprim F Hv) by assumption.
      rewrite Hqb. split; [lia|reflexivity].
    + destruct (divide_wrong_when_log_smaller m poly Hm Hprim F Hv a b Ha1 Hb1 Hlt)
        as (q & Hq & Hel & Hqb).
      exists q, (Z.of_nat (dlog F a)), (Z.of_nat (dlog F b)).
      split; [exact Hq|]. split.
      { unfold GF.divide in Hq.
        destruct (Z.eqb_spec b 0); [contradiction|].
        destruct (Z.eqb_spec a 0); [contradiction|].
        rewrite Hga, Hgb in Hq. cbn [mbind result_bind bind] in Hq.
        unfold GF.log_diff in Hq. rewrite (valid_fs m poly Hm F Hv) in Hq.
        match type of Hq with array_get _ (?x mod _) = _ =>
          destruct (exp_get_element m poly Hm Hprim F Hv x) as (v & Hget & Hvr) end.
        congruence. }
      split; [exact Hga|]. split; [exact Hgb|].
      rewrite (multiply_gmul m poly Hm Hprim F Hv) by assumption.
      split; [intros [= H]; contradiction|lia].
Qed.

Lemma divide_exact_iff_log_not_smaller_witness :
  3 ≤ 4 ≤ 12 ∧ primitive_polynomial 4 0x13 = true ∧
  ∃ F, GF.make 4 0x13 = Ok F ∧ element 4 1 ∧ element 4 2
    ∧ (2 = 0 → GF.divide F 1 2 = Throw invalid_argument)
    ∧ (2 ≠ 0 → 1 = 0 → GF.divide F 1 2 = Ok 0)
    ∧ (1 ≠ 0 → 2 ≠ 0 →
       ∃ q la lb, GF.divide F 1 2 = Ok q
                  ∧ 1 ≤ q < 2 ^ 4
                  ∧ array_get (GF.log_table F) 1 = Ok la
                  ∧ array_get (GF.log_table F) 2 = Ok lb
                  ∧ (GF.multiply F q 2 = Ok 1 ↔ lb ≤ la)).
Proof.
  split; [lia|]. split; [vm_compute; reflexivity|].
  eexists. split; [vm_compute; reflexivity|].
  split; [unfold element; lia|]. split; [unfold element; lia|].
  apply (divide_exact_iff_log_not_smaller 4 0x13 _ 1 2);
    [lia | vm_compute; reflexivity | vm_compute; reflexivity
    | unfold element; lia | unfold element; lia].
Defined.

(** X7.  [is_primitive] never fails on a field element, and it answers true
    exactly for the generators of the multiplicative group: the elements
    a >= 2 none of whose powers a^j, 0 < j < 2^m - 1, is 1, which are the
    elements whose logarithm is coprime to 2^m - 1.  The primitive element
    alpha = 2 of the class passes the test. *)
Theorem is_primitive_iff_generator (m poly : Z) (F : GF.GaloisField) (a : Z) :
  3 ≤ m ≤ 12 → primitive_polynomial m poly = true → GF.make m poly = Ok F →
  element m a →
  (∃ b l, GF.is_primitive F a = Ok b
          ∧ array_get (GF.log_table F) a = Ok l
          ∧ (b = true ↔ 2 ≤ a ∧ Z.gcd l (2 ^ m - 1) = 1)
          ∧ (b = true ↔
             2 ≤ a ∧ ∀ j, 1 ≤ j < 2 ^ m - 1 → GF.power F a j ≠ Ok 1))
  ∧ GF.is_primitive F GF.get_primitive = Ok true.
Proof.
  intros Hm Hprim HF Ha. field_ctx m poly F Hm Hprim HF Hv.
  pose proof (pow2_m_le_4096 m Hm) as H4096.
  split; [|apply (is_primitive_alpha m poly Hm Hprim F Hv)].
  destruct (Z.le_gt_cases a 1) as [Hsmall|Hbig].
  - exists false.
    assert (Hlog : ∃ l, array_get (GF.log_table F) a = Ok l).
    { destruct (Z.eq_dec a 0) as [->|].
      - exists 0. destruct Hv as (_ & _ & _ & _ & _ & Hl0 & _).
        apply array_get_Ok; [lia|exact Hl0].
      - destruct (dlog_spec m poly Hm Hprim F Hv a ltac:(el)) as (_ & _ & Hg).
        eauto. }
    destruct Hlog as (l & Hl). exists l.
    split; [|split; [exact Hl|split; split; try discriminate; lia]].
    unfold GF.is_primitive. destruct (Z.leb_spec a 1); [reflexivity|lia].
  - assert (Ha2 : 2 ≤ a < 2 ^ m) by el.
    destruct (dlog_spec m poly Hm Hprim F Hv a ltac:(lia)) as (_ & _ & Hg).
    eexists. exists (Z.of_nat (dlog F a)).
    split; [apply (is_primitive_spec m poly Hm Hprim F Hv); exact Ha2|].
    split; [exact Hg|]. split.
    + rewrite (is_primitive_gcd m poly Hm Hprim F Hv a Ha2). split; [tauto|].
      intros [_ H]; exact H.
    + rewrite forallb_forall. split.
      * intros Hall. split; [lia|]. intros j Hj.
        rewrite (power_gpow m poly Hm Hprim F Hv) by (auto; lia).
        intros [= H1].
        specialize (Hall (Z.to_nat j)).
        rewrite H1 in Hall.
        assert (Hin : In (Z.to_nat j) (seq 1 (Z.to_nat (2 ^ m - 1) - 1)))
          by (apply in_seq; lia).
        specialize (Hall Hin). discriminate.
      * intros [_ Hall] j Hj. apply in_seq in Hj.
        apply negb_true_iff, Z.eqb_neq. intros H1.
        apply (Hall (Z.of_nat j)); [lia|].
        rewrite (power_gpow m poly Hm Hprim F Hv) by (auto; lia).
        now rewrite Nat2Z.id, H1.
Qed.

Lemma is_primitive_iff_generator_witness :
  3 ≤ 4 ≤ 12 ∧ primitive_polynomial 4 0x13 = true ∧
  ∃ F, GF.make 4 0x13 = Ok F ∧ element 4 8
    ∧ (∃ b l, GF.is_primitive F 8 = Ok b
              ∧ array_get (GF.log_table F) 8 = Ok l
              ∧ (b = true ↔ 2 ≤ 8 ∧ Z.gcd l (2 ^ 4 - 1) = 1)
              ∧ (b = true ↔
                 2 ≤ 8 ∧ ∀ j, 1 ≤ j < 2 ^ 4 - 1 → GF.power F 8 j ≠ Ok 1))
    ∧ GF.is_primitive F GF.get_primitive = Ok true.
Proof.
  split; [lia|]. split; [vm_compute; reflexivity|].
  eexists. split; [vm_compute; reflexivity|].
  split; [unfold element; lia|].
  apply (is_primitive_iff_generator 4 0x13 _ 8);
    [lia | vm_compute; reflexivity | vm_compute; reflexivity
    | unfold element; lia].
Defined.

(** * Further properties of the polynomial class (galois_field.hpp) *)

(** X8.  Every polynomial the constructor builds is in normal form, whatever
    the coefficient vector and the field: the stored vector is never empty,
    it is [0] or ends in a nonzero coefficient, building again from it
    changes nothing, degree() is its size minus one and is at most the size
    of the given vector minus one, operator[] reads back the given
    coefficients (0 past the end), and is_zero() holds exactly when every
    given coefficient is 0. *)
Theorem polynomial_normal_form (G : GF.GaloisField) (cs : list Z) :
  let p := GFPolynomial.make G cs in
  GFPolynomial.coefficients p ≠ []
  ∧ (GFPolynomial.coefficients p = [0]
     ∨ List.last (GFPolynomial.coefficients p) 0 ≠ 0)
  ∧ GFPolynomial.make G (GFPolynomial.coefficients p) = p
  ∧ GFPolynomial.degree p = size (GFPolynomial.coefficients p) - 1
  ∧ 0 ≤ GFPolynomial.degree p ≤ Z.max 0 (size cs - 1)
  ∧ (∀ i, GFPolynomial.coeff p i
          = if 0 <=? i then nth (Z.to_nat i) cs 0 else 0)
  ∧ (GFPolynomial.is_zero p = true ↔ Forall (fun c => c = 0) cs).
Proof.
  intros p. unfold p, GFPolynomial.make. cbn [GFPolynomial.coefficients].
  pose proof (normalize_nonempty cs) as Hne.
  pose proof (normalize_length cs) as Hlen.
  split; [exact Hne|]. split; [|split; [|split; [|split; [|split]]]].
  - destruct (normalize_split cs) as (z & [[Hn _] | (_ & _ & Hlast)]); auto.
  - now rewrite normalize_idempotent.
  - unfold GFPolynomial.degree. cbn [GFPolynomial.coefficients].
    destruct (GFPolynomial.normalize cs); [contradiction|reflexivity].
  - unfold GFPolynomial.degree, size. cbn [GFPolynomial.coefficients].
    destruct (GFPolynomial.normalize cs) eqn:E; [contradiction|].
    cbn [length] in *. lia.
  - intros i. apply (coeff_make G cs i).
  - unfold GFPolynomial.is_zero. cbn [GFPolynomial.coefficients].
    rewrite forallb_forall, List.Forall_forall. split.
    + intros Hall x Hx. apply In_nth with (d := 0) in Hx as (i & _ & <-).
      rewrite <- normalize_nth.
      destruct (Nat.lt_ge_cases i (length (GFPolynomial.normalize cs))) as [Hi|Hi].
      * apply Z.eqb_eq, Hall, nth_In, Hi.
      * now apply nth_overflow.
    + intros Hall x Hx. apply In_nth with (d := 0) in Hx as (i & _ & <-).
      rewrite normalize_nth. apply Z.eqb_eq.
      destruct (Nat.lt_ge_cases i (length cs)) as [Hi|Hi].
      * apply Hall, nth_In, Hi.
      * now apply nth_overflow.
Qed.

(** X9.  set_coefficient on a vector of at most max_size() coefficients.
    At an index below max_size() (2^61 - 1, the smallest value a standard
    library gives it) it returns, memory permitting; the coefficient written
    is the one operator[] reads back and no other coefficient changes, also
    when the write extends the vector or the normalisation that follows
    shortens it; the field is kept.  From 2^62 - 1, the largest max_size() of
    a standard library, up to 2^64 - 2 the resize throws std::length_error.
    At 2^64 - 1 the size index + 1 wraps to 0: the vector is emptied and the
    store is outside its extent. *)
Theorem set_coefficient_then_read (p : GFPolynomial.t) (index value : Z) :
  size (GFPolynomial.coefficients p) ≤ vector_max_size →
  (0 ≤ index < vector_max_size →
   ∃ q, GFPolynomial.set_coefficient p index value = Ok q
        ∧ GFPolynomial.field q = GFPolynomial.field p
        ∧ ∀ j, GFPolynomial.coeff q j
               = if j =? index then value else GFPolynomial.coeff p j)
  ∧ (2 ^ 62 - 1 ≤ index < 2 ^ 64 - 1 →
     GFPolynomial.set_coefficient p index value = Throw length_error)
  ∧ (index = 2 ^ 64 - 1 →
     GFPolynomial.set_coefficient p index value = Throw out_of_bounds).
Proof.
  intros Hsize. rewrite vector_max_size_eq in *. unfold size in Hsize.
  split; [|split].
  - intros Hidx. rewrite set_coefficient_Ok by (rewrite vector_max_size_eq; lia).
    eexists. split; [reflexivity|]. split; [reflexivity|].
    intros j. apply set_coefficient_coeff. lia.
  - intros Hidx. unfold GFPolynomial.set_coefficient. cbn zeta. unfold size.
    destruct (Z.leb_spec (Z.of_nat (length (GFPolynomial.coefficients p))) index);
      [|lia].
    unfold vector_resize, size_t. rewrite Z.mod_small by lia.
    rewrite vector_max_size_eq.
    destruct (Z.ltb_spec (2 ^ 61 - 1) (index + 1)); [reflexivity|lia].
  - intros ->. unfold GFPolynomial.set_coefficient. cbn zeta. unfold size.
    destruct (Z.leb_spec (Z.of_nat (length (GFPolynomial.coefficients p)))
                (2 ^ 64 - 1)); [|lia].
    replace (size_t (2 ^ 64 - 1 + 1)) with 0 by reflexivity.
    reflexivity.
Qed.

Lemma set_coefficient_then_read_witness :
  size (GFPolynomial.coefficients
          (GFPolynomial.mk [1; 2; 3] (GF.mkGaloisField 4 [] [] 0x13)))
  ≤ vector_max_size
  ∧ 0 ≤ 5 < vector_max_size
  ∧ ∃ q, GFPolynomial.set_coefficient
           (GFPolynomial.mk [1; 2; 3] (GF.mkGaloisField 4 [] [] 0x13)) 5 7 = Ok q
         ∧ GFPolynomial.field q = GF.mkGaloisField 4 [] [] 0x13
         ∧ ∀ j, GFPolynomial.coeff q j
                = if j =? 5 then 7 else
                    GFPolynomial.coeff
                      (GFPolynomial.mk [1; 2; 3] (GF.mkGaloisField 4 [] [] 0x13)) j.
Proof.
  split; [vm_compute; discriminate|].
  split; [vm_compute; split; [discriminate|reflexivity]|].
  apply (proj1 (set_coefficient_then_read
                  (GFPolynomial.mk [1; 2; 3] (GF.mkGaloisField 4 [] [] 0x13)) 5 7
                  ltac:(vm_compute; discriminate))).
  vm_compute; split; [discriminate|reflexivity].
Defined.

(** X10.  operator+ adds coefficient by coefficient with XOR, on any two
    polynomials of any sizes; the coefficients of p + q and q + p are the
    same, p + p is the zero polynomial [0], the sum keeps the field of the
    left operand and its degree is at most the larger of the two degrees. *)
Theorem add_is_coefficientwise_xor (p q : GFPolynomial.t) :
  (∀ i, GFPolynomial.coeff (GFPolynomial.add p q) i
        = GF.add (GFPolynomial.coeff p i) (GFPolynomial.coeff q i))
  ∧ GFPolynomial.coefficients (GFPolynomial.add p q)
    = GFPolynomial.coefficients (GFPolynomial.add q p)
  ∧ GFPolynomial.coefficients (GFPolynomial.add p p) = [0]
  ∧ GFPolynomial.field (GFPolynomial.add p q) = GFPolynomial.field p
  ∧ GFPolynomial.degree (GFPolynomial.add p q)
    ≤ Z.max (GFPolynomial.degree p) (GFPolynomial.degree q).
Proof.
  split; [intros i; apply add_coeff|]. split; [|split; [|split]].
  - unfold GFPolynomial.add, GFPolynomial.make. cbn [GFPolynomial.coefficients].
    apply coefficients_ext. intros i.
    pose proof (add_coeff p q (Z.of_nat i)) as Hpq.
    pose proof (add_coeff q p (Z.of_nat i)) as Hqp.
    rewrite !coeff_of_nat in Hpq, Hqp.
    unfold GFPolynomial.add, GFPolynomial.make in Hpq, Hqp.
    cbn [GFPolynomial.coefficients] in Hpq, Hqp.
    rewrite normalize_nth in Hpq, Hqp.
    rewrite Hpq, Hqp. apply Z.lxor_comm.
  - change [0] with (GFPolynomial.normalize []).
    unfold GFPolynomial.add, GFPolynomial.make. cbn [GFPolynomial.coefficients].
    apply coefficients_ext. intros i.
    pose proof (add_coeff p p (Z.of_nat i)) as Hpp.
    rewrite !coeff_of_nat in Hpp.
    unfold GFPolynomial.add, GFPolynomial.make in Hpp.
    cbn [GFPolynomial.coefficients] in Hpp.
    rewrite normalize_nth in Hpp. rewrite Hpp, Z.lxor_nilpotent.
    now destruct i.
  - reflexivity.
  - unfold GFPolynomial.add, GFPolynomial.make, GFPolynomial.degree, size.
    cbn [GFPolynomial.coefficients].
    match goal with |- context [GFPolynomial.normalize ?l] =>
      pose proof (normalize_length l) as Hlen;
      pose proof (normalize_nonempty l) as Hne;
      destruct (GFPolynomial.normalize l) as [|x r] eqn:E; [contradiction|]
    end.
    rewrite length_map, length_seq in Hlen. cbn [length] in *.
    destruct (GFPolynomial.coefficients p), (GFPolynomial.coefficients q);
      cbn [length] in *; lia.
Qed.

(** X11.  operator* on polynomials over a field built from a primitive
    polynomial: when an operand is the zero polynomial the product is the
    zero polynomial [0]; otherwise the product exists, its degree is the sum
    of the degrees and its leading coefficient is the nonzero product of the
    two leading coefficients. *)
Theorem product_degree_and_leading_coefficient (m poly : Z)
    (F : GF.GaloisField) (cs ds : list Z) :
  3 ≤ m ≤ 12 → primitive_polynomial m poly = true → GF.make m poly = Ok F →
  Forall (element m) cs → Forall (element m) ds →
  let p := GFPolynomial.make F cs in
  let q := GFPolynomial.make F ds in
  (GFPolynomial.is_zero p || GFPolynomial.is_zero q = true →
   GFPolynomial.mul p q = Ok (GFPolynomial.make F [0]))
  ∧ (GFPolynomial.is_zero p || GFPolynomial.is_zero q = false →
     ∃ r lead, GFPolynomial.mul p q = Ok r
               ∧ GFPolynomial.degree r
                 = GFPolynomial.degree p + GFPolynomial.degree q
               ∧ GF.multiply F (GFPolynomial.coeff p (GFPolynomial.degree p))
                               (GFPolynomial.coeff q (GFPolynomial.degree q))
                 = Ok lead
               ∧ GFPolynomial.coeff r (GFPolynomial.degree r) = lead
               ∧ lead ≠ 0).
Proof.
  intros Hm Hprim HF Hcs Hds p q.
  pose proof (make_valid_field m poly F Hm Hprim HF) as Hv.
  split.
  - intros Hz. unfold GFPolynomial.mul. now rewrite Hz.
  - intros Hz. apply orb_false_elim in Hz as [Hzp Hzq].
    pose proof (normalize_Forall m Hm cs Hcs) as Hncs.
    pose proof (normalize_Forall m Hm ds Hds) as Hnds.
    pose proof (normalize_nonempty cs) as Hnec.
    pose proof (normalize_nonempty ds) as Hned.
    assert (Hlast : ∀ l, GFPolynomial.is_zero (GFPolynomial.make F l) = false →
                         List.last (GFPolynomial.normalize l) 0 ≠ 0).
    { intros l Hzl.
      destruct (normalize_split l) as (z & [[Hn _] | (_ & _ & H)]); [|exact H].
      unfold GFPolynomial.is_zero, GFPolynomial.make in Hzl.
      cbn [GFPolynomial.coefficients] in Hzl. rewrite Hn in Hzl. discriminate. }
    pose proof (Hlast cs Hzp) as Hlc. pose proof (Hlast ds Hzq) as Hld.
    destruct (mul_leading m poly Hm Hprim F Hv _ _ Hncs Hnds Hnec Hned Hlc Hld)
      as (res & Hmul & Hlen & Hel & Hlead & Hnz).
    assert (Hdeg : ∀ l : list Z, l ≠ [] →
              GFPolynomial.degree (GFPolynomial.mk l F) = Z.of_nat (length l) - 1
              ∧ GFPolynomial.coeff (GFPolynomial.mk l F) (Z.of_nat (length l) - 1)
                = List.last l 0).
    { intros l Hl. unfold GFPolynomial.degree, size.
      cbn [GFPolynomial.coefficients].
      destruct l as [|x l']; [contradiction|]. split; [reflexivity|].
      rewrite coeff_Z. cbn [GFPolynomial.coefficients].
      destruct (Z.leb_spec 0 (Z.of_nat (length (x :: l')) - 1));
        [|cbn [length] in *; lia].
      rewrite last_nth_Z. f_equal. lia. }
    assert (Hresne : res ≠ []).
    { intros ->. cbn [length] in Hlen.
      destruct (GFPolynomial.normalize cs); [contradiction|].
      destruct (GFPolynomial.normalize ds); [contradiction|].
      cbn [length] in Hlen. lia. }
    destruct (Hdeg _ Hnec) as (Hdp & Hcp). destruct (Hdeg _ Hned) as (Hdq & Hcq).
    destruct (Hdeg _ Hresne) as (Hdr & Hcr).
    exists (GFPolynomial.mk res F), (List.last res 0).
    split; [exact Hmul|].
    unfold p, q, GFPolynomial.make.
    rewrite Hdp, Hdq, Hdr, Hcp, Hcq, Hcr.
    split; [|split; [|split; [reflexivity|exact Hnz]]].
    + destruct (GFPolynomial.normalize cs); [contradiction|].
      destruct (GFPolynomial.normalize ds); [contradiction|].
      cbn [length] in *. lia.
    + rewrite (multiply_gmul m poly Hm Hprim F Hv)
        by (apply (Forall_last_element m Hm); assumption).
      now rewrite Hlead.
Qed.

Lemma product_degree_and_leading_coefficient_witness :
  3 ≤ 4 ≤ 12 ∧ primitive_polynomial 4 0x13 = true ∧
  ∃ F, GF.make 4 0x13 = Ok F
    ∧ Forall (element 4) [1; 2; 3; 0] ∧ Forall (element 4) [2; 1]
    ∧ let p := GFPolynomial.make F [1; 2; 3; 0] in
      let q := GFPolynomial.make F [2; 1] in
      (GFPolynomial.is_zero p || GFPolynomial.is_zero q = true →
       GFPolynomial.mul p q = Ok (GFPolynomial.make F [0]))
      ∧ (GFPolynomial.is_zero p || GFPolynomial.is_zero q = false →
         ∃ r lead, GFPolynomial.mul p q = Ok r
                   ∧ GFPolynomial.degree r
                     = GFPolynomial.degree p + GFPolynomial.degree q
                   ∧ GF.multiply F (GFPolynomial.coeff p (GFPolynomial.degree p))
                                   (GFPolynomial.coeff q (GFPolynomial.degree q))
                     = Ok lead
                   ∧ GFPolynomial.coeff r (GFPolynomial.degree r) = lead
                   ∧ lead ≠ 0).
Proof.
  split; [lia|]. split; [vm_compute; reflexivity|].
  eexists. split; [vm_compute; reflexivity|].
  split; [repeat constructor; unfold element; lia|].
  split; [repeat constructor; unfold element; lia|].
  apply (product_degree_and_leading_coefficient 4 0x13 _ [1; 2; 3; 0] [2; 1]);
    [lia | vm_compute; reflexivity | vm_compute; reflexivity
    | repeat constructor; unfold element; lia
    | repeat constructor; unfold element; lia].
Defined.




(** * Further properties of the Reed-Solomon codec
      (reed_solomon.hpp) *)

Lemma rs_make_inv (m poly n k : Z) (c : RS.t) (F : GF.GaloisField) :
  GF.make m poly = Ok F → RS.make n k m poly = Ok c →
  ∃ g, RS.generate_polynomial n k F GF.get_primitive = Ok g
       ∧ c = RS.mk n k m F g GF.get_primitive.
Proof.
  intros HF Hmake. unfold RS.make in Hmake. rewrite HF in Hmake.
  cbn [mbind result_bind bind] in Hmake.
  destruct (RS.generate_polynomial n k F GF.get_primitive) as [g|] eqn:Eg;
    [|discriminate].
  cbn [mbind result_bind bind] in Hmake. injection Hmake as <-.
  exists g. split; reflexivity.
Qed.

(** X14.  The Reed-Solomon constructor, given a primitive polynomial and a
    geometry the template accepts, succeeds; the generator polynomial it
    stores is monic of degree n - k and evaluate returns 0 on it at each of
    the points alpha^1, ..., alpha^(n-k). *)
Theorem rs_generator_polynomial (m poly n k : Z) :
  3 ≤ m ≤ 12 → primitive_polynomial m poly = true →
  0 ≤ k → RS.requires n k m = true →
  ∃ c, RS.make n k m poly = Ok c
    ∧ RS.n c = n ∧ RS.k c = k ∧ RS.m c = m
    ∧ GF.make m poly = Ok (RS.field c)
    ∧ RS.primitive_element c = GF.primitive_element
    ∧ GFPolynomial.degree (RS.generator_poly c) = n - k
    ∧ GFPolynomial.coeff (RS.generator_poly c) (n - k) = 1
    ∧ ∀ i, 1 ≤ i ≤ n - k →
           ∃ r, GF.power (RS.field c) (RS.primitive_element c) i = Ok r
                ∧ GFPolynomial.evaluate (RS.generator_poly c) r = Ok 0.
Proof.
  intros Hm Hprim Hk Hreq.
  destruct (make_valid m poly Hm Hprim) as (F & HF & Hv).
  pose proof (rs_requires_geometry n k m Hm Hk Hreq) as Hgeom.
  pose proof (pow2_m_le_4096 m Hm) as H4096.
  destruct (rs_generate_polynomial_spec m poly Hm Hprim F Hv n k)
    as (g & Hg & Hel & Hlen & Hlast & Hroots); [lia|lia|].
  assert (Hne : g ≠ []) by (intros ->; cbn [length] in Hlen; lia).
  destruct (degree_mk F g Hne) as (Hdeg & Hlead).
  exists (RS.mk n k m F (GFPolynomial.mk g F) GF.get_primitive).
  split.
  { unfold RS.make. rewrite HF. cbn [mbind result_bind bind].
    unfold GF.get_primitive. rewrite Hg. reflexivity. }
  cbn [RS.n RS.k RS.m RS.field RS.primitive_element RS.generator_poly].
  split; [reflexivity|]. split; [reflexivity|]. split; [reflexivity|].
  split; [exact HF|]. split; [reflexivity|].
  split; [rewrite Hdeg, Hlen; lia|]. split.
  - rewrite <- Hlast, <- Hlead. f_equal. rewrite Hlen. lia.
  - intros i Hi. unfold GF.get_primitive.
    exists (gpow F GF.primitive_element (Z.to_nat i)).
    split; [apply (power_gpow m poly Hm Hprim F Hv);
            [apply (element_alpha m Hm)|lia]|].
    rewrite (evaluate_horner m poly Hm Hprim F Hv)
      by (auto; apply (gpow_range m poly Hm Hprim F Hv), (element_alpha m Hm)).
    now rewrite Hroots.
Qed.

Lemma rs_generator_polynomial_witness :
  3 ≤ 3 ≤ 12 ∧ primitive_polynomial 3 0x0B = true ∧ 0 ≤ 3
  ∧ RS.requires 7 3 3 = true
  ∧ ∃ c, RS.make 7 3 3 0x0B = Ok c
      ∧ RS.n c = 7 ∧ RS.k c = 3 ∧ RS.m c = 3
      ∧ GF.make 3 0x0B = Ok (RS.field c)
      ∧ RS.primitive_element c = GF.primitive_element
      ∧ GFPolynomial.degree (RS.generator_poly c) = 7 - 3
      ∧ GFPolynomial.coeff (RS.generator_poly c) (7 - 3) = 1
      ∧ ∀ i, 1 ≤ i ≤ 7 - 3 →
             ∃ r, GF.power (RS.field c) (RS.primitive_element c) i = Ok r
                  ∧ GFPolynomial.evaluate (RS.generator_poly c) r = Ok 0.
Proof.
  split; [lia|]. split; [vm_compute; reflexivity|]. split; [lia|].
  split; [reflexivity|].
  apply (rs_generator_polynomial 3 0x0B 7 3);
    [lia | vm_compute; reflexivity | lia | reflexivity].
Defined.

(** X16.  calculate_syndromes returns n - k values, and syndrome i is the
    value evaluate gives at alpha^(i+1) for the polynomial whose coefficient
    of x^j is received[j].  When all of them are 0, decode returns the first
    k symbols of the received word with success = true, no error counted and
    no position listed. *)
Theorem rs_syndromes_are_evaluations (m poly n k : Z) (c : RS.t)
    (received : list Z) :
  3 ≤ m ≤ 12 → primitive_polynomial m poly = true →
  0 ≤ k → RS.requires n k m = true →
  RS.make n k m poly = Ok c →
  length received = Z.to_nat n → Forall (element m) received →
  ∃ s, RS.calculate_syndromes c received = Ok s
    ∧ size s = n - k
    ∧ (∀ i, 0 ≤ i < n - k →
         ∃ x, GF.power (RS.field c) (RS.primitive_element c) (i + 1) = Ok x
              ∧ GFPolynomial.evaluate
                  (GFPolynomial.make (RS.field c) received) x
                = Ok (nth (Z.to_nat i) s 0))
    ∧ ((∀ i, 0 ≤ i < n - k → nth (Z.to_nat i) s 0 = 0) →
       RS.decode c received
       = Ok (RS.mkDecodeResult (take (Z.to_nat k) received) true 0 [])).
Proof.
  intros Hm Hprim Hk Hreq Hmake Hlen Hrec.
  destruct (make_valid m poly Hm Hprim) as (F & HF & Hv).
  destruct (rs_make_inv m poly n k c F HF Hmake) as (g & _ & ->).
  pose proof (rs_requires_geometry n k m Hm Hk Hreq) as Hgeom.
  pose proof (pow2_m_le_4096 m Hm) as H4096.
  set (c := RS.mk n k m F g GF.get_primitive).
  destruct (syndromes_values m poly Hm Hprim F Hv c eq_refl eq_refl Hgeom
              received Hlen Hrec) as (s & Hs & Hsl & Hvals).
  change (RS.n c) with n in Hsl. change (RS.k c) with k in Hsl.
  exists s. split; [exact Hs|]. unfold size.
  split; [lia|]. split.
  - intros i Hi. cbn [RS.field RS.primitive_element]. unfold GF.get_primitive.
    exists (gpow F GF.primitive_element (Z.to_nat (i + 1))).
    split; [apply (power_gpow m poly Hm Hprim F Hv);
            [apply (element_alpha m Hm)|lia]|].
    rewrite (evaluate_make m poly Hm Hprim F Hv)
      by (auto; apply (gpow_range m poly Hm Hprim F Hv), (element_alpha m Hm)).
    rewrite Hvals by lia. do 3 f_equal. lia.
  - intros Hzero.
    destruct (decode_total m poly Hm Hprim F Hv c eq_refl eq_refl Hgeom
                received Hlen Hrec) as (s' & Hs' & Hclean & _).
    rewrite Hs in Hs'. injection Hs' as <-.
    apply Hclean. apply not_true_is_false. intros Hex.
    apply existsb_exists in Hex as (x & Hx & Hnz).
    apply In_nth with (d := 0) in Hx as (i & Hi & <-).
    rewrite <- (Nat2Z.id i) in Hnz. rewrite Hzero in Hnz by lia. discriminate.
Qed.

Lemma rs_syndromes_are_evaluations_witness :
  3 ≤ 3 ≤ 12 ∧ primitive_polynomial 3 0x0B = true ∧ 0 ≤ 3
  ∧ RS.requires 7 3 3 = true
  ∧ ∃ c, RS.make 7 3 3 0x0B = Ok c
      ∧ length [1; 0; 2; 0; 0; 5; 0] = Z.to_nat 7
      ∧ Forall (element 3) [1; 0; 2; 0; 0; 5; 0]
      ∧ ∃ s, RS.calculate_syndromes c [1; 0; 2; 0; 0; 5; 0] = Ok s
          ∧ size s = 7 - 3
          ∧ (∀ i, 0 ≤ i < 7 - 3 →
               ∃ x, GF.power (RS.field c) (RS.primitive_element c) (i + 1) = Ok x
                    ∧ GFPolynomial.evaluate
                        (GFPolynomial.make (RS.field c) [1; 0; 2; 0; 0; 5; 0]) x
                      = Ok (nth (Z.to_nat i) s 0))
          ∧ ((∀ i, 0 ≤ i < 7 - 3 → nth (Z.to_nat i) s 0 = 0) →
             RS.decode c [1; 0; 2; 0; 0; 5; 0]
             = Ok (RS.mkDecodeResult (take (Z.to_nat 3) [1; 0; 2; 0; 0; 5; 0])
                                     true 0 [])).
Proof.
  split; [lia|]. split; [vm_compute; reflexivity|]. split; [lia|].
  split; [reflexivity|].
  eexists. split; [vm_compute; reflexivity|].
  split; [reflexivity|].
  split; [repeat constructor; unfold element; lia|].
  apply (rs_syndromes_are_evaluations 3 0x0B 7 3 _ [1; 0; 2; 0; 0; 5; 0]);
    [lia | vm_compute; reflexivity | lia | reflexivity | vm_compute; reflexivity
    | reflexivity | repeat constructor; unfold element; lia].
Defined.

(** X17.  decode returns a result on every word of n field elements, and the
    result is well formed: data has k field elements; the listed error
    positions lie in [0, n) and increase strictly; errors_corrected is their
    number and is at most t = (n - k) / 2.  When success is false the data
    word is all zeros and no position is listed.  When success is true a
    data symbol whose index is not a listed position is the received symbol,
    unchanged. *)
Theorem rs_decode_result_is_well_formed (m poly n k : Z) (c : RS.t)
    (received : list Z) :
  3 ≤ m ≤ 12 → primitive_polynomial m poly = true →
  0 ≤ k → RS.requires n k m = true →
  RS.make n k m poly = Ok c →
  length received = Z.to_nat n → Forall (element m) received →
  ∃ r, RS.decode c received = Ok r
    ∧ size (RS.data r) = k
    ∧ Forall (element m) (RS.data r)
    ∧ Forall (fun p => 0 ≤ p < n) (RS.error_positions r)
    ∧ StronglySorted Z.lt (RS.error_positions r)
    ∧ RS.errors_corrected r = size (RS.error_positions r)
    ∧ RS.errors_corrected r ≤ RS.error_correction_capability n k
    ∧ (RS.success r = false →
       RS.data r = replicate (Z.to_nat k) 0 ∧ RS.error_positions r = [])
    ∧ (RS.success r = true →
       ∀ i, 0 ≤ i < k → ¬ In i (RS.error_positions r) →
            nth (Z.to_nat i) (RS.data r) 0 = nth (Z.to_nat i) received 0).
Proof.
  intros Hm Hprim Hk Hreq Hmake Hlen Hrec.
  destruct (make_valid m poly Hm Hprim) as (F & HF & Hv).
  destruct (rs_make_inv m poly n k c F HF Hmake) as (g & _ & ->).
  pose proof (rs_requires_geometry n k m Hm Hk Hreq) as Hgeom.
  set (c := RS.mk n k m F g GF.get_primitive).
  destruct (decode_shape m poly Hm Hprim F Hv c eq_refl eq_refl Hgeom
              received Hlen Hrec)
    as (r & Hr & Hdl & Hdel & Hps & Hsorted & Hec & Hcap & Hfail & Hok).
  change (RS.n c) with n in *. change (RS.k c) with k in *.
  exists r. split; [exact Hr|]. unfold size in *.
  split; [lia|]. split; [exact Hdel|]. split; [exact Hps|].
  split; [exact Hsorted|]. split; [exact Hec|]. split; [exact Hcap|].
  split; [exact Hfail|].
  intros Hs i Hi Hnin. apply (Hok Hs); [lia|].
  now rewrite Z2Nat.id by lia.
Qed.

Lemma rs_decode_result_is_well_formed_witness :
  3 ≤ 3 ≤ 12 ∧ primitive_polynomial 3 0x0B = true ∧ 0 ≤ 3
  ∧ RS.requires 7 3 3 = true
  ∧ ∃ c, RS.make 7 3 3 0x0B = Ok c
      ∧ length [1; 0; 2; 0; 0; 5; 0] = Z.to_nat 7
      ∧ Forall (element 3) [1; 0; 2; 0; 0; 5; 0]
      ∧ ∃ r, RS.decode c [1; 0; 2; 0; 0; 5; 0] = Ok r
          ∧ size (RS.data r) = 3
          ∧ Forall (element 3) (RS.data r)
          ∧ Forall (fun p => 0 ≤ p < 7) (RS.error_positions r)
          ∧ StronglySorted Z.lt (RS.error_positions r)
          ∧ RS.errors_corrected r = size (RS.error_positions r)
          ∧ RS.errors_corrected r ≤ RS.error_correction_capability 7 3
          ∧ (RS.success r = false →
             RS.data r = replicate (Z.to_nat 3) 0 ∧ RS.error_positions r = [])
          ∧ (RS.success r = true →
             ∀ i, 0 ≤ i < 3 → ¬ In i (RS.error_positions r) →
                  nth (Z.to_nat i) (RS.data r) 0
                  = nth (Z.to_nat i) [1; 0; 2; 0; 0; 5; 0] 0).
Proof.
  split; [lia|]. split; [vm_compute; reflexivity|]. split; [lia|].
  split; [reflexivity|].
  eexists. split; [vm_compute; reflexivity|].
  split; [reflexivity|].
  split; [repeat constructor; unfold element; lia|].
  apply (rs_decode_result_is_well_formed 3 0x0B 7 3 _ [1; 0; 2; 0; 0; 5; 0]);
    [lia | vm_compute; reflexivity | lia | reflexivity | vm_compute; reflexivity
    | reflexivity | repeat constructor; unfold element; lia].
Defined.

(** X18.  The default constructor ReedSolomonCode() passes the polynomial
    get_default_primitive_poly() returns.  For every symbol size m in
    [3, 12] other than 8, 10 and 12 that is 0x3, the polynomial x + 1: the
    values build_tables stores in exp_table then leave [0, 2^m) and the
    second loop writes log_table outside its 2^m cells, so no codec is
    built. *)
Theorem rs_default_constructor_out_of_bounds (n k m : Z) :
  3 ≤ m ≤ 12 → m ≠ 8 → m ≠ 10 → m ≠ 12 →
  RS.get_default_primitive_poly m = 0x3
  ∧ GF.make m 0x3 = Throw out_of_bounds
  ∧ RS.make_default n k m = Throw out_of_bounds.
Proof.
  intros Hm H8 H10 H12.
  assert (Hc : m = 3 ∨ m = 4 ∨ m = 5 ∨ m = 6 ∨ m = 7 ∨ m = 9 ∨ m = 11) by lia.
  assert (Hmk : GF.make m 0x3 = Throw out_of_bounds).
  { destruct Hc as [->|[->|[->|[->|[->|[->| ->]]]]]]; vm_compute; reflexivity. }
  assert (Hp : RS.get_default_primitive_poly m = 0x3).
  { destruct Hc as [->|[->|[->|[->|[->|[->| ->]]]]]]; reflexivity. }
  split; [exact Hp|]. split; [exact Hmk|].
  unfold RS.make_default, RS.make. rewrite Hp, Hmk. reflexivity.
Qed.

Lemma rs_default_constructor_out_of_bounds_witness :
  3 ≤ 4 ≤ 12 ∧ 4 ≠ 8 ∧ 4 ≠ 10 ∧ 4 ≠ 12
  ∧ RS.get_default_primitive_poly 4 = 0x3
  ∧ GF.make 4 0x3 = Throw out_of_bounds
  ∧ RS.make_default 15 11 4 = Throw out_of_bounds.
Proof.
  split; [lia|]. split; [lia|]. split; [lia|]. split; [lia|].
  apply (rs_default_constructor_out_of_bounds 15 11 4); lia.
Defined.

(** X22.  encode returns on every data word of k field elements: the
    remainder loop of polynomial_mod ends within n turns and no field
    operation fails.  The word is the k data symbols followed by n - k parity
    symbols, the low coefficients of what polynomial_mod returns for
    x^(n-k) d(x) and the generator polynomial.  The polynomial with the
    parity symbols as its low coefficients and the data symbols as its high
    ones vanishes at alpha^1, ..., alpha^(n-k), and calculate_syndromes
    returns all zeros on the word parity ++ data, the two blocks in the
    reverse of the order encode stores them in. *)
Theorem rs_encode_systematic_remainder (m poly n k : Z) (c : RS.t)
    (data : list Z) :
  3 ≤ m ≤ 12 → primitive_polynomial m poly = true →
  0 ≤ k → RS.requires n k m = true →
  RS.make n k m poly = Ok c →
  length data = Z.to_nat k → Forall (element m) data →
  ∃ parity, RS.encode c data = Some (Ok (data ++ parity))
    ∧ length parity = Z.to_nat (n - k)
    ∧ Forall (element m) parity
    ∧ (∀ i, 1 ≤ i ≤ n - k →
         ∃ x, GF.power (RS.field c) (RS.primitive_element c) i = Ok x
              ∧ GFPolynomial.evaluate
                  (GFPolynomial.make (RS.field c) (parity ++ data)) x
                = Ok 0)
    ∧ RS.calculate_syndromes c (parity ++ data)
      = Ok (replicate (Z.to_nat (n - k)) 0).
Proof.
  intros Hm Hprim Hk Hreq Hmake Hlen Hdata.
  destruct (make_valid m poly Hm Hprim) as (F & HF & Hv).
  destruct (rs_make_inv m poly n k c F HF Hmake) as (g' & Hg' & ->).
  pose proof (rs_requires_geometry n k m Hm Hk Hreq) as Hgeom.
  pose proof (pow2_m_le_4096 m Hm) as H4096.
  destruct (rs_generate_polynomial_spec m poly Hm Hprim F Hv n k)
    as (g & Hg & Hel & Hglen & Hlast & Hroots); [lia|lia|].
  unfold GF.get_primitive in Hg'. rewrite Hg in Hg'. injection Hg' as <-.
  set (c := RS.mk n k m F (GFPolynomial.mk g F) GF.get_primitive).
  destruct (rs_encode_spec m poly Hm Hprim F Hv c eq_refl Hgeom g data
              eq_refl Hel Hglen Hlast Hroots Hlen Hdata)
    as (parity & Henc & Hpl & Hpar & Hzero).
  change (RS.n c) with n in *. change (RS.k c) with k in *.
  assert (Hw : Forall (element m) (parity ++ data))
    by (apply Forall_app; split; assumption).
  assert (Hwl : length (parity ++ data) = Z.to_nat n)
    by (rewrite length_app; lia).
  exists parity. split; [exact Henc|]. split; [exact Hpl|].
  split; [exact Hpar|]. split.
  - intros i Hi. cbn [RS.field RS.primitive_element]. unfold GF.get_primitive.
    exists (gpow F GF.primitive_element (Z.to_nat i)).
    split; [apply (power_gpow m poly Hm Hprim F Hv);
            [apply (element_alpha m Hm)|lia]|].
    rewrite (evaluate_make m poly Hm Hprim F Hv)
      by (auto; apply (gpow_range m poly Hm Hprim F Hv), (element_alpha m Hm)).
    now rewrite Hzero.
  - destruct (syndromes_values m poly Hm Hprim F Hv c eq_refl eq_refl Hgeom
                (parity ++ data) Hwl Hw) as (s & Hs & Hsl & Hvals).
    change (RS.n c) with n in *. change (RS.k c) with k in *.
    rewrite Hs. f_equal. apply (nth_ext _ _ 0 0).
    + now rewrite length_replicate.
    + intros i Hi. rewrite Hvals by exact Hi. rewrite nth_replicate_zero.
      rewrite <- (Nat2Z.id (S i)). apply Hzero. lia.
Qed.

Lemma rs_encode_systematic_remainder_witness :
  3 ≤ 3 ≤ 12 ∧ primitive_polynomial 3 0x0B = true ∧ 0 ≤ 3
  ∧ RS.requires 7 3 3 = true
  ∧ ∃ c, RS.make 7 3 3 0x0B = Ok c
      ∧ length [5; 0; 6] = Z.to_nat 3
      ∧ Forall (element 3) [5; 0; 6]
      ∧ ∃ parity, RS.encode c [5; 0; 6] = Some (Ok ([5; 0; 6] ++ parity))
          ∧ length parity = Z.to_nat (7 - 3)
          ∧ Forall (element 3) parity
          ∧ (∀ i, 1 ≤ i ≤ 7 - 3 →
               ∃ x, GF.power (RS.field c) (RS.primitive_element c) i = Ok x
                    ∧ GFPolynomial.evaluate
                        (GFPolynomial.make (RS.field c) (parity ++ [5; 0; 6])) x
                      = Ok 0)
          ∧ RS.calculate_syndromes c (parity ++ [5; 0; 6])
            = Ok (replicate (Z.to_nat (7 - 3)) 0).
Proof.
  split; [lia|]. split; [vm_compute; reflexivity|]. split; [lia|].
  split; [reflexivity|].
  eexists. split; [vm_compute; reflexivity|].
  split; [reflexivity|].
  split; [repeat constructor; unfold element; lia|].
  apply (rs_encode_systematic_remainder 3 0x0B 7 3 _ [5; 0; 6]);
    [lia | vm_compute; reflexivity | lia | reflexivity | vm_compute; reflexivity
    | reflexivity | repeat constructor; unfold element; lia].
Defined.

(** * Further properties of the Hamming codec (hamming_code.hpp)

    The statements hold for every pair (n, k) the concept
    ValidHammingParams accepts, that is n = 2^(n-k) - 1 > k.  The class
    shifts the 32-bit constant 1u by up to n - k places, so the codec
    theorems take n - k < 32, where the shifts are exact. *)

(** X19.  Round trip: for every valid (n, k) and every data word d of k
    bits, encode gives a word of n bits whose first k bits are d and whose
    syndrome is zero; decode_with_detection on it returns d, reports no
    error and the position n; decode returns d. *)
Theorem hamming_codec_round_trip (n k : nat) (d : list bool) :
  Hamming.ValidHammingParams n k = true → (n - k < 32)%nat → length d = k →
  let c := Hamming.make n k in
  length (Hamming.encode c d) = n
  ∧ take k (Hamming.encode c d) = d
  ∧ Hamming.calculate_syndrome c (Hamming.encode c d)
    = replicate (n - k) false
  ∧ Hamming.decode_with_detection c (Hamming.encode c d)
    = Hamming.mkDecodeResult d false n
  ∧ Hamming.decode c (Hamming.encode c d) = d.
Proof.
  intros Hv _ Hd c.
  destruct (hamming_params n k Hv) as (Hkn & _).
  destruct (encode_spec n k Hv d) as [Hlen He]. fold c in Hlen, He.
  split; [exact Hlen|]. split; [|split; [|split]].
  - apply (nth_ext _ _ false false).
    + rewrite length_take. lia.
    + intros i Hi. rewrite length_take in Hi.
      rewrite nth_firstn. destruct (Nat.ltb_spec i k); [|lia].
      rewrite He by lia. destruct (Nat.ltb_spec i k); [reflexivity|lia].
  - apply (syndrome_of_codeword n k Hv).
  - apply (round_trip_general n k Hv d Hd).
  - unfold c. rewrite (decode_is_data n k).
    now rewrite (round_trip_general n k Hv d Hd).
Qed.

Lemma hamming_codec_round_trip_witness :
  Hamming.ValidHammingParams 7 4 = true ∧ (7 - 4 < 32)%nat
  ∧ length [true; false; true; true] = 4%nat
  ∧ let c := Hamming.make 7 4 in
    let d := [true; false; true; true] in
    length (Hamming.encode c d) = 7%nat
    ∧ take 4 (Hamming.encode c d) = d
    ∧ Hamming.calculate_syndrome c (Hamming.encode c d)
      = replicate (7 - 4) false
    ∧ Hamming.decode_with_detection c (Hamming.encode c d)
      = Hamming.mkDecodeResult d false 7
    ∧ Hamming.decode c (Hamming.encode c d) = d.
Proof.
  split; [reflexivity|]. split; [cbn; lia|]. split; [reflexivity|].
  apply (hamming_codec_round_trip 7 4 [true; false; true; true]);
    [reflexivity | cbn; lia | reflexivity].
Defined.

(** X20.  One flipped bit, for every valid (n, k), data word d and position
    p < n.  The decoder always reports an error.  When p is a parity
    position (p >= k), or a data position with p + 1 not a power of two, it
    reports position p and returns d.  When p is a data position with
    p + 1 = 2^i, the syndrome is the one of parity position k + i, which the
    table keeps: the decoder reports k + i and returns d with bit p still
    flipped.  decode returns the same data word as decode_with_detection. *)
Theorem hamming_single_error_located (n k : nat) (d : list bool) (p : nat) :
  Hamming.ValidHammingParams n k = true → (n - k < 32)%nat →
  length d = k → (p < n)%nat →
  let c := Hamming.make n k in
  let received := Hamming.flip (Hamming.encode c d) p in
  let r := Hamming.decode_with_detection c received in
  ((k ≤ p)%nat ∨ (2 ^ Nat.log2 (p + 1))%nat ≠ (p + 1)%nat →
   r = Hamming.mkDecodeResult d true p)
  ∧ ((p < k)%nat ∧ (2 ^ Nat.log2 (p + 1))%nat = (p + 1)%nat →
     r = Hamming.mkDecodeResult (Hamming.flip d p) true
           (k + Nat.log2 (p + 1))%nat)
  ∧ Hamming.decode c received = Hamming.data r.
Proof.
  intros Hv _ Hd Hp c received r.
  pose proof (single_error_general n k Hv d p Hd Hp) as Hr.
  fold c in Hr. fold received in Hr. fold r in Hr.
  split; [|split].
  - intros Hcase. rewrite Hr. unfold located.
    destruct (Nat.ltb_spec p k) as [Hpk|Hpk]; cbn [andb].
    + destruct (Nat.eqb_spec (2 ^ Nat.log2 (p + 1)) (p + 1)) as [Heq|Hne].
      * destruct Hcase; [lia|contradiction].
      * now rewrite Nat.eqb_refl.
    + now rewrite Nat.eqb_refl.
  - intros [Hpk Hpow]. rewrite Hr. unfold located.
    destruct (Nat.ltb_spec p k); [|lia]. cbn [andb].
    destruct (Nat.eqb_spec (2 ^ Nat.log2 (p + 1)) (p + 1)); [|contradiction].
    destruct (Nat.eqb_spec (k + Nat.log2 (p + 1)) p); [lia|reflexivity].
  - apply (decode_is_data n k).
Qed.

Lemma hamming_single_error_located_witness :
  Hamming.ValidHammingParams 7 4 = true ∧ (7 - 4 < 32)%nat
  ∧ length [true; false; true; true] = 4%nat ∧ (3 < 7)%nat
  ∧ let c := Hamming.make 7 4 in
    let d := [true; false; true; true] in
    let received := Hamming.flip (Hamming.encode c d) 3 in
    let r := Hamming.decode_with_detection c received in
    ((4 ≤ 3)%nat ∨ (2 ^ Nat.log2 (3 + 1))%nat ≠ (3 + 1)%nat →
     r = Hamming.mkDecodeResult d true 3)
    ∧ ((3 < 4)%nat ∧ (2 ^ Nat.log2 (3 + 1))%nat = (3 + 1)%nat →
       r = Hamming.mkDecodeResult (Hamming.flip d 3) true
             (4 + Nat.log2 (3 + 1))%nat)
    ∧ Hamming.decode c received = Hamming.data r.
Proof.
  split; [reflexivity|]. split; [cbn; lia|]. split; [reflexivity|].
  split; [lia|].
  apply (hamming_single_error_located 7 4 [true; false; true; true] 3);
    [reflexivity | cbn; lia | reflexivity | lia].
Defined.

(** X21.  SECDEDHammingCode<n, k> requires ValidHammingParams<n, k> and
    derives from HammingCode<n + 1, k>, which requires
    ValidHammingParams<n + 1, k>.  No pair satisfies both: whenever the
    first constraint holds the second fails, so the class (and each of the
    SECDED aliases) cannot be instantiated.  (The concept computes
    1u << (n - k) in 32 bits; the unbounded shift used here accepts every
    pair the concept accepts.) *)
Theorem secded_base_class_is_never_valid (n k : nat) :
  Hamming.ValidHammingParams n k = true →
  Hamming.ValidHammingParams (n + 1) k = false.
Proof. apply valid_params_not_extended. Qed.

Lemma secded_base_class_is_never_valid_witness :
  Hamming.ValidHammingParams 7 4 = true
  ∧ Hamming.ValidHammingParams (7 + 1) 4 = false.
Proof.
  split; [reflexivity|].
  apply (secded_base_class_is_never_valid 7 4). reflexivity.
Defined.

(** X23.  The encoder is linear over GF(2): the codeword of the bitwise XOR
    of two data words is the bitwise XOR of their codewords, for every valid
    (n, k). *)
Theorem hamming_encode_is_linear (n k : nat) (d e : list bool) :
  Hamming.ValidHammingParams n k = true → (n - k < 32)%nat →
  length d = k → length e = k →
  let c := Hamming.make n k in
  Hamming.encode c (zip_with xorb d e)
  = zip_with xorb (Hamming.encode c d) (Hamming.encode c e).
Proof.
  intros Hv _ Hd He c. apply (encode_xor n k Hv d e Hd He).
Qed.

Lemma hamming_encode_is_linear_witness :
  Hamming.ValidHammingParams 7 4 = true ∧ (7 - 4 < 32)%nat
  ∧ length [true; false; true; true] = 4%nat
  ∧ length [false; false; true; false] = 4%nat
  ∧ let c := Hamming.make 7 4 in
    Hamming.encode c (zip_with xorb [true; false; true; true]
                                    [false; false; true; false])
    = zip_with xorb (Hamming.encode c [true; false; true; true])
                    (Hamming.encode c [false; false; true; false]).
Proof.
  split; [reflexivity|]. split; [cbn; lia|].
  split; [reflexivity|]. split; [reflexivity|].
  apply (hamming_encode_is_linear 7 4 [true; false; true; true]
                                      [false; false; true; false]);
    [reflexivity | cbn; lia | reflexivity | reflexivity].
Defined.

(** X24.  Two codewords at distance two.  For every valid (n, k), data word d
    and data position p with p + 1 = 2^i, flipping the bits p and k + i of
    encode(d) gives encode(d with bit p flipped): the syndrome of the doubly
    corrupted word is zero and decode_with_detection returns the changed
    data word with error_detected = false.  Position p = 0 always
    qualifies, so the code has minimum distance 2 although min_distance
    is 3 and get_error_detection_capability() returns 2. *)
Theorem hamming_double_error_undetected (n k : nat) (d : list bool) (p : nat) :
  Hamming.ValidHammingParams n k = true → (n - k < 32)%nat →
  length d = k → (p < k)%nat → (2 ^ Nat.log2 (p + 1))%nat = (p + 1)%nat →
  let c := Hamming.make n k in
  let q := (k + Nat.log2 (p + 1))%nat in
  let w := Hamming.flip (Hamming.flip (Hamming.encode c d) p) q in
  (p < q < n)%nat
  ∧ w = Hamming.encode c (Hamming.flip d p)
  ∧ Hamming.calculate_syndrome c w = replicate (n - k) false
  ∧ Hamming.decode_with_detection c w
    = Hamming.mkDecodeResult (Hamming.flip d p) false n
  ∧ Hamming.decode c w = Hamming.flip d p.
Proof.
  intros Hv _ Hd Hp Hpow c q w.
  destruct (encode_flip_pow2 n k Hv d p Hd Hp Hpow) as [Hq Hw].
  fold c in Hw. fold q in Hq, Hw. fold w in Hw.
  assert (Hlen : length (Hamming.flip d p) = k)
    by (unfold Hamming.flip, Hamming.bitset; now rewrite length_insert).
  split; [lia|]. split; [exact Hw|]. rewrite Hw.
  split; [apply (syndrome_of_codeword n k Hv)|]. split.
  - apply (round_trip_general n k Hv _ Hlen).
  - unfold c. rewrite (decode_is_data n k).
    now rewrite (round_trip_general n k Hv _ Hlen).
Qed.

Lemma hamming_double_error_undetected_witness :
  Hamming.ValidHammingParams 7 4 = true ∧ (7 - 4 < 32)%nat
  ∧ length [true; false; true; true] = 4%nat ∧ (1 < 4)%nat
  ∧ (2 ^ Nat.log2 (1 + 1))%nat = (1 + 1)%nat
  ∧ let c := Hamming.make 7 4 in
    let d := [true; false; true; true] in
    let q := (4 + Nat.log2 (1 + 1))%nat in
    let w := Hamming.flip (Hamming.flip (Hamming.encode c d) 1) q in
    (1 < q < 7)%nat
    ∧ w = Hamming.encode c (Hamming.flip d 1)
    ∧ Hamming.calculate_syndrome c w = replicate (7 - 4) false
    ∧ Hamming.decode_with_detection c w
      = Hamming.mkDecodeResult (Hamming.flip d 1) false 7
    ∧ Hamming.decode c w = Hamming.flip d 1.
Proof.
  split; [reflexivity|]. split; [cbn; lia|]. split; [reflexivity|].
  split; [lia|]. split; [reflexivity|].
  apply (hamming_double_error_undetected 7 4 [true; false; true; true] 1);
    [reflexivity | cbn; lia | reflexivity | lia | reflexivity].
Defined.

(** X28.  What decode_with_detection does with every received word w of n
    bits, by the value s = syndrome.to_ulong(), for every valid (n, k).
    s = 0: no error is reported and the data bits of w are returned.
    s = 2^i: the parity position k + i is reported and the data bits of w
    are returned unchanged.  1 <= s <= k and s not a power of two: the data
    position s - 1 is reported and that bit is flipped in the data
    returned.  s > k and s not a power of two: no table entry was written
    for s, so error_detected is false and the data bits of w are returned
    although the syndrome is not zero.  decode returns the same data. *)
Theorem hamming_decoder_by_syndrome (n k : nat) (w : list bool) :
  Hamming.ValidHammingParams n k = true → (n - k < 32)%nat → length w = n →
  let c := Hamming.make n k in
  let s := Hamming.to_ulong (Hamming.calculate_syndrome c w) in
  let r := Hamming.decode_with_detection c w in
  (s < 2 ^ (n - k))%nat
  ∧ (s = 0%nat → r = Hamming.mkDecodeResult (take k w) false n)
  ∧ (∀ i, (i < n - k)%nat → s = (2 ^ i)%nat →
          r = Hamming.mkDecodeResult (take k w) true (k + i))
  ∧ ((1 ≤ s ≤ k)%nat → (∀ i, s ≠ (2 ^ i)%nat) →
     r = Hamming.mkDecodeResult (Hamming.flip (take k w) (s - 1)) true (s - 1))
  ∧ ((k < s)%nat → (∀ i, s ≠ (2 ^ i)%nat) →
     r = Hamming.mkDecodeResult (take k w) false n)
  ∧ Hamming.decode c w = Hamming.data r.
Proof.
  intros Hv _ Hw c s r.
  destruct (decode_by_syndrome n k Hv w Hw) as [Hs Hr].
  fold c in Hr. fold s in Hs, Hr. fold r in Hr.
  split; [exact Hs|]. split; [|split; [|split; [|split]]].
  - intros H0. rewrite Hr, H0. reflexivity.
  - intros i Hi Hsi. rewrite Hr, Hsi.
    pose proof (Nat.pow_nonzero 2 i ltac:(lia)) as Hnz.
    destruct (Nat.eqb_spec (2 ^ i) 0); [lia|].
    rewrite Nat.log2_pow2 by lia. now rewrite Nat.eqb_refl.
  - intros Hsk Hnp. rewrite Hr.
    destruct (Nat.eqb_spec s 0); [lia|].
    destruct (Nat.eqb_spec (2 ^ Nat.log2 s) s) as [Hp|_];
      [exfalso; apply (Hnp (Nat.log2 s)); now symmetry|].
    destruct (Nat.leb_spec s k); [reflexivity|lia].
  - intros Hsk Hnp. rewrite Hr.
    destruct (Nat.eqb_spec s 0); [lia|].
    destruct (Nat.eqb_spec (2 ^ Nat.log2 s) s) as [Hp|_];
      [exfalso; apply (Hnp (Nat.log2 s)); now symmetry|].
    destruct (Nat.leb_spec s k); [lia|reflexivity].
  - apply (decode_is_data n k).
Qed.

Lemma hamming_decoder_by_syndrome_witness :
  Hamming.ValidHammingParams 7 4 = true ∧ (7 - 4 < 32)%nat
  ∧ length [true; false; true; true; true; false; true] = 7%nat
  ∧ let c := Hamming.make 7 4 in
    let w := [true; false; true; true; true; false; true] in
    let s := Hamming.to_ulong (Hamming.calculate_syndrome c w) in
    let r := Hamming.decode_with_detection c w in
    (s < 2 ^ (7 - 4))%nat
    ∧ (s = 0%nat → r = Hamming.mkDecodeResult (take 4 w) false 7)
    ∧ (∀ i, (i < 7 - 4)%nat → s = (2 ^ i)%nat →
            r = Hamming.mkDecodeResult (take 4 w) true (4 + i))
    ∧ ((1 ≤ s ≤ 4)%nat → (∀ i, s ≠ (2 ^ i)%nat) →
       r = Hamming.mkDecodeResult (Hamming.flip (take 4 w) (s - 1)) true (s - 1))
    ∧ ((4 < s)%nat → (∀ i, s ≠ (2 ^ i)%nat) →
       r = Hamming.mkDecodeResult (take 4 w) false 7)
    ∧ Hamming.decode c w = Hamming.data r.
Proof.
  split; [reflexivity|]. split; [cbn; lia|]. split; [reflexivity|].
  apply (hamming_decoder_by_syndrome 7 4
           [true; false; true; true; true; false; true]);
    [reflexivity | cbn; lia | reflexivity].
Defined.

(** * Further properties of the utilities (galois_field.cpp) *)

(** X26.  minimal_polynomial, on a field built from a primitive polynomial
    and any of its elements alpha: the loop that collects the conjugates
    ends within m turns, at the least d >= 1 with alpha^(2^d) = alpha, and
    the function returns the coefficient vector of the monic polynomial of
    degree d whose roots in the field are exactly the d conjugates
    alpha^(2^i), 0 <= i < d. *)
Theorem minimal_polynomial_roots_are_the_conjugates (m poly : Z)
    (F : GF.GaloisField) (alpha : Z) (fuel : nat) :
  3 ≤ m ≤ 12 → primitive_polynomial m poly = true → GF.make m poly = Ok F →
  element m alpha → (Z.to_nat m ≤ fuel)%nat →
  ∃ (p : list Z) (d : Z),
    galois_utils_poly.minimal_polynomial fuel F alpha = Some (Ok p)
    ∧ 1 ≤ d ≤ m
    ∧ size p = d + 1
    ∧ Forall (element m) p
    ∧ nth (Z.to_nat d) p 0 = 1
    ∧ GF.power F alpha (2 ^ d) = Ok alpha
    ∧ (∀ i, 1 ≤ i < d → GF.power F alpha (2 ^ i) ≠ Ok alpha)
    ∧ ∀ x, element m x →
           (GFPolynomial.evaluate (GFPolynomial.make F p) x = Ok 0
            ↔ ∃ i, 0 ≤ i < d ∧ GF.power F alpha (2 ^ i) = Ok x).
Proof.
  intros Hm Hprim HF Ha Hfuel.
  pose proof (make_valid_field m poly F Hm Hprim HF) as Hv.
  destruct (conjugates_loop m poly Hm Hprim F Hv alpha fuel Ha Hfuel)
    as (d & seen & Hd & Hrun & Hnd & Hper).
  set (cj := fun i : nat => gpow F alpha (2 ^ i)) in *.
  assert (Hcj : ∀ i, element m (cj i))
    by (intros i; now apply (gpow_range m poly Hm Hprim F Hv)).
  assert (Hpow : ∀ i, 0 ≤ i ≤ m →
            GF.power F alpha (2 ^ i) = Ok (cj (Z.to_nat i))).
  { intros i Hi.
    assert (2 ^ i ≤ 2 ^ 12) by (apply Z.pow_le_mono_r; lia).
    rewrite (power_gpow m poly Hm Hprim F Hv) by (auto; lia).
    unfold cj. do 2 f_equal.
    apply Nat2Z.inj. rewrite Nat2Z.inj_pow, !Z2Nat.id by lia. reflexivity. }
  assert (Hcs : Forall (element m) (map cj (seq 0 d)))
    by (apply Forall_map, Forall_forall; intros; apply Hcj).
  destruct (multiply_vectors_fold m poly Hm Hprim F Hv (map cj (seq 0 d)) [1])
    as (p & Hfold & Hel & Hlen & Hlast & Hroots);
    [exact Hcs|constructor; [apply (element_1 m Hm)|constructor]
    |discriminate|reflexivity|].
  rewrite length_map, length_seq in Hlen. cbn [length] in Hlen.
  exists p, (Z.of_nat d).
  split.
  { unfold galois_utils_poly.minimal_polynomial. rewrite Hrun. now rewrite Hfold. }
  split; [lia|]. split; [unfold size; lia|]. split; [exact Hel|].
  split.
  { rewrite Nat2Z.id. rewrite <- Hlast, last_nth_Z. f_equal. lia. }
  split.
  { rewrite Hpow by lia. rewrite Nat2Z.id. f_equal. exact Hper. }
  split.
  { intros i Hi. rewrite Hpow by lia. intros [= Heq].
    apply NoDup_ListNoDup in Hnd.
    assert (Z.to_nat i = 0%nat); [|lia].
    apply (proj1 (NoDup_nth (map cj (seq 0 d)) 0) Hnd).
    - rewrite length_map, length_seq. lia.
    - rewrite length_map, length_seq. lia.
    - rewrite !(nth_indep _ 0 (cj 0%nat))
        by (rewrite length_map, length_seq; lia).
      rewrite !map_nth, !seq_nth by lia. cbn [Nat.add].
      rewrite Heq. unfold cj. symmetry.
      apply (gpow_1 m poly Hm F Hv). }
  intros x Hx.
  rewrite (evaluate_make m poly Hm Hprim F Hv) by assumption.
  split.
  - intros [= H0]. apply (Hroots x Hx) in H0 as [H1 | Hin].
    + cbn [horner fold_right] in H1. rewrite gmul_0_l in H1. discriminate.
    + apply in_map_iff in Hin as (i & <- & Hi). apply in_seq in Hi.
      exists (Z.of_nat i). split; [lia|].
      rewrite Hpow by lia. now rewrite Nat2Z.id.
  - intros (i & Hi & Hp). rewrite Hpow in Hp by lia. injection Hp as <-.
    f_equal. apply (Hroots _ (Hcj _)). right.
    apply in_map_iff. exists (Z.to_nat i). split; [reflexivity|].
    apply in_seq. lia.
Qed.

Lemma minimal_polynomial_roots_are_the_conjugates_witness :
  3 ≤ 4 ≤ 12 ∧ primitive_polynomial 4 0x13 = true ∧
  ∃ F, GF.make 4 0x13 = Ok F ∧ element 4 6 ∧ (Z.to_nat 4 ≤ 4)%nat
    ∧ ∃ (p : list Z) (d : Z),
        galois_utils_poly.minimal_polynomial 4 F 6 = Some (Ok p)
        ∧ 1 ≤ d ≤ 4
        ∧ size p = d + 1
        ∧ Forall (element 4) p
        ∧ nth (Z.to_nat d) p 0 = 1
        ∧ GF.power F 6 (2 ^ d) = Ok 6
        ∧ (∀ i, 1 ≤ i < d → GF.power F 6 (2 ^ i) ≠ Ok 6)
        ∧ ∀ x, element 4 x →
               (GFPolynomial.evaluate (GFPolynomial.make F p) x = Ok 0
                ↔ ∃ i, 0 ≤ i < d ∧ GF.power F 6 (2 ^ i) = Ok x).
Proof.
  split; [lia|]. split; [vm_compute; reflexivity|].
  eexists. split; [vm_compute; reflexivity|].
  split; [unfold element; lia|]. split; [cbn; lia|].
  apply (minimal_polynomial_roots_are_the_conjugates 4 0x13 _ 6 4);
    [lia | vm_compute; reflexivity | vm_compute; reflexivity
    | unfold element; lia | cbn; lia].
Defined.
